(** * einsum: contraction-order optimisation and pairwise reduction

    A shallow embedding of [tensorflow/python/ops/special_math_ops.py]
    (the [einsum] family) and the properties proved about it.

    Conventions of the embedding.
    - Python semantics are those of CPython 3.7 and later: a [dict] iterates
      in insertion order, and a [list] never compares equal to a [range].
    - The iteration order of a Python [set] is unspecified; it is a parameter
      of the model (class [SetOrder]) and every theorem holds for each order.
    - A label string is a [list ascii]; a statically known shape of the
      optimiser is a [list Z]; a frozenset of operand positions is a strictly
      increasing [list nat].
    - numpy evaluates contraction costs in fixed-width arithmetic; the model
      computes them exactly in [Z], which agrees with numpy as long as the
      products stay exactly representable (below 2^53).
    - Exceptions are values of [exn]; a computation that may raise returns an
      [outcome]. *)

From Stdlib Require Import Ascii String.
From Stdlib Require Import List ZArith Lia Bool Arith.
From Stdlib Require Import Permutation Sorted.
Import ListNotations.

(* ================================================================== *)
(** * Part I: the program *)
(* ================================================================== *)

(** ** Exceptions and outcomes *)

(** The source raises [ValueError] with different messages; the
    constructors name the raise site.  [IndexError], [TypeError] and
    [AttributeError] are the interpreter's own. *)
Inductive exn : Type :=
| EquationSyntaxError                (* 'Indices have incorrect format' *)
| EquationArityError                 (* 'Got %d arguments for equation' *)
| ExcessEllipsisError                (* 'Unable to resolve ellipsis. Excess number found.' *)
| ShapeInferenceError                (* 'Unable to statically infer ellipsis axes.' *)
| EllipsisLengthError                (* 'Ellipses lengths do not match.' *)
| TooManyLabelsError                 (* 'Unable to resolve ellipsis, too many distinct labels.' *)
| StrayPeriodError                   (* 'period "." found outside of ellipsis' *)
| DuplicateAxisError (l : list ascii)(* 'Subscript not supported: an axis appears more than once' *)
| RankMismatchError (operand : nat)  (* 'Tensor t%d of rank %d does not match einsum reduction' *)
| InvalidEquationError               (* 'Invalid equation: %s' *)
| UnknownOutputAxisError             (* 'Unknown output axes: %s' *)
| InputRankError (operand : nat)     (* 'Input %d with axes %s has incorrect number of dimensions' *)
| DimensionMismatchError (ax : ascii)(* 'Dimension mismatch on axis: %s' *)
| InvalidStrategyError               (* 'invalid optimization strategy' *)
| UnknownRankError                   (* as_list() / len() of a shape of unknown rank *)
| IndexError
| TypeError
| AttributeError
| AssertionError
| OpError.                           (* raised inside an external tensor primitive *)

Inductive outcome (A : Type) : Type :=
| Ret (a : A)
| Raise (e : exn).
Arguments Ret {A} a.
Arguments Raise {A} e.

Definition bind {A B} (m : outcome A) (f : A -> outcome B) : outcome B :=
  match m with
  | Ret a => f a
  | Raise e => Raise e
  end.

Declare Scope outcome_scope.
Delimit Scope outcome_scope with outcome.
Notation "x <- m ;; k" := (bind m (fun x => k))
  (at level 61, m at next level, right associativity) : outcome_scope.
Notation "' p <- m ;; k" := (bind m (fun p => k))
  (at level 61, p pattern, m at next level, right associativity) : outcome_scope.
Open Scope outcome_scope.

Fixpoint mapM {A B} (f : A -> outcome B) (l : list A) : outcome (list B) :=
  match l with
  | [] => Ret []
  | a :: l' => b <- f a ;; bs <- mapM f l' ;; Ret (b :: bs)
  end.

(** ** Python lists *)

(** [l[i]]: raises [IndexError] out of range. *)
Definition index {A} (l : list A) (i : nat) : outcome A :=
  match nth_error l i with
  | Some a => Ret a
  | None => Raise IndexError
  end.

(** The list without its element at position [i]. *)
Fixpoint remove_at {A} (i : nat) (l : list A) : list A :=
  match l, i with
  | [], _ => []
  | _ :: l', O => l'
  | a :: l', S i' => a :: remove_at i' l'
  end.

(** [l.pop(i)] for a non-negative [i]: the element and the remaining list. *)
Definition pop {A} (l : list A) (i : nat) : outcome (A * list A) :=
  match nth_error l i with
  | Some a => Ret (a, remove_at i l)
  | None => Raise IndexError
  end.

(** [l.insert(i, a)]: a position past the end appends. *)
Definition insert_at {A} (i : nat) (a : A) (l : list A) : list A :=
  firstn i l ++ a :: skipn i l.

(** ** Labels and label sets *)

Definition label := ascii.
Definition labels := list ascii.

Definition mem (a : label) (s : labels) : bool := existsb (Ascii.eqb a) s.

(** A label's code point: Python orders one-character strings by it. *)
Definition code (a : label) : nat := nat_of_ascii a.

(** [set(s)]: the distinct labels of [s]. *)
Definition set_of (s : labels) : labels := nodup ascii_dec s.

(** [a & b], [a - b] on label sets. *)
Definition set_inter (a b : labels) : labels := filter (fun x => mem x b) a.
Definition set_diff (a b : labels) : labels := filter (fun x => negb (mem x b)) a.

(** ** The cost model shared by both optimisers

    Lines 677-697 and 753-770 of the source are the same code: contracting
    an operand with shape [d1] and labels [l1] with one with [d2] and [l2]. *)

(** [[x for x, f in zip(xs, flags) if f]] *)
Definition select {A} (xs : list A) (flags : list bool) : list A :=
  map fst (filter snd (combine xs flags)).

Definition common_indices (l1 l2 : labels) : labels :=
  set_inter (set_of l1) (set_of l2).

Definition contraction_indices (l1 l2 olabels : labels) : labels :=
  set_diff (common_indices l1 l2) (set_of olabels).

(** [m1[l]]: is [l1[l]] an index of the new tensor?  ([m2] for [l2]) *)
Definition m1 (l1 l2 olabels : labels) : list bool :=
  map (fun l => negb (mem l (contraction_indices l1 l2 olabels))) l1.
Definition m2 (l1 l2 : labels) : list bool :=
  map (fun l => negb (mem l (common_indices l1 l2))) l2.

Definition new_shape (d1 : list Z) (l1 : labels) (d2 : list Z) (l2 olabels : labels)
  : list Z :=
  select d1 (m1 l1 l2 olabels) ++ select d2 (m2 l1 l2).

Definition new_labels (l1 l2 olabels : labels) : labels :=
  select l1 (m1 l1 l2 olabels) ++ select l2 (m2 l1 l2).

(** [np.prod], as the exact product.  numpy multiplies in a machine
    integer and wraps around; the two agree on the sizes the statements
    about costs are made for ([positive_sizes], [volume] and [exact_bound]
    below). *)
Definition prod (d : list Z) : Z := fold_left Z.mul d 1%Z.

(** The cost of lines 695-696 and 769-770, with the same proviso. *)

Definition contraction_cost (d1 : list Z) (l1 : labels) (d2 : list Z) (l2 : labels) : Z :=
  (prod d1 * prod (select d2 (m2 l1 l2)))%Z.

(** ** Contraction sequences and their replay (lines 308-315 of [einsum]) *)

Definition step := (nat * nat)%type.

(** One iteration of the replay loop over a list of operands, [combine]
    standing for the contraction of the two popped operands. *)
Definition replay_step {A} (combine : A -> A -> outcome A) (live : list A) (s : step)
  : outcome (list A) :=
  let (j, k) := s in
  let (j, k) := if k <? j then (k, j) else (j, k) in
  '(t2, live1) <- pop live k ;;
  '(t1, live2) <- pop live1 j ;;
  t3 <- combine t1 t2 ;;
  Ret (t3 :: live2).

Fixpoint replay {A} (combine : A -> A -> outcome A) (live : list A) (sq : list step)
  : outcome (list A) :=
  match sq with
  | [] => Ret live
  | s :: sq' => live' <- replay_step combine live s ;; replay combine live' sq'
  end.

(** ** The greedy optimiser ([_einsum_optimize_greedy]) *)

(** The pairs [(j, k)], [j < k < n], in the order of the two nested loops. *)
Definition pairs (n : nat) : list step :=
  flat_map (fun j => map (fun k => (j, k)) (seq (S j) (n - S j))) (seq 0 (n - 1)).

(** [min_cost] is [np.inf] ([None]) or a cost; [cheapest_contraction] is
    [None] or [(j, k, new_shape, new_labels)]. *)
Definition candidate := (nat * nat * list Z * labels)%type.
Definition scan_state := (option Z * option candidate)%type.

Definition lt_inf (c : Z) (bound : option Z) : bool :=
  match bound with
  | None => true
  | Some b => (c <? b)%Z
  end.

Definition scan_pair (ishapes : list (list Z)) (ilabels : list labels) (olabels : labels)
           (st : scan_state) (jk : step) : outcome scan_state :=
  let (j, k) := jk in
  l1 <- index ilabels j ;;
  d1 <- index ishapes j ;;
  l2 <- index ilabels k ;;
  d2 <- index ishapes k ;;
  let cost := contraction_cost d1 l1 d2 l2 in
  if lt_inf cost (fst st)
  then Ret (Some cost, Some (j, k, new_shape d1 l1 d2 l2 olabels, new_labels l1 l2 olabels))
  else Ret st.

Fixpoint foldM {A B} (f : A -> B -> outcome A) (l : list B) (a : A) : outcome A :=
  match l with
  | [] => Ret a
  | b :: l' => a' <- f a b ;; foldM f l' a'
  end.

Definition greedy_scan (ishapes : list (list Z)) (ilabels : list labels) (olabels : labels)
  : outcome scan_state :=
  foldM (scan_pair ishapes ilabels olabels) (pairs (length ilabels)) (None, None).

(** One iteration of the [while] loop: the chosen pair and the new lists. *)
Definition greedy_step (ishapes : list (list Z)) (ilabels : list labels) (olabels : labels)
  : outcome (step * list (list Z) * list labels) :=
  st <- greedy_scan ishapes ilabels olabels ;;
  match snd st with
  | None => Raise TypeError            (* unpacking None *)
  | Some (j, k, d, l) =>
      '(_, s1) <- pop ishapes k ;;
      '(_, s2) <- pop s1 j ;;
      '(_, b1) <- pop ilabels k ;;
      '(_, b2) <- pop b1 j ;;
      Ret ((j, k), d :: s2, l :: b2)
  end.

(** The [while len(ishapes) > 1] loop; every iteration shortens [ishapes]
    by one, so [length ishapes] iterations are enough. *)
Fixpoint greedy_loop (fuel : nat) (ishapes : list (list Z)) (ilabels : list labels)
         (olabels : labels) (sq : list step) : outcome (list step) :=
  if length ishapes <=? 1 then Ret sq
  else match fuel with
       | O => Ret sq
       | S fuel' =>
           '(s, ishapes', ilabels') <- greedy_step ishapes ilabels olabels ;;
           greedy_loop fuel' ishapes' ilabels' olabels (sq ++ [s])
       end.

Definition _einsum_optimize_greedy (ishapes : list (list Z)) (ilabels : list labels)
           (olabels : labels) : outcome (list step) :=
  greedy_loop (length ishapes) ishapes ilabels olabels [].

(** *** What the greedy scan is expected to find *)

(** The row-major order of the scan. *)
Definition lex_lt (p q : step) : Prop :=
  fst p < fst q \/ (fst p = fst q /\ snd p < snd q).

(** The cost the scan computes for the pair of positions [(j, k)]. *)
Definition pair_cost (ishapes : list (list Z)) (ilabels : list labels) (p : step) : Z :=
  contraction_cost (nth (fst p) ishapes []) (nth (fst p) ilabels [])
                   (nth (snd p) ishapes []) (nth (snd p) ilabels []).

(** The operand that contracting the pair [(j, k)] produces. *)
Definition pair_shape (ishapes : list (list Z)) (ilabels : list labels) (olabels : labels)
           (p : step) : list Z :=
  new_shape (nth (fst p) ishapes []) (nth (fst p) ilabels [])
            (nth (snd p) ishapes []) (nth (snd p) ilabels []) olabels.

Definition pair_labels (ilabels : list labels) (olabels : labels) (p : step) : labels :=
  new_labels (nth (fst p) ilabels []) (nth (snd p) ilabels []) olabels.

Definition pair_candidate (ishapes : list (list Z)) (ilabels : list labels)
           (olabels : labels) (p : step) : candidate :=
  (fst p, snd p, pair_shape ishapes ilabels olabels p, pair_labels ilabels olabels p).

(** [(j, k)] is a cheapest pair of the live list, and the first such pair
    in row-major order. *)
Definition first_cheapest (ishapes : list (list Z)) (ilabels : list labels) (p : step)
  : Prop :=
  fst p < snd p < length ilabels /\
  (forall q, fst q < snd q < length ilabels ->
             (pair_cost ishapes ilabels p <= pair_cost ishapes ilabels q)%Z) /\
  (forall q, fst q < snd q < length ilabels -> lex_lt q p ->
             (pair_cost ishapes ilabels p < pair_cost ishapes ilabels q)%Z).

(** What the scan has found after a list of pairs: nothing cheaper than
    the bound it started with, or the first cheapest pair of the list. *)
Definition scanned (ishapes : list (list Z)) (ilabels : list labels) (olabels : labels)
           (st : scan_state) (ps : list step) (st' : scan_state) : Prop :=
  (st' = st /\ forall q, In q ps -> lt_inf (pair_cost ishapes ilabels q) (fst st) = false)
  \/ (exists ps1 p ps2,
        ps = ps1 ++ p :: ps2 /\
        st' = (Some (pair_cost ishapes ilabels p),
               Some (pair_candidate ishapes ilabels olabels p)) /\
        lt_inf (pair_cost ishapes ilabels p) (fst st) = true /\
        (forall q, In q ps1 ->
                   (pair_cost ishapes ilabels p < pair_cost ishapes ilabels q)%Z) /\
        (forall q, In q ps2 ->
                   (pair_cost ishapes ilabels p <= pair_cost ishapes ilabels q)%Z)).

(** The steps of a greedy run: every step is a first cheapest pair of the
    live list, whose two operands are replaced by their combination at the
    front; the run ends when one operand is left. *)
Inductive greedy_run (olabels : labels)
  : list (list Z) -> list labels -> list step -> Prop :=
| greedy_done ishapes ilabels :
    length ishapes <= 1 -> greedy_run olabels ishapes ilabels []
| greedy_more ishapes ilabels p sq :
    2 <= length ishapes ->
    first_cheapest ishapes ilabels p ->
    greedy_run olabels
               (pair_shape ishapes ilabels olabels p
                  :: remove_at (fst p) (remove_at (snd p) ishapes))
               (pair_labels ilabels olabels p
                  :: remove_at (fst p) (remove_at (snd p) ilabels))
               sq ->
    greedy_run olabels ishapes ilabels (p :: sq).

(** *** Well-formed contraction sequences *)

(** Every step names two distinct positions of the live list, which has
    [n] operands before the first step and one fewer after each. *)
Fixpoint valid_seq (n : nat) (sq : list step) : Prop :=
  match sq with
  | [] => True
  | (j, k) :: sq' => j <> k /\ j < n /\ k < n /\ valid_seq (n - 1) sq'
  end.

(** ** Python sets

    The order in which a [set] is iterated, and the element [set.pop()]
    returns, are not specified by the language.  The model takes them as
    parameters constrained only by what the language guarantees. *)
Class SetOrder : Type := {
  iter_nat : list nat -> list nat;
  iter_nat_perm : forall s, Permutation (iter_nat s) s;
  pop_nat : list nat -> nat;
  pop_nat_in : forall s, s <> [] -> In (pop_nat s) s;
  iter_label : labels -> labels;
  iter_label_perm : forall s, Permutation (iter_label s) s
}.

Definition mem_nat (a : nat) (s : list nat) : bool := existsb (Nat.eqb a) s.

(** ** Connected components of the contraction graph ([_find_subgraphs]) *)

Section Subgraphs.
Context {SO : SetOrder}.
Variable ilabels : list labels.
Variable olabels : labels.

(** [len((set(ilabels[x]) & set(ilabels[y])) - set(olabels)) > 0] *)
Definition adjacent (x y : nat) : bool :=
  match contraction_indices (nth x ilabels []) (nth y ilabels []) olabels with
  | [] => false
  | _ :: _ => true
  end.

(** The inner [while len(q) > 0] loop. *)
Fixpoint bfs (fuel : nat) (q g unused : list nat) : list nat * list nat :=
  match fuel with
  | O => (g, unused)
  | S fuel' =>
      match q with
      | [] => (g, unused)
      | x :: q' =>
          let n := filter (adjacent x) unused in
          bfs fuel' (q' ++ iter_nat n) (g ++ [x])
              (filter (fun y => negb (mem_nat y n)) unused)
      end
  end.

(** The outer [while len(unused) > 0] loop. *)
Fixpoint components (fuel : nat) (unused : list nat) (subgraphs : list (list nat))
  : list (list nat) :=
  match fuel with
  | O => subgraphs
  | S fuel' =>
      match unused with
      | [] => subgraphs
      | _ :: _ =>
          let x := pop_nat unused in
          let unused1 := filter (fun y => negb (y =? x)) unused in
          let (g, unused2) := bfs (S (length unused1)) [x] [] unused1 in
          components fuel' unused2 (subgraphs ++ [g])
      end
  end.

Definition _find_subgraphs : list (list nat) :=
  components (length ilabels) (seq 0 (length ilabels)) [].
End Subgraphs.

(** ** Contraction trees *)

Inductive ctree : Type :=
| Leaf (i : nat)
| Node (a b : ctree).

Fixpoint leaves (t : ctree) : list nat :=
  match t with
  | Leaf i => [i]
  | Node a b => leaves a ++ leaves b
  end.

Fixpoint nodes (t : ctree) : nat :=
  match t with
  | Leaf _ => 0
  | Node a b => S (nodes a + nodes b)
  end.

(** ** The dynamic-programming optimiser ([_einsum_optimize_dp_connected]) *)

(** A frozenset of positions: a strictly increasing list. *)
Definition key := list nat.

Fixpoint ins (x : nat) (s : key) : key :=
  match s with
  | [] => [x]
  | y :: s' => if x <? y then x :: s
               else if x =? y then s
               else y :: ins x s'
  end.

(** [s1 | s2] and [len(s1 & s2) == 0] *)
Definition union (s1 s2 : key) : key := fold_left (fun s x => ins x s) s2 s1.
Definition disjoint (s1 s2 : key) : bool := forallb (fun a => negb (mem_nat a s2)) s1.

Definition key_eqb (s1 s2 : key) : bool :=
  if list_eq_dec Nat.eq_dec s1 s2 then true else false.

(** [(shape, labels, cost, contraction)] *)
Record entry : Type := mkEntry {
  e_shape : list Z;
  e_labels : labels;
  e_cost : Z;
  e_tree : ctree
}.

(** A [dict] from frozensets to entries, in insertion order. *)
Definition dict := list (key * entry).

Fixpoint lookup (s : key) (d : dict) : option entry :=
  match d with
  | [] => None
  | (s', e) :: d' => if key_eqb s s' then Some e else lookup s d'
  end.

(** [d[s] = e]: an existing key keeps its place, a new one goes last. *)
Fixpoint dict_set (d : dict) (s : key) (e : entry) : dict :=
  match d with
  | [] => [(s, e)]
  | (s', e') :: d' => if key_eqb s s' then (s, e) :: d'
                      else (s', e') :: dict_set d' s e
  end.

(** [min(c, cost_limit)], [cost_limit = None] standing for [np.inf]. *)
Definition min_limit (c : Z) (cost_limit : option Z) : Z :=
  match cost_limit with
  | None => c
  | Some l => Z.min c l
  end.

Section DP.
Variable olabels : labels.
Variable cost_limit : option Z.

(** The body of the innermost loop, lines 672-700. *)
Definition dp_try (xm : dict) (p1 p2 : key * entry) : dict :=
  let (s1, en1) := p1 in
  let (s2, en2) := p2 in
  if disjoint s1 s2 then
    let s := union s1 s2 in
    let d1 := e_shape en1 in let l1 := e_labels en1 in
    let d2 := e_shape en2 in let l2 := e_labels en2 in
    match contraction_indices l1 l2 olabels with
    | [] => xm                                   (* ignore outer products *)
    | _ :: _ =>
        let total_cost := (contraction_cost d1 l1 d2 l2 + e_cost en1 + e_cost en2)%Z in
        let accept := match lookup s xm with
                      | None => true
                      | Some old => (total_cost <? min_limit (e_cost old) cost_limit)%Z
                      end in
        if accept
        then dict_set xm s (mkEntry (new_shape d1 l1 d2 l2 olabels)
                                    (new_labels l1 l2 olabels)
                                    total_cost
                                    (Node (e_tree en1) (e_tree en2)))
        else xm
    end
  else xm.

(** [x[m]] from [x[0..m-1]]: the loops over [k], [s1] and [s2]. *)
Definition dp_level (x : list dict) (m : nat) : dict :=
  fold_left
    (fun xm k =>
       fold_left
         (fun xm p1 => fold_left (fun xm p2 => dp_try xm p1 p2) (nth k x []) xm)
         (nth (m - k) x []) xm)
    (seq 1 (m / 2)) [].

(** The table [x]; [x[0]] is the ignored placeholder. *)
Definition dp_table (row1 : dict) (n : nat) : list dict :=
  fold_left (fun x m => x ++ [dp_level x m]) (seq 2 (n - 1)) [[]; row1].

Definition dp_row1 (ishapes : list (list Z)) (ilabels : list labels)
           (tensor_indices : list nat) : outcome dict :=
  mapM (fun j =>
          d <- index ishapes j ;;
          l <- index ilabels j ;;
          t <- index tensor_indices j ;;
          Ret ([j], mkEntry d l 0%Z (Leaf t)))
       (seq 0 (length ishapes)).

Definition _einsum_optimize_dp_connected (ishapes : list (list Z)) (ilabels : list labels)
           (tensor_indices : option (list nat)) : outcome ctree :=
  let n := length ishapes in
  let tensor_indices := match tensor_indices with
                        | None => seq 0 n
                        | Some g => g
                        end in
  row1 <- dp_row1 ishapes ilabels tensor_indices ;;
  match n with
  | O => Raise AttributeError                   (* x[0] is None *)
  | S _ =>
      match nth n (dp_table row1 n) [] with
      | [] => Raise IndexError                  (* list(x[n].keys())[0] *)
      | (_, e) :: _ => Ret (e_tree e)
      end
  end.
End DP.

(** ** Linearising a tree ([_tree_to_sequence]) *)

(** [max([0] + [j+1 for j, n in enumerate(t2) if n < t])] *)
Definition insert_pos (t2 : list nat) (t : nat) : nat :=
  fold_left Nat.max
            (map (fun jn => S (fst jn))
                 (filter (fun jn => snd jn <? t) (combine (seq 0 (length t2)) t2)))
            0.

Definition tuples_of (t : ctree) : list (ctree * ctree) :=
  match t with
  | Node a b => [(a, b)]
  | Leaf _ => []
  end.

Definition ints_of (t : ctree) : list nat :=
  match t with
  | Leaf i => [i]
  | Node _ _ => []
  end.

Fixpoint sort_nat_insert (x : nat) (l : list nat) : list nat :=
  match l with
  | [] => [x]
  | y :: l' => if y <=? x then y :: sort_nat_insert x l' else x :: l
  end.

(** [sorted] on a list of integers. *)
Definition sorted_nat (l : list nat) : list nat :=
  fold_left (fun acc x => sort_nat_insert x acc) l [].

(** The [for t in sorted(t2_new)] loop: the state is [(t2, seq_new)]. *)
Definition place_leaf (len_t1 : nat) (st : list nat * list nat) (t : nat)
  : list nat * list nat :=
  let (t2, seq_new) := st in
  let p := insert_pos t2 t in
  (insert_at p t t2, seq_new ++ [p + len_t1]).

(** A [seq_new] always has two components. *)
Definition as_step (seq_new : list nat) : step := (nth 0 seq_new 0, nth 1 seq_new 0).

(** One iteration of [while len(t1) > 0], for the popped tuple [x]. *)
Definition tree_step (x : ctree * ctree) (t1 : list (ctree * ctree)) (t2 : list nat)
  : list (ctree * ctree) * list nat * step :=
  let (a, b) := x in
  let t1_new := rev (tuples_of a ++ tuples_of b) in
  let t2_new := ints_of a ++ ints_of b in
  let t1' := t1_new ++ t1 in
  let (t2', seq_new) :=
    fold_left (place_leaf (length t1')) (sorted_nat t2_new) (t2, seq 0 (length t1_new)) in
  (t1', t2', as_step seq_new).

Fixpoint tree_loop (fuel : nat) (t1 : list (ctree * ctree)) (t2 : list nat) (sq : list step)
  : list step :=
  match fuel with
  | O => sq
  | S fuel' =>
      match t1 with
      | [] => sq
      | x :: t1r =>
          let '(t1', t2', s) := tree_step x t1r t2 in
          tree_loop fuel' t1' t2' (s :: sq)
      end
  end.

(** Each iteration consumes one internal node: [nodes contraction] iterations
    empty [t1]. *)
Definition _tree_to_sequence (contraction : ctree) : list step :=
  match contraction with
  | Leaf _ => []
  | Node a b => tree_loop (nodes contraction) [(a, b)] [] []
  end.

(** ** [_einsum_optimize_dp] and [einsum_optimize] *)

Definition _einsum_optimize_dp {SO : SetOrder} (ishapes : list (list Z))
           (ilabels : list labels) (olabels : labels) (cost_limit : option Z)
  : outcome (list step) :=
  c <- mapM (fun g =>
               ds <- mapM (index ishapes) g ;;
               ls <- mapM (index ilabels) g ;;
               _einsum_optimize_dp_connected olabels cost_limit ds ls (Some g))
            (_find_subgraphs ilabels olabels) ;;
  match c with
  | [] => Raise TypeError                  (* reduce() of an empty sequence *)
  | c0 :: cs => Ret (_tree_to_sequence (fold_left Node cs c0))
  end.

(** The values of the [optimize] keyword: a false value, [True], ['dp'],
    ['greedy'], or any other true value. *)
Inductive strategy : Type :=
| OptFalse
| OptTrue
| OptDP
| OptGreedy
| OptOther.

Definition einsum_optimize {SO : SetOrder} (ishapes : list (list Z))
           (ilabels : list labels) (olabels : labels)
           (optimize : strategy) (cost_limit : option Z) : outcome (list step) :=
  match optimize with
  | OptFalse => Ret (repeat (0, 1) (length ishapes - 1))
  | OptTrue | OptDP => _einsum_optimize_dp ishapes ilabels olabels cost_limit
  | OptGreedy => _einsum_optimize_greedy ishapes ilabels olabels
  | OptOther => Raise InvalidStrategyError
  end.

(** ** A concrete set order and test values *)

(** Sets iterated as they are represented; [pop] takes the first element. *)
#[export] Instance list_order : SetOrder.
Proof.
  refine {| iter_nat := fun s => s;
            pop_nat := fun s => hd 0 s;
            iter_label := fun s => s |}.
  - intros s. apply Permutation_refl.
  - intros [|a s] H; [congruence | left; reflexivity].
  - intros s. apply Permutation_refl.
Defined.

(** Sets iterated backwards; [pop] takes the last element. *)
Definition rev_order : SetOrder.
Proof.
  refine {| iter_nat := fun s => rev s;
            pop_nat := fun s => last s 0;
            iter_label := fun s => rev s |}.
  - intros s. apply Permutation_sym, Permutation_rev.
  - intros s H. destruct (exists_last H) as [l [a ->]].
    rewrite last_last. apply in_or_app. right. left. reflexivity.
  - intros s. apply Permutation_sym, Permutation_rev.
Defined.

Definition L (s : string) : labels := list_ascii_of_string s.

(** ** Python strings *)

Definition ch_space : ascii := " "%char.
Definition ch_comma : ascii := ","%char.
Definition ch_period : ascii := "."%char.
Definition ch_dash : ascii := "-"%char.
Definition ch_gt : ascii := ">"%char.
Definition ch_newline : ascii := "010"%char.

Definition labels_eqb (a b : labels) : bool :=
  if list_eq_dec ascii_dec a b then true else false.

(** [s.count(a)] *)
Definition count (a : label) (s : labels) : nat := count_occ ascii_dec s a.

(** [s.split(',')] *)
Fixpoint split_comma (s cur : labels) : list labels :=
  match s with
  | [] => [rev cur]
  | c :: s' => if Ascii.eqb c ch_comma then rev cur :: split_comma s' []
               else split_comma s' (c :: cur)
  end.

(** [s.split('...')]: the separators are found from the left. *)
Fixpoint split_ellipsis (s cur : labels) : list labels :=
  match s with
  | [] => [rev cur]
  | c :: s' =>
      match s' with
      | c2 :: c3 :: s3 =>
          if Ascii.eqb c ch_period && Ascii.eqb c2 ch_period && Ascii.eqb c3 ch_period
          then rev cur :: split_ellipsis s3 []
          else split_ellipsis s' (c :: cur)
      | _ => split_ellipsis s' (c :: cur)
      end
  end.

(** ['...' in s] and [s.replace('...', r)] *)
Definition has_ellipsis (s : labels) : bool := 1 <? length (split_ellipsis s []).

Fixpoint join (sep : labels) (parts : list labels) : labels :=
  match parts with
  | [] => []
  | [p] => p
  | p :: ps => p ++ sep ++ join sep ps
  end.

Definition replace_ellipsis (s r : labels) : labels := join r (split_ellipsis s []).

(** ['->' in s] *)
Fixpoint has_arrow (s : labels) : bool :=
  match s with
  | [] => false
  | c :: s' =>
      match s' with
      | c2 :: _ => (Ascii.eqb c ch_dash && Ascii.eqb c2 ch_gt) || has_arrow s'
      | [] => false
      end
  end.

Definition is_letter (c : ascii) : bool :=
  let n := nat_of_ascii c in
  ((65 <=? n) && (n <=? 90)) || ((97 <=? n) && (n <=? 122)).

(** [string.ascii_letters]: the lowercase letters, then the uppercase ones. *)
Definition ascii_letters : labels :=
  map ascii_of_nat (seq 97 26 ++ seq 65 26).

(** The longest prefix of [s] whose characters satisfy [p], and the rest. *)
Fixpoint span (p : ascii -> bool) (s : labels) : labels * labels :=
  match s with
  | [] => ([], [])
  | c :: s' => if p c then let (a, b) := span p s' in (c :: a, b) else ([], s)
  end.

(** [$] matches at the end of the string and before a final newline. *)
Definition at_end (s : labels) : bool :=
  match s with
  | [] => true
  | [c] => Ascii.eqb c ch_newline
  | _ => false
  end.

(** The regular expression of the source, matched against the whole
    equation: one or more letters, commas and periods (group 1), then
    optionally an arrow followed by letters and periods (group 2, [None]
    when it did not take part in the match). *)
Definition match_equation (equation : labels) : option (labels * option labels) :=
  let (g1, rest) :=
    span (fun c => is_letter c || Ascii.eqb c ch_comma || Ascii.eqb c ch_period) equation in
  match g1 with
  | [] => None
  | _ :: _ =>
      if at_end rest then Some (g1, None)
      else match rest with
           | c1 :: c2 :: rest' =>
               if Ascii.eqb c1 ch_dash && Ascii.eqb c2 ch_gt then
                 let (g2, rest'') :=
                   span (fun c => is_letter c || Ascii.eqb c ch_period) rest' in
                 if at_end rest'' then Some (g1, Some (c1 :: c2 :: g2)) else None
               else None
           | _ => None
           end
  end.

(** [sorted]: a stable insertion sort for the order [le]. *)
Fixpoint insert_by {A} (le : A -> A -> bool) (x : A) (l : list A) : list A :=
  match l with
  | [] => [x]
  | y :: l' => if le y x then y :: insert_by le x l' else x :: l
  end.

Definition sorted_by {A} (le : A -> A -> bool) (l : list A) : list A :=
  fold_left (fun acc x => insert_by le x acc) l [].

Definition label_le (a b : label) : bool := code a <=? code b.

(** [sorted(s)] for a string or a set of labels. *)
Definition sorted_labels (s : labels) : labels := sorted_by label_le s.

(** ** Static shapes *)

(** A dimension is an integer or [None]; a shape of unknown rank is [None]. *)
Definition dim := option Z.
Definition tensor_shape := option (list dim).

(** [shape.ndims] *)
Definition ndims (s : tensor_shape) : option nat := option_map (@length dim) s.

(** [shape.as_list()] *)
Definition as_list (s : tensor_shape) : outcome (list dim) :=
  match s with
  | Some l => Ret l
  | None => Raise UnknownRankError
  end.

(** ** [_einsum_parse_and_resolve_equation] *)

(** The loop that resolves the ellipsis of every input; the state is the
    resolved inputs so far and [ellipsis_axes]. *)
Fixpoint resolve_inputs (unused : labels) (axes : list labels) (shapes : list tensor_shape)
         (ellipsis_axes : labels) : outcome (list labels * labels) :=
  match axes with
  | [] => Ret ([], ellipsis_axes)
  | ax :: axes' =>
      if has_ellipsis ax then
        let parts := split_ellipsis ax [] in
        if negb (length parts =? 2) then Raise ExcessEllipsisError
        else
          sh <- index shapes 0 ;;
          match ndims sh with
          | None => Raise ShapeInferenceError
          | Some nd =>
              let explicit := length (concat parts) in
              if nd <? explicit then Raise EllipsisLengthError
              else
                let n := nd - explicit in
                if length unused <? n then Raise TooManyLabelsError
                else
                  let replace_axes := if 0 <? n then skipn (length unused - n) unused
                                      else [] in
                  let ellipsis_axes' :=
                    if length ellipsis_axes <? length replace_axes
                    then replace_axes else ellipsis_axes in
                  '(rs, e) <- resolve_inputs unused axes' (tl shapes) ellipsis_axes' ;;
                  Ret (replace_ellipsis ax replace_axes :: rs, e)
          end
      else
        '(rs, e) <- resolve_inputs unused axes' (tl shapes) ellipsis_axes ;;
        Ret (ax :: rs, e)
  end.

(** The output subscripts when the equation gives none. *)
Definition infer_output (input_axis_labels : list labels) (ellipsis_axes : labels) : labels :=
  let axis_labels := set_diff (set_of (concat input_axis_labels)) (set_of ellipsis_axes) in
  let counts := fun ax =>
    length (filter (fun c => Ascii.eqb c ax && negb (mem c ellipsis_axes))
                   (concat input_axis_labels)) in
  ellipsis_axes ++ sorted_labels (filter (fun ax => counts ax =? 1) axis_labels).

Definition _einsum_parse_and_resolve_equation (equation : labels)
           (input_shapes : list tensor_shape) : outcome (list labels * labels) :=
  let equation := filter (fun c => negb (Ascii.eqb c ch_space)) equation in
  match match_equation equation with
  | None => Raise EquationSyntaxError
  | Some (g1, g2) =>
      let input_axis_labels := split_comma g1 [] in
      let output_axis_labels := option_map (skipn 2) g2 in
      if negb (length input_shapes =? length input_axis_labels)
      then Raise EquationArityError
      else
        '(input_axis_labels, ellipsis_axes, output_axis_labels) <-
          (if has_ellipsis equation then
             let unused := filter (fun c => negb (mem c (concat input_axis_labels)))
                                  ascii_letters in
             '(ins, e) <- resolve_inputs unused input_axis_labels input_shapes [] ;;
             if existsb (mem ch_period) ins then Raise StrayPeriodError
             else match output_axis_labels with
                  | None => Ret (ins, e, None)
                  | Some o =>
                      let o' := replace_ellipsis o e in
                      if mem ch_period o' then Raise StrayPeriodError
                      else Ret (ins, e, Some o')
                  end
           else Ret (input_axis_labels, [], output_axis_labels)) ;;
        match output_axis_labels with
        | Some o => Ret (input_axis_labels, o)
        | None => Ret (input_axis_labels, infer_output input_axis_labels ellipsis_axes)
        end
  end.

(** ** The tensor primitives

    The tensors and the primitives that build them ([array_ops],
    [math_ops], [gen_xla_ops]) are external to the file: the model takes
    them as operations of an arbitrary tensor type.  A primitive builds a
    tensor; a failure inside a primitive is outside the model, so that a
    statement about a call that reaches a primitive is made for operands on
    which the primitive is defined (a rank that is the number of the
    labels). *)

(** A dimension as [_get_shape] returns it: a Python integer, or a scalar
    tensor holding a size known only at run time. *)
Inductive sdim (T : Type) : Type :=
| DInt (z : Z)
| DTensor (t : T).
Arguments DInt {T} z.
Arguments DTensor {T} t.

Class TensorOps (T : Type) : Type := {
  get_shape : T -> tensor_shape;              (* tensor.get_shape() *)
  shape_at : T -> nat -> T;                   (* array_ops.shape(tensor)[i] *)
  constant : Z -> T;                          (* a Python integer as a tensor *)
  transpose : T -> list Z -> T;               (* array_ops.transpose(tensor, perm) *)
  reshape : T -> list (sdim T) -> T;          (* array_ops.reshape(tensor, shape) *)
  expand_dims : T -> Z -> T;                  (* array_ops.expand_dims(tensor, axis) *)
  multiply : T -> T -> T;                     (* math_ops.multiply, and [*] *)
  matmul : T -> T -> T;                       (* math_ops.matmul *)
  reduce_sum : T -> list nat -> T;            (* math_ops.reduce_sum(tensor, axis) *)
  trace : T -> T;                             (* math_ops.trace *)
  xla_einsum : T -> T -> labels -> T          (* gen_xla_ops.xla_einsum *)
}.

Section Executor.
Context {T : Type} {ops : TensorOps T}.

(** [_transpose_if_necessary]: [perm != range(len(perm))] compares a list
    with a range object, which are never equal: the transposition is
    always built. *)
Definition _transpose_if_necessary (tensor : T) (perm : list Z) : T :=
  transpose tensor perm.

(** [d0 == d1 or d1 == -1], for a static dimension [d0] and an entry [d1] of
    the requested shape; an integer never equals a tensor. *)
Definition dim_compatible (d0 : dim) (d1 : sdim T) : bool :=
  match d1 with
  | DInt z => (match d0 with Some z0 => (z0 =? z)%Z | None => false end) || (z =? -1)%Z
  | DTensor _ => false
  end.

(** [_reshape_if_necessary]; the shapes this file passes hold no [None]. *)
Definition _reshape_if_necessary (tensor : T) (new_shape : list (sdim T)) : outcome T :=
  match get_shape tensor with
  | None => Raise TypeError                    (* get_shape().dims is None *)
  | Some cur_shape =>
      if (length new_shape =? length cur_shape)
         && forallb (fun p => dim_compatible (fst p) (snd p)) (combine cur_shape new_shape)
      then Ret tensor
      else Ret (reshape tensor new_shape)
  end.

(** [_get_shape]: unknown dimensions are replaced by the queried ones. *)
Definition _get_shape (tensor : T) : outcome (list (sdim T)) :=
  shape <- as_list (get_shape tensor) ;;
  Ret (map (fun id => match snd id with
                      | Some z => DInt z
                      | None => DTensor (shape_at tensor (fst id))
                      end)
           (combine (seq 0 (length shape)) shape)).

(** [a * b] on integers and tensors. *)
Definition sdim_mul (a b : sdim T) : sdim T :=
  match a, b with
  | DInt x, DInt y => DInt (x * y)
  | DInt x, DTensor t => DTensor (multiply (constant x) t)
  | DTensor t, DInt y => DTensor (multiply t (constant y))
  | DTensor s, DTensor t => DTensor (multiply s t)
  end.

Definition _total_size (shape_values : list (sdim T)) : sdim T :=
  fold_left sdim_mul shape_values (DInt 1).

(** [s.find(a)]: the first position of [a], or -1. *)
Fixpoint find_from (a : label) (s : labels) (i : Z) : Z :=
  match s with
  | [] => (-1)%Z
  | c :: s' => if Ascii.eqb c a then i else find_from a s' (i + 1)%Z
  end.

Definition find (a : label) (s : labels) : Z := find_from a s 0%Z.

(** [sort_key]: the class of an axis, preserved axes first; within a class
    the axes are ordered by their label. *)
Definition sort_class (preserved_axes broadcast0 axes_to_sum : labels)
           (input_index : nat) (a : label) : nat :=
  if mem a preserved_axes then 0
  else if ((input_index =? 0) && mem a broadcast0)
          || ((input_index =? 1) && mem a axes_to_sum) then 1
  else 2.

Definition key_le (cls : label -> nat) (a b : label) : bool :=
  (cls a <? cls b) || ((cls a =? cls b) && (code a <=? code b)).

(** [l[a:b]] for non-negative [a] and [b]. *)
Definition slice {A} (l : list A) (a b : nat) : list A := firstn (b - a) (skipn a l).

(** [l[v:]] for an integer [v]: a negative [v] counts from the end. *)
Definition from_index {A} (l : list A) (v : Z) : list A :=
  if (v <? 0)%Z then skipn (Z.to_nat (Z.of_nat (length l) + v)) l
  else skipn (Z.to_nat v) l.

Fixpoint iterate {A} (n : nat) (f : A -> A) (a : A) : A :=
  match n with
  | O => a
  | S n' => iterate n' f (f a)
  end.

(** [_einsum_reduction]; [axes_to_sum] is a set of labels. *)
Definition _einsum_reduction (t0 : T) (t0_axis_labels : labels)
           (t1 : T) (t1_axis_labels : labels) (axes_to_sum : labels)
  : outcome (T * labels) :=
  s0 <- as_list (get_shape t0) ;;
  if negb (length t0_axis_labels =? length s0) then Raise (RankMismatchError 0) else
  s1 <- as_list (get_shape t1) ;;
  if negb (length t1_axis_labels =? length s1) then Raise (RankMismatchError 1) else
  if negb (forallb (fun a => mem a t0_axis_labels && mem a t1_axis_labels) axes_to_sum)
  then Raise AssertionError else
  let preserved_axes :=
    set_diff (set_inter (set_of t0_axis_labels) (set_of t1_axis_labels)) axes_to_sum in
  let broadcast_axes := fun sym_list =>
    set_diff (set_diff (set_of sym_list) preserved_axes) axes_to_sum in
  let b0 := broadcast_axes t0_axis_labels in
  let b1 := broadcast_axes t1_axis_labels in
  let sorted_axes := fun i sym_list =>
    sorted_by (key_le (sort_class preserved_axes b0 axes_to_sum i)) sym_list in
  let sorted0 := sorted_axes 0 t0_axis_labels in
  let sorted1 := sorted_axes 1 t1_axis_labels in
  let t0 := _transpose_if_necessary t0 (map (fun a => find a t0_axis_labels) sorted0) in
  let t1 := _transpose_if_necessary t1 (map (fun a => find a t1_axis_labels) sorted1) in
  let np := length preserved_axes in
  let ns := length axes_to_sum in
  match axes_to_sum with
  | [] =>
      let t0 := iterate (length b1) (fun t => expand_dims t (-1)) t0 in
      let t1 := iterate (length b0) (fun t => expand_dims t (Z.of_nat np)) t1 in
      Ret (multiply t0 t1, sorted0 ++ skipn np sorted1)
  | _ :: _ =>
      t0_shape <- _get_shape t0 ;;
      let num_broadcast_elements_t0 :=
        _total_size (slice t0_shape np (length t0_shape - ns)) in
      let num_summed_elements := _total_size (skipn (length t0_shape - ns) t0_shape) in
      t0 <- _reshape_if_necessary
              t0 (firstn np t0_shape ++ [num_broadcast_elements_t0; num_summed_elements]) ;;
      t1_shape <- _get_shape t1 ;;
      let num_broadcast_elements_t1 := _total_size (skipn (np + ns) t1_shape) in
      t1 <- _reshape_if_necessary
              t1 (firstn np t1_shape ++ [num_summed_elements; num_broadcast_elements_t1]) ;;
      let product := matmul t0 t1 in
      let uncompacted_shape :=
        firstn (np + length b0) t0_shape
        ++ from_index t1_shape (Z.of_nat (length t1_shape) - Z.of_nat (length b1)) in
      product <- _reshape_if_necessary product uncompacted_shape ;;
      Ret (product,
           firstn (np + length b0) sorted0
           ++ from_index sorted1 (Z.of_nat (length sorted1) - Z.of_nat (length b1)))
  end.
End Executor.

(** ** The exponential-space fallback ([_exponential_space_einsum]) *)

(** [axis_order], a dict from labels to positions, in insertion order. *)
Definition axis_dict := list (label * nat).

Fixpoint axis_get (d : axis_dict) (a : label) : option nat :=
  match d with
  | [] => None
  | (b, n) :: d' => if Ascii.eqb a b then Some n else axis_get d' a
  end.

Fixpoint axis_set (d : axis_dict) (a : label) (n : nat) : axis_dict :=
  match d with
  | [] => [(a, n)]
  | (b, m) :: d' => if Ascii.eqb a b then (b, n) :: d' else (b, m) :: axis_set d' a n
  end.

(** [axis_order[ax] = len(axis_order)] *)
Definition axis_add (d : axis_dict) (ax : label) : axis_dict := axis_set d ax (length d).

(** The two loops that fill [axis_order]. *)
Definition axis_order_of (idx_in : list labels) (idx_out : labels) : axis_dict :=
  let indices := sorted_labels (set_of (concat idx_in ++ idx_out)) in
  let d := fold_left (fun d ax => if mem ax idx_out then d else axis_add d ax) indices [] in
  fold_left axis_add idx_out d.

(** The order of [axis_order.get]: [None] before every position. *)
Definition axis_le (d : axis_dict) (a b : label) : bool :=
  match axis_get d a, axis_get d b with
  | None, _ => true
  | Some _, None => false
  | Some x, Some y => x <=? y
  end.

(** [sorted(s, key=axis_order.get)] *)
Definition sorted_by_axis (d : axis_dict) (s : labels) : labels := sorted_by (axis_le d) s.

(** All axes in the canonical order: [sorted(idx_all, key=axis_order.get)]. *)
Definition canonical_axes (idx_in : list labels) (idx_out : labels) : labels :=
  sorted_by_axis (axis_order_of idx_in idx_out) (set_of (concat idx_in ++ idx_out)).

(** [reduction_idx] *)
Definition reduction_idx_of (idx_in : list labels) (idx_out : labels) : list nat :=
  map fst (filter (fun ja => negb (mem (snd ja) idx_out))
                  (combine (seq 0 (length (canonical_axes idx_in idx_out)))
                           (canonical_axes idx_in idx_out))).

(** [[dim if dim else -1 for dim in shape]]: [None] and [0] become -1. *)
Definition reshape_dim (d : dim) : Z :=
  match d with
  | Some z => if (z =? 0)%Z then (-1)%Z else z
  | None => (-1)%Z
  end.

(** The validation loop for one axis [ax] at position [j]: every shape gets
    a 1 inserted where its operand lacks the axis; the sizes above 1 of the
    operands that have it are collected. *)
Fixpoint expand_axis (j : nat) (ax : label) (idx_in : list labels) (shapes : list (list Z))
  : outcome (list (list Z) * list Z) :=
  match idx_in, shapes with
  | idx :: idx_in', shape :: shapes' =>
      if mem ax idx then
        dm <- index shape j ;;
        '(rest, dims) <- expand_axis j ax idx_in' shapes' ;;
        Ret (shape :: rest, if (1 <? dm)%Z then dm :: dims else dims)
      else
        '(rest, dims) <- expand_axis j ax idx_in' shapes' ;;
        Ret (insert_at j 1%Z shape :: rest, dims)
  | [], _ => Ret (shapes, [])
  | _ :: _, [] => Raise IndexError
  end.

Definition all_equal (dims : list Z) : bool :=
  match dims with
  | [] => true
  | d :: ds => forallb (Z.eqb d) ds
  end.

Fixpoint expand_axes (j : nat) (axes : labels) (idx_in : list labels)
         (shapes : list (list Z)) : outcome (list (list Z)) :=
  match axes with
  | [] => Ret shapes
  | ax :: axes' =>
      '(shapes', dims) <- expand_axis j ax idx_in shapes ;;
      if negb (all_equal dims) then Raise (DimensionMismatchError ax)
      else expand_axes (S j) axes' idx_in shapes'
  end.

Section Fallback.
Context {T : Type} {ops : TensorOps T}.

(** The loop that transposes the inputs into the canonical order. *)
Fixpoint transpose_inputs (d : axis_dict) (i : nat) (inputs : list T) (idx_in : list labels)
  : outcome (list T * list labels) :=
  match inputs, idx_in with
  | input_ :: inputs', axes_ :: idx_in' =>
      match ndims (get_shape input_) with
      | None => Raise TypeError                (* the message formats [None] with %d *)
      | Some nd =>
          if negb (nd =? length axes_) then Raise (InputRankError i)
          else
            let sorted_idx := sorted_by_axis d axes_ in
            if negb (length (set_of axes_) =? length axes_)
            then Raise (DuplicateAxisError axes_)
            else
              '(ts, ls) <- transpose_inputs d (S i) inputs' idx_in' ;;
              if labels_eqb axes_ sorted_idx then Ret (input_ :: ts, axes_ :: ls)
              else Ret (transpose input_ (map (fun ax => find ax axes_) sorted_idx) :: ts,
                        sorted_idx :: ls)
      end
  | _, _ => Ret ([], [])
  end.

Definition _exponential_space_einsum (equation : labels) (inputs : list T) : outcome T :=
  '(idx_in, idx_out) <-
     _einsum_parse_and_resolve_equation equation (map get_shape inputs) ;;
  (* [missing_idx] is empty: [idx_all] contains [idx_out] *)
  let d := axis_order_of idx_in idx_out in
  '(inputs, idx_in') <- transpose_inputs d 0 inputs idx_in ;;
  shapes <- mapM (fun t => s <- as_list (get_shape t) ;; Ret (map reshape_dim s)) inputs ;;
  shapes <- expand_axes 0 (canonical_axes idx_in idx_out) idx_in' shapes ;;
  let expanded_inputs :=
    map (fun ts => reshape (fst ts) (map DInt (snd ts))) (combine inputs shapes) in
  let expanded_output := fold_left multiply expanded_inputs (constant 1) in
  Ret (reduce_sum expanded_output (reduction_idx_of idx_in idx_out)).
End Fallback.

(** ** [einsum] *)

(** [any(None in i.shape.as_list() for i in inputs)]: the inputs after the
    first one with an unknown dimension are not looked at. *)
Definition is_unknown (d : dim) : bool :=
  match d with
  | None => true
  | Some _ => false
  end.

Fixpoint any_unknown_dim (shapes : list tensor_shape) : outcome bool :=
  match shapes with
  | [] => Ret false
  | s :: shapes' =>
      l <- as_list s ;;
      if existsb is_unknown l then Ret true else any_unknown_dim shapes'
  end.

(** What the loop over the duplicated labels decides. *)
Inductive dup_decision : Type :=
| DupNone
| DupTrace
| DupRaise (input_labels : labels).

(** The inner loop, lines 276-283, for one label [a]. *)
Fixpoint dup_check_label (single no_arrow : bool) (a : label) (ins : list labels)
  : dup_decision :=
  match ins with
  | [] => DupNone
  | input_labels :: ins' =>
      if single && (count a input_labels =? 2)
         && labels_eqb input_labels (rev input_labels) && no_arrow
      then DupTrace
      else if 1 <? count a input_labels then DupRaise input_labels
      else dup_check_label single no_arrow a ins'
  end.

(** The outer loop, over the labels in the order the set yields them. *)
Fixpoint dup_check (single no_arrow : bool) (axis_labels : labels) (ins : list labels)
  : dup_decision :=
  match axis_labels with
  | [] => DupNone
  | a :: rest =>
      match dup_check_label single no_arrow a ins with
      | DupNone => dup_check single no_arrow rest ins
      | decision => decision
      end
  end.

(** [sum(1 for s in input_axis_labels if a in s)] *)
Definition input_count (a : label) (ins : list labels) : nat :=
  length (filter (mem a) ins).

(** The first label, in the order the set yields them, that sends the call
    to the fallback (lines 284-290). *)
Definition fallback_label (axis_labels : labels) (ins : list labels) (out : labels)
  : option label :=
  List.find (fun a => (2 <? input_count a ins) && negb (mem a out)) axis_labels.

(** [s.index(a)]: raises when [a] is absent. *)
Definition str_index (a : label) (s : labels) : outcome Z :=
  if mem a s then Ret (find a s) else Raise InvalidEquationError.

(** A dimension for the optimiser.  Unknown dimensions only reach
    [einsum_optimize] with [optimize = False], which reads nothing but the
    number of shapes. *)
Definition known_dim (d : dim) : Z :=
  match d with
  | Some z => z
  | None => 0%Z
  end.

Section Einsum.
Context {SO : SetOrder} {T : Type} {ops : TensorOps T}.

(** One iteration of the loop of pairwise reductions, lines 308-315. *)
Definition reduce_step (out : labels) (st : list T * list labels) (jk : step)
  : outcome (list T * list labels) :=
  let (inputs, input_axis_labels) := st in
  let (j, k) := jk in
  let (j, k) := if k <? j then (k, j) else (j, k) in
  '(t2, inputs) <- pop inputs k ;;
  '(l2, input_axis_labels) <- pop input_axis_labels k ;;
  '(t1, inputs) <- pop inputs j ;;
  '(l1, input_axis_labels) <- pop input_axis_labels j ;;
  let axes_to_sum := set_diff (set_inter (set_of l1) (set_of l2)) (set_of out) in
  '(t3, l3) <- _einsum_reduction t1 l1 t2 l2 axes_to_sum ;;
  Ret (t3 :: inputs, l3 :: input_axis_labels).

(** Lines 317-332: the discarded sum, the check and the final transposition. *)
Definition einsum_finish (st : list T * list labels) (out : labels) : outcome T :=
  let (inputs, input_axis_labels) := st in
  l0 <- index input_axis_labels 0 ;;
  let missing_indices := set_diff (set_of l0) (set_of out) in
  _temp <-
    match missing_indices with
    | [] => Ret None
    | _ :: _ =>
        t0 <- index inputs 0 ;;
        let axis := map fst (filter (fun ia => negb (mem (snd ia) out))
                                    (combine (seq 0 (length l0)) l0)) in
        Ret (Some (reduce_sum t0 axis, filter (fun a => mem a out) l0))
    end ;;
  if negb (labels_eqb (sorted_labels l0) (sorted_labels out))
  then Raise InvalidEquationError
  else
    perm <- mapM (fun a => str_index a l0) out ;;
    t0 <- index inputs 0 ;;
    Ret (_transpose_if_necessary t0 perm).

(** The state after the loop of pairwise reductions, when the call gets
    that far. *)
Definition einsum_pairwise (inputs : list T) (ins : list labels) (out : labels)
           (optimize : strategy) : outcome (list T * list labels) :=
  shapes <- mapM (fun t => as_list (get_shape t)) inputs ;;
  sq <- einsum_optimize (map (map known_dim) shapes) ins out optimize None ;;
  foldM (reduce_step out) sq (inputs, ins).

(** [einsum(equation, *inputs, optimize=optimize)].  [tpu] tells whether the
    call is made inside a TPU context.  The result comes with the labels
    named in the warnings that were logged. *)
Definition einsum (tpu : bool) (equation : labels) (inputs : list T) (optimize : strategy)
  : list label * outcome T :=
  match _einsum_parse_and_resolve_equation equation (map get_shape inputs) with
  | Raise e => ([], Raise e)
  | Ret (ins, out) =>
      match any_unknown_dim (map get_shape inputs) with
      | Raise e => ([], Raise e)
      | Ret unknown =>
          let optimize := if unknown then OptFalse else optimize in
          let axis_labels := iter_label (set_of (concat ins ++ out)) in
          match dup_check (length ins =? 1) (negb (has_arrow equation)) axis_labels ins with
          | DupTrace => ([], t0 <- index inputs 0 ;; Ret (trace t0))
          | DupRaise l => ([], Raise (DuplicateAxisError l))
          | DupNone =>
              match fallback_label axis_labels ins out with
              | Some a => ([a], _exponential_space_einsum equation inputs)
              | None =>
                  if tpu && (length inputs =? 2)
                  then ([],
                        t0 <- index inputs 0 ;;
                        t1 <- index inputs 1 ;;
                        l0 <- index ins 0 ;;
                        l1 <- index ins 1 ;;
                        Ret (xla_einsum t0 t1
                               (l0 ++ [ch_comma] ++ l1 ++ [ch_dash; ch_gt] ++ out)))
                  else ([],
                        st <- einsum_pairwise inputs ins out optimize ;;
                        einsum_finish st out)
              end
          end
      end
  end.
End Einsum.

(** ** A reference implementation of the tensor primitives

    Modelled from the spec: the external tensor primitives of section 6
    (transpose by permutation, reshape by shape, elementwise multiply with
    broadcasting, matrix multiply, summation by axis set, trace and shape
    query), on dense tensors of integers.  A tensor carries the static shape
    the graph knows, its actual shape, and its elements as a function of the
    index.  The instance is used to run the model on concrete operands; the
    XLA kernel is not part of it. *)
Record dense : Type := mkDense {
  dstatic : tensor_shape;
  dshape : list nat;
  dval : list nat -> Z
}.

Definition static_of (shape : list nat) : tensor_shape :=
  Some (map (fun d => Some (Z.of_nat d)) shape).

(** A tensor all of whose dimensions are statically known. *)
Definition tensor_of (shape : list nat) (val : list nat -> Z) : dense :=
  mkDense (static_of shape) shape val.

Definition size_of (shape : list nat) : nat := fold_right Nat.mul 1 shape.

(** Row-major position of an index, and the index at a position. *)
Definition ravel (shape idx : list nat) : nat :=
  fold_left (fun acc di => acc * fst di + snd di) (combine shape idx) 0.

Fixpoint unravel (shape : list nat) (k : nat) : list nat :=
  match shape with
  | [] => []
  | _ :: rest => (k / size_of rest) :: unravel rest (k mod size_of rest)
  end.

Definition sum_to (n : nat) (f : nat -> Z) : Z :=
  fold_right Z.add 0%Z (map f (seq 0 n)).

(** The first position of [a] in [l]. *)
Fixpoint position (a : nat) (l : list nat) : nat :=
  match l with
  | [] => 0
  | b :: l' => if a =? b then 0 else S (position a l')
  end.

Definition d_constant (z : Z) : dense := tensor_of [] (fun _ => z).

Definition d_shape_at (t : dense) (i : nat) : dense :=
  d_constant (Z.of_nat (nth i (dshape t) 0)).

(** Axis [i] of the result is axis [perm[i]] of the argument. *)
Definition d_transpose (t : dense) (perm : list Z) : dense :=
  let p := map Z.to_nat perm in
  tensor_of (map (fun a => nth a (dshape t) 0) p)
            (fun idx => dval t (map (fun a => nth (position a p) idx 0)
                                    (seq 0 (length (dshape t))))).

(** The requested sizes; one entry -1 is inferred from the number of
    elements. *)
Definition d_requested (t : dense) (new_shape : list (sdim dense)) : list nat :=
  let given := map (fun d => match d with
                             | DInt z => z
                             | DTensor s => dval s []
                             end) new_shape in
  let known := fold_right Z.mul 1%Z (filter (fun z => negb (z =? -1)%Z) given) in
  map (fun z => if (z =? -1)%Z
                then Z.to_nat (Z.of_nat (size_of (dshape t)) / known)
                else Z.to_nat z) given.

Definition d_reshape (t : dense) (new_shape : list (sdim dense)) : dense :=
  let shape := d_requested t new_shape in
  tensor_of shape (fun idx => dval t (unravel (dshape t) (ravel shape idx))).

Definition d_expand_dims (t : dense) (axis : Z) : dense :=
  let ax := if (axis <? 0)%Z then Z.to_nat (Z.of_nat (length (dshape t)) + 1 + axis)
            else Z.to_nat axis in
  tensor_of (insert_at ax 1 (dshape t)) (fun idx => dval t (remove_at ax idx)).

(** Broadcasting: shapes are aligned at the right; an axis of size 1 is
    read at position 0. *)
Definition pad_shape (r : nat) (shape : list nat) : list nat :=
  repeat 1 (r - length shape) ++ shape.

Definition read_broadcast (r : nat) (t : dense) (idx : list nat) : Z :=
  let padded := pad_shape r (dshape t) in
  dval t (skipn (r - length (dshape t))
                (map (fun di => if fst di =? 1 then 0 else snd di) (combine padded idx))).

Definition d_multiply (a b : dense) : dense :=
  let r := Nat.max (length (dshape a)) (length (dshape b)) in
  tensor_of (map (fun p => if fst p =? 1 then snd p else fst p)
                 (combine (pad_shape r (dshape a)) (pad_shape r (dshape b))))
            (fun idx => (read_broadcast r a idx * read_broadcast r b idx)%Z).

(** Batched matrix product over the last two axes. *)
Definition d_matmul (a b : dense) : dense :=
  let r := length (dshape a) in
  let batch := firstn (r - 2) (dshape a) in
  let m := nth (r - 2) (dshape a) 0 in
  let k := nth (r - 1) (dshape a) 0 in
  let n := nth (length (dshape b) - 1) (dshape b) 0 in
  tensor_of (batch ++ [m; n])
            (fun idx =>
               let bi := firstn (r - 2) idx in
               let i := nth (r - 2) idx 0 in
               let j := nth (r - 1) idx 0 in
               sum_to k (fun x => (dval a (bi ++ [i; x]) * dval b (bi ++ [x; j]))%Z)).

Definition d_reduce_axis (t : dense) (ax : nat) : dense :=
  tensor_of (remove_at ax (dshape t))
            (fun idx => sum_to (nth ax (dshape t) 0)
                               (fun x => dval t (insert_at ax x idx))).

(** The axes are summed from the last to the first, so that the positions
    of the remaining ones do not move. *)
Definition d_reduce_sum (t : dense) (axes : list nat) : dense :=
  fold_left d_reduce_axis (rev (sorted_nat axes)) t.

Definition d_trace (t : dense) : dense :=
  let r := length (dshape t) in
  tensor_of (firstn (r - 2) (dshape t))
            (fun idx => sum_to (Nat.min (nth (r - 2) (dshape t) 0) (nth (r - 1) (dshape t) 0))
                               (fun x => dval t (idx ++ [x; x]))).

#[export] Instance dense_ops : TensorOps dense := {
  get_shape := dstatic;
  shape_at := d_shape_at;
  constant := d_constant;
  transpose := d_transpose;
  reshape := d_reshape;
  expand_dims := d_expand_dims;
  multiply := d_multiply;
  matmul := d_matmul;
  reduce_sum := d_reduce_sum;
  trace := d_trace;
  xla_einsum := fun a _ _ => a
}.

(** All elements of a tensor, in row-major order. *)
Definition elements (t : dense) : list Z :=
  map (fun k => dval t (unravel (dshape t) k)) (seq 0 (size_of (dshape t))).

(** The tensor with the given elements in row-major order. *)
Definition of_elements (shape : list nat) (l : list Z) : dense :=
  tensor_of shape (fun idx => nth (ravel shape idx) l 0%Z).

(** The elements of a result, when there is one. *)
Definition result_elements (r : outcome dense) : outcome (list nat * list Z) :=
  t <- r ;; Ret (dshape t, elements t).

(** ** The contraction an equation denotes

    Modelled from the spec: the glossary's contraction ("summing out all
    axes whose label occurs in more than one operand and not in the output")
    and the docstring's [C[i,k] = sum_j A[i,j] * B[j,k]]: the element of the
    result at an index of the output labels is the sum, over all values of
    the labels absent from the output, of the product of the operands'
    elements.  This is the brute-force reference the results are compared
    with. *)

(** An assignment of positions to labels. *)
Definition assignment := list (label * nat).

Fixpoint assigned (e : assignment) (a : label) : nat :=
  match e with
  | [] => 0
  | (b, x) :: e' => if Ascii.eqb a b then x else assigned e' a
  end.

(** The size of the axis labelled [a]: that of the first operand with it. *)
Fixpoint label_size (ins : list labels) (tensors : list dense) (a : label) : nat :=
  match ins, tensors with
  | l :: ins', t :: tensors' =>
      if mem a l then nth (Z.to_nat (find a l)) (dshape t) 0
      else label_size ins' tensors' a
  | _, _ => 0
  end.

Fixpoint sum_over (summed : labels) (size : label -> nat) (f : assignment -> Z)
         (e : assignment) : Z :=
  match summed with
  | [] => f e
  | a :: rest => sum_to (size a) (fun x => sum_over rest size f ((a, x) :: e))
  end.

Definition product_at (ins : list labels) (tensors : list dense) (e : assignment) : Z :=
  fold_left Z.mul
            (map (fun lt => dval (snd lt) (map (assigned e) (fst lt))) (combine ins tensors))
            1%Z.

Definition einsum_reference (ins : list labels) (out : labels) (tensors : list dense)
  : dense :=
  let size := label_size ins tensors in
  tensor_of (map size out)
            (fun idx => sum_over (set_diff (set_of (concat ins)) out) size
                                 (product_at ins tensors) (combine out idx)).

(** *** What replaying a linearised tree builds *)

(** The replay contracts the operand at the smaller position with the one
    at the larger: of two leaves the smaller index comes first, a subtree
    comes before a leaf, and of two subtrees the second comes first. *)
Fixpoint replayed (t : ctree) : ctree :=
  match t with
  | Leaf i => Leaf i
  | Node a b =>
      match a, b with
      | Leaf i, Leaf j => Node (Leaf (Nat.min i j)) (Leaf (Nat.max i j))
      | Leaf i, Node _ _ => Node (replayed b) (Leaf i)
      | Node _ _, Leaf j => Node (replayed a) (Leaf j)
      | Node _ _, Node _ _ => Node (replayed b) (replayed a)
      end
  end.

(** Trees that perform the same pairwise combinations: equal up to the
    order of the two children of a node. *)
Inductive same_contractions : ctree -> ctree -> Prop :=
| same_leaf i : same_contractions (Leaf i) (Leaf i)
| same_node a b a' b' :
    same_contractions a a' -> same_contractions b b' ->
    same_contractions (Node a b) (Node a' b')
| same_swap a b a' b' :
    same_contractions a a' -> same_contractions b b' ->
    same_contractions (Node a b) (Node b' a').

(** The live list the linearisation loop simulates: the pending subtrees,
    then the leaves. *)
Definition live_list (t1 : list (ctree * ctree)) (t2 : list nat) : list ctree :=
  map (fun x => replayed (Node (fst x) (snd x))) t1 ++ map Leaf t2.

Definition pending_leaves (t1 : list (ctree * ctree)) : list nat :=
  flat_map (fun x => leaves (fst x) ++ leaves (snd x)) t1.

Definition pending_nodes (t1 : list (ctree * ctree)) : nat :=
  fold_right (fun x n => S (nodes (fst x) + nodes (snd x)) + n) 0 t1.

(** The contraction of two operands, as a tree. *)
Definition node_of (a b : ctree) : outcome ctree := Ret (Node a b).

(** *** Connected lists of operands *)

(** Every operand of the list but the first shares a label that is summed
    over with an operand before it. *)
Inductive linked (ilabels : list labels) (olabels : labels) : list nat -> Prop :=
| linked_one x : linked ilabels olabels [x]
| linked_snoc l x y :
    linked ilabels olabels l -> In x l -> adjacent ilabels olabels x y = true ->
    linked ilabels olabels (l ++ [y]).

(** *** Invariants of the dynamic-programming table *)

(** An entry of [x[m]] for operands with labels [ls] and original indices
    [g]: its key has [m] positions; its tree contracts exactly the operands
    of the key; its labels come from those operands and keep every label
    that only one of them carries. *)
Definition good_entry (ls : list labels) (g : list nat) (m : nat) (p : key * entry)
  : Prop :=
  StronglySorted lt (fst p) /\
  length (fst p) = m /\
  (forall x, In x (fst p) -> x < length ls) /\
  Permutation (leaves (e_tree (snd p))) (map (fun j => nth j g 0) (fst p)) /\
  (forall a, In a (e_labels (snd p)) ->
             exists j, In j (fst p) /\ In a (nth j ls [])) /\
  (forall a j, In j (fst p) -> In a (nth j ls []) ->
               (forall j', In j' (fst p) -> j' <> j -> ~ In a (nth j' ls [])) ->
               In a (e_labels (snd p))).

Definition good_dict (ls : list labels) (g : list nat) (m : nat) (d : dict) : Prop :=
  Forall (good_entry ls g m) d.

(** No label that is summed over occurs in more than two operands. *)
Definition at_most_two (ls : list labels) (olabels : labels) : Prop :=
  forall a i j k,
    ~ In a olabels -> i < j -> j < k -> k < length ls ->
    ~ (In a (nth i ls []) /\ In a (nth j ls []) /\ In a (nth k ls [])).

(** Every operand but the first shares a summed label with an earlier one. *)
Definition chained (ls : list labels) (olabels : labels) : Prop :=
  forall m, 1 <= m < length ls ->
            exists j a, j < m /\ In a (nth j ls []) /\ In a (nth m ls []) /\
                        ~ In a olabels.

(** The first row of the table, when the three lists are long enough. *)
Definition row1_of (ds : list (list Z)) (ls : list labels) (g : list nat) : dict :=
  map (fun j => ([j], mkEntry (nth j ds []) (nth j ls []) 0%Z (Leaf (nth j g 0))))
      (seq 0 (length ds)).

(** The table while its levels are added: the first row stays, every level is
    good and holds the set of the first [k] operands. *)
Definition table_ok (ds : list (list Z)) (ls : list labels) (g : list nat) (x : list dict)
  : Prop :=
  nth 1 x [] = row1_of ds ls g /\
  forall k, 1 <= k < length x -> k <= length ds ->
            good_dict ls g k (nth k x []) /\ lookup (seq 0 k) (nth k x []) <> None.

(** *** The canonical axis order of the fallback *)

(** The position [axis_order.get] gives a label, as a number to sort by:
    0 for [None], the position plus one otherwise. *)
Definition axis_key (d : axis_dict) (a : label) : nat :=
  match axis_get d a with
  | None => 0
  | Some n => S n
  end.

(** The labels that are summed over: those of the inputs that the output
    lacks. *)
Definition summed_labels (idx_in : list labels) (idx_out : labels) : labels :=
  set_diff (set_of (concat idx_in)) idx_out.

(** The shape of an operand once the validation loop has gone through the
    axes [canon]: the sizes of the operand, with a 1 at the place of every
    axis that the operand lacks. *)
Fixpoint expand_spec (canon : labels) (l : labels) (s : list Z) : list Z :=
  match canon with
  | [] => s
  | ax :: canon' =>
      if mem ax l then
        match s with
        | d :: s' => d :: expand_spec canon' l s'
        | [] => []
        end
      else 1%Z :: expand_spec canon' l s
  end.

(** The labels of an operand arranged as they come in [canon]. *)
Definition canonical_labels (canon l : labels) : labels :=
  filter (fun a => mem a l) canon.

(** An operand whose labels are not yet in the order [l'] is transposed. *)
Definition transposed {T : Type} {ops : TensorOps T} (t : T) (l l' : labels) : T :=
  if labels_eqb l l' then t else transpose t (map (fun ax => find ax l) l').

(** ** Notions for the further properties *)

(** [equation.replace(' ', '')], and the subscripts of the inputs as the
    equation writes them: [match.group(1).split(',')]. *)
Definition strip_spaces (equation : labels) : labels :=
  filter (fun c => negb (Ascii.eqb c ch_space)) equation.

Definition subscripts (equation : labels) : list labels :=
  match match_equation (strip_spaces equation) with
  | Some (g1, _) => split_comma g1 []
  | None => []
  end.

(** The characters the regular expression admits inside a subscript. *)
Definition is_subscript_char (c : ascii) : bool := is_letter c || Ascii.eqb c ch_period.

(** The ellipsis. *)
Definition dots : labels := [ch_period; ch_period; ch_period].

(** No operand of the first list shares a summed label with one of the
    second. *)
Definition apart (ilabels : list labels) (olabels : labels) (g others : list nat) : Prop :=
  forall x y, In x g -> In y others -> adjacent ilabels olabels x y = false.

(** The pair [(class, label)] that [sort_key] returns, as one number. *)
Definition class_key (cls : label -> nat) (a : label) : nat := cls a * 256 + code a.

(** The preserved axes of a reduction, and the broadcast axes of one of its
    operands (lines 484-487). *)
Definition preserved_of (l0 l1 axes : labels) : labels :=
  set_diff (set_inter (set_of l0) (set_of l1)) axes.

Definition broadcast_of (sym_list l0 l1 axes : labels) : labels :=
  set_diff (set_diff (set_of sym_list) (preserved_of l0 l1 axes)) axes.

(** *** What the cost model makes of a contraction tree *)

(** The entry [(shape, labels, cost, contraction)] the dynamic programme
    builds for a tree, lines 686-700 applied along the tree; operand [x] has
    the shape [fst (env x)] and the labels [snd (env x)]. *)
Fixpoint tree_entry (olabels : labels) (env : nat -> list Z * labels) (t : ctree) : entry :=
  match t with
  | Leaf i => mkEntry (fst (env i)) (snd (env i)) 0%Z (Leaf i)
  | Node a b =>
      let e1 := tree_entry olabels env a in
      let e2 := tree_entry olabels env b in
      mkEntry (new_shape (e_shape e1) (e_labels e1) (e_shape e2) (e_labels e2) olabels)
              (new_labels (e_labels e1) (e_labels e2) olabels)
              (contraction_cost (e_shape e1) (e_labels e1) (e_shape e2) (e_labels e2)
               + e_cost e1 + e_cost e2)%Z
              (Node a b)
  end.

(** A tree without outer product: at every node the two operands share a
    label that is summed over. *)
Fixpoint no_outer_product (olabels : labels) (env : nat -> list Z * labels) (t : ctree)
  : Prop :=
  match t with
  | Leaf _ => True
  | Node a b =>
      no_outer_product olabels env a /\ no_outer_product olabels env b /\
      contraction_indices (e_labels (tree_entry olabels env a))
                          (e_labels (tree_entry olabels env b)) olabels <> []
  end.

(** An entry of the table that is what the cost model makes of its tree,
    the tree being without outer product. *)
Definition consistent (olabels : labels) (env : nat -> list Z * labels) (p : key * entry)
  : Prop :=
  snd p = tree_entry olabels env (e_tree (snd p)) /\
  no_outer_product olabels env (e_tree (snd p)).

(** The number of operands of [xs] that carry the label [a]. *)
Definition carriers (env : nat -> list Z * labels) (a : label) (xs : list nat) : nat :=
  length (filter (fun x => mem a (snd (env x))) xs).

(** Level [m] of the table holds, for every tree without outer product over
    [m] operands, an entry for these operands that costs no more. *)
Definition covers (olabels : labels) (env : nat -> list Z * labels) (g : list nat)
           (m : nat) (d : dict) : Prop :=
  forall u s,
    no_outer_product olabels env u ->
    StronglySorted lt s -> length s = m -> (forall j, In j s -> j < length g) ->
    Permutation (leaves u) (map (fun j => nth j g 0) s) ->
    exists e, lookup s d = Some e /\
              (e_cost e <= e_cost (tree_entry olabels env u))%Z.

(** The sizes i = 2, j = 3, k = 4, l = 5 of the chain 'ij,jk,kl->il'. *)
Definition chain_sizes (a : label) : Z :=
  Z.of_nat (code a) - 103.

Definition chain_env (x : nat) : list Z * labels :=
  (nth x [[2; 3]; [3; 4]; [4; 5]]%Z [], nth x [L "ij"; L "jk"; L "kl"] []).

(** ** What a reduction computes: indices, assignments and sums *)

(** An index within a shape. *)
Definition in_range (shape idx : list nat) : Prop :=
  Forall2 (fun i n => i < n) idx shape.

(** The sum of [f] over all the indices within a shape, the first axis
    outermost. *)
Fixpoint sum_idx (shape : list nat) (f : list nat -> Z) : Z :=
  match shape with
  | [] => f []
  | n :: s => sum_to n (fun i => sum_idx s (fun idx => f (i :: idx)))
  end.

(** A tensor whose static shape is its shape. *)
Definition known (t : dense) : Prop := dstatic t = static_of (dshape t).

(** The element of [t] that an assignment of positions to the labels [l] of
    its axes selects. *)
Definition den (t : dense) (l : labels) (sigma : label -> nat) : Z :=
  dval t (map sigma l).

(** An operand with labels [l] when the sizes of the axes are [sz]. *)
Definition operand (sz : label -> nat) (t : dense) (l : labels) : Prop :=
  NoDup l /\ dshape t = map sz l /\ known t.

(** A size as [_get_shape] returns it for a known dimension. *)
Definition dint (n : nat) : sdim dense := DInt (Z.of_nat n).

(** An assignment changed at one label, and at the labels of a list. *)
Definition upd (sigma : label -> nat) (a : label) (x : nat) : label -> nat :=
  fun b => if Ascii.eqb b a then x else sigma b.

Fixpoint upds (sigma : label -> nat) (ls : labels) (idx : list nat) : label -> nat :=
  match ls, idx with
  | a :: ls', x :: idx' => upds (upd sigma a x) ls' idx'
  | _, _ => sigma
  end.

(** The sum of [f] over all the positions of the axes [ls], the other
    labels being assigned by [sigma]. *)
Fixpoint sum_labels (sz : label -> nat) (ls : labels) (f : (label -> nat) -> Z)
         (sigma : label -> nat) : Z :=
  match ls with
  | [] => f sigma
  | a :: ls' => sum_to (sz a) (fun x => sum_labels sz ls' f (upd sigma a x))
  end.

(** The labels of the result of a reduction, as lines 479-559 order them. *)
Definition reduced_labels (l0 l1 axes : labels) : labels :=
  sorted_labels (preserved_of l0 l1 axes)
  ++ sorted_labels (broadcast_of l0 l0 l1 axes)
  ++ sorted_labels (broadcast_of l1 l0 l1 axes).

(** The product of the elements that an assignment selects in two operands. *)
Definition pair_product (t0 : dense) (l0 : labels) (t1 : dense) (l1 : labels)
           (sigma : label -> nat) : Z :=
  (den t0 l0 sigma * den t1 l1 sigma)%Z.

(** The index at which broadcasting reads an operand of shape [shape]. *)
Definition bcast_idx (shape idx : list nat) : list nat :=
  map (fun di => if fst di =? 1 then 0 else snd di) (combine shape idx).

(** The shape of a product of two operands of the same rank. *)
Definition bcast_shape (s0 s1 : list nat) : list nat :=
  map (fun p => if fst p =? 1 then snd p else fst p) (combine s0 s1).

(** Sizes for the axes of a matrix product: [j] has three positions, the
    other labels two. *)
Definition matrix_sizes (a : label) : nat := if Ascii.eqb a "j"%char then 3 else 2.

(** ** What the loop of reductions computes *)

(** A quantity that depends on an assignment only through its values. *)
Definition ext_fun (f : (label -> nat) -> Z) : Prop :=
  forall s1 s2 : label -> nat, (forall a, s1 a = s2 a) -> f s1 = f s2.

(** The live operands of the loop of reductions, each with its labels, and
    the product of the elements an assignment selects in them. *)
Definition operands := list (dense * labels).

Definition prod_ops (ops : operands) (sigma : label -> nat) : Z :=
  fold_right Z.mul 1%Z (map (fun tl => den (fst tl) (snd tl) sigma) ops).

(** The labels of the live operands that are not output labels. *)
Definition hidden (out : labels) (ls : list labels) : labels :=
  set_diff (set_of (concat ls)) out.

(** The labels an equation may take through the loop of reductions: every
    label that is summed over is carried by exactly two operands, and every
    output label by some operand. *)
Definition contractible (out : labels) (ls : list labels) : Prop :=
  (forall a, In a (concat ls) -> ~ In a out -> input_count a ls = 2)
  /\ (forall a, In a out -> In a (concat ls)).

(** The invariant of the loop: the live operands have the sizes [sz] and
    their labels can still be contracted. *)
Definition live (sz : label -> nat) (out : labels) (ops : operands) : Prop :=
  Forall (fun tl => operand sz (fst tl) (snd tl)) ops
  /\ contractible out (map snd ops).

(** What the live operands stand for: the sum over the axes still to be
    summed of the product of their elements. *)
Definition contraction_of (sz : label -> nat) (out : labels) (ops : operands)
           (sigma : label -> nat) : Z :=
  sum_labels sz (hidden out (map snd ops)) (prod_ops ops) sigma.

(** The axes the loop sums when it reduces two operands (line 312). *)
Definition summed_axes (l1 l2 out : labels) : labels :=
  set_diff (set_inter (set_of l1) (set_of l2)) (set_of out).

(** Three matrices to be multiplied in a chain, and the labels of the
    equation [ij,jk,kl->il]. *)
Definition chain_operands : list dense :=
  [of_elements [2; 3] [1; 2; 3; 4; 5; 6]%Z;
   of_elements [3; 2] [1; 0; 0; 1; 1; 1]%Z;
   of_elements [2; 2] [2; 1; 1; 3]%Z].

Definition chain_labels : list labels := [L "ij"; L "jk"; L "kl"].

(** ** What the fallback computes *)

(** The shape of an operand with the labels [l] once it has an axis for
    every label of [canon]: the axes it lacks have size 1. *)
Definition mask_shape (sz : label -> nat) (canon l : labels) : list nat :=
  map (fun a => if mem a l then sz a else 1) canon.

(** An assignment read through broadcasting: the axes that the operand
    lacks are read at position 0. *)
Definition restrict (sigma : label -> nat) (l : labels) : label -> nat :=
  fun a => if mem a l then sigma a else 0.




(** ** The ellipsis axes of an inferred output *)

(** The letters that no input subscript of the equation uses (line 377). *)
Definition unused_letters (equation : labels) : labels :=
  filter (fun c => negb (mem c (concat (subscripts equation)))) ascii_letters.

(** The number of axes that the ellipsis of the subscript [ax] stands for in
    an operand of shape [sh]: its rank less the labels that are written
    (line 389). *)
Definition ellipsis_count (ax : labels) (sh : tensor_shape) : nat :=
  match ndims sh with
  | Some nd => nd - length (concat (split_ellipsis ax []))
  | None => 0
  end.

(** The largest such number over the subscripts that have an ellipsis. *)
Fixpoint max_ellipsis (axes : list labels) (shapes : list tensor_shape) : nat :=
  match axes with
  | [] => 0
  | ax :: axes' =>
      Nat.max (if has_ellipsis ax then ellipsis_count ax (hd None shapes) else 0)
              (max_ellipsis axes' (tl shapes))
  end.

(** The axes that stand for the ellipsis in the output: the last unused
    letters, as many as the longest ellipsis needs (lines 398-399). *)
Definition ellipsis_axes_of (equation : labels) (shapes : list tensor_shape) : labels :=
  skipn (length (unused_letters equation) - max_ellipsis (subscripts equation) shapes)
        (unused_letters equation).

(** *** Sizes for which numpy computes the costs exactly

    [np.prod] multiplies in numpy's default integer, 64 bits wide (32 on
    some platforms), where a product that does not fit wraps around, and it
    returns the float [1.0] for an empty list, so that a cost is such an
    integer or a float.  All of them hold every integer below 2^31 exactly,
    and the costs are modelled by exact integers: the statements about
    costs are made for positive sizes whose product, over all the operands,
    is below 2^31. *)
Definition exact_bound : Z := 2 ^ 31.

(** The product of all the sizes of all the operands. *)
Definition volume (ishapes : list (list Z)) : Z :=
  fold_right (fun d v => (prod d * v)%Z) 1%Z ishapes.

Definition positive_sizes (ishapes : list (list Z)) : Prop :=
  Forall (Forall (fun d => (1 <= d)%Z)) ishapes.

(** Every cost that the scans of a run of steps compute lies in [0, B). *)
Fixpoint costs_below (B : Z) (olabels : labels) (ishapes : list (list Z))
         (ilabels : list labels) (sq : list step) : Prop :=
  match sq with
  | [] => True
  | p :: sq' =>
      (forall q, fst q < snd q < length ilabels ->
                 (0 <= pair_cost ishapes ilabels q < B)%Z)
      /\ costs_below B olabels
                     (pair_shape ishapes ilabels olabels p
                        :: remove_at (fst p) (remove_at (snd p) ishapes))
                     (pair_labels ilabels olabels p
                        :: remove_at (fst p) (remove_at (snd p) ilabels))
                     sq'
  end.

(** The product of all the sizes of the operands at the leaves of a tree. *)
Definition leaves_volume (env : nat -> list Z * labels) (t : ctree) : Z :=
  volume (map (fun i => fst (env i)) (leaves t)).

(** *** Operands whose static shapes fit their labels

    The rank of every operand is the number of its labels, and every size
    that is statically known is the size [sz] of its label: the primitives
    of the reductions ([array_ops.transpose], [math_ops.matmul], ...) are
    then given shapes they accept. *)
Definition shapes_fit {T : Type} {ops : TensorOps T} (sz : label -> Z)
           (inputs : list T) (ins : list labels) : Prop :=
  Forall2 (fun t l => exists dims,
               get_shape t = Some dims /\
               Forall2 (fun d a => d = None \/ d = Some (sz a)) dims l)
          inputs ins.

(* ================================================================== *)
(** * Part II: properties *)
(* ================================================================== *)

(** ** Outcomes and lists *)

Lemma bind_ret_inv {A B} (m : outcome A) (f : A -> outcome B) (b : B) :
  bind m f = Ret b -> exists a, m = Ret a /\ f a = Ret b.
Proof.
  destruct m as [a|e]; simpl; intros H; [eauto | discriminate].
Qed.

Lemma index_lt {A} (l : list A) (i : nat) (d : A) :
  i < length l -> index l i = Ret (nth i l d).
Proof.
  intros H. unfold index.
  rewrite (nth_error_nth' l d H). reflexivity.
Qed.

Lemma index_ge {A} (l : list A) (i : nat) :
  length l <= i -> index l i = Raise IndexError.
Proof.
  intros H. unfold index.
  apply nth_error_None in H. rewrite H. reflexivity.
Qed.

Lemma pop_lt {A} (l : list A) (i : nat) (d : A) :
  i < length l -> pop l i = Ret (nth i l d, remove_at i l).
Proof.
  intros H. unfold pop.
  rewrite (nth_error_nth' l d H). reflexivity.
Qed.

Lemma remove_at_length {A} (l : list A) (i : nat) :
  i < length l -> length (remove_at i l) = length l - 1.
Proof.
  revert i. induction l as [|a l IH]; intros [|i] H; simpl in *; try lia.
  rewrite IH by lia. lia.
Qed.

Lemma remove_at_ge {A} (l : list A) (i : nat) :
  length l <= i -> remove_at i l = l.
Proof.
  revert i. induction l as [|a l IH]; intros [|i] H; simpl in *; try lia; auto.
  f_equal. apply IH. lia.
Qed.

Lemma remove_at_app_l {A} (l1 l2 : list A) (i : nat) :
  i < length l1 -> remove_at i (l1 ++ l2) = remove_at i l1 ++ l2.
Proof.
  revert i. induction l1 as [|a l1 IH]; intros [|i] H; simpl in *; try lia; auto.
  f_equal. apply IH. lia.
Qed.

Lemma remove_at_app_r {A} (l1 l2 : list A) (i : nat) :
  remove_at (length l1 + i) (l1 ++ l2) = l1 ++ remove_at i l2.
Proof.
  induction l1 as [|a l1 IH]; simpl; auto.
  destruct i; simpl; f_equal; auto.
Qed.

(** ** The scan order of the greedy optimiser *)

Lemma in_pairs (n j k : nat) : In (j, k) (pairs n) <-> j < k < n.
Proof.
  unfold pairs. rewrite in_flat_map. split.
  - intros [j' [Hj Hk]]. apply in_seq in Hj. apply in_map_iff in Hk.
    destruct Hk as [k' [E Hk]]. inversion E; subst. apply in_seq in Hk. lia.
  - intros H. exists j. split.
    + apply in_seq. lia.
    + apply in_map_iff. exists k. split; auto. apply in_seq. lia.
Qed.

Lemma StronglySorted_app {A} (R : A -> A -> Prop) (l1 l2 : list A) :
  StronglySorted R l1 -> StronglySorted R l2 ->
  (forall x y, In x l1 -> In y l2 -> R x y) ->
  StronglySorted R (l1 ++ l2).
Proof.
  induction l1 as [|a l1 IH]; simpl; intros H1 H2 H; auto.
  inversion H1; subst. constructor.
  - apply IH; auto.
  - apply Forall_app. split; auto.
    apply Forall_forall. intros y Hy. apply H; auto.
Qed.

Lemma row_sorted (j a c : nat) :
  StronglySorted lex_lt (map (fun k => (j, k)) (seq a c)).
Proof.
  revert a. induction c as [|c IH]; intros a; simpl; constructor; auto.
  apply Forall_forall. intros [j' k'] Hin. apply in_map_iff in Hin.
  destruct Hin as [k [E Hk]]. inversion E; subst. apply in_seq in Hk.
  right. simpl. lia.
Qed.

Lemma rows_sorted (n a c : nat) :
  StronglySorted lex_lt
    (flat_map (fun j => map (fun k => (j, k)) (seq (S j) (n - S j))) (seq a c)).
Proof.
  revert a. induction c as [|c IH]; intros a; simpl; [constructor|].
  apply StronglySorted_app; auto using row_sorted.
  intros [j k] [j' k'] H1 H2.
  apply in_map_iff in H1. destruct H1 as [k1 [E1 _]]. inversion E1; subst.
  apply in_flat_map in H2. destruct H2 as [j2 [Hj2 H2]].
  apply in_seq in Hj2. apply in_map_iff in H2. destruct H2 as [k2 [E2 _]].
  inversion E2; subst. left. simpl. lia.
Qed.

Lemma pairs_sorted (n : nat) : StronglySorted lex_lt (pairs n).
Proof. apply rows_sorted. Qed.

Lemma sorted_split_before (ps1 ps2 : list step) (p q : step) :
  StronglySorted lex_lt (ps1 ++ p :: ps2) ->
  In q (ps1 ++ p :: ps2) -> lex_lt q p -> In q ps1.
Proof.
  induction ps1 as [|a ps1 IH]; simpl; intros HS Hin Hlt.
  - inversion HS; subst. destruct Hin as [->|Hin].
    + unfold lex_lt in Hlt. lia.
    + rewrite Forall_forall in H2. specialize (H2 _ Hin).
      unfold lex_lt in *. lia.
  - inversion HS; subst. destruct Hin as [->|Hin]; auto.
Qed.

(** ** The greedy optimiser selects a first cheapest pair *)

Section Greedy.
Variable ishapes : list (list Z).
Variable ilabels : list labels.
Variable olabels : labels.
Hypothesis same_length : length ishapes = length ilabels.

Lemma scan_pair_eq (st : scan_state) (p : step) :
  fst p < length ilabels -> snd p < length ilabels ->
  scan_pair ishapes ilabels olabels st p =
  Ret (if lt_inf (pair_cost ishapes ilabels p) (fst st)
       then (Some (pair_cost ishapes ilabels p),
             Some (pair_candidate ishapes ilabels olabels p))
       else st).
Proof.
  destruct p as [j k]. simpl. intros Hj Hk. unfold scan_pair.
  rewrite (index_lt ilabels j [] Hj).
  rewrite (index_lt ishapes j []) by lia.
  rewrite (index_lt ilabels k [] Hk).
  rewrite (index_lt ishapes k []) by lia.
  simpl. unfold pair_cost, pair_candidate. simpl.
  destruct (lt_inf _ _); reflexivity.
Qed.

Lemma lt_inf_false_le (c : Z) (b : option Z) (c' : Z) :
  lt_inf c b = false -> lt_inf c' b = true -> (c' < c)%Z.
Proof.
  destruct b as [b|]; simpl; [|discriminate].
  intros H1 H2. apply Z.ltb_ge in H1. apply Z.ltb_lt in H2. lia.
Qed.

Lemma scan_fold (ps : list step) :
  (forall q, In q ps -> fst q < length ilabels /\ snd q < length ilabels) ->
  forall st, exists st',
    foldM (scan_pair ishapes ilabels olabels) ps st = Ret st' /\
    scanned ishapes ilabels olabels st ps st'.
Proof.
  induction ps as [|p ps IH]; intros Hr st.
  - exists st. split; [reflexivity|]. left. split; auto. intros q [].
  - simpl. destruct (Hr p (or_introl eq_refl)) as [Hj Hk].
    rewrite (scan_pair_eq st p Hj Hk). simpl.
    destruct (lt_inf (pair_cost ishapes ilabels p) (fst st)) eqn:Hlt.
    + destruct (IH (fun q H => Hr q (or_intror H))
                   (Some (pair_cost ishapes ilabels p),
                    Some (pair_candidate ishapes ilabels olabels p))) as [st' [E S]].
      exists st'. split; auto. destruct S as [[-> Hall] | S].
      * right. exists [], p, ps. repeat split; auto.
        -- intros q [].
        -- intros q Hq. specialize (Hall q Hq). simpl in Hall.
           apply Z.ltb_ge in Hall. lia.
      * destruct S as [ps1 [p' [ps2 [-> [-> [Hlt' [Hb Ha]]]]]]].
        simpl in Hlt'. apply Z.ltb_lt in Hlt'.
        right. exists (p :: ps1), p', ps2. repeat split; auto.
        -- destruct (fst st) as [b|]; simpl in *; auto.
           apply Z.ltb_lt in Hlt. apply Z.ltb_lt. lia.
        -- intros q [<-|Hq]; auto.
    + destruct (IH (fun q H => Hr q (or_intror H)) st) as [st' [E S]].
      exists st'. split; auto. destruct S as [[-> Hall] | S].
      * left. split; auto. intros q [<-|Hq]; auto.
      * destruct S as [ps1 [p' [ps2 [-> [-> [Hlt' [Hb Ha]]]]]]].
        right. exists (p :: ps1), p', ps2. repeat split; auto.
        intros q [<-|Hq]; auto.
        eapply lt_inf_false_le; eauto.
Qed.

Lemma greedy_scan_first_cheapest :
  2 <= length ilabels ->
  exists p, greedy_scan ishapes ilabels olabels
            = Ret (Some (pair_cost ishapes ilabels p),
                   Some (pair_candidate ishapes ilabels olabels p))
            /\ first_cheapest ishapes ilabels p.
Proof.
  intros Hn. unfold greedy_scan.
  destruct (scan_fold (pairs (length ilabels))) with (st := (@None Z, @None candidate))
    as [st' [E S]].
  { intros [j k] Hq. apply in_pairs in Hq. simpl. lia. }
  rewrite E. destruct S as [[_ Hall] | S].
  - exfalso. specialize (Hall (0, 1)). simpl in Hall.
    assert (In (0, 1) (pairs (length ilabels))) as Hin by (apply in_pairs; lia).
    specialize (Hall Hin). discriminate.
  - destruct S as [ps1 [p [ps2 [Eps [-> [_ [Hb Ha]]]]]]].
    exists p. split; auto.
    assert (In p (pairs (length ilabels))) as Hp.
    { rewrite Eps. apply in_or_app. right. left. reflexivity. }
    destruct p as [j k]. apply in_pairs in Hp.
    assert (forall q, fst q < snd q < length ilabels ->
                      In q ps1 \/ q = (j, k) \/ In q ps2) as Hcases.
    { intros [j' k'] Hq. apply in_pairs in Hq. rewrite Eps in Hq.
      apply in_app_or in Hq. destruct Hq as [Hq|[Hq|Hq]]; auto. }
    split; [exact Hp|split].
    + intros q Hq. destruct (Hcases q Hq) as [H|[->|H]].
      * specialize (Hb q H). lia.
      * lia.
      * auto.
    + intros q Hq Hlex. apply Hb.
      apply sorted_split_before with (ps2 := ps2) (p := (j, k)); auto.
      * rewrite <- Eps. apply pairs_sorted.
      * rewrite <- Eps. destruct q. apply in_pairs. exact Hq.
Qed.

Lemma greedy_step_eq :
  2 <= length ilabels ->
  exists p, first_cheapest ishapes ilabels p /\
    greedy_step ishapes ilabels olabels =
    Ret (p,
         pair_shape ishapes ilabels olabels p
           :: remove_at (fst p) (remove_at (snd p) ishapes),
         pair_labels ilabels olabels p
           :: remove_at (fst p) (remove_at (snd p) ilabels)).
Proof.
  intros Hn. destruct (greedy_scan_first_cheapest Hn) as [p [E F]].
  exists p. split; auto. unfold greedy_step. rewrite E. simpl.
  destruct F as [Hr _]. destruct p as [j k]. simpl in *.
  rewrite (pop_lt ishapes k []) by lia. simpl.
  rewrite (pop_lt (remove_at k ishapes) j []) by (rewrite remove_at_length; lia). simpl.
  rewrite (pop_lt ilabels k []) by lia. simpl.
  rewrite (pop_lt (remove_at k ilabels) j []) by (rewrite remove_at_length; lia). simpl.
  reflexivity.
Qed.
End Greedy.

Lemma greedy_loop_run (olabels : labels) (fuel : nat) :
  forall ishapes ilabels acc,
    length ishapes = length ilabels ->
    length ishapes <= fuel ->
    exists sq,
      greedy_loop fuel ishapes ilabels olabels acc = Ret (acc ++ sq) /\
      length sq = length ishapes - 1 /\
      greedy_run olabels ishapes ilabels sq.
Proof.
  induction fuel as [|fuel IH]; intros ishapes ilabels acc Hlen Hfuel.
  - exists []. rewrite app_nil_r. simpl.
    replace (length ishapes <=? 1) with true by (symmetry; apply Nat.leb_le; lia).
    repeat split; [simpl; lia | constructor; lia].
  - simpl. destruct (length ishapes <=? 1) eqn:Hle.
    + apply Nat.leb_le in Hle. exists []. rewrite app_nil_r.
      repeat split; [simpl; lia | constructor; lia].
    + apply Nat.leb_gt in Hle.
      destruct (greedy_step_eq ishapes ilabels olabels Hlen) as [p [F E]]; [lia|].
      rewrite E. simpl.
      pose proof F as [Hr _].
      destruct (IH (pair_shape ishapes ilabels olabels p
                      :: remove_at (fst p) (remove_at (snd p) ishapes))
                   (pair_labels ilabels olabels p
                      :: remove_at (fst p) (remove_at (snd p) ilabels))
                   (acc ++ [p])) as [sq [E' [Hl R]]].
      * simpl. rewrite !remove_at_length; rewrite ?remove_at_length; lia.
      * simpl. rewrite !remove_at_length; rewrite ?remove_at_length; lia.
      * exists (p :: sq). rewrite E'. rewrite <- app_assoc. simpl.
        split; [reflexivity|split].
        -- simpl in Hl. rewrite Hl.
           rewrite !remove_at_length; rewrite ?remove_at_length; lia.
        -- constructor; auto.
Qed.

(** ** Label sets *)

Lemma mem_In (a : label) (s : labels) : mem a s = true <-> In a s.
Proof.
  unfold mem. rewrite existsb_exists. split.
  - intros [x [Hin E]]. apply Ascii.eqb_eq in E. subst. exact Hin.
  - intros H. exists a. split; auto. apply Ascii.eqb_refl.
Qed.

Lemma mem_false (a : label) (s : labels) : mem a s = false <-> ~ In a s.
Proof.
  rewrite <- mem_In. destruct (mem a s); split; intros; congruence.
Qed.

Lemma in_set_of (a : label) (s : labels) : In a (set_of s) <-> In a s.
Proof. apply nodup_In. Qed.

Lemma in_common_indices (a : label) (l1 l2 : labels) :
  In a (common_indices l1 l2) <-> In a l1 /\ In a l2.
Proof.
  unfold common_indices, set_inter. rewrite filter_In, mem_In, !in_set_of. tauto.
Qed.

Lemma in_contraction_indices (a : label) (l1 l2 olabels : labels) :
  In a (contraction_indices l1 l2 olabels) <-> In a l1 /\ In a l2 /\ ~ In a olabels.
Proof.
  unfold contraction_indices, set_diff.
  rewrite filter_In, in_common_indices, negb_true_iff, mem_false, in_set_of. tauto.
Qed.

Lemma mem_ext (a : label) (s t : labels) :
  (In a s <-> In a t) -> mem a s = mem a t.
Proof.
  intros H. destruct (mem a t) eqn:E.
  - apply mem_In, H, mem_In, E.
  - apply mem_false. rewrite H. apply mem_false, E.
Qed.

(** The axes of the second operand that the cost counts are those
    whose label the first operand lacks. *)
Lemma m2_not_shared (l1 l2 : labels) :
  m2 l1 l2 = map (fun l => negb (mem l l1)) l2.
Proof.
  unfold m2. apply map_ext_in. intros a Ha. f_equal.
  destruct (mem a l1) eqn:E.
  - apply mem_In. apply in_common_indices. split; auto. apply mem_In, E.
  - apply mem_false. rewrite in_common_indices. apply mem_false in E. tauto.
Qed.

(** ** Replaying a well-formed sequence *)

Lemma replay_step_valid {A} (combine : A -> A -> A) (live : list A) (j k : nat) :
  j <> k -> j < length live -> k < length live ->
  exists live', replay_step (fun a b => Ret (combine a b)) live (j, k) = Ret live'
                /\ length live' = length live - 1.
Proof.
  intros Hne Hj Hk. unfold replay_step.
  destruct live as [|d live0] eqn:El; [simpl in Hj; lia|]. rewrite <- El in *.
  assert (length live = S (length live0)) as Hlen by (rewrite El; reflexivity).
  clear El.
  destruct (k <? j) eqn:Hkj.
  - apply Nat.ltb_lt in Hkj.
    rewrite (pop_lt live j d Hj). simpl.
    rewrite (pop_lt (remove_at j live) k d) by (rewrite remove_at_length; lia). simpl.
    eexists. split; [reflexivity|]. simpl.
    rewrite !remove_at_length; rewrite ?remove_at_length; lia.
  - apply Nat.ltb_ge in Hkj.
    rewrite (pop_lt live k d Hk). simpl.
    rewrite (pop_lt (remove_at k live) j d) by (rewrite remove_at_length; lia). simpl.
    eexists. split; [reflexivity|]. simpl.
    rewrite !remove_at_length; rewrite ?remove_at_length; lia.
Qed.

Lemma replay_valid {A} (combine : A -> A -> A) (sq : list step) :
  forall live, valid_seq (length live) sq ->
    exists live', replay (fun a b => Ret (combine a b)) live sq = Ret live'
                  /\ length live' = length live - length sq.
Proof.
  induction sq as [|[j k] sq IH]; intros live Hv; cbn [replay].
  - exists live. split; auto. simpl. lia.
  - simpl in Hv. destruct Hv as [Hne [Hj [Hk Hv]]].
    destruct (replay_step_valid combine live j k Hne Hj Hk) as [live1 [E Hl]].
    rewrite E. cbn [bind].
    rewrite <- Hl in Hv. destruct (IH live1 Hv) as [live' [E' Hl']].
    exists live'. split; auto. simpl. lia.
Qed.

Lemma greedy_run_valid (olabels : labels) (ishapes : list (list Z))
      (ilabels : list labels) (sq : list step) :
  length ishapes = length ilabels ->
  greedy_run olabels ishapes ilabels sq -> valid_seq (length ishapes) sq.
Proof.
  intros Hlen R. induction R as [|ishapes ilabels [j k] sq Hn F R IH]; simpl; auto.
  destruct F as [Hr _]. simpl in Hr.
  repeat split; try lia.
  assert (length (pair_shape ishapes ilabels olabels (j, k)
                    :: remove_at (fst (j, k)) (remove_at (snd (j, k)) ishapes))
          = length ishapes - 1) as E.
  { simpl. rewrite !remove_at_length; rewrite ?remove_at_length; lia. }
  rewrite <- E. apply IH. simpl.
  rewrite !remove_at_length; rewrite ?remove_at_length; lia.
Qed.

Lemma valid_seq_repeat (m n : nat) : m < n -> valid_seq n (repeat (0, 1) m).
Proof.
  revert n. induction m as [|m IH]; intros n H; simpl; auto.
  repeat split; try lia. apply IH. lia.
Qed.

(** ** The costs stay below the product of all the sizes *)

Lemma fold_mul_acc (d : list Z) :
  forall acc, fold_left Z.mul d acc = (acc * fold_left Z.mul d 1)%Z.
Proof.
  induction d as [|b d IH]; intros acc; cbn [fold_left]; [lia|].
  rewrite (IH (acc * b)%Z), (IH (1 * b)%Z). lia.
Qed.

Lemma prod_cons (a : Z) (d : list Z) : prod (a :: d) = (a * prod d)%Z.
Proof. unfold prod. cbn [fold_left]. rewrite fold_mul_acc. lia. Qed.

Lemma prod_app (d d' : list Z) : prod (d ++ d') = (prod d * prod d')%Z.
Proof.
  induction d as [|a d IH]; cbn [app].
  - change (prod []) with 1%Z. lia.
  - rewrite !prod_cons, IH. lia.
Qed.

Lemma prod_perm (d d' : list Z) : Permutation d d' -> prod d = prod d'.
Proof.
  induction 1 as [|a d d' P IH|a b d|d d' d'' P IH P' IH'].
  - reflexivity.
  - rewrite !prod_cons, IH. reflexivity.
  - rewrite !prod_cons. lia.
  - congruence.
Qed.

Lemma remove_at_perm {A} (d : A) (l : list A) :
  forall k, k < length l -> Permutation l (nth k l d :: remove_at k l).
Proof.
  induction l as [|a l IH]; intros [|k] H; simpl in H; try lia; cbn [nth remove_at].
  - apply Permutation_refl.
  - rewrite perm_swap. constructor. apply IH. lia.
Qed.

Lemma nth_remove_at_lt {A} (d : A) (l : list A) :
  forall j k, j < k -> nth j (remove_at k l) d = nth j l d.
Proof.
  induction l as [|a l IH]; intros j [|k] H; try lia; [destruct j; reflexivity|].
  cbn [remove_at]. destruct j; [reflexivity|]. cbn [nth]. apply IH. lia.
Qed.

Lemma prod_pos (d : list Z) : Forall (fun x => (1 <= x)%Z) d -> (1 <= prod d)%Z.
Proof.
  induction 1 as [|a d Ha _ IH]; [change (prod []) with 1%Z; lia|].
  rewrite prod_cons. nia.
Qed.

Lemma select_cons {A} (a : A) (d : list A) (f : bool) (fl : list bool) :
  select (a :: d) (f :: fl) = if f then a :: select d fl else select d fl.
Proof. unfold select. cbn [combine filter snd]. destruct f; reflexivity. Qed.

Lemma select_Forall {A} (P : A -> Prop) (d : list A) :
  forall flags, Forall P d -> Forall P (select d flags).
Proof.
  induction d as [|a d IH]; intros [|f fl] H; try (constructor; fail).
  rewrite select_cons. inversion H; subst. destruct f; [constructor|]; auto.
Qed.

Lemma prod_select_le (d : list Z) :
  forall flags, Forall (fun x => (1 <= x)%Z) d -> (prod (select d flags) <= prod d)%Z.
Proof.
  induction d as [|a d IH]; intros [|f fl] H;
    try (change (prod (select _ _)) with 1%Z; apply prod_pos, H).
  rewrite select_cons. inversion H as [|? ? Ha Hd]; subst.
  specialize (IH fl Hd). pose proof (prod_pos d Hd).
  pose proof (prod_pos _ (select_Forall _ d fl Hd)).
  destruct f; rewrite ?prod_cons; nia.
Qed.

Lemma volume_perm (s s' : list (list Z)) : Permutation s s' -> volume s = volume s'.
Proof.
  unfold volume. induction 1; cbn [fold_right]; try lia.
Qed.

Lemma volume_pos (s : list (list Z)) : positive_sizes s -> (1 <= volume s)%Z.
Proof.
  unfold volume. induction 1 as [|d s Hd _ IH]; cbn [fold_right]; [lia|].
  pose proof (prod_pos d Hd). nia.
Qed.

Lemma remove_at_Forall {A} (P : A -> Prop) (l : list A) :
  forall k, Forall P l -> Forall P (remove_at k l).
Proof.
  induction l as [|a l IH]; intros [|k] H; cbn [remove_at]; auto;
    inversion H; subst; auto.
Qed.

Lemma nth_Forall {A} (P : A -> Prop) (l : list A) (d : A) (k : nat) :
  Forall P l -> P d -> P (nth k l d).
Proof.
  intros H Hd. destruct (Nat.lt_ge_cases k (length l)) as [Hk|Hk].
  - rewrite Forall_forall in H. apply H, nth_In, Hk.
  - rewrite nth_overflow by exact Hk. exact Hd.
Qed.

Lemma volume_split (s : list (list Z)) (j k : nat) :
  j < k < length s ->
  volume s = (prod (nth j s []) * (prod (nth k s []) * volume (remove_at j (remove_at k s))))%Z.
Proof.
  intros [Hjk Hk].
  rewrite (volume_perm s (nth k s [] :: remove_at k s)) by (apply remove_at_perm, Hk).
  cbn [volume fold_right]. fold (volume (remove_at k s)).
  rewrite (volume_perm (remove_at k s)
             (nth j (remove_at k s) [] :: remove_at j (remove_at k s)))
    by (apply remove_at_perm; rewrite remove_at_length; lia).
  cbn [volume fold_right]. fold (volume (remove_at j (remove_at k s))).
  rewrite nth_remove_at_lt by exact Hjk. lia.
Qed.

Section Bounded.
Variables (olabels : labels) (s : list (list Z)) (ls : list labels) (p : step).
Hypothesis Hpos : positive_sizes s.
Hypothesis Hp : fst p < snd p < length s.

Lemma pair_cost_bound : (0 <= pair_cost s ls p <= volume s)%Z.
Proof.
  unfold pair_cost, contraction_cost. rewrite (volume_split s (fst p) (snd p) Hp).
  assert (H1 : Forall (fun x => (1 <= x)%Z) (nth (fst p) s [])) by (apply nth_Forall; auto).
  assert (H2 : Forall (fun x => (1 <= x)%Z) (nth (snd p) s [])) by (apply nth_Forall; auto).
  pose proof (prod_pos _ H1). pose proof (prod_pos _ H2).
  pose proof (prod_select_le _ (m2 (nth (fst p) ls []) (nth (snd p) ls [])) H2).
  pose proof (prod_pos _ (select_Forall _ _ (m2 (nth (fst p) ls []) (nth (snd p) ls [])) H2)).
  assert (Hr : positive_sizes (remove_at (fst p) (remove_at (snd p) s)))
    by (apply remove_at_Forall, remove_at_Forall, Hpos).
  pose proof (volume_pos _ Hr).
  set (a := prod (nth (fst p) s [])) in *. set (b := prod (nth (snd p) s [])) in *.
  set (c := prod (select _ _)) in *. set (v := volume _) in *.
  assert (c <= b * v)%Z by nia.
  split; [nia|]. apply Z.mul_le_mono_nonneg_l; lia.
Qed.

Lemma pair_step_positive :
  positive_sizes (pair_shape s ls olabels p :: remove_at (fst p) (remove_at (snd p) s)).
Proof.
  constructor; [|apply remove_at_Forall, remove_at_Forall, Hpos].
  unfold pair_shape, new_shape. apply Forall_app.
  split; apply select_Forall, nth_Forall; auto.
Qed.

Lemma pair_step_volume :
  (volume (pair_shape s ls olabels p :: remove_at (fst p) (remove_at (snd p) s))
   <= volume s)%Z.
Proof.
  rewrite (volume_split s (fst p) (snd p) Hp). cbn [volume fold_right].
  fold (volume (remove_at (fst p) (remove_at (snd p) s))).
  unfold pair_shape, new_shape. rewrite prod_app.
  assert (H1 : Forall (fun x => (1 <= x)%Z) (nth (fst p) s [])) by (apply nth_Forall; auto).
  assert (H2 : Forall (fun x => (1 <= x)%Z) (nth (snd p) s [])) by (apply nth_Forall; auto).
  pose proof (prod_select_le _ (m1 (nth (fst p) ls []) (nth (snd p) ls []) olabels) H1).
  pose proof (prod_select_le _ (m2 (nth (fst p) ls []) (nth (snd p) ls [])) H2).
  pose proof (prod_pos _ (select_Forall _ _
                            (m1 (nth (fst p) ls []) (nth (snd p) ls []) olabels) H1)).
  pose proof (prod_pos _ (select_Forall _ _ (m2 (nth (fst p) ls []) (nth (snd p) ls [])) H2)).
  pose proof (prod_pos _ H1). pose proof (prod_pos _ H2).
  assert (Hr : positive_sizes (remove_at (fst p) (remove_at (snd p) s)))
    by (apply remove_at_Forall, remove_at_Forall, Hpos).
  pose proof (volume_pos _ Hr).
  set (a := prod (nth (fst p) s [])) in *. set (b := prod (nth (snd p) s [])) in *.
  set (c1 := prod (select (nth (fst p) s []) _)) in *.
  set (c2 := prod (select (nth (snd p) s []) _)) in *.
  set (v := volume _) in *.
  assert (c1 * c2 <= a * b)%Z by (apply Z.mul_le_mono_nonneg; lia).
  rewrite Z.mul_assoc. apply Z.mul_le_mono_nonneg; try lia.
Qed.
End Bounded.

(** Along a greedy run no cost reaches the product of all the sizes. *)
Lemma greedy_run_costs (B : Z) (olabels : labels) (ishapes : list (list Z))
      (ilabels : list labels) (sq : list step) :
  length ishapes = length ilabels ->
  positive_sizes ishapes -> (volume ishapes < B)%Z ->
  greedy_run olabels ishapes ilabels sq ->
  costs_below B olabels ishapes ilabels sq.
Proof.
  intros Hlen Hpos Hvol R. induction R as [|ishapes ilabels p sq Hn F R IH]; [exact I|].
  destruct F as [Hr _]. rewrite <- Hlen in Hr. cbn [costs_below]. split.
  - intros q Hq. rewrite <- Hlen in Hq.
    pose proof (pair_cost_bound ishapes ilabels q Hpos Hq). lia.
  - apply IH.
    + cbn [length]. rewrite !remove_at_length; rewrite ?remove_at_length; lia.
    + apply pair_step_positive; auto.
    + pose proof (pair_step_volume olabels ishapes ilabels p Hpos Hr). lia.
Qed.

(** C8. For operand lists of any length N (so in particular N >= 2), with
    positive sizes whose product over all the operands is below 2^31, the
    greedy optimiser returns a sequence of exactly N-1 steps; every step
    is a pair (j, k), j < k, of the current live list whose cost -- the
    product of all axis sizes of operand j times the product of the axis
    sizes of operand k over the labels operand j lacks -- is minimal, and
    strictly smaller than the cost of every pair scanned before it in
    row-major order; the pair is recorded and the two operands are replaced
    by their combination at the front of the live list.  Every cost that
    the scans compute on the way (lines 769-770) is an integer of
    [0, 2^31): [np.prod] and the comparison of line 772 are exact on it, so
    that the exact products of the model are the costs that the code
    compares.  (Beyond the bound [np.prod] wraps around and the code may
    pick another pair.) *)
Theorem greedy_selects_first_cheapest_pairs
        (ishapes : list (list Z)) (ilabels : list labels) (olabels : labels) :
  length ishapes = length ilabels ->
  2 <= length ishapes ->
  positive_sizes ishapes ->
  (volume ishapes < exact_bound)%Z ->
  (exists sq,
     _einsum_optimize_greedy ishapes ilabels olabels = Ret sq /\
     length sq = length ishapes - 1 /\
     greedy_run olabels ishapes ilabels sq /\
     costs_below exact_bound olabels ishapes ilabels sq) /\
  (forall shapes labs p,
     pair_cost shapes labs p =
     (prod (nth (fst p) shapes []) *
      prod (select (nth (snd p) shapes [])
                   (map (fun l => negb (mem l (nth (fst p) labs [])))
                        (nth (snd p) labs []))))%Z).
Proof.
  intros Hlen Hn Hpos Hvol. split.
  - unfold _einsum_optimize_greedy.
    destruct (greedy_loop_run olabels (length ishapes) ishapes ilabels [] Hlen (le_n _))
      as [sq [E [Hl R]]].
    exists sq. repeat split; auto.
    apply greedy_run_costs; auto.
  - intros shapes labs p. unfold pair_cost, contraction_cost.
    rewrite m2_not_shared. reflexivity.
Qed.

Lemma greedy_selects_first_cheapest_pairs_witness :
  (exists sq,
     _einsum_optimize_greedy [[10; 3]; [3; 4]; [4; 50]; [50; 2]]%Z
                             [L "ij"; L "jk"; L "kl"; L "lm"] (L "im") = Ret sq /\
     length sq = 3 /\
     greedy_run (L "im") [[10; 3]; [3; 4]; [4; 50]; [50; 2]]%Z
                [L "ij"; L "jk"; L "kl"; L "lm"] sq /\
     costs_below exact_bound (L "im") [[10; 3]; [3; 4]; [4; 50]; [50; 2]]%Z
                 [L "ij"; L "jk"; L "kl"; L "lm"] sq) /\
  (forall shapes labs p,
     pair_cost shapes labs p =
     (prod (nth (fst p) shapes []) *
      prod (select (nth (snd p) shapes [])
                   (map (fun l => negb (mem l (nth (fst p) labs [])))
                        (nth (snd p) labs []))))%Z).
Proof.
  apply (greedy_selects_first_cheapest_pairs
           [[10; 3]; [3; 4]; [4; 50]; [50; 2]]%Z
           [L "ij"; L "jk"; L "kl"; L "lm"] (L "im")).
  - reflexivity.
  - simpl. lia.
  - repeat constructor; lia.
  - vm_compute. reflexivity.
Defined.

(** ** Insertion positions of [_tree_to_sequence] *)

Lemma insert_pos_from (t2 : list nat) (t : nat) :
  forall off acc,
    let r := fold_left Nat.max
               (map (fun jn => S (fst jn))
                    (filter (fun jn => snd jn <? t) (combine (seq off (length t2)) t2)))
               acc in
    acc <= r /\
    r <= Nat.max acc (off + length t2) /\
    (forall q n, nth_error t2 q = Some n -> n < t -> off + q < r) /\
    (r = acc \/ exists q n, r = S (off + q) /\ nth_error t2 q = Some n /\ n < t).
Proof.
  induction t2 as [|n t2 IH]; intros off acc; simpl.
  - split; [lia|split; [lia|split]].
    + intros [|q] m H; discriminate.
    + left. reflexivity.
  - destruct (n <? t) eqn:Hlt; simpl.
    + apply Nat.ltb_lt in Hlt.
      specialize (IH (S off) (Nat.max acc (S off))). simpl in IH.
      destruct IH as [H1 [H2 [H3 H4]]]. split; [lia|split; [lia|split]].
      * intros [|q] m Hq Hm; simpl in Hq.
        -- lia.
        -- specialize (H3 q m Hq Hm). lia.
      * destruct H4 as [H4 | [q [m [E [Hq Hm]]]]].
        -- destruct (Nat.max_spec acc (S off)) as [[_ E]|[_ E]].
           ++ right. exists 0, n. simpl. repeat split; auto. lia.
           ++ left. lia.
        -- right. exists (S q), m. simpl. repeat split; auto. lia.
    + apply Nat.ltb_ge in Hlt.
      specialize (IH (S off) acc). simpl in IH.
      destruct IH as [H1 [H2 [H3 H4]]]. split; [lia|split; [lia|split]].
      * intros [|q] m Hq Hm; simpl in Hq.
        -- inversion Hq; subst. lia.
        -- specialize (H3 q m Hq Hm). lia.
      * destruct H4 as [H4 | [q [m [E [Hq Hm]]]]]; auto.
        right. exists (S q), m. simpl. repeat split; auto. lia.
Qed.

Lemma insert_pos_le (t2 : list nat) (t : nat) : insert_pos t2 t <= length t2.
Proof.
  pose proof (insert_pos_from t2 t 0 0) as [_ [H _]]. unfold insert_pos. simpl in H. lia.
Qed.

Lemma insert_pos_after (t2 : list nat) (t q n : nat) :
  nth_error t2 q = Some n -> n < t -> q < insert_pos t2 t.
Proof.
  pose proof (insert_pos_from t2 t 0 0) as [_ [_ [H _]]].
  intros Hq Hn. apply (H q n Hq Hn).
Qed.

Lemma insert_pos_pred (t2 : list nat) (t : nat) :
  insert_pos t2 t = 0 \/
  exists q n, insert_pos t2 t = S q /\ nth_error t2 q = Some n /\ n < t.
Proof.
  pose proof (insert_pos_from t2 t 0 0) as [_ [_ [_ H]]].
  unfold insert_pos. destruct H as [H | [q [n [E H]]]]; [left | right]; auto.
  exists q, n. auto.
Qed.

Lemma insert_at_length {A} (p : nat) (a : A) (l : list A) :
  length (insert_at p a l) = S (length l).
Proof.
  unfold insert_at. rewrite length_app. simpl.
  rewrite length_firstn, length_skipn. lia.
Qed.

Lemma insert_at_nth {A} (p : nat) (a : A) (l : list A) :
  p <= length l -> nth_error (insert_at p a l) p = Some a.
Proof.
  intros H. unfold insert_at.
  rewrite nth_error_app2 by (rewrite length_firstn; lia).
  rewrite length_firstn. replace (p - Nat.min p (length l)) with 0 by lia.
  reflexivity.
Qed.

Lemma insert_at_remove {A} (p : nat) (a : A) (l : list A) :
  p <= length l -> remove_at p (insert_at p a l) = l.
Proof.
  intros H. unfold insert_at.
  replace p with (length (firstn p l) + 0) at 1 by (rewrite length_firstn; lia).
  rewrite remove_at_app_r. simpl. apply firstn_skipn.
Qed.

Lemma insert_at_perm {A} (p : nat) (a : A) (l : list A) :
  Permutation (insert_at p a l) (a :: l).
Proof.
  unfold insert_at. rewrite <- (firstn_skipn p l) at 3.
  apply Permutation_sym, Permutation_middle.
Qed.

Lemma pop_app_r {A} (pre l : list A) (i : nat) (a : A) (l' : list A) :
  pop l i = Ret (a, l') -> pop (pre ++ l) (i + length pre) = Ret (a, pre ++ l').
Proof.
  unfold pop. intros H.
  rewrite nth_error_app2 by lia.
  replace (i + length pre - length pre) with i by lia.
  destruct (nth_error l i) as [x|]; [|discriminate].
  inversion H; subst. rewrite Nat.add_comm, remove_at_app_r. reflexivity.
Qed.

Lemma pop_insert_at {A} (p : nat) (a : A) (l : list A) :
  p <= length l -> pop (insert_at p a l) p = Ret (a, l).
Proof.
  intros H. unfold pop. rewrite insert_at_nth by exact H.
  rewrite insert_at_remove by exact H. reflexivity.
Qed.

Lemma map_insert_at {A B} (f : A -> B) (p : nat) (a : A) (l : list A) :
  map f (insert_at p a l) = insert_at p (f a) (map f l).
Proof.
  unfold insert_at. rewrite map_app. simpl. rewrite firstn_map, skipn_map. reflexivity.
Qed.

(** Popping the leaf that was just placed gives the simulated list back. *)
Lemma pop_placed_leaf (pre : list ctree) (t2 : list nat) (t : nat) :
  pop (pre ++ map Leaf (insert_at (insert_pos t2 t) t t2)) (insert_pos t2 t + length pre)
  = Ret (Leaf t, pre ++ map Leaf t2).
Proof.
  apply pop_app_r. rewrite map_insert_at. apply pop_insert_at.
  rewrite length_map. apply insert_pos_le.
Qed.

(** ** Strictly increasing lists *)

Lemma StronglySorted_app_inv {A} (R : A -> A -> Prop) (l1 l2 : list A) :
  StronglySorted R (l1 ++ l2) ->
  StronglySorted R l1 /\ StronglySorted R l2 /\
  (forall x y, In x l1 -> In y l2 -> R x y).
Proof.
  induction l1 as [|a l1 IH]; simpl; intros H.
  - split; [constructor|split; [exact H|intros x y []]].
  - inversion H; subst. destruct (IH H2) as [S1 [S2 C]].
    rewrite Forall_app in H3. destruct H3 as [F1 F2].
    split; [constructor; auto|split; auto].
    intros x y [<-|Hx] Hy; auto.
    rewrite Forall_forall in F2. auto.
Qed.

Lemma sorted_nth_lt (l : list nat) :
  StronglySorted lt l ->
  forall i j a b, i < j -> nth_error l i = Some a -> nth_error l j = Some b -> a < b.
Proof.
  induction 1 as [|x l HS IH HF]; intros i j a b Hij Hi Hj.
  - destruct i; discriminate.
  - destruct j as [|j]; [lia|]. simpl in Hj. destruct i as [|i]; simpl in Hi.
    + inversion Hi; subst. rewrite Forall_forall in HF.
      apply HF. eapply nth_error_In; eauto.
    + apply (IH i j); auto. lia.
Qed.

Lemma sorted_same_elements (l1 : list nat) :
  forall l2, StronglySorted lt l1 -> StronglySorted lt l2 ->
             (forall x, In x l1 <-> In x l2) -> l1 = l2.
Proof.
  induction l1 as [|a l1 IH]; intros [|b l2] S1 S2 H.
  - reflexivity.
  - exfalso. apply (proj2 (H b)). left. reflexivity.
  - exfalso. apply (proj1 (H a)). left. reflexivity.
  - inversion S1 as [|? ? S1' F1]; inversion S2 as [|? ? S2' F2]; subst.
    rewrite Forall_forall in F1, F2.
    assert (a = b) as ->.
    { destruct (proj1 (H a) (or_introl eq_refl)) as [E|Ha]; auto.
      destruct (proj2 (H b) (or_introl eq_refl)) as [E|Hb]; auto.
      specialize (F1 _ Hb). specialize (F2 _ Ha). lia. }
    f_equal. apply IH; auto.
    intros x. split; intros Hx.
    + destruct (proj1 (H x) (or_intror Hx)) as [E|Hx']; auto.
      specialize (F1 _ Hx). lia.
    + destruct (proj2 (H x) (or_intror Hx)) as [E|Hx']; auto.
      specialize (F2 _ Hx). lia.
Qed.

Lemma seq_sorted (a n : nat) : StronglySorted lt (seq a n).
Proof.
  revert a. induction n as [|n IH]; intros a; simpl; constructor; auto.
  apply Forall_forall. intros x Hx. apply in_seq in Hx. lia.
Qed.

Lemma sorted_perm_seq (l : list nat) (n : nat) :
  StronglySorted lt l -> Permutation l (seq 0 n) -> l = seq 0 n.
Proof.
  intros S P. apply sorted_same_elements; auto using seq_sorted.
  intros x. split; intros Hx.
  - eapply Permutation_in; eauto.
  - eapply Permutation_in; [apply Permutation_sym|]; eauto.
Qed.

(** Placing a leaf keeps the simulated leaves strictly increasing. *)
Lemma insert_pos_sorted (t2 : list nat) (t : nat) :
  StronglySorted lt t2 -> ~ In t t2 ->
  StronglySorted lt (insert_at (insert_pos t2 t) t t2).
Proof.
  intros HS Hnot. unfold insert_at.
  set (p := insert_pos t2 t).
  pose proof HS as HS'. rewrite <- (firstn_skipn p t2) in HS'.
  apply StronglySorted_app_inv in HS'. destruct HS' as [S1 [S2 C]].
  assert (forall x, In x (firstn p t2) -> x < t) as HA.
  { intros x Hx. apply In_nth_error in Hx. destruct Hx as [q Hq].
    rewrite nth_error_firstn in Hq. destruct (q <? p) eqn:Hqp; [|discriminate].
    apply Nat.ltb_lt in Hqp.
    destruct (insert_pos_pred t2 t) as [E | [q0 [n0 [E [Hq0 Hn0]]]]]; fold p in E; [lia|].
    destruct (Nat.eq_dec q q0) as [->|Hne].
    - congruence.
    - assert (x < n0); [|lia]. apply (sorted_nth_lt t2 HS q q0); auto. lia. }
  assert (forall y, In y (skipn p t2) -> t < y) as HB.
  { intros y Hy. apply In_nth_error in Hy. destruct Hy as [q Hq].
    rewrite nth_error_skipn in Hq.
    destruct (Nat.lt_ge_cases y t) as [Hlt|Hge].
    - pose proof (insert_pos_after t2 t (p + q) y Hq Hlt) as H. fold p in H. lia.
    - assert (y <> t); [|lia]. intros ->. apply Hnot. eapply nth_error_In; eauto. }
  apply StronglySorted_app; auto.
  - constructor; auto. apply Forall_forall. exact HB.
  - intros x y Hx [<-|Hy]; auto.
Qed.

(** ** One iteration of the linearisation loop *)

Lemma length_live_list (t1 : list (ctree * ctree)) (t2 : list nat) :
  length (live_list t1 t2) = length t1 + length t2.
Proof. unfold live_list. rewrite length_app, !length_map. reflexivity. Qed.

Lemma sorted_nat_pair (i j : nat) :
  sorted_nat [i; j] = if i <=? j then [i; j] else [j; i].
Proof. reflexivity. Qed.

Lemma tree_step_fst (x : ctree * ctree) (t1 : list (ctree * ctree)) (t2 : list nat) :
  fst (fst (tree_step x t1 t2)) = rev (tuples_of (fst x) ++ tuples_of (snd x)) ++ t1.
Proof.
  destruct x as [a b]. unfold tree_step.
  destruct (fold_left _ _ _). reflexivity.
Qed.

(** Two leaves, the smaller one placed first. *)
Lemma replay_two_leaves (pre : list ctree) (t2 : list nat) (lo hi : nat) :
  lo < hi ->
  let p1 := insert_pos t2 lo in
  let t2a := insert_at p1 lo t2 in
  let p2 := insert_pos t2a hi in
  let t2b := insert_at p2 hi t2a in
  replay_step node_of (pre ++ map Leaf t2b) (p1 + length pre, p2 + length pre)
  = Ret (Node (Leaf lo) (Leaf hi) :: pre ++ map Leaf t2)
  /\ p1 < p2 /\ p2 <= length t2a.
Proof.
  intros Hlt p1 t2a p2 t2b.
  assert (p1 <= length t2) as Hp1 by apply insert_pos_le.
  assert (p2 <= length t2a) as Hp2 by apply insert_pos_le.
  assert (p1 < p2) as H12.
  { apply (insert_pos_after t2a hi p1 lo); auto.
    apply insert_at_nth. exact Hp1. }
  split; [|split; auto].
  unfold replay_step.
  replace (p2 + length pre <? p1 + length pre) with false
    by (symmetry; apply Nat.ltb_ge; lia).
  unfold t2b, p2. rewrite pop_placed_leaf. cbn [bind].
  unfold t2a, p1. rewrite pop_placed_leaf. reflexivity.
Qed.

(** A subtree at the front and one leaf. *)
Lemma replay_tree_leaf (c : ctree) (pre : list ctree) (t2 : list nat) (t : nat) :
  let p := insert_pos t2 t in
  replay_step node_of (c :: pre ++ map Leaf (insert_at p t t2)) (0, p + S (length pre))
  = Ret (Node c (Leaf t) :: pre ++ map Leaf t2).
Proof.
  intros p. unfold replay_step.
  replace (p + S (length pre) <? 0) with false by (symmetry; apply Nat.ltb_ge; lia).
  change (c :: pre ++ map Leaf (insert_at p t t2))
    with ((c :: pre) ++ map Leaf (insert_at p t t2)).
  change (S (length pre)) with (length (c :: pre)).
  unfold p. rewrite pop_placed_leaf. reflexivity.
Qed.

Lemma tree_step_replay (a b : ctree) (t1r : list (ctree * ctree)) (t2 : list nat) :
  NoDup (ints_of a ++ ints_of b) ->
  (forall i, In i (ints_of a ++ ints_of b) -> ~ In i t2) ->
  exists t2' s,
    tree_step (a, b) t1r t2 = (rev (tuples_of a ++ tuples_of b) ++ t1r, t2', s) /\
    replay_step node_of (live_list (rev (tuples_of a ++ tuples_of b) ++ t1r) t2') s
    = Ret (live_list ((a, b) :: t1r) t2) /\
    fst s <> snd s /\
    fst s < length (rev (tuples_of a ++ tuples_of b) ++ t1r) + length t2' /\
    snd s < length (rev (tuples_of a ++ tuples_of b) ++ t1r) + length t2' /\
    Permutation t2' (ints_of a ++ ints_of b ++ t2) /\
    (StronglySorted lt t2 -> StronglySorted lt t2').
Proof.
  intros Hnd Hfresh.
  destruct a as [i|a1 a2], b as [j|b1 b2].
  - (* two leaves *)
    simpl in Hnd, Hfresh.
    assert (i <> j) as Hij.
    { inversion Hnd; subst. simpl in H1. intuition. }
    unfold tree_step. cbn [tuples_of ints_of app rev length seq].
    rewrite sorted_nat_pair.
    destruct (i <=? j) eqn:Hle.
    + apply Nat.leb_le in Hle.
      destruct (replay_two_leaves (map (fun x => replayed (Node (fst x) (snd x))) t1r)
                                  t2 i j) as [E [H12 Hp2]]; [lia|].
      rewrite length_map in E.
      cbn [fold_left place_leaf app]. unfold as_step. cbn [nth].
      eexists. eexists. split; [reflexivity|].
      split; [|split; [|split; [|split; [|split]]]].
      * unfold live_list. rewrite E. cbn [map fst snd replayed app].
        rewrite Nat.min_l, Nat.max_r by lia. reflexivity.
      * cbn [fst snd]. lia.
      * cbn [fst snd]. rewrite !insert_at_length in *. lia.
      * cbn [fst snd]. rewrite !insert_at_length in *. lia.
      * eapply Permutation_trans; [apply insert_at_perm|].
        eapply Permutation_trans; [apply perm_skip, insert_at_perm|].
        apply perm_swap.
      * intros HS. apply insert_pos_sorted.
        -- apply insert_pos_sorted; auto.
        -- intros Hin. apply (Permutation_in _ (insert_at_perm _ _ _)) in Hin.
           destruct Hin as [E'|Hin]; [lia|]. apply (Hfresh j); auto.
    + apply Nat.leb_gt in Hle.
      destruct (replay_two_leaves (map (fun x => replayed (Node (fst x) (snd x))) t1r)
                                  t2 j i) as [E [H12 Hp2]]; [lia|].
      rewrite length_map in E.
      cbn [fold_left place_leaf app]. unfold as_step. cbn [nth].
      eexists. eexists. split; [reflexivity|].
      split; [|split; [|split; [|split; [|split]]]].
      * unfold live_list. rewrite E. cbn [map fst snd replayed app].
        rewrite Nat.min_r, Nat.max_l by lia. reflexivity.
      * cbn [fst snd]. lia.
      * cbn [fst snd]. rewrite !insert_at_length in *. lia.
      * cbn [fst snd]. rewrite !insert_at_length in *. lia.
      * eapply Permutation_trans; [apply insert_at_perm|].
        apply perm_skip, insert_at_perm.
      * intros HS. apply insert_pos_sorted.
        -- apply insert_pos_sorted; auto.
        -- intros Hin. apply (Permutation_in _ (insert_at_perm _ _ _)) in Hin.
           destruct Hin as [E'|Hin]; [lia|]. apply (Hfresh i); auto.
  - (* a leaf and a subtree *)
    unfold tree_step. cbn [tuples_of ints_of app rev length seq].
    change (sorted_nat [i]) with [i].
    cbn [fold_left place_leaf app]. unfold as_step. cbn [nth].
    eexists. eexists. split; [reflexivity|].
    split; [|split; [|split; [|split; [|split]]]].
    + unfold live_list. cbn [map fst snd app].
      pose proof (replay_tree_leaf (replayed (Node b1 b2))
                    (map (fun x => replayed (Node (fst x) (snd x))) t1r) t2 i) as E.
      cbn zeta in E. rewrite length_map in E. rewrite E. reflexivity.
    + cbn [fst snd]. lia.
    + cbn [fst snd]. lia.
    + cbn [fst snd]. rewrite insert_at_length. pose proof (insert_pos_le t2 i). lia.
    + apply insert_at_perm.
    + intros HS. apply insert_pos_sorted; auto. apply Hfresh. simpl. auto.
  - (* a subtree and a leaf *)
    unfold tree_step. cbn [tuples_of ints_of app rev length seq].
    change (sorted_nat [j]) with [j].
    cbn [fold_left place_leaf app]. unfold as_step. cbn [nth].
    eexists. eexists. split; [reflexivity|].
    split; [|split; [|split; [|split; [|split]]]].
    + unfold live_list. cbn [map fst snd app].
      pose proof (replay_tree_leaf (replayed (Node a1 a2))
                    (map (fun x => replayed (Node (fst x) (snd x))) t1r) t2 j) as E.
      cbn zeta in E. rewrite length_map in E. rewrite E. reflexivity.
    + cbn [fst snd]. lia.
    + cbn [fst snd]. lia.
    + cbn [fst snd]. rewrite insert_at_length. pose proof (insert_pos_le t2 j). lia.
    + apply insert_at_perm.
    + intros HS. apply insert_pos_sorted; auto. apply Hfresh. simpl. auto.
  - (* two subtrees *)
    unfold tree_step. cbn [tuples_of ints_of app rev length seq].
    change (sorted_nat []) with (@nil nat). cbn [fold_left]. unfold as_step. cbn [nth].
    eexists. eexists. split; [reflexivity|].
    split; [|split; [|split; [|split; [|split]]]].
    + reflexivity.
    + cbn [fst snd]. lia.
    + cbn [fst snd length]. lia.
    + cbn [fst snd length]. lia.
    + apply Permutation_refl.
    + auto.
Qed.

(** ** The linearisation loop *)

Lemma replay_app {A} (combine : A -> A -> outcome A) (sq1 sq2 : list step) :
  forall live, replay combine live (sq1 ++ sq2)
               = bind (replay combine live sq1) (fun l => replay combine l sq2).
Proof.
  induction sq1 as [|s sq1 IH]; intros live; cbn [replay app bind]; auto.
  destruct (replay_step combine live s); cbn [bind]; auto.
Qed.

Lemma valid_seq_app (sq1 sq2 : list step) :
  forall n, valid_seq n sq1 -> valid_seq (n - length sq1) sq2 -> valid_seq n (sq1 ++ sq2).
Proof.
  induction sq1 as [|[j k] sq1 IH]; intros n H1 H2; simpl in *.
  - rewrite Nat.sub_0_r in H2. exact H2.
  - destruct H1 as [Hne [Hj [Hk H1]]]. repeat split; auto.
    apply IH; auto. replace (n - 1 - length sq1) with (n - S (length sq1)) by lia.
    exact H2.
Qed.

Lemma pending_leaves_app (t1 t1' : list (ctree * ctree)) :
  pending_leaves (t1 ++ t1') = pending_leaves t1 ++ pending_leaves t1'.
Proof. unfold pending_leaves. apply flat_map_app. Qed.

Lemma pending_nodes_app (t1 t1' : list (ctree * ctree)) :
  pending_nodes (t1 ++ t1') = pending_nodes t1 + pending_nodes t1'.
Proof.
  induction t1 as [|x t1 IH]; simpl; auto. rewrite IH. lia.
Qed.

Lemma children_nodes (a b : ctree) :
  pending_nodes (rev (tuples_of a ++ tuples_of b)) = nodes a + nodes b.
Proof.
  destruct a, b; simpl; lia.
Qed.

Lemma children_leaves (a b : ctree) :
  Permutation (pending_leaves (rev (tuples_of a ++ tuples_of b))
                 ++ ints_of a ++ ints_of b)
              (leaves a ++ leaves b).
Proof.
  destruct a as [i|a1 a2], b as [j|b1 b2]; simpl; rewrite ?app_nil_r.
  - apply Permutation_refl.
  - apply Permutation_sym, Permutation_cons_append.
  - apply Permutation_refl.
  - apply Permutation_app_comm.
Qed.

Lemma ints_of_incl (a : ctree) (i : nat) : In i (ints_of a) -> In i (leaves a).
Proof. destruct a; simpl; [auto | intros []]. Qed.

Lemma ints_of_NoDup (a b : ctree) :
  NoDup (leaves a ++ leaves b) -> NoDup (ints_of a ++ ints_of b).
Proof.
  intros H. destruct a as [i|a1 a2], b as [j|b1 b2]; simpl in *; auto;
    repeat constructor; simpl; auto.
Qed.

Lemma perm_shuffle {A} (a c l r t t' : list A) :
  Permutation (a ++ c) l -> Permutation t' (c ++ t) ->
  Permutation ((a ++ r) ++ t') ((l ++ r) ++ t).
Proof.
  intros H1 H2.
  eapply Permutation_trans; [apply Permutation_app_head, H2|].
  rewrite <- !app_assoc.
  eapply Permutation_trans; [|apply Permutation_app_tail, H1].
  rewrite <- !app_assoc. apply Permutation_app_head.
  rewrite !app_assoc. apply Permutation_app_tail. apply Permutation_app_comm.
Qed.

Lemma step_leaves_perm (a b : ctree) (t1r : list (ctree * ctree)) (t2 t2' : list nat) :
  Permutation t2' (ints_of a ++ ints_of b ++ t2) ->
  Permutation (pending_leaves (rev (tuples_of a ++ tuples_of b) ++ t1r) ++ t2')
              (pending_leaves ((a, b) :: t1r) ++ t2).
Proof.
  intros P. rewrite pending_leaves_app.
  change (pending_leaves ((a, b) :: t1r))
    with ((leaves a ++ leaves b) ++ pending_leaves t1r).
  apply perm_shuffle with (c := ints_of a ++ ints_of b).
  - apply children_leaves.
  - rewrite <- app_assoc. exact P.
Qed.

Lemma NoDup_app_disjoint {A} (l1 l2 : list A) :
  NoDup (l1 ++ l2) -> forall x, In x l1 -> ~ In x l2.
Proof.
  induction l1 as [|y l1 IH]; simpl; intros Hn x []; subst.
  - inversion Hn; subst. intros Hx. apply H1. apply in_or_app. auto.
  - inversion Hn; subst. apply IH; auto.
Qed.

Lemma tree_loop_replay (fuel : nat) :
  forall t1 t2 sq,
    pending_nodes t1 <= fuel ->
    NoDup (pending_leaves t1 ++ t2) ->
    StronglySorted lt t2 ->
    exists sq' t2f,
      tree_loop fuel t1 t2 sq = sq' ++ sq /\
      length sq' = pending_nodes t1 /\
      replay node_of (map Leaf t2f) sq' = Ret (live_list t1 t2) /\
      valid_seq (length t2f) sq' /\
      Permutation t2f (pending_leaves t1 ++ t2) /\
      StronglySorted lt t2f.
Proof.
  induction fuel as [|fuel IH]; intros t1 t2 sq Hfuel Hnd HS.
  - destruct t1 as [|x t1r]; [|simpl in Hfuel; lia].
    exists [], t2. simpl. repeat split; auto.
  - destruct t1 as [|[a b] t1r].
    + exists [], t2. simpl. repeat split; auto.
    + cbn [tree_loop].
      assert (NoDup ((leaves a ++ leaves b) ++ pending_leaves t1r ++ t2)) as Hnd'.
      { unfold pending_leaves in Hnd. cbn [flat_map fst snd] in Hnd.
        rewrite <- app_assoc in Hnd. exact Hnd. }
      destruct (tree_step_replay a b t1r t2) as [t2' [s [E [R [Hne [Hj [Hk [P S]]]]]]]].
      { apply ints_of_NoDup. eapply NoDup_app_remove_r; eauto. }
      { intros i Hi Hin.
        assert (In i (leaves a ++ leaves b)) as Hi'.
        { apply in_app_or in Hi. apply in_or_app.
          destruct Hi as [Hi|Hi]; [left|right]; apply ints_of_incl; auto. }
        apply (NoDup_app_disjoint _ _ Hnd' i Hi').
        apply in_or_app. auto. }
      rewrite E.
      set (t1' := rev (tuples_of a ++ tuples_of b) ++ t1r) in *.
      destruct (IH t1' t2' (s :: sq)) as [sq' [t2f [E' [Hl [R' [V [P' S']]]]]]].
      * unfold t1'. rewrite pending_nodes_app, children_nodes.
        simpl in Hfuel. lia.
      * eapply Permutation_NoDup; [|exact Hnd].
        apply Permutation_sym. apply step_leaves_perm. exact P.
      * auto.
      * exists (sq' ++ [s]), t2f.
        assert (length (live_list t1' t2') = length t2f - length sq') as Hlive.
        { destruct (replay_valid Node sq' (map Leaf t2f)) as [l [El Hll]].
          - rewrite length_map. exact V.
          - unfold node_of in R'. rewrite R' in El. inversion El; subst.
            rewrite Hll, length_map. reflexivity. }
        split; [rewrite E', <- app_assoc; reflexivity|].
        split; [rewrite length_app, Hl; unfold t1';
                rewrite pending_nodes_app, children_nodes; simpl; lia|].
        split; [rewrite replay_app, R'; cbn [bind replay]; rewrite R; reflexivity|].
        split.
        { apply valid_seq_app; auto. rewrite <- Hlive, length_live_list.
          destruct s as [j k]. simpl in *. repeat split; auto. }
        split; auto.
        eapply Permutation_trans; [exact P'|].
        apply step_leaves_perm. exact P.
Qed.

Lemma leaves_nodes (t : ctree) : length (leaves t) = S (nodes t).
Proof.
  induction t as [i|a IHa b IHb]; simpl; auto.
  rewrite length_app, IHa, IHb. lia.
Qed.

Lemma replayed_same (t : ctree) : same_contractions (replayed t) t.
Proof.
  induction t as [i|a IHa b IHb]; [constructor|].
  destruct a as [i|a1 a2], b as [j|b1 b2].
  - cbn [replayed]. destruct (Nat.le_ge_cases i j) as [H|H].
    + rewrite Nat.min_l, Nat.max_r by lia. repeat constructor.
    + rewrite Nat.min_r, Nat.max_l by lia. apply same_swap; constructor.
  - change (replayed (Node (Leaf i) (Node b1 b2)))
      with (Node (replayed (Node b1 b2)) (Leaf i)).
    apply same_swap; [exact IHb | constructor].
  - change (replayed (Node (Node a1 a2) (Leaf j)))
      with (Node (replayed (Node a1 a2)) (Leaf j)).
    apply same_node; [exact IHa | constructor].
  - change (replayed (Node (Node a1 a2) (Node b1 b2)))
      with (Node (replayed (Node b1 b2)) (replayed (Node a1 a2))).
    apply same_swap; [exact IHb | exact IHa].
Qed.

(** The sequence of a tree whose leaves are the positions [0 .. n-1]: it has
    [n-1] well-formed steps, and its replay against the operands in their
    original order builds the tree, up to the order of the children. *)
Lemma tree_to_sequence_replay (t : ctree) (n : nat) :
  Permutation (leaves t) (seq 0 n) ->
  length (_tree_to_sequence t) = n - 1 /\
  valid_seq n (_tree_to_sequence t) /\
  replay node_of (map Leaf (seq 0 n)) (_tree_to_sequence t) = Ret [replayed t].
Proof.
  intros P.
  assert (n = S (nodes t)) as Hn.
  { rewrite <- leaves_nodes. apply Permutation_length in P.
    rewrite length_seq in P. congruence. }
  destruct t as [i|a b].
  - simpl in Hn. subst n. simpl in P.
    apply Permutation_length_1 in P. subst i. simpl. auto.
  - cbn [_tree_to_sequence].
    destruct (tree_loop_replay (nodes (Node a b)) [(a, b)] [] [])
      as [sq' [t2f [E [Hl [R [V [P' S]]]]]]].
    + simpl. lia.
    + unfold pending_leaves. simpl. rewrite !app_nil_r.
      eapply Permutation_NoDup; [apply Permutation_sym, P|]. apply seq_NoDup.
    + constructor.
    + rewrite app_nil_r in E. rewrite E.
      assert (t2f = seq 0 n) as ->.
      { apply sorted_perm_seq; auto.
        eapply Permutation_trans; [exact P'|].
        unfold pending_leaves. simpl. rewrite !app_nil_r. exact P. }
      rewrite length_seq in V.
      split; [|split; auto].
      rewrite Hl. cbn [pending_nodes fold_right fst snd]. simpl in Hn. lia.
Qed.

(** ** Connected components *)

Lemma mem_nat_In (a : nat) (s : list nat) : mem_nat a s = true <-> In a s.
Proof.
  unfold mem_nat. rewrite existsb_exists. split.
  - intros [x [Hin E]]. apply Nat.eqb_eq in E. subst. exact Hin.
  - intros H. exists a. split; auto. apply Nat.eqb_refl.
Qed.

Lemma filter_split_perm {A} (f : A -> bool) (l : list A) :
  Permutation (filter f l ++ filter (fun y => negb (f y)) l) l.
Proof.
  induction l as [|a l IH]; simpl; auto.
  destruct (f a); simpl.
  - apply perm_skip, IH.
  - apply Permutation_sym. eapply Permutation_trans; [|apply Permutation_middle].
    apply perm_skip, Permutation_sym, IH.
Qed.

Section SubgraphFacts.
Context {SO : SetOrder}.
Variable ilabels : list labels.
Variable olabels : labels.

Lemma linked_extend (l news : list nat) (x : nat) :
  linked ilabels olabels l -> In x l ->
  (forall y, In y news -> adjacent ilabels olabels x y = true) ->
  linked ilabels olabels (l ++ news).
Proof.
  revert l. induction news as [|y news IH]; intros l Hl Hx Hall.
  - rewrite app_nil_r. exact Hl.
  - change (y :: news) with ([y] ++ news). rewrite app_assoc. apply IH.
    + apply linked_snoc with (x := x); auto. apply Hall. left. reflexivity.
    + apply in_or_app. auto.
    + intros z Hz. apply Hall. right. exact Hz.
Qed.

Lemma linked_nonempty (l : list nat) : linked ilabels olabels l -> l <> [].
Proof.
  intros H. inversion H; subst; [discriminate|].
  intros E. apply app_eq_nil in E. destruct E; discriminate.
Qed.

Lemma unused_after (x : nat) (unused : list nat) :
  filter (fun y => negb (mem_nat y (filter (adjacent ilabels olabels x) unused))) unused
  = filter (fun y => negb (adjacent ilabels olabels x y)) unused.
Proof.
  apply filter_ext_in. intros y Hy. f_equal.
  destruct (adjacent ilabels olabels x y) eqn:E.
  - apply mem_nat_In. apply filter_In. auto.
  - destruct (mem_nat y _) eqn:M; auto.
    apply mem_nat_In, filter_In in M. destruct M. congruence.
Qed.

(** The inner loop empties the queue and returns a connected list. *)
Lemma bfs_spec (fuel : nat) :
  forall q g unused,
    length q + length unused <= fuel ->
    linked ilabels olabels (g ++ q) ->
    (forall x, In x q -> In x (g ++ q)) ->
    exists g' unused',
      bfs ilabels olabels fuel q g unused = (g', unused') /\
      linked ilabels olabels g' /\
      Permutation (g' ++ unused') (g ++ q ++ unused) /\
      length unused' <= length unused.
Proof.
  induction fuel as [|fuel IH]; intros q g unused Hfuel Hl Hq.
  - destruct q; [|simpl in Hfuel; lia].
    exists g, unused. rewrite app_nil_r in Hl. simpl. auto.
  - destruct q as [|x q].
    + exists g, unused. rewrite app_nil_r in Hl. simpl. auto.
    + cbn [bfs]. rewrite unused_after.
      set (n := filter (adjacent ilabels olabels x) unused).
      set (rest := filter (fun y => negb (adjacent ilabels olabels x y)) unused).
      assert (Permutation (n ++ rest) unused) as Hsplit by apply filter_split_perm.
      assert (length n + length rest = length unused) as Hlen.
      { rewrite <- length_app. apply Permutation_length. exact Hsplit. }
      destruct (IH (q ++ iter_nat n) (g ++ [x]) rest) as [g' [u' [E [L [P Hu]]]]].
      * rewrite length_app, (Permutation_length (iter_nat_perm n)).
        simpl in Hfuel. lia.
      * replace ((g ++ [x]) ++ q ++ iter_nat n) with ((g ++ x :: q) ++ iter_nat n)
          by (rewrite <- !app_assoc; reflexivity).
        apply linked_extend with (x := x); auto.
        -- apply in_or_app. right. left. reflexivity.
        -- intros y Hy. apply (Permutation_in _ (iter_nat_perm n)) in Hy.
           apply filter_In in Hy. tauto.
      * intros y Hy. rewrite <- !app_assoc. apply in_or_app. right. right. exact Hy.
      * exists g', u'. split; [exact E|split; [exact L|split; [|lia]]].
        eapply Permutation_trans; [exact P|].
        rewrite <- !app_assoc. apply Permutation_app_head. cbn [app].
        apply perm_skip. apply Permutation_app_head.
        eapply Permutation_trans;
          [apply Permutation_app_tail, iter_nat_perm | exact Hsplit].
Qed.

Lemma remove_popped (x : nat) (unused : list nat) :
  NoDup unused -> In x unused ->
  Permutation (x :: filter (fun y => negb (y =? x)) unused) unused.
Proof.
  induction unused as [|a l IH]; intros Hnd Hin; [destruct Hin|].
  inversion Hnd; subst. simpl. destruct (a =? x) eqn:E; simpl.
  - apply Nat.eqb_eq in E. subst a. apply perm_skip.
    rewrite (proj2 (filter_ext_in_iff (fun y => negb (y =? x)) (fun _ => true) l)).
    + clear. induction l; simpl; auto.
    + intros y Hy. destruct (y =? x) eqn:E; auto.
      apply Nat.eqb_eq in E. subst. contradiction.
  - apply Nat.eqb_neq in E. destruct Hin as [Hin|Hin]; [congruence|].
    eapply Permutation_trans; [apply perm_swap|]. apply perm_skip. apply IH; auto.
Qed.

Lemma components_unfold (fuel : nat) (unused : list nat) (subgraphs : list (list nat)) :
  unused <> [] ->
  components ilabels olabels (S fuel) unused subgraphs =
  let x := pop_nat unused in
  let unused1 := filter (fun y => negb (y =? x)) unused in
  components ilabels olabels fuel
             (snd (bfs ilabels olabels (S (length unused1)) [x] [] unused1))
             (subgraphs ++ [fst (bfs ilabels olabels (S (length unused1)) [x] [] unused1)]).
Proof.
  intros H. destruct unused; [congruence|].
  cbn [components]. cbv zeta. destruct (bfs _ _ _ _ _ _). reflexivity.
Qed.

Lemma components_spec (fuel : nat) :
  forall unused subgraphs,
    length unused <= fuel ->
    NoDup unused ->
    Forall (linked ilabels olabels) subgraphs ->
    Forall (linked ilabels olabels) (components ilabels olabels fuel unused subgraphs) /\
    Permutation (concat (components ilabels olabels fuel unused subgraphs))
                (concat subgraphs ++ unused).
Proof.
  induction fuel as [|fuel IH]; intros unused subgraphs Hfuel Hnd Hall.
  - destruct unused; [|simpl in Hfuel; lia]. simpl. rewrite app_nil_r. auto.
  - destruct (list_eq_dec Nat.eq_dec unused []) as [->|Hne].
    + simpl. rewrite app_nil_r. auto.
    + rewrite components_unfold by exact Hne. cbv zeta.
      set (x := pop_nat unused).
      set (unused1 := filter (fun y => negb (y =? x)) unused).
      assert (In x unused) as Hx by (apply pop_nat_in; exact Hne).
      assert (Permutation (x :: unused1) unused) as Hp by (apply remove_popped; auto).
      destruct (bfs_spec (S (length unused1)) [x] [] unused1)
        as [g [unused2 [E [L [P Hu]]]]].
      * simpl. lia.
      * constructor.
      * intros y Hy. exact Hy.
      * rewrite E. cbn [fst snd].
        assert (length unused1 < length unused) as Hlt.
        { apply Permutation_length in Hp. simpl in Hp. lia. }
        destruct (IH unused2 (subgraphs ++ [g])) as [F C].
        -- lia.
        -- assert (NoDup (g ++ unused2)) as Hnd2.
           { eapply Permutation_NoDup; [apply Permutation_sym; exact P|].
             simpl. eapply Permutation_NoDup; [apply Permutation_sym; exact Hp|]. auto. }
           eapply NoDup_app_remove_l; eauto.
        -- apply Forall_app. split; auto.
        -- split; [exact F|].
           eapply Permutation_trans; [exact C|].
           rewrite concat_app. simpl. rewrite app_nil_r, <- app_assoc.
           apply Permutation_app_head.
           eapply Permutation_trans; [exact P|]. simpl. exact Hp.
Qed.

(** [_find_subgraphs] partitions the operands into connected lists. *)
Lemma find_subgraphs_spec :
  Forall (linked ilabels olabels) (_find_subgraphs ilabels olabels) /\
  Permutation (concat (_find_subgraphs ilabels olabels)) (seq 0 (length ilabels)).
Proof.
  unfold _find_subgraphs.
  destruct (components_spec (length ilabels) (seq 0 (length ilabels)) []) as [F P].
  - rewrite length_seq. lia.
  - apply seq_NoDup.
  - constructor.
  - split; auto.
Qed.
End SubgraphFacts.

(** ** Frozensets of positions *)

Lemma in_ins (x y : nat) (s : key) : In x (ins y s) <-> x = y \/ In x s.
Proof.
  induction s as [|z s IH]; simpl.
  - intuition.
  - destruct (y <? z) eqn:E1; [simpl; intuition|].
    destruct (y =? z) eqn:E2.
    + apply Nat.eqb_eq in E2. subst. simpl. intuition.
    + simpl. rewrite IH. intuition.
Qed.

Lemma ins_sorted (y : nat) (s : key) :
  StronglySorted lt s -> StronglySorted lt (ins y s).
Proof.
  induction 1 as [|z s HS IH HF]; simpl.
  - repeat constructor.
  - destruct (y <? z) eqn:E1.
    + apply Nat.ltb_lt in E1. constructor; [constructor; auto|].
      constructor; auto. rewrite Forall_forall in *. intros x Hx.
      specialize (HF x Hx). lia.
    + destruct (y =? z) eqn:E2; [constructor; auto|].
      apply Nat.ltb_ge in E1. apply Nat.eqb_neq in E2.
      constructor; auto. rewrite Forall_forall in *. intros x Hx.
      apply in_ins in Hx. destruct Hx as [->|Hx]; [lia|auto].
Qed.

Lemma ins_perm (y : nat) (s : key) : ~ In y s -> Permutation (ins y s) (y :: s).
Proof.
  induction s as [|z s IH]; simpl; intros H; auto.
  destruct (y <? z); auto.
  destruct (y =? z) eqn:E2.
  - apply Nat.eqb_eq in E2. subst. exfalso. auto.
  - eapply Permutation_trans; [apply perm_skip, IH; auto|apply perm_swap].
Qed.

Lemma ins_last (y : nat) (s : key) :
  (forall x, In x s -> x < y) -> ins y s = s ++ [y].
Proof.
  induction s as [|z s IH]; simpl; intros H; auto.
  assert (z < y) as Hz by auto.
  replace (y <? z) with false by (symmetry; apply Nat.ltb_ge; lia).
  replace (y =? z) with false by (symmetry; apply Nat.eqb_neq; lia).
  f_equal. auto.
Qed.

Lemma in_union (x : nat) (s2 : key) :
  forall s1, In x (union s1 s2) <-> In x s1 \/ In x s2.
Proof.
  unfold union. induction s2 as [|y s2 IH]; intros s1; simpl.
  - intuition.
  - rewrite IH, in_ins. intuition.
Qed.

Lemma union_sorted (s2 : key) :
  forall s1, StronglySorted lt s1 -> StronglySorted lt (union s1 s2).
Proof.
  unfold union. induction s2 as [|y s2 IH]; intros s1 H; simpl; auto.
  apply IH, ins_sorted, H.
Qed.

Lemma union_perm (s2 : key) :
  forall s1, NoDup s2 -> (forall a, In a s1 -> ~ In a s2) ->
             Permutation (union s1 s2) (s1 ++ s2).
Proof.
  unfold union. induction s2 as [|y s2 IH]; intros s1 Hnd Hd; simpl.
  - rewrite app_nil_r. auto.
  - inversion Hnd; subst.
    eapply Permutation_trans; [apply IH; auto|].
    + intros a Ha Hin. apply in_ins in Ha. destruct Ha as [->|Ha]; auto.
      apply (Hd a Ha). right. exact Hin.
    + eapply Permutation_trans; [apply Permutation_app_tail, ins_perm|].
      * intros Hy. apply (Hd y Hy). left. reflexivity.
      * simpl. apply Permutation_middle.
Qed.

Lemma disjoint_spec (s1 s2 : key) :
  disjoint s1 s2 = true <-> forall a, In a s1 -> ~ In a s2.
Proof.
  unfold disjoint. rewrite forallb_forall. split; intros H a Ha.
  - specialize (H a Ha). apply negb_true_iff in H. intros Hin.
    apply mem_nat_In in Hin. congruence.
  - apply negb_true_iff. destruct (mem_nat a s2) eqn:E; auto.
    apply mem_nat_In in E. exfalso. exact (H a Ha E).
Qed.

Lemma union_seq_last (k : nat) : union (seq 0 k) [k] = seq 0 (S k).
Proof.
  unfold union. cbn [fold_left]. rewrite ins_last.
  - rewrite seq_S. reflexivity.
  - intros x Hx. apply in_seq in Hx. lia.
Qed.

Lemma sorted_NoDup (s : list nat) : StronglySorted lt s -> NoDup s.
Proof.
  induction 1 as [|z s HS IH HF]; constructor; auto.
  intros Hin. rewrite Forall_forall in HF. specialize (HF z Hin). lia.
Qed.

Lemma sorted_full (s : key) (n : nat) :
  StronglySorted lt s -> length s = n -> (forall x, In x s -> x < n) -> s = seq 0 n.
Proof.
  intros HS Hl Hb. apply sorted_perm_seq; auto.
  apply NoDup_Permutation_bis.
  - apply sorted_NoDup, HS.
  - rewrite length_seq. lia.
  - intros x Hx. apply in_seq. specialize (Hb x Hx). lia.
Qed.

Lemma key_eqb_eq (s1 s2 : key) : key_eqb s1 s2 = true <-> s1 = s2.
Proof.
  unfold key_eqb. destruct (list_eq_dec Nat.eq_dec s1 s2); split; auto; discriminate.
Qed.

(** ** Dictionaries *)

Lemma lookup_In (s : key) (d : dict) (e : entry) :
  lookup s d = Some e -> In (s, e) d.
Proof.
  induction d as [|[s' e'] d IH]; simpl; [discriminate|].
  destruct (key_eqb s s') eqn:E.
  - apply key_eqb_eq in E. subst. intros H. inversion H. auto.
  - auto.
Qed.

Lemma In_lookup (s : key) (d : dict) (e : entry) :
  In (s, e) d -> lookup s d <> None.
Proof.
  induction d as [|[s' e'] d IH]; simpl; [tauto|].
  intros [H|H].
  - inversion H; subst. replace (key_eqb s s) with true; [discriminate|].
    symmetry. apply key_eqb_eq. reflexivity.
  - destruct (key_eqb s s'); [discriminate|auto].
Qed.

Lemma dict_set_In (d : dict) (s : key) (e : entry) (p : key * entry) :
  In p (dict_set d s e) -> p = (s, e) \/ In p d.
Proof.
  induction d as [|[s' e'] d IH]; simpl.
  - intuition.
  - destruct (key_eqb s s'); simpl; intuition.
Qed.

Lemma dict_set_lookup (d : dict) (s : key) (e : entry) :
  lookup s (dict_set d s e) = Some e.
Proof.
  induction d as [|[s' e'] d IH]; simpl.
  - replace (key_eqb s s) with true; auto. symmetry. apply key_eqb_eq. reflexivity.
  - destruct (key_eqb s s') eqn:E; simpl.
    + replace (key_eqb s s) with true; auto. symmetry. apply key_eqb_eq. reflexivity.
    + rewrite E. exact IH.
Qed.

Lemma dict_set_keeps (d : dict) (s s' : key) (e : entry) :
  lookup s' d <> None -> lookup s' (dict_set d s e) <> None.
Proof.
  induction d as [|[s0 e0] d IH]; simpl; [tauto|].
  destruct (key_eqb s s0) eqn:E; simpl.
  - apply key_eqb_eq in E. subst. destruct (key_eqb s' s0); auto. discriminate.
  - destruct (key_eqb s' s0); auto.
Qed.

(** ** The labels of a contraction *)

Lemma select_map_filter {A} (f : A -> bool) (l : list A) :
  select l (map f l) = filter f l.
Proof.
  unfold select. induction l as [|a l IH]; simpl; auto.
  destruct (f a); simpl; rewrite IH; reflexivity.
Qed.

Lemma in_new_labels (a : label) (l1 l2 olabels : labels) :
  In a (new_labels l1 l2 olabels) <->
  (In a l1 /\ ~ (In a l2 /\ ~ In a olabels)) \/ (In a l2 /\ ~ In a l1).
Proof.
  unfold new_labels, m1, m2. rewrite !select_map_filter, in_app_iff, !filter_In.
  rewrite !negb_true_iff, !mem_false, in_contraction_indices, in_common_indices.
  tauto.
Qed.

(** ** One candidate of the dynamic programme *)

Lemma dict_set_Forall (P : key * entry -> Prop) (d : dict) (s : key) (e : entry) :
  Forall P d -> P (s, e) -> Forall P (dict_set d s e).
Proof.
  intros Hd He. apply Forall_forall. intros p Hp.
  apply dict_set_In in Hp. destruct Hp as [->|Hp]; auto.
  rewrite Forall_forall in Hd. auto.
Qed.

Section DPFacts.
Variable ls : list labels.
Variable g : list nat.
Variable olabels : labels.
Variable cost_limit : option Z.

Lemma combine_good (k1 k2 : nat) (s1 s2 : key) (e1 e2 : entry) (c : Z) :
  good_entry ls g k1 (s1, e1) -> good_entry ls g k2 (s2, e2) ->
  disjoint s1 s2 = true ->
  good_entry ls g (k1 + k2)
    (union s1 s2,
     mkEntry (new_shape (e_shape e1) (e_labels e1) (e_shape e2) (e_labels e2) olabels)
             (new_labels (e_labels e1) (e_labels e2) olabels)
             c (Node (e_tree e1) (e_tree e2))).
Proof.
  intros [S1 [N1 [B1 [T1 [LA1 LB1]]]]] [S2 [N2 [B2 [T2 [LA2 LB2]]]]] Hd.
  simpl in *. rewrite disjoint_spec in Hd.
  assert (Permutation (union s1 s2) (s1 ++ s2)) as Hp.
  { apply union_perm; auto. apply sorted_NoDup, S2. }
  unfold good_entry. simpl.
  split; [apply union_sorted, S1|].
  split; [rewrite (Permutation_length Hp), length_app; lia|].
  split; [intros x Hx; apply in_union in Hx; destruct Hx; auto|].
  split.
  { eapply Permutation_trans; [apply Permutation_app; eauto|].
    rewrite <- map_app. apply Permutation_map, Permutation_sym, Hp. }
  split.
  - intros a Ha. apply in_new_labels in Ha. destruct Ha as [[Ha _]|[Ha _]].
    + destruct (LA1 a Ha) as [j [Hj Hl]]. exists j. split; auto.
      apply in_union. auto.
    + destruct (LA2 a Ha) as [j [Hj Hl]]. exists j. split; auto.
      apply in_union. auto.
  - intros a j Hj Ha Huniq. apply in_new_labels.
    apply in_union in Hj. destruct Hj as [Hj|Hj].
    + left. split.
      * apply (LB1 a j Hj Ha). intros j' Hj' Hne. apply Huniq; auto.
        apply in_union. auto.
      * intros [Hin _]. destruct (LA2 a Hin) as [j2 [Hj2 Hl2]].
        apply (Huniq j2); auto.
        -- apply in_union. auto.
        -- intros ->. exact (Hd j Hj Hj2).
    + right. split.
      * apply (LB2 a j Hj Ha). intros j' Hj' Hne. apply Huniq; auto.
        apply in_union. auto.
      * intros Hin. destruct (LA1 a Hin) as [j1 [Hj1 Hl1]].
        apply (Huniq j1); auto.
        -- apply in_union. auto.
        -- intros ->. exact (Hd j Hj1 Hj).
Qed.

Lemma dp_try_good (k1 k2 : nat) (xm : dict) (p1 p2 : key * entry) :
  good_dict ls g (k1 + k2) xm ->
  good_entry ls g k1 p1 -> good_entry ls g k2 p2 ->
  good_dict ls g (k1 + k2) (dp_try olabels cost_limit xm p1 p2).
Proof.
  intros Hx H1 H2. destruct p1 as [s1 e1], p2 as [s2 e2]. unfold dp_try.
  destruct (disjoint s1 s2) eqn:Hd; auto.
  destruct (contraction_indices _ _ _); auto.
  match goal with |- context [if ?c then _ else _] => destruct c end; auto.
  apply dict_set_Forall; auto.
  apply combine_good; auto.
Qed.

Lemma dp_try_keeps (xm : dict) (p1 p2 : key * entry) (s : key) :
  lookup s xm <> None -> lookup s (dp_try olabels cost_limit xm p1 p2) <> None.
Proof.
  intros H. destruct p1 as [s1 e1], p2 as [s2 e2]. unfold dp_try.
  destruct (disjoint s1 s2); auto.
  destruct (contraction_indices _ _ _); auto.
  match goal with |- context [if ?c then _ else _] => destruct c end; auto.
  apply dict_set_keeps, H.
Qed.

(** A candidate that contracts at least one label is in the table
    afterwards, whatever its cost. *)
Lemma dp_try_stores (xm : dict) (s1 s2 : key) (e1 e2 : entry) (a : label) :
  disjoint s1 s2 = true ->
  In a (e_labels e1) -> In a (e_labels e2) -> ~ In a olabels ->
  lookup (union s1 s2) (dp_try olabels cost_limit xm (s1, e1) (s2, e2)) <> None.
Proof.
  intros Hd Ha1 Ha2 Hao. unfold dp_try. rewrite Hd.
  destruct (contraction_indices (e_labels e1) (e_labels e2) olabels) eqn:Ec.
  - exfalso.
    pose proof (proj2 (in_contraction_indices a (e_labels e1) (e_labels e2) olabels)
                      (conj Ha1 (conj Ha2 Hao))) as H.
    rewrite Ec in H. destruct H.
  - destruct (lookup (union s1 s2) xm) eqn:El.
    + match goal with |- context [if ?c then _ else _] => destruct c end.
      * rewrite dict_set_lookup. discriminate.
      * rewrite El. discriminate.
    + rewrite dict_set_lookup. discriminate.
Qed.
End DPFacts.

(** ** The table of the dynamic programme *)

Lemma fold_left_preserve {A B} (Q : A -> Prop) (f : A -> B -> A) (l : list B) :
  (forall acc x, In x l -> Q acc -> Q (f acc x)) ->
  forall acc, Q acc -> Q (fold_left f l acc).
Proof.
  induction l as [|b l IH]; intros Hp acc Hq; simpl; auto.
  apply IH.
  - intros acc' x Hx. apply Hp. right. exact Hx.
  - apply Hp; auto. left. reflexivity.
Qed.

Lemma fold_left_establish {A B} (Q : A -> Prop) (f : A -> B -> A) (l : list B) (x0 : B) :
  (forall acc x, Q acc -> Q (f acc x)) ->
  In x0 l -> (forall acc, Q (f acc x0)) ->
  forall acc, Q (fold_left f l acc).
Proof.
  intros Hp. induction l as [|b l IH]; intros Hin He acc; [destruct Hin|].
  simpl. destruct Hin as [->|Hin].
  - apply fold_left_preserve; auto.
  - apply IH; auto.
Qed.

Lemma mapM_ret {A B} (f : A -> outcome B) (h : A -> B) (l : list A) :
  (forall x, In x l -> f x = Ret (h x)) -> mapM f l = Ret (map h l).
Proof.
  induction l as [|a l IH]; intros H; simpl; auto.
  rewrite (H a) by (left; reflexivity). simpl.
  rewrite IH by (intros x Hx; apply H; right; exact Hx). reflexivity.
Qed.

Section DPTable.
Variable ds : list (list Z).
Variable ls : list labels.
Variable g : list nat.
Variable olabels : labels.
Variable cost_limit : option Z.
Hypothesis len_ls : length ls = length ds.
Hypothesis len_g : length g = length ds.

Lemma dp_row1_eq : dp_row1 ds ls g = Ret (row1_of ds ls g).
Proof.
  unfold dp_row1, row1_of. apply mapM_ret. intros j Hj. apply in_seq in Hj.
  rewrite (index_lt ds j []) by lia. simpl.
  rewrite (index_lt ls j []) by lia. simpl.
  rewrite (index_lt g j 0) by lia. reflexivity.
Qed.

Lemma row1_entry (j : nat) :
  j < length ds ->
  In ([j], mkEntry (nth j ds []) (nth j ls []) 0%Z (Leaf (nth j g 0))) (row1_of ds ls g).
Proof.
  intros Hj. unfold row1_of.
  apply (in_map (fun j => ([j], mkEntry (nth j ds []) (nth j ls []) 0%Z (Leaf (nth j g 0))))).
  apply in_seq. lia.
Qed.

Lemma row1_good : good_dict ls g 1 (row1_of ds ls g).
Proof.
  unfold good_dict, row1_of. apply Forall_forall. intros p Hp.
  apply in_map_iff in Hp. destruct Hp as [j [<- Hj]]. apply in_seq in Hj.
  unfold good_entry. simpl.
  split; [repeat constructor|]. split; [reflexivity|].
  split; [intros x [<-|[]]; lia|]. split; [apply Permutation_refl|]. split.
  - intros a Ha. exists j. auto.
  - intros a j' [<-|[]] Ha _. exact Ha.
Qed.

Lemma dp_level_good (x : list dict) (m : nat) :
  (forall k, 1 <= k < m -> good_dict ls g k (nth k x [])) ->
  good_dict ls g m (dp_level olabels cost_limit x m).
Proof.
  intros Hx. unfold dp_level.
  apply fold_left_preserve; [|constructor].
  intros xm k Hk Hxm. apply in_seq in Hk.
  assert (k <= m / 2) as Hk2 by lia.
  assert (2 * (m / 2) <= m) as Hdiv by (apply Nat.Div0.mul_div_le).
  apply fold_left_preserve; auto.
  intros xm1 p1 Hp1 Hxm1.
  apply fold_left_preserve; auto.
  intros xm2 p2 Hp2 Hxm2.
  replace m with ((m - k) + k) in Hxm2 |- * by lia.
  replace (m - k + k - k) with (m - k) in Hp1 by lia.
  apply dp_try_good; auto.
  - assert (good_dict ls g (m - k) (nth (m - k) x [])) as H by (apply Hx; lia).
    unfold good_dict in H. rewrite Forall_forall in H. auto.
  - assert (good_dict ls g k (nth k x [])) as H by (apply Hx; lia).
    unfold good_dict in H. rewrite Forall_forall in H. auto.
Qed.

Hypothesis Hchain : chained ls olabels.
Hypothesis Htwo : at_most_two ls olabels.

Lemma dp_level_present (x : list dict) (m : nat) :
  2 <= m <= length ds ->
  nth 1 x [] = row1_of ds ls g ->
  good_dict ls g (m - 1) (nth (m - 1) x []) ->
  lookup (seq 0 (m - 1)) (nth (m - 1) x []) <> None ->
  lookup (seq 0 m) (dp_level olabels cost_limit x m) <> None.
Proof.
  intros Hm Hrow Hgood Hpres. unfold dp_level.
  assert (1 <= m / 2) as Hhalf.
  { apply Nat.div_le_lower_bound; lia. }
  destruct (lookup (seq 0 (m - 1)) (nth (m - 1) x [])) as [e1|] eqn:El; [|congruence].
  apply lookup_In in El.
  pose proof Hgood as Hg1. unfold good_dict in Hg1. rewrite Forall_forall in Hg1.
  specialize (Hg1 _ El). destruct Hg1 as [_ [_ [_ [_ [_ LB]]]]]. simpl in LB.
  destruct (Hchain (m - 1)) as [j [a [Hj [Haj [Ham Hao]]]]]; [lia|].
  assert (In a (e_labels e1)) as Ha1.
  { apply (LB a j); auto.
    - apply in_seq. lia.
    - intros j' Hj' Hne Hin. apply in_seq in Hj'.
      destruct (Nat.lt_ge_cases j j') as [H|H].
      + apply (Htwo a j j' (m - 1)); auto; lia.
      + apply (Htwo a j' j (m - 1)); auto; lia. }
  apply fold_left_establish with (x0 := 1).
  - intros xm k Hq.
    apply fold_left_preserve; auto. intros xm1 p1 _ Hq1.
    apply fold_left_preserve; auto. intros xm2 p2 _ Hq2.
    apply dp_try_keeps, Hq2.
  - apply in_seq. lia.
  - intros xm.
    apply fold_left_establish with (x0 := (seq 0 (m - 1), e1)); auto.
    + intros xm1 p1 Hq1.
      apply fold_left_preserve; auto. intros xm2 p2 _ Hq2.
      apply dp_try_keeps, Hq2.
    + intros xm1. rewrite Hrow.
      apply fold_left_establish
        with (x0 := ([m - 1],
                     mkEntry (nth (m - 1) ds []) (nth (m - 1) ls []) 0%Z
                             (Leaf (nth (m - 1) g 0)))).
      * intros xm2 p2 Hq2. apply dp_try_keeps, Hq2.
      * apply row1_entry. lia.
      * intros xm2.
        replace (seq 0 m) with (union (seq 0 (m - 1)) [m - 1]).
        -- apply dp_try_stores with (a := a); auto.
           apply disjoint_spec. intros y Hy [<-|[]]. apply in_seq in Hy. lia.
        -- rewrite union_seq_last. f_equal. lia.
Qed.

Lemma dp_table_levels (c : nat) :
  forall a x,
    2 <= a -> length x = a -> a + c <= S (length ds) -> table_ok ds ls g x ->
    let x' := fold_left (fun x m => x ++ [dp_level olabels cost_limit x m]) (seq a c) x in
    length x' = a + c /\ table_ok ds ls g x'.
Proof.
  induction c as [|c IH]; intros a x Ha Hl Hb Hok; simpl.
  - split; [lia|exact Hok].
  - destruct Hok as [Hrow Hall].
    destruct (IH (S a) (x ++ [dp_level olabels cost_limit x a])) as [Hl' Hok'].
    + lia.
    + rewrite length_app. simpl. lia.
    + lia.
    + split.
      * rewrite app_nth1 by lia. exact Hrow.
      * intros k Hk Hkn. rewrite length_app in Hk. simpl in Hk.
        destruct (Nat.eq_dec k a) as [->|Hne].
        -- pose proof (nth_middle x [] (dp_level olabels cost_limit x a) []) as Hmid.
           rewrite Hl in Hmid. rewrite Hmid.
           split.
           ++ apply dp_level_good. intros k Hk'. apply Hall; lia.
           ++ apply dp_level_present; try lia; auto; apply Hall; lia.
        -- rewrite app_nth1 by lia. apply Hall; lia.
    + split; [lia|exact Hok'].
Qed.
End DPTable.

(** ** The optimiser of one connected component *)

Lemma map_nth_seq {A} (l : list A) (d : A) :
  map (fun j => nth j l d) (seq 0 (length l)) = l.
Proof.
  induction l as [|a l IH]; simpl; auto.
  f_equal. rewrite <- seq_shift, map_map. exact IH.
Qed.

Lemma dp_connected_ok (ds : list (list Z)) (ls : list labels) (g : list nat)
      (olabels : labels) (cost_limit : option Z) :
  length ls = length ds -> length g = length ds -> 1 <= length ds ->
  chained ls olabels -> at_most_two ls olabels ->
  exists t, _einsum_optimize_dp_connected olabels cost_limit ds ls (Some g) = Ret t /\
            Permutation (leaves t) g.
Proof.
  intros Hls Hg Hn Hchain Htwo. unfold _einsum_optimize_dp_connected.
  rewrite (dp_row1_eq ds ls g Hls Hg). cbn [bind].
  destruct (length ds) as [|n'] eqn:En; [lia|]. rewrite <- En in *.
  unfold dp_table.
  destruct (dp_table_levels ds ls g olabels cost_limit Hls Hg Hchain Htwo
              (length ds - 1) 2 [[]; row1_of ds ls g]) as [Hlen [_ Hall]].
  - lia.
  - reflexivity.
  - lia.
  - split; [reflexivity|]. intros k Hk _. simpl in Hk.
    assert (k = 1) as -> by lia. simpl. split.
    + apply row1_good; auto.
    + apply In_lookup with (e := mkEntry (nth 0 ds []) (nth 0 ls []) 0%Z (Leaf (nth 0 g 0))).
      apply row1_entry; auto; lia.
  - cbv zeta in Hlen, Hall.
    set (x' := fold_left _ _ _) in *.
    destruct (Hall (length ds)) as [Hgood Hpres]; [lia|lia|].
    destruct (nth (length ds) x' []) as [|[s e] d] eqn:Ed.
    + simpl in Hpres. congruence.
    + exists (e_tree e). split; [reflexivity|].
      unfold good_dict in Hgood. inversion Hgood as [|? ? Hge _]; subst.
      destruct Hge as [S [N [B [T _]]]]. simpl in *.
      rewrite (sorted_full s (length ds) S N) in T.
      * rewrite <- Hg in T. rewrite map_nth_seq in T. exact T.
      * intros y Hy. rewrite <- Hls. auto.
Qed.

(** ** From the contraction graph to its components *)

Lemma adjacent_spec (ilabels : list labels) (olabels : labels) (x y : nat) :
  adjacent ilabels olabels x y = true <->
  exists a, In a (nth x ilabels []) /\ In a (nth y ilabels []) /\ ~ In a olabels.
Proof.
  unfold adjacent.
  destruct (contraction_indices (nth x ilabels []) (nth y ilabels []) olabels)
    as [|a l] eqn:E; split; intros H; try discriminate; auto.
  - destruct H as [a H]. apply in_contraction_indices in H. rewrite E in H. destruct H.
  - exists a. apply in_contraction_indices. rewrite E. left. reflexivity.
Qed.

Lemma linked_positions (ilabels : list labels) (olabels : labels) (g : list nat) :
  linked ilabels olabels g ->
  forall m, 1 <= m < length g ->
            exists j, j < m /\ adjacent ilabels olabels (nth j g 0) (nth m g 0) = true.
Proof.
  induction 1 as [x|l x y Hl IH Hx Hadj]; intros m Hm.
  - simpl in Hm. lia.
  - rewrite length_app in Hm. simpl in Hm.
    destruct (Nat.eq_dec m (length l)) as [->|Hne].
    + destruct (In_nth l x 0 Hx) as [j [Hj Ej]].
      exists j. split; auto.
      rewrite app_nth1 by lia. rewrite Ej.
      rewrite nth_middle. exact Hadj.
    + destruct (IH m) as [j [Hj Ha]]; [lia|].
      exists j. split; auto. rewrite !app_nth1 by lia. exact Ha.
Qed.

Lemma nth_map_in {A B} (f : A -> B) (l : list A) (j : nat) (d : A) (d' : B) :
  j < length l -> nth j (map f l) d' = f (nth j l d).
Proof.
  intros H. rewrite (nth_indep _ d' (f d)) by (rewrite length_map; exact H).
  apply map_nth.
Qed.

Lemma at_most_two_distinct (ls : list labels) (olabels : labels) (a : label)
      (i j k : nat) :
  at_most_two ls olabels -> ~ In a olabels ->
  i <> j -> j <> k -> i <> k ->
  i < length ls -> j < length ls -> k < length ls ->
  ~ (In a (nth i ls []) /\ In a (nth j ls []) /\ In a (nth k ls [])).
Proof.
  intros H Ha Hij Hjk Hik Hi Hj Hk [H1 [H2 H3]].
  destruct (Nat.lt_ge_cases i j), (Nat.lt_ge_cases j k), (Nat.lt_ge_cases i k);
    try lia.
  - apply (H a i j k); auto.
  - apply (H a i k j); auto; lia.
  - apply (H a k i j); auto; lia.
  - apply (H a j i k); auto; lia.
  - apply (H a j k i); auto; lia.
  - apply (H a k j i); auto; lia.
Qed.

Section Components.
Variable ilabels : list labels.
Variable olabels : labels.
Variable g : list nat.
Hypothesis g_range : forall x, In x g -> x < length ilabels.
Hypothesis g_nodup : NoDup g.

Lemma local_labels (j : nat) :
  j < length g ->
  nth j (map (fun x => nth x ilabels []) g) [] = nth (nth j g 0) ilabels [].
Proof. intros H. apply (nth_map_in (fun x => nth x ilabels [])). exact H. Qed.

Lemma local_chained :
  linked ilabels olabels g -> chained (map (fun x => nth x ilabels []) g) olabels.
Proof.
  intros Hl m Hm. rewrite length_map in Hm.
  destruct (linked_positions ilabels olabels g Hl m Hm) as [j [Hj Ha]].
  apply adjacent_spec in Ha. destruct Ha as [a [H1 [H2 H3]]].
  exists j, a. rewrite !local_labels by lia. auto.
Qed.

Lemma local_at_most_two :
  at_most_two ilabels olabels ->
  at_most_two (map (fun x => nth x ilabels []) g) olabels.
Proof.
  intros H a i j k Ha Hij Hjk Hk. rewrite length_map in Hk.
  rewrite !local_labels by lia.
  assert (forall p q, p < length g -> q < length g -> p <> q -> nth p g 0 <> nth q g 0)
    as Hinj.
  { intros p q Hp Hq Hne E. apply Hne.
    apply (proj1 (NoDup_nth g 0) g_nodup p q Hp Hq E). }
  apply at_most_two_distinct with (olabels := olabels); auto.
  - apply Hinj; lia.
  - apply Hinj; lia.
  - apply Hinj; lia.
  - apply g_range, nth_In. lia.
  - apply g_range, nth_In. lia.
  - apply g_range, nth_In. lia.
Qed.
End Components.

(** ** [_einsum_optimize_dp] returns the sequence of a full tree *)

Lemma mapM_exists {A B} (f : A -> outcome B) (P : A -> B -> Prop) (l : list A) :
  (forall x, In x l -> exists b, f x = Ret b /\ P x b) ->
  exists bs, mapM f l = Ret bs /\ Forall2 P l bs.
Proof.
  induction l as [|a l IH]; intros H; simpl.
  - exists []. auto.
  - destruct (H a (or_introl eq_refl)) as [b [Eb Pb]].
    destruct IH as [bs [Ebs Pbs]]; [intros x Hx; apply H; right; exact Hx|].
    exists (b :: bs). rewrite Eb. simpl. rewrite Ebs. simpl. auto.
Qed.

Lemma leaves_fold_node (cs : list ctree) :
  forall c0, leaves (fold_left Node cs c0) = leaves c0 ++ concat (map leaves cs).
Proof.
  induction cs as [|c cs IH]; intros c0; simpl.
  - rewrite app_nil_r. reflexivity.
  - rewrite IH. simpl. rewrite app_assoc. reflexivity.
Qed.

Lemma concat_leaves_perm (gs : list (list nat)) (ts : list ctree) :
  Forall2 (fun g t => Permutation (leaves t) g) gs ts ->
  Permutation (concat (map leaves ts)) (concat gs).
Proof.
  induction 1; simpl; auto. apply Permutation_app; auto.
Qed.

Lemma NoDup_concat_in {A} (gs : list (list A)) (g : list A) :
  NoDup (concat gs) -> In g gs -> NoDup g.
Proof.
  induction gs as [|h gs IH]; simpl; intros Hn Hin; [destruct Hin|].
  destruct Hin as [->|Hin].
  - eapply NoDup_app_remove_r; eauto.
  - apply IH; auto. eapply NoDup_app_remove_l; eauto.
Qed.

Lemma in_concat_in {A} (gs : list (list A)) (g : list A) (x : A) :
  In g gs -> In x g -> In x (concat gs).
Proof. intros Hg Hx. apply in_concat. exists g. auto. Qed.

Lemma einsum_optimize_dp_ok {SO : SetOrder} (ishapes : list (list Z))
      (ilabels : list labels) (olabels : labels) (cost_limit : option Z) :
  length ishapes = length ilabels ->
  1 <= length ilabels ->
  at_most_two ilabels olabels ->
  exists t,
    _einsum_optimize_dp ishapes ilabels olabels cost_limit = Ret (_tree_to_sequence t) /\
    Permutation (leaves t) (seq 0 (length ilabels)).
Proof.
  intros Hlen Hn Htwo. unfold _einsum_optimize_dp.
  destruct (find_subgraphs_spec ilabels olabels) as [Hlinked Hperm].
  set (gs := _find_subgraphs ilabels olabels) in *.
  assert (NoDup (concat gs)) as Hnd.
  { eapply Permutation_NoDup; [apply Permutation_sym, Hperm|apply seq_NoDup]. }
  assert (forall g x, In g gs -> In x g -> x < length ilabels) as Hrange.
  { intros g x Hg Hx.
    assert (In x (seq 0 (length ilabels))) as Hin.
    { eapply Permutation_in; [exact Hperm|]. eapply in_concat_in; eauto. }
    apply in_seq in Hin. lia. }
  destruct (mapM_exists
              (fun g =>
                 ds <- mapM (index ishapes) g ;;
                 ls <- mapM (index ilabels) g ;;
                 _einsum_optimize_dp_connected olabels cost_limit ds ls (Some g))
              (fun g t => Permutation (leaves t) g) gs) as [ts [E F]].
  { intros g Hg.
    rewrite (mapM_ret (index ishapes) (fun x => nth x ishapes []))
      by (intros x Hx; apply index_lt; rewrite Hlen; eapply Hrange; eauto).
    cbn [bind].
    rewrite (mapM_ret (index ilabels) (fun x => nth x ilabels []))
      by (intros x Hx; apply index_lt; eapply Hrange; eauto).
    cbn [bind].
    rewrite Forall_forall in Hlinked.
    apply dp_connected_ok.
    - rewrite !length_map. reflexivity.
    - rewrite length_map. reflexivity.
    - rewrite length_map. pose proof (linked_nonempty ilabels olabels g (Hlinked g Hg)) as Hne.
      destruct g; [congruence|simpl; lia].
    - apply local_chained; auto.
    - apply local_at_most_two; auto.
      + intros x Hx. eapply Hrange; eauto.
      + eapply NoDup_concat_in; eauto. }
  rewrite E. cbn [bind].
  destruct ts as [|c0 cs].
  - exfalso. inversion F as [Egs|]; subst. rewrite <- Egs in Hperm. simpl in Hperm.
    apply Permutation_length in Hperm. rewrite length_seq in Hperm. simpl in Hperm. lia.
  - exists (fold_left Node cs c0). split; [reflexivity|].
    rewrite leaves_fold_node.
    eapply Permutation_trans; [|exact Hperm].
    apply (concat_leaves_perm gs (c0 :: cs) F).
Qed.

(** ** Contraction sequences of [einsum_optimize] *)

Lemma replay_leaves_one {A} (combine : A -> A -> A) (sq : list step) (ops : list A) :
  1 <= length ops ->
  length sq = length ops - 1 ->
  valid_seq (length ops) sq ->
  exists r, replay (fun a b => Ret (combine a b)) ops sq = Ret [r].
Proof.
  intros Hn Hl Hv.
  destruct (replay_valid combine sq ops Hv) as [live [E Hlen]].
  destruct live as [|r [|r' live]]; simpl in Hlen; try lia.
  exists r. exact E.
Qed.

(** C2, as the code has it.  For N >= 1 operands and each of the strategies
    False, True/'dp' and 'greedy' -- for the dynamic-programming strategy
    provided that no label absent from the output occurs in more than two
    operands, the case [einsum] itself hands to the fallback --
    [einsum_optimize] returns a sequence of exactly N-1 steps; every step
    names two distinct positions in range of the live list of its time, so
    that the replay (pop both, insert the combination at position 0) is
    defined at every step and leaves exactly one operand; and for the
    dynamic-programming strategy the sequence is the linearisation of a
    contraction tree over the N operands whose replay performs exactly the
    pairwise combinations of that tree. *)
Theorem einsum_optimize_sequence_replays {SO : SetOrder}
        (ishapes : list (list Z)) (ilabels : list labels) (olabels : labels)
        (optimize : strategy) (cost_limit : option Z) :
  length ishapes = length ilabels ->
  1 <= length ishapes ->
  optimize <> OptOther ->
  (optimize = OptTrue \/ optimize = OptDP -> at_most_two ilabels olabels) ->
  exists sq,
    einsum_optimize ishapes ilabels olabels optimize cost_limit = Ret sq /\
    length sq = length ishapes - 1 /\
    valid_seq (length ishapes) sq /\
    (forall (A : Type) (combine : A -> A -> A) (ops : list A),
        length ops = length ishapes ->
        exists r, replay (fun a b => Ret (combine a b)) ops sq = Ret [r]) /\
    (optimize = OptTrue \/ optimize = OptDP ->
     exists t,
       sq = _tree_to_sequence t /\
       Permutation (leaves t) (seq 0 (length ishapes)) /\
       replay node_of (map Leaf (seq 0 (length ishapes))) sq = Ret [replayed t] /\
       same_contractions (replayed t) t).
Proof.
  intros Hlen Hn Hopt Htwo.
  assert (forall sq,
             length sq = length ishapes - 1 -> valid_seq (length ishapes) sq ->
             forall (A : Type) (combine : A -> A -> A) (ops : list A),
               length ops = length ishapes ->
               exists r, replay (fun a b => Ret (combine a b)) ops sq = Ret [r]) as Hreplay.
  { intros sq Hl Hv A combine ops Hops. apply replay_leaves_one; rewrite Hops; auto. }
  assert (optimize = OptTrue \/ optimize = OptDP ->
          exists sq,
            einsum_optimize ishapes ilabels olabels optimize cost_limit = Ret sq /\
            length sq = length ishapes - 1 /\
            valid_seq (length ishapes) sq /\
            (forall (A : Type) (combine : A -> A -> A) (ops : list A),
                length ops = length ishapes ->
                exists r, replay (fun a b => Ret (combine a b)) ops sq = Ret [r]) /\
            (optimize = OptTrue \/ optimize = OptDP ->
             exists t,
               sq = _tree_to_sequence t /\
               Permutation (leaves t) (seq 0 (length ishapes)) /\
               replay node_of (map Leaf (seq 0 (length ishapes))) sq = Ret [replayed t] /\
               same_contractions (replayed t) t)) as Hdp.
  { intros Hd.
    destruct (einsum_optimize_dp_ok ishapes ilabels olabels cost_limit Hlen)
      as [t [E P]]; [lia|auto|].
    rewrite <- Hlen in P.
    destruct (tree_to_sequence_replay t (length ishapes) P) as [Hl [Hv R]].
    exists (_tree_to_sequence t).
    split; [destruct Hd; subst; exact E|].
    split; [exact Hl|]. split; [exact Hv|]. split; [apply Hreplay; auto|].
    intros _. exists t. repeat split; auto. apply replayed_same. }
  destruct optimize; try congruence; auto.
  - (* False *)
    exists (repeat (0, 1) (length ishapes - 1)).
    assert (valid_seq (length ishapes) (repeat (0, 1) (length ishapes - 1))) as Hv
        by (apply valid_seq_repeat; lia).
    split; [reflexivity|]. split; [apply repeat_length|]. split; [exact Hv|].
    split; [apply Hreplay; auto; apply repeat_length|].
    intros [H|H]; discriminate.
  - (* greedy *)
    destruct (greedy_loop_run olabels (length ishapes) ishapes ilabels [] Hlen (le_n _))
      as [sq [E [Hl R]]].
    exists sq. pose proof (greedy_run_valid olabels ishapes ilabels sq Hlen R) as Hv.
    split; [exact E|]. split; [exact Hl|]. split; [exact Hv|].
    split; [apply Hreplay; auto|].
    intros [H|H]; discriminate.
Qed.

Lemma chain_at_most_two : at_most_two [L "ij"; L "jk"; L "kl"] (L "il").
Proof.
  intros a i j k Ha Hij Hjk Hk [H1 [H2 H3]]. simpl in Hk.
  assert (i = 0 /\ j = 1 /\ k = 2) as [-> [-> ->]] by lia.
  simpl in H1, H3.
  destruct H1 as [<-|[<-|[]]]; destruct H3 as [H3|[H3|[]]]; discriminate.
Qed.

Lemma einsum_optimize_sequence_replays_witness :
  exists sq,
    einsum_optimize [[2; 3]; [3; 4]; [4; 5]]%Z [L "ij"; L "jk"; L "kl"] (L "il")
                    OptDP None = Ret sq /\
    length sq = 2 /\
    valid_seq 3 sq /\
    (forall (A : Type) (combine : A -> A -> A) (ops : list A),
        length ops = 3 ->
        exists r, replay (fun a b => Ret (combine a b)) ops sq = Ret [r]) /\
    (OptDP = OptTrue \/ OptDP = OptDP ->
     exists t,
       sq = _tree_to_sequence t /\
       Permutation (leaves t) (seq 0 3) /\
       replay node_of (map Leaf (seq 0 3)) sq = Ret [replayed t] /\
       same_contractions (replayed t) t).
Proof.
  apply (einsum_optimize_sequence_replays
           [[2; 3]; [3; 4]; [4; 5]]%Z [L "ij"; L "jk"; L "kl"] (L "il") OptDP None).
  - reflexivity.
  - simpl. lia.
  - discriminate.
  - intros _. exact chain_at_most_two.
Defined.

(** C2 as stated fails: with a label that is summed over and shared by
    three operands no complete contraction is ever stored, and the
    dynamic-programming strategy raises [IndexError] instead of returning a
    sequence. *)
Lemma dp_raises_on_label_shared_by_three :
  ~ (forall (SO : SetOrder) (ishapes : list (list Z)) (ilabels : list labels)
            (olabels : labels),
        length ishapes = length ilabels -> 1 <= length ishapes ->
        exists sq, einsum_optimize ishapes ilabels olabels OptTrue None = Ret sq /\
                   length sq = length ishapes - 1).
Proof.
  intros H.
  destruct (H list_order [[2; 3]; [2; 4]; [2; 5]]%Z [L "ij"; L "ik"; L "il"] (L "jkl")
              eq_refl) as [sq [E _]].
  - simpl. lia.
  - vm_compute in E. discriminate.
Qed.

(** ** The cost ceiling of the dynamic programme *)

(** C3 (the code departs from it).  With [cost_limit = 1] the only
    candidate for the pair of operands of 'ij,jk->ik' on shapes (2,3) and
    (3,4) costs 24; it is stored in the table all the same, and its tree is
    returned. *)
Theorem dp_stores_first_candidate_above_limit :
  let row1 := row1_of [[2; 3]; [3; 4]]%Z [L "ij"; L "jk"] [0; 1] in
  (exists e, lookup [0; 1] (nth 2 (dp_table (L "ik") (Some 1%Z) row1 2) []) = Some e /\
             e_cost e = 24%Z /\ (1 < e_cost e)%Z) /\
  _einsum_optimize_dp_connected (L "ik") (Some 1%Z) [[2; 3]; [3; 4]]%Z
                                [L "ij"; L "jk"] None
  = Ret (Node (Leaf 0) (Leaf 1)).
Proof.
  split.
  - eexists. split; [vm_compute; reflexivity|]. split; [reflexivity|reflexivity].
  - vm_compute. reflexivity.
Qed.

(** ** Sorting *)

Lemma insert_by_perm {A} (le : A -> A -> bool) (x : A) (l : list A) :
  Permutation (insert_by le x l) (x :: l).
Proof.
  induction l as [|y l IH]; simpl; auto.
  destruct (le y x); auto.
  eapply Permutation_trans; [apply perm_skip, IH|apply perm_swap].
Qed.

Lemma sorted_by_perm {A} (le : A -> A -> bool) (l : list A) :
  Permutation (sorted_by le l) l.
Proof.
  unfold sorted_by.
  assert (forall acc, Permutation (fold_left (fun acc x => insert_by le x acc) l acc)
                                  (acc ++ l)) as H.
  { induction l as [|x l IH]; intros acc; simpl.
    - rewrite app_nil_r. auto.
    - eapply Permutation_trans; [apply IH|].
      eapply Permutation_trans; [apply Permutation_app_tail, insert_by_perm|].
      simpl. apply Permutation_middle. }
  apply (H []).
Qed.

Section KeySort.
Context {A : Type}.
Variable key : A -> nat.
Variable le : A -> A -> bool.
Hypothesis le_key : forall a b, le a b = (key a <=? key b).

Lemma insert_by_sorted (x : A) (l : list A) :
  StronglySorted (fun a b => key a <= key b) l ->
  StronglySorted (fun a b => key a <= key b) (insert_by le x l).
Proof.
  induction 1 as [|y l HS IH HF]; simpl.
  - repeat constructor.
  - rewrite le_key. destruct (key y <=? key x) eqn:E.
    + apply Nat.leb_le in E. constructor; auto.
      rewrite Forall_forall in *. intros z Hz.
      apply (Permutation_in _ (insert_by_perm le x l)) in Hz.
      destruct Hz as [<-|Hz]; auto.
    + apply Nat.leb_gt in E. constructor; [constructor; auto|].
      constructor; [lia|]. rewrite Forall_forall in *. intros z Hz.
      specialize (HF z Hz). lia.
Qed.

Lemma sorted_by_sorted (l : list A) :
  StronglySorted (fun a b => key a <= key b) (sorted_by le l).
Proof.
  unfold sorted_by.
  assert (forall acc, StronglySorted (fun a b => key a <= key b) acc ->
                      StronglySorted (fun a b => key a <= key b)
                                     (fold_left (fun acc x => insert_by le x acc) l acc))
    as H.
  { induction l as [|x l IH]; intros acc Hacc; simpl; auto.
    apply IH, insert_by_sorted, Hacc. }
  apply H. constructor.
Qed.

Lemma key_sorted_unique (l' : list A) :
  forall s, Permutation s l' ->
            StronglySorted (fun a b => key a <= key b) s ->
            StronglySorted (fun a b => key a < key b) l' ->
            s = l'.
Proof.
  induction l' as [|a r IH]; intros s P Ss Sl.
  - apply Permutation_sym, Permutation_nil in P. exact P.
  - destruct s as [|b s'].
    + apply Permutation_nil in P. discriminate.
    + inversion Ss as [|? ? Ss' Fs]; inversion Sl as [|? ? Sl' Fl]; subst.
      rewrite Forall_forall in Fs, Fl.
      assert (b = a) as ->.
      { assert (In b (a :: r)) as Hb by (eapply Permutation_in; [exact P|left; reflexivity]).
        assert (In a (b :: s')) as Ha
            by (eapply Permutation_in; [apply Permutation_sym, P|left; reflexivity]).
        destruct Hb as [->|Hb]; auto. destruct Ha as [->|Ha]; auto.
        specialize (Fl _ Hb). specialize (Fs _ Ha). lia. }
      f_equal. apply IH; auto. eapply Permutation_cons_inv; eauto.
Qed.

(** A list sorts to the arrangement of its elements whose keys increase. *)
Lemma sorted_by_key_unique (l l' : list A) :
  Permutation l l' -> StronglySorted (fun a b => key a < key b) l' ->
  sorted_by le l = l'.
Proof.
  intros P S. apply key_sorted_unique; auto.
  - eapply Permutation_trans; [apply sorted_by_perm|exact P].
  - apply sorted_by_sorted.
Qed.
End KeySort.

Lemma label_le_key (a b : label) : label_le a b = (code a <=? code b).
Proof. reflexivity. Qed.

Lemma code_inj (a b : label) : code a = code b -> a = b.
Proof.
  unfold code. intros H. rewrite <- (ascii_nat_embedding a), <- (ascii_nat_embedding b).
  congruence.
Qed.

Lemma sorted_labels_perm (s : labels) : Permutation (sorted_labels s) s.
Proof. apply sorted_by_perm. Qed.

Lemma in_sorted_labels (a : label) (s : labels) : In a (sorted_labels s) <-> In a s.
Proof.
  split; intros H.
  - eapply Permutation_in; [apply sorted_labels_perm|exact H].
  - eapply Permutation_in; [apply Permutation_sym, sorted_labels_perm|exact H].
Qed.

Lemma labels_eqb_eq (a b : labels) : labels_eqb a b = true <-> a = b.
Proof.
  unfold labels_eqb. destruct (list_eq_dec ascii_dec a b); split; auto; discriminate.
Qed.

(** ** The end of [einsum]: the check of the surviving labels *)

Lemma mapM_length {A B} (f : A -> outcome B) (l : list A) (bs : list B) :
  mapM f l = Ret bs -> length bs = length l.
Proof.
  revert bs. induction l as [|a l IH]; intros bs H; simpl in H.
  - inversion H. reflexivity.
  - destruct (f a); [|discriminate]. simpl in H.
    destruct (mapM f l); [|discriminate]. simpl in H. inversion H; subst.
    simpl. f_equal. apply IH. reflexivity.
Qed.

Section EinsumFacts.
Context {SO : SetOrder} {T : Type} {ops : TensorOps T}.

Lemma einsum_finish_rejects (t0 : T) (ts : list T) (l0 : labels) (ls : list labels)
      (out : labels) (a : label) :
  In a l0 -> ~ In a out ->
  einsum_finish (t0 :: ts, l0 :: ls) out = Raise InvalidEquationError.
Proof.
  intros Ha Hout. unfold einsum_finish. cbn [index nth_error bind].
  assert (labels_eqb (sorted_labels l0) (sorted_labels out) = false) as E.
  { destruct (labels_eqb _ _) eqn:E; auto. apply labels_eqb_eq in E.
    exfalso. apply Hout. apply in_sorted_labels. rewrite <- E.
    apply in_sorted_labels. exact Ha. }
  destruct (set_diff (set_of l0) (set_of out)); cbn [bind]; rewrite E; reflexivity.
Qed.

(** C9. Whenever the call goes through the pairwise reductions and the
    surviving operand keeps a label that the output lacks, [einsum] raises
    the 'Invalid equation' error: the sum over the missing indices is bound
    to a temporary and never returned.  The static shapes of the operands
    fit their labels, and the rank of the surviving operand is the number of
    its labels: the primitives of the reductions and the discarded
    [math_ops.reduce_sum] of line 324 are then given shapes and axes that
    they accept, so that the call reaches the check of line 328 (a single
    operand is never checked against its labels before). *)
Theorem einsum_rejects_unsummed_labels
        (tpu : bool) (equation : labels) (inputs : list T) (optimize : strategy)
        (ins : list labels) (out : labels) (unknown : bool) (sz : label -> Z)
        (t0 : T) (ts : list T) (l0 : labels) (ls : list labels) (a : label) :
  _einsum_parse_and_resolve_equation equation (map get_shape inputs) = Ret (ins, out) ->
  shapes_fit sz inputs ins ->
  any_unknown_dim (map get_shape inputs) = Ret unknown ->
  dup_check (length ins =? 1) (negb (has_arrow equation))
            (iter_label (set_of (concat ins ++ out))) ins = DupNone ->
  fallback_label (iter_label (set_of (concat ins ++ out))) ins out = None ->
  tpu && (length inputs =? 2) = false ->
  einsum_pairwise inputs ins out (if unknown then OptFalse else optimize)
  = Ret (t0 :: ts, l0 :: ls) ->
  ndims (get_shape t0) = Some (length l0) ->
  In a l0 -> ~ In a out ->
  einsum tpu equation inputs optimize = ([], Raise InvalidEquationError).
Proof.
  intros Hparse Hfit Hany Hdup Hfb Htpu Hpair Hrank Ha Hout.
  unfold einsum. rewrite Hparse, Hany, Hdup, Hfb, Htpu, Hpair. cbn [bind].
  rewrite (einsum_finish_rejects t0 ts l0 ls out a Ha Hout). reflexivity.
Qed.

Lemma any_unknown_dim_true (shapes : list tensor_shape) (dims : list dim) :
  In (Some dims) shapes -> In None dims ->
  any_unknown_dim shapes = Ret true \/ exists e, any_unknown_dim shapes = Raise e.
Proof.
  induction shapes as [|s shapes IH]; intros Hin Hnone; [destruct Hin|].
  simpl. destruct s as [l|]; simpl; [|right; eauto].
  destruct (existsb is_unknown l) eqn:E; [left; reflexivity|].
  destruct Hin as [Hs|Hin]; [|apply IH; auto].
  inversion Hs; subst. exfalso.
  assert (existsb is_unknown dims = true) as E'.
  { apply existsb_exists. exists None. auto. }
  congruence.
Qed.

(** C10. When some input has a statically unknown dimension the requested
    strategy is ignored: [einsum] behaves as with [optimize=False], whose
    contraction sequence is [(0,1), (0,1), ...], strictly left to right. *)
Theorem einsum_unknown_dim_forces_left_to_right
        (tpu : bool) (equation : labels) (inputs : list T) (optimize : strategy)
        (t : T) (dims : list dim) :
  In t inputs -> get_shape t = Some dims -> In None dims ->
  einsum tpu equation inputs optimize = einsum tpu equation inputs OptFalse /\
  forall ins out,
    einsum_pairwise inputs ins out OptFalse =
    (shapes <- mapM (fun t => as_list (get_shape t)) inputs ;;
     foldM (reduce_step out) (repeat (0, 1) (length inputs - 1)) (inputs, ins)).
Proof.
  intros Hin Hshape Hnone. split.
  - unfold einsum.
    destruct (_einsum_parse_and_resolve_equation _ _) as [[ins out]|e]; auto.
    destruct (any_unknown_dim_true (map get_shape inputs) dims) as [E|[e E]]; auto.
    + rewrite <- Hshape. apply in_map. exact Hin.
    + rewrite E. reflexivity.
    + rewrite E. reflexivity.
  - intros ins out. unfold einsum_pairwise.
    destruct (mapM _ inputs) as [shapes|e] eqn:E; cbn [bind]; auto.
    unfold einsum_optimize. cbn [bind].
    rewrite length_map, (mapM_length _ _ _ E). reflexivity.
Qed.
End EinsumFacts.

Lemma einsum_rejects_unsummed_labels_witness :
  einsum (SO := list_order) false (L "ij->i")
         [of_elements [2; 3] [1; 2; 3; 4; 5; 6]%Z] OptTrue
  = ([], Raise InvalidEquationError).
Proof.
  apply (einsum_rejects_unsummed_labels (SO := list_order)
           false (L "ij->i") [of_elements [2; 3] [1; 2; 3; 4; 5; 6]%Z] OptTrue
           [L "ij"] (L "i") false (fun a => if Ascii.eqb a "i" then 2%Z else 3%Z)
           (of_elements [2; 3] [1; 2; 3; 4; 5; 6]%Z) [] (L "ij") [] "j"%char).
  - reflexivity.
  - constructor; [|constructor].
    exists [Some 2%Z; Some 3%Z]. split; [reflexivity|].
    repeat constructor; right; reflexivity.
  - reflexivity.
  - reflexivity.
  - reflexivity.
  - reflexivity.
  - reflexivity.
  - reflexivity.
  - simpl. auto.
  - simpl. intros [H|[]]. discriminate.
Defined.

Lemma einsum_unknown_dim_forces_left_to_right_witness :
  let t := mkDense (Some [None; Some 3%Z]) [2; 3] (fun _ => 1%Z) in
  let u := of_elements [3; 2] [1; 0; 0; 1; 1; 1]%Z in
  einsum (SO := list_order) false (L "ij,jk->ik") [t; u] OptGreedy
  = einsum (SO := list_order) false (L "ij,jk->ik") [t; u] OptFalse /\
  forall ins out,
    einsum_pairwise (SO := list_order) [t; u] ins out OptFalse =
    (shapes <- mapM (fun t => as_list (get_shape t)) [t; u] ;;
     foldM (reduce_step out) (repeat (0, 1) (length [t; u] - 1)) ([t; u], ins)).
Proof.
  intros t u.
  apply (einsum_unknown_dim_forces_left_to_right (SO := list_order)
           false (L "ij,jk->ik") [t; u] OptGreedy t [None; Some 3%Z]).
  - simpl. auto.
  - reflexivity.
  - simpl. auto.
Defined.

(** ** The gate of the exponential-space fallback *)

Lemma input_count_in (a : label) (ins : list labels) :
  0 < input_count a ins -> In a (concat ins).
Proof.
  unfold input_count. induction ins as [|l ins IH]; simpl; [lia|].
  destruct (mem a l) eqn:E; simpl; intros H.
  - apply in_or_app. left. apply mem_In, E.
  - apply in_or_app. right. auto.
Qed.

Section FallbackGate.
Context {SO : SetOrder} {T : Type} {ops : TensorOps T}.

Lemma in_axis_labels (a : label) (ins : list labels) (out : labels) :
  In a (iter_label (set_of (concat ins ++ out))) <-> In a (concat ins) \/ In a out.
Proof.
  rewrite <- in_app_iff, <- (in_set_of a (concat ins ++ out)). split; intros H.
  - eapply Permutation_in; [apply iter_label_perm|exact H].
  - eapply Permutation_in; [apply Permutation_sym, iter_label_perm|exact H].
Qed.

Lemma fallback_label_spec (ins : list labels) (out : labels) :
  match fallback_label (iter_label (set_of (concat ins ++ out))) ins out with
  | Some a => 2 < input_count a ins /\ ~ In a out
  | None => forall a, 2 < input_count a ins -> In a out
  end.
Proof.
  unfold fallback_label.
  destruct (List.find _ _) as [a|] eqn:E.
  - apply find_some in E. destruct E as [_ E].
    apply andb_true_iff in E. destruct E as [E1 E2].
    apply Nat.ltb_lt in E1. apply negb_true_iff, mem_false in E2. auto.
  - intros a Ha.
    pose proof (find_none _ _ E a) as H. cbv beta in H.
    assert (In a (iter_label (set_of (concat ins ++ out)))) as Hin.
    { apply in_axis_labels. left. apply input_count_in. lia. }
    specialize (H Hin). apply andb_false_iff in H. destruct H as [H|H].
    + apply Nat.ltb_ge in H. lia.
    + apply negb_false_iff, mem_In in H. exact H.
Qed.
End FallbackGate.

(** C5. Past parsing and the duplicate-label and self-trace checks,
    [einsum] hands the call to the exponential-space fallback exactly when
    some label occurs in more than two inputs and not in the output, and it
    then logs a warning naming such a label.  'ij,jk,kl->il' takes the
    pairwise path whatever the strategy; 'ij,ik,il->jkl' takes the fallback,
    whose result is the brute-force sum over [i] of the products. *)
Theorem einsum_fallback_iff_label_shared_by_three :
  (forall (SO : SetOrder) (T : Type) (ops : TensorOps T)
          (tpu : bool) (equation : labels) (inputs : list T) (optimize : strategy)
          (ins : list labels) (out : labels) (unknown : bool),
      _einsum_parse_and_resolve_equation equation (map get_shape inputs) = Ret (ins, out) ->
      any_unknown_dim (map get_shape inputs) = Ret unknown ->
      dup_check (length ins =? 1) (negb (has_arrow equation))
                (iter_label (set_of (concat ins ++ out))) ins = DupNone ->
      ((exists a, 2 < input_count a ins /\ ~ In a out) <->
       (exists a, einsum tpu equation inputs optimize
                  = ([a], _exponential_space_einsum equation inputs))) /\
      (forall a, einsum tpu equation inputs optimize
                 = ([a], _exponential_space_einsum equation inputs) ->
                 2 < input_count a ins /\ ~ In a out) /\
      ((forall a, 2 < input_count a ins -> In a out) ->
       fst (einsum tpu equation inputs optimize) = [])) /\
  (forall (a b c : list nat -> Z) (optimize : strategy),
      einsum (SO := list_order) false (L "ij,jk,kl->il")
             [tensor_of [2; 3] a; tensor_of [3; 2] b; tensor_of [2; 2] c] optimize
      = ([],
         st <- einsum_pairwise (SO := list_order)
                 [tensor_of [2; 3] a; tensor_of [3; 2] b; tensor_of [2; 2] c]
                 [L "ij"; L "jk"; L "kl"] (L "il") optimize ;;
         einsum_finish st (L "il"))) /\
  (forall (a b c : list nat -> Z) (optimize : strategy),
      let inputs := [tensor_of [2; 2] a; tensor_of [2; 3] b; tensor_of [2; 2] c] in
      einsum (SO := list_order) false (L "ij,ik,il->jkl") inputs optimize
      = (["i"%char], _exponential_space_einsum (L "ij,ik,il->jkl") inputs) /\
      result_elements (_exponential_space_einsum (L "ij,ik,il->jkl") inputs)
      = Ret ([2; 3; 2],
             elements (einsum_reference [L "ij"; L "ik"; L "il"] (L "jkl") inputs))).
Proof.
  split; [|split].
  - intros SO T ops tpu equation inputs optimize ins out unknown Hparse Hany Hdup.
    pose proof (fallback_label_spec ins out) as Hspec.
    unfold einsum. rewrite Hparse, Hany, Hdup.
    destruct (fallback_label _ ins out) as [a0|] eqn:Hfb.
    + destruct Hspec as [H1 H2]. split; [|split].
      * split; intros _; eauto.
      * intros a E. inversion E; subst. auto.
      * intros Hall. exfalso. apply H2, Hall, H1.
    + split; [|split].
      * split.
        -- intros [a [H1 H2]]. exfalso. apply H2, Hspec, H1.
        -- intros [a E]. destruct (tpu && _); inversion E.
      * intros a E. destruct (tpu && _); inversion E.
      * intros _. destruct (tpu && _); reflexivity.
  - intros a b c optimize. reflexivity.
  - intros a b c optimize inputs. split; [reflexivity|].
    vm_compute. reflexivity.
Qed.

Lemma einsum_fallback_iff_label_shared_by_three_witness :
  let inputs := [of_elements [2; 2] [1; 2; 3; 4]%Z; of_elements [2; 2] [1; 0; 0; 1]%Z;
                 of_elements [2; 2] [5; 6; 7; 8]%Z] in
  ((exists a, 2 < input_count a [L "ij"; L "ik"; L "il"] /\ ~ In a (L "jkl")) <->
   (exists a, einsum (SO := list_order) false (L "ij,ik,il->jkl") inputs OptTrue
              = ([a], _exponential_space_einsum (L "ij,ik,il->jkl") inputs))) /\
  (forall a, einsum (SO := list_order) false (L "ij,ik,il->jkl") inputs OptTrue
             = ([a], _exponential_space_einsum (L "ij,ik,il->jkl") inputs) ->
             2 < input_count a [L "ij"; L "ik"; L "il"] /\ ~ In a (L "jkl")) /\
  ((forall a, 2 < input_count a [L "ij"; L "ik"; L "il"] -> In a (L "jkl")) ->
   fst (einsum (SO := list_order) false (L "ij,ik,il->jkl") inputs OptTrue) = []).
Proof.
  intros inputs.
  apply (proj1 einsum_fallback_iff_label_shared_by_three
               list_order dense dense_ops false (L "ij,ik,il->jkl") inputs OptTrue
               [L "ij"; L "ik"; L "il"] (L "jkl") false).
  - reflexivity.
  - reflexivity.
  - reflexivity.
Defined.

(** ** The resolver keeps one label string per operand *)

Lemma resolve_inputs_length (unused : labels) (axes : list labels) :
  forall shapes e rs e',
    resolve_inputs unused axes shapes e = Ret (rs, e') -> length rs = length axes.
Proof.
  induction axes as [|ax axes IH]; intros shapes e rs e' H; simpl in H.
  - inversion H. reflexivity.
  - destruct (has_ellipsis ax).
    + destruct (negb _); [discriminate|].
      destruct (index shapes 0) as [sh|]; [|discriminate]. cbn [bind] in H.
      destruct (ndims sh) as [nd|]; [|discriminate].
      destruct (nd <? _); [discriminate|].
      destruct (length unused <? _); [discriminate|].
      destruct (resolve_inputs unused axes (tl shapes) _) as [[rs0 e0]|] eqn:E;
        [|discriminate].
      cbn [bind] in H. inversion H; subst. simpl. f_equal. eapply IH; eauto.
    + destruct (resolve_inputs unused axes (tl shapes) e) as [[rs0 e0]|] eqn:E;
        [|discriminate].
      cbn [bind] in H. inversion H; subst. simpl. f_equal. eapply IH; eauto.
Qed.

Lemma parse_length (equation : labels) (shapes : list tensor_shape)
      (ins : list labels) (out : labels) :
  _einsum_parse_and_resolve_equation equation shapes = Ret (ins, out) ->
  length ins = length shapes.
Proof.
  unfold _einsum_parse_and_resolve_equation.
  destruct (match_equation _) as [[g1 g2]|]; [|discriminate].
  destruct (negb (length shapes =? length (split_comma g1 []))) eqn:Ear; [discriminate|].
  apply negb_false_iff, Nat.eqb_eq in Ear.
  destruct (has_ellipsis _).
  - destruct (resolve_inputs _ _ _ _) as [[rs e]|] eqn:E; [|discriminate].
    apply resolve_inputs_length in E. cbn [bind]. cbv beta iota.
    destruct (existsb (mem ch_period) rs); [discriminate|].
    destruct (option_map (skipn 2) g2) as [o|]; cbn [bind]; cbv beta iota.
    + destruct (mem ch_period (replace_ellipsis o e)); [discriminate|].
      cbn [bind]. cbv beta iota.
      intros H. inversion H; subst. lia.
    + intros H. inversion H; subst. lia.
  - cbn [bind]. cbv beta iota.
    destruct (option_map (skipn 2) g2); intros H; inversion H; subst; lia.
Qed.

(** ** Repeated labels: the trace and the duplicate-axis error *)

Lemma dup_check_label_cases (single no_arrow : bool) (a : label) (ins : list labels) :
  match dup_check_label single no_arrow a ins with
  | DupNone => forall l, In l ins -> count a l <= 1
  | DupTrace => single = true /\ no_arrow = true /\
                exists l, In l ins /\ count a l = 2 /\ l = rev l
  | DupRaise l => In l ins /\ 1 < count a l
  end.
Proof.
  induction ins as [|l ins IH]; simpl.
  - intros l [].
  - destruct (single && (count a l =? 2) && labels_eqb l (rev l) && no_arrow) eqn:E.
    + apply andb_true_iff in E. destruct E as [E E4].
      apply andb_true_iff in E. destruct E as [E E3].
      apply andb_true_iff in E. destruct E as [E1 E2].
      apply Nat.eqb_eq in E2. apply labels_eqb_eq in E3.
      repeat split; auto. exists l. auto.
    + destruct (1 <? count a l) eqn:E'.
      * apply Nat.ltb_lt in E'. auto.
      * apply Nat.ltb_ge in E'.
        destruct (dup_check_label single no_arrow a ins).
        -- intros l' [<-|H]; auto.
        -- destruct IH as [H1 [H2 [l' [H3 H4]]]]. repeat split; auto. exists l'. auto.
        -- destruct IH. auto.
Qed.

Lemma dup_check_label_single (no_arrow : bool) (a : label) (l : labels) :
  dup_check_label true no_arrow a [l] =
  if (count a l =? 2) && labels_eqb l (rev l) && no_arrow then DupTrace
  else if 1 <? count a l then DupRaise l else DupNone.
Proof. reflexivity. Qed.

Lemma dup_check_cases (single no_arrow : bool) (axis_labels : labels) (ins : list labels) :
  match dup_check single no_arrow axis_labels ins with
  | DupNone => forall a, In a axis_labels ->
                         dup_check_label single no_arrow a ins = DupNone
  | d => exists a, In a axis_labels /\ dup_check_label single no_arrow a ins = d
  end.
Proof.
  induction axis_labels as [|a rest IH]; simpl.
  - intros a [].
  - destruct (dup_check_label single no_arrow a ins) eqn:E.
    + destruct (dup_check single no_arrow rest ins).
      * intros b [<-|H]; auto.
      * destruct IH as [b [H1 H2]]. exists b. auto.
      * destruct IH as [b [H1 H2]]. exists b. auto.
    + exists a. auto.
    + exists a. auto.
Qed.

(** When every label decides for the trace or for nothing, and one decides
    for the trace, the scan decides for the trace. *)
Lemma dup_check_all_trace (single no_arrow : bool) (axis_labels : labels)
      (ins : list labels) :
  (forall a, In a axis_labels ->
             dup_check_label single no_arrow a ins = DupNone \/
             dup_check_label single no_arrow a ins = DupTrace) ->
  (exists a, In a axis_labels /\ dup_check_label single no_arrow a ins = DupTrace) ->
  dup_check single no_arrow axis_labels ins = DupTrace.
Proof.
  intros Hall [a [Ha Ht]].
  pose proof (dup_check_cases single no_arrow axis_labels ins) as H.
  destruct (dup_check single no_arrow axis_labels ins) as [| |l]; auto.
  - rewrite (H a Ha) in Ht. discriminate.
  - destruct H as [b [Hb E]]. destruct (Hall b Hb); congruence.
Qed.

Lemma count_in (a : label) (l : labels) : 0 < count a l -> In a l.
Proof. unfold count. intros H. apply (count_occ_In ascii_dec). lia. Qed.

(** C6 (the code departs from it).  Let the equation pass parsing and some
    label occur more than once in some operand's label string.  [einsum]
    fails with the duplicate-axis error for such an operand unless there is
    exactly one operand, no '->' in the equation, the label string is a
    palindrome and some label occurs exactly twice in it.  When these hold,
    every repeated label occurs exactly twice and the rank of the operand is
    the number of its labels, it returns [math_ops.trace] of the operand: for
    [einsum('ii', m)] the sum of the diagonal of [m].  An operand whose rank
    is the number of its labels gets one of these two outcomes in every case.
    But which of the two is not always a function of the call: for the
    palindrome 'ijjji', where [i] occurs twice and [j] three times, the loop
    over the label set (lines 275-283) raises the error when the set yields
    [j] first and returns the trace when it yields [i] first, where the
    docstring (lines 225-228) supports a repeated axis only in a trace. *)
Theorem einsum_repeated_label_trace_or_error :
  (forall (SO : SetOrder) (T : Type) (ops : TensorOps T)
          (tpu : bool) (equation : labels) (inputs : list T) (optimize : strategy)
          (ins : list labels) (out : labels) (unknown : bool),
      _einsum_parse_and_resolve_equation equation (map get_shape inputs) = Ret (ins, out) ->
      any_unknown_dim (map get_shape inputs) = Ret unknown ->
      (exists a l, In l ins /\ 1 < count a l) ->
      (~ (exists l a, ins = [l] /\ has_arrow equation = false /\ l = rev l /\
                      count a l = 2) ->
       exists l a, In l ins /\ 1 < count a l /\
                   einsum tpu equation inputs optimize
                   = ([], Raise (DuplicateAxisError l))) /\
      (forall l t0, ins = [l] -> inputs = [t0] ->
                    has_arrow equation = false -> l = rev l ->
                    (forall a, 1 < count a l -> count a l = 2) ->
                    ndims (get_shape t0) = Some (length l) ->
                    einsum tpu equation inputs optimize = ([], Ret (trace t0))) /\
      ((forall l t0, ins = [l] -> inputs = [t0] ->
                     ndims (get_shape t0) = Some (length l)) ->
       (exists t0, inputs = [t0] /\
                   einsum tpu equation inputs optimize = ([], Ret (trace t0))) \/
       (exists l a, In l ins /\ 1 < count a l /\
                    einsum tpu equation inputs optimize
                    = ([], Raise (DuplicateAxisError l))))) /\
  (forall (m : list nat -> Z) (optimize : strategy),
      einsum (SO := list_order) false (L "ii") [tensor_of [3; 3] m] optimize
      = ([], Ret (trace (tensor_of [3; 3] m))) /\
      elements (trace (tensor_of [3; 3] m))
      = [Z.add (m [0; 0]) (Z.add (m [1; 1]) (Z.add (m [2; 2]) 0%Z))]) /\
  (let t := tensor_of [1; 1; 1; 1; 1] (fun _ => 1%Z) in
   einsum (SO := list_order) false (L "ijjji") [t] OptTrue
   = ([], Raise (DuplicateAxisError (L "ijjji"))) /\
   einsum (SO := rev_order) false (L "ijjji") [t] OptTrue = ([], Ret (trace t)) /\
   ndims (get_shape t) = Some (length (L "ijjji")) /\
   count "i"%char (L "ijjji") = 2 /\ count "j"%char (L "ijjji") = 3 /\
   L "ijjji" = rev (L "ijjji") /\ has_arrow (L "ijjji") = false).
Proof.
  split; [|split].
  - intros SO T ops tpu equation inputs optimize ins out unknown Hparse Hany
           [a0 [l0 [Hl0 Hc0]]].
    assert (length ins = length inputs) as Hlen.
    { rewrite (parse_length _ _ _ _ Hparse). apply length_map. }
    assert (In a0 (iter_label (set_of (concat ins ++ out)))) as Ha0.
    { apply in_axis_labels. left. apply in_concat. exists l0. split; auto.
      apply count_in. lia. }
    assert (forall (single : bool),
               single = (length ins =? 1) ->
               single = true -> exists l t0, ins = [l] /\ inputs = [t0]) as Hsingle.
    { intros single -> H1. apply Nat.eqb_eq in H1.
      destruct ins as [|l [|? ?]]; simpl in H1; try discriminate.
      destruct inputs as [|t0 [|? ?]]; simpl in Hlen; try discriminate.
      exists l, t0. auto. }
    pose proof (dup_check_cases (length ins =? 1) (negb (has_arrow equation))
                                (iter_label (set_of (concat ins ++ out))) ins) as Hcases.
    unfold einsum. rewrite Hparse, Hany.
    destruct (dup_check (length ins =? 1) (negb (has_arrow equation))
                        (iter_label (set_of (concat ins ++ out))) ins) as [| |lr] eqn:Hd.
    + (* no decision: impossible *)
      exfalso. specialize (Hcases a0 Ha0).
      pose proof (dup_check_label_cases (length ins =? 1) (negb (has_arrow equation))
                                        a0 ins) as H.
      rewrite Hcases in H. specialize (H l0 Hl0). lia.
    + (* the trace *)
      destruct Hcases as [a [Ha Ea]].
      pose proof (dup_check_label_cases (length ins =? 1) (negb (has_arrow equation))
                                        a ins) as H.
      rewrite Ea in H. destruct H as [H1 [H2 [l [Hl [Hc Hp]]]]].
      destruct (Hsingle _ eq_refl H1) as [l' [t0 [-> ->]]].
      destruct Hl as [<-|[]].
      split; [|split].
      * intros Hno. exfalso. apply Hno. exists l', a.
        apply negb_true_iff in H2. auto.
      * intros l t1 _ Ht1 _ _ _ _. inversion Ht1; subst. reflexivity.
      * intros _. left. exists t0. auto.
    + (* the error *)
      destruct Hcases as [a [Ha Ea]].
      pose proof (dup_check_label_cases (length ins =? 1) (negb (has_arrow equation))
                                        a ins) as H.
      rewrite Ea in H. destruct H as [Hlr Hc].
      split; [|split].
      * intros _. exists lr, a. auto.
      * intros l t0 -> _ Harrow Hpal Htwice _. exfalso.
        assert (dup_check true (negb (has_arrow equation))
                          (iter_label (set_of (concat [l] ++ out))) [l] = DupTrace) as Ht.
        { apply dup_check_all_trace.
          - intros b _. rewrite dup_check_label_single.
            destruct (count b l =? 2) eqn:E2.
            + right. rewrite Harrow. rewrite (proj2 (labels_eqb_eq l (rev l)) Hpal).
              reflexivity.
            + left. simpl. destruct (1 <? count b l) eqn:E1; auto.
              apply Nat.ltb_lt in E1. apply Htwice in E1.
              apply Nat.eqb_neq in E2. contradiction.
          - destruct Hl0 as [<-|[]]. exists a0. split; auto.
            rewrite dup_check_label_single.
            rewrite (proj2 (Nat.eqb_eq _ _) (Htwice a0 Hc0)).
            rewrite Harrow, (proj2 (labels_eqb_eq l (rev l)) Hpal). reflexivity. }
        change (length [l] =? 1) with true in Hd. rewrite Ht in Hd. discriminate.
      * intros _. right. exists lr, a. auto.
  - intros m optimize. split; reflexivity.
  - intros t. repeat split.
Qed.

Lemma einsum_repeated_label_trace_or_error_witness :
  let m := of_elements [2; 2] [1; 2; 3; 4]%Z in
  einsum (SO := list_order) false (L "ii") [m] OptTrue = ([], Ret (trace m)).
Proof.
  intros m.
  apply (proj1 (proj2 (proj1 einsum_repeated_label_trace_or_error
                         list_order dense dense_ops false (L "ii") [m] OptTrue
                         [L "ii"] [] false eq_refl eq_refl
                         (ex_intro _ "i"%char
                            (ex_intro _ (L "ii")
                               (conj (or_introl eq_refl) (le_n 2))))))
               (L "ii") m eq_refl eq_refl eq_refl eq_refl).
  - intros a Ha. destruct (ascii_dec "i"%char a) as [<-|Hn]; [reflexivity|].
    exfalso. unfold count in Ha. change (L "ii") with ["i"%char; "i"%char] in Ha.
    rewrite !count_occ_cons_neq in Ha by exact Hn. simpl in Ha. lia.
  - reflexivity.
Defined.

(** ** The errors of the pairwise reduction *)

Section ReductionErrors.
Context {T : Type} {ops : TensorOps T}.

Lemma reshape_if_necessary_error (t : T) (new_shape : list (sdim T)) (e : exn) :
  _reshape_if_necessary t new_shape = Raise e -> e = TypeError.
Proof.
  unfold _reshape_if_necessary. destruct (get_shape t).
  - destruct (_ && _); discriminate.
  - intros H. inversion H. reflexivity.
Qed.

Lemma get_shape_error (t : T) (e : exn) :
  _get_shape t = Raise e -> e = UnknownRankError.
Proof.
  unfold _get_shape. destruct (get_shape t); simpl.
  - discriminate.
  - intros H. inversion H. reflexivity.
Qed.

(** The errors [_einsum_reduction] can raise once both ranks are known and
    match the label strings: none about ranks or dimensions. *)
Lemma einsum_reduction_error (t0 t1 : T) (l0 l1 axes : labels) (s0 s1 : list dim) (e : exn) :
  get_shape t0 = Some s0 -> get_shape t1 = Some s1 ->
  length l0 = length s0 -> length l1 = length s1 ->
  _einsum_reduction t0 l0 t1 l1 axes = Raise e ->
  e = AssertionError \/ e = TypeError \/ e = UnknownRankError.
Proof.
  intros H0 H1 E0 E1. unfold _einsum_reduction.
  rewrite H0, H1. cbn [as_list bind].
  rewrite (proj2 (Nat.eqb_eq _ _) E0), (proj2 (Nat.eqb_eq _ _) E1). cbn [negb].
  match goal with
  | |- context [negb (forallb ?f axes)] => destruct (negb (forallb f axes))
  end; [intros H; inversion H; auto|].
  destruct axes as [|a axes']; [intros H; inversion H|].
  repeat match goal with
         | |- bind ?m _ = Raise _ -> _ =>
             let E := fresh "E" in
             let H := fresh "H" in
             destruct m eqn:E; cbn [bind];
             [|intros H; inversion H; subst;
               first [apply get_shape_error in E | apply reshape_if_necessary_error in E];
               auto]
         end.
  intros H. inversion H.
Qed.
End ReductionErrors.

(** C7 (the code departs from it).  A label string whose length differs
    from the rank of its operand makes [_einsum_reduction] fail with the
    rank error, and with matching ranks it raises no rank error.  But it
    never raises an error about dimensions: contracting 'ab' of shape (2,3)
    with 'ab' of shape (3,2) over both labels, whose sizes disagree and are
    greater than 1, returns a scalar. *)
Theorem einsum_reduction_checks_ranks_only :
  (forall (T : Type) (ops : TensorOps T) (t0 t1 : T) (l0 l1 axes : labels)
          (s0 s1 : list dim),
      get_shape t0 = Some s0 -> get_shape t1 = Some s1 ->
      (length l0 <> length s0 ->
       _einsum_reduction t0 l0 t1 l1 axes = Raise (RankMismatchError 0)) /\
      (length l0 = length s0 -> length l1 <> length s1 ->
       _einsum_reduction t0 l0 t1 l1 axes = Raise (RankMismatchError 1)) /\
      (length l0 = length s0 -> length l1 = length s1 ->
       forall e, _einsum_reduction t0 l0 t1 l1 axes = Raise e ->
                 (forall n, e <> RankMismatchError n) /\
                 (forall ax, e <> DimensionMismatchError ax))) /\
  (let t0 := of_elements [2; 3] [1; 2; 3; 4; 5; 6]%Z in
   let t1 := of_elements [3; 2] [1; 2; 3; 4; 5; 6]%Z in
   result_elements (p <- _einsum_reduction t0 (L "ab") t1 (L "ab") (L "ab") ;; Ret (fst p))
   = Ret ([], [91%Z])).
Proof.
  split; [|reflexivity].
  intros T ops t0 t1 l0 l1 axes s0 s1 H0 H1. split; [|split].
  - intros Hne. unfold _einsum_reduction. rewrite H0. cbn [as_list bind].
    rewrite (proj2 (Nat.eqb_neq _ _) Hne). reflexivity.
  - intros E0 Hne. unfold _einsum_reduction. rewrite H0, H1. cbn [as_list bind].
    rewrite (proj2 (Nat.eqb_eq _ _) E0), (proj2 (Nat.eqb_neq _ _) Hne). reflexivity.
  - intros E0 E1 e He.
    destruct (einsum_reduction_error t0 t1 l0 l1 axes s0 s1 e H0 H1 E0 E1 He)
      as [->|[->| ->]]; split; intros; discriminate.
Qed.

(** ** The canonical axis order of the fallback *)

Lemma axis_get_app (d1 d2 : axis_dict) (a : label) :
  axis_get (d1 ++ d2) a = match axis_get d1 a with
                          | Some n => Some n
                          | None => axis_get d2 a
                          end.
Proof.
  induction d1 as [|[b n] d1 IH]; simpl; auto.
  destruct (Ascii.eqb a b); auto.
Qed.

Lemma axis_set_fresh (d : axis_dict) (a : label) (n : nat) :
  axis_get d a = None -> axis_set d a n = d ++ [(a, n)].
Proof.
  induction d as [|[b m] d IH]; simpl; auto.
  destruct (Ascii.eqb a b); [discriminate|].
  intros H. rewrite IH by exact H. reflexivity.
Qed.

(** Adding distinct new labels numbers them in the order they come. *)
Lemma axis_add_all (l : labels) :
  forall d, NoDup l -> (forall a, In a l -> axis_get d a = None) ->
            fold_left axis_add l d = d ++ combine l (seq (length d) (length l)).
Proof.
  induction l as [|a l IH]; intros d Hnd Hfresh; simpl.
  - rewrite app_nil_r. reflexivity.
  - inversion Hnd; subst. unfold axis_add at 2.
    rewrite axis_set_fresh by (apply Hfresh; left; reflexivity).
    rewrite IH; auto.
    + rewrite <- app_assoc. simpl. rewrite length_app. simpl.
      rewrite Nat.add_1_r. reflexivity.
    + intros b Hb. rewrite axis_get_app. rewrite Hfresh by (right; exact Hb).
      simpl. destruct (Ascii.eqb b a) eqn:E; auto.
      apply Ascii.eqb_eq in E. subst. contradiction.
Qed.

Lemma fold_left_unless {A B} (f : A -> B -> A) (p : B -> bool) (l : list B) :
  forall a, fold_left (fun a x => if p x then a else f a x) l a
            = fold_left f (filter (fun x => negb (p x)) l) a.
Proof.
  induction l as [|x l IH]; intros a; simpl; auto.
  destruct (p x); simpl; auto.
Qed.

Lemma axis_get_combine (l : labels) :
  forall k i a, NoDup l -> nth_error l i = Some a ->
                axis_get (combine l (seq k (length l))) a = Some (k + i).
Proof.
  induction l as [|b l IH]; intros k i a Hnd Hi.
  - destruct i; discriminate.
  - inversion Hnd; subst. simpl. destruct i as [|i]; simpl in Hi.
    + inversion Hi; subst. rewrite Ascii.eqb_refl. f_equal. lia.
    + destruct (Ascii.eqb a b) eqn:E.
      * apply Ascii.eqb_eq in E. subst. exfalso. apply H1. eapply nth_error_In; eauto.
      * rewrite (IH (S k) i a); auto; try (f_equal; lia).
Qed.

Lemma strongly_sorted_nth {A} (R : A -> A -> Prop) (l : list A) :
  (forall i j a b, i < j -> nth_error l i = Some a -> nth_error l j = Some b -> R a b) ->
  StronglySorted R l.
Proof.
  induction l as [|x l IH]; intros H; constructor.
  - apply IH. intros i j a b Hij Hi Hj. apply (H (S i) (S j)); auto. lia.
  - apply Forall_forall. intros y Hy. apply In_nth_error in Hy. destruct Hy as [j Hj].
    apply (H 0 (S j)); auto. lia.
Qed.

Lemma strongly_sorted_filter {A} (R : A -> A -> Prop) (p : A -> bool) (l : list A) :
  StronglySorted R l -> StronglySorted R (filter p l).
Proof.
  induction 1 as [|x l HS IH HF]; simpl; [constructor|].
  destruct (p x); auto. constructor; auto.
  rewrite Forall_forall in *. intros y Hy. apply filter_In in Hy. apply HF. tauto.
Qed.

(** In the dictionary that numbers the labels of [l] the keys increase
    along [l]. *)
Lemma axis_key_sorted (l : labels) :
  NoDup l ->
  StronglySorted (fun a b => axis_key (combine l (seq 0 (length l))) a
                             < axis_key (combine l (seq 0 (length l))) b) l.
Proof.
  intros Hnd. apply strongly_sorted_nth. intros i j a b Hij Hi Hj.
  unfold axis_key.
  rewrite (axis_get_combine l 0 i a Hnd Hi), (axis_get_combine l 0 j b Hnd Hj). lia.
Qed.

Lemma axis_le_key (d : axis_dict) (a b : label) :
  axis_le d a b = (axis_key d a <=? axis_key d b).
Proof.
  unfold axis_le, axis_key.
  destruct (axis_get d a), (axis_get d b); reflexivity.
Qed.

Lemma sorted_strict {A} (key : A -> nat) (l : list A) :
  (forall a b, In a l -> In b l -> key a = key b -> a = b) ->
  NoDup l ->
  StronglySorted (fun a b => key a <= key b) l ->
  StronglySorted (fun a b => key a < key b) l.
Proof.
  intros Hinj Hnd HS. induction HS as [|x l HS IH HF]; constructor.
  - inversion Hnd; subst. apply IH; auto.
    intros a b Ha Hb. apply Hinj; right; auto.
  - inversion Hnd; subst. rewrite Forall_forall in *. intros y Hy.
    specialize (HF y Hy).
    destruct (Nat.eq_dec (key x) (key y)) as [E|E]; [|lia].
    exfalso. apply Hinj in E; [subst; contradiction|left; reflexivity|right; exact Hy].
Qed.

Lemma set_of_NoDup (s : labels) : NoDup (set_of s).
Proof. apply NoDup_nodup. Qed.

Lemma filter_NoDup {A} (p : A -> bool) (l : list A) : NoDup l -> NoDup (filter p l).
Proof.
  induction 1 as [|x l Hx Hnd IH]; simpl; [constructor|].
  destruct (p x); auto. constructor; auto.
  intros H. apply filter_In in H. tauto.
Qed.

(** Sorted labels without repetition increase strictly. *)
Lemma sorted_labels_strict (s : labels) :
  NoDup s -> StronglySorted (fun a b => code a < code b) (sorted_labels s).
Proof.
  intros Hnd. apply sorted_strict.
  - intros a b _ _. apply code_inj.
  - eapply Permutation_NoDup; [apply Permutation_sym, sorted_labels_perm|exact Hnd].
  - apply (sorted_by_sorted code label_le label_le_key).
Qed.

Lemma sorted_labels_unique (s l : labels) :
  Permutation s l -> StronglySorted (fun a b => code a < code b) l ->
  sorted_labels s = l.
Proof. apply (sorted_by_key_unique code label_le label_le_key). Qed.

Section Canonical.
Variable idx_in : list labels.
Variable idx_out : labels.
Hypothesis out_nodup : NoDup idx_out.

Lemma summed_first :
  filter (fun ax => negb (mem ax idx_out))
         (sorted_labels (set_of (concat idx_in ++ idx_out)))
  = sorted_labels (summed_labels idx_in idx_out).
Proof.
  symmetry. apply sorted_labels_unique.
  - apply NoDup_Permutation.
    + apply filter_NoDup, set_of_NoDup.
    + apply filter_NoDup.
      eapply Permutation_NoDup; [apply Permutation_sym, sorted_labels_perm|].
      apply set_of_NoDup.
    + intros a. unfold summed_labels, set_diff.
      rewrite !filter_In, in_sorted_labels, !in_set_of, in_app_iff.
      rewrite negb_true_iff, mem_false. tauto.
  - apply strongly_sorted_filter, sorted_labels_strict, set_of_NoDup.
Qed.

Lemma summed_out_NoDup : NoDup (sorted_labels (summed_labels idx_in idx_out) ++ idx_out).
Proof.
  apply NoDup_app; auto.
  - eapply Permutation_NoDup; [apply Permutation_sym, sorted_labels_perm|].
    apply filter_NoDup, set_of_NoDup.
  - intros a Ha. rewrite in_sorted_labels in Ha. unfold summed_labels, set_diff in Ha.
    apply filter_In in Ha. destruct Ha as [_ Ha].
    apply negb_true_iff, mem_false in Ha. exact Ha.
Qed.

Lemma axis_order_eq :
  axis_order_of idx_in idx_out =
  combine (sorted_labels (summed_labels idx_in idx_out) ++ idx_out)
          (seq 0 (length (sorted_labels (summed_labels idx_in idx_out) ++ idx_out))).
Proof.
  unfold axis_order_of.
  rewrite (fold_left_unless axis_add (fun ax => mem ax idx_out)).
  rewrite summed_first.
  rewrite <- fold_left_app. rewrite axis_add_all.
  - reflexivity.
  - apply summed_out_NoDup.
  - reflexivity.
Qed.

(** The canonical order: the summed labels alphabetically, then the labels
    of the output as the output has them. *)
Lemma canonical_axes_eq :
  canonical_axes idx_in idx_out
  = sorted_labels (summed_labels idx_in idx_out) ++ idx_out.
Proof.
  unfold canonical_axes, sorted_by_axis.
  apply (sorted_by_key_unique (axis_key (axis_order_of idx_in idx_out))
                              (axis_le (axis_order_of idx_in idx_out))
                              (axis_le_key _)).
  - apply NoDup_Permutation.
    + apply set_of_NoDup.
    + apply summed_out_NoDup.
    + intros a. rewrite in_set_of, !in_app_iff, in_sorted_labels.
      unfold summed_labels, set_diff. rewrite filter_In, in_set_of.
      rewrite negb_true_iff, mem_false.
      destruct (in_dec ascii_dec a idx_out); tauto.
  - rewrite axis_order_eq. apply axis_key_sorted, summed_out_NoDup.
Qed.
End Canonical.

(** ** The operands of the fallback in the canonical order *)

Section CanonicalOperands.
Variable idx_in : list labels.
Variable idx_out : labels.
Hypothesis out_nodup : NoDup idx_out.

(** An operand's axes are arranged as they come in the canonical order. *)
Lemma operand_axes_sorted (l : labels) :
  NoDup l -> In l idx_in ->
  sorted_by_axis (axis_order_of idx_in idx_out) l
  = filter (fun a => mem a l) (canonical_axes idx_in idx_out).
Proof.
  intros Hnd Hin. unfold sorted_by_axis.
  apply (sorted_by_key_unique (axis_key (axis_order_of idx_in idx_out))
                              (axis_le (axis_order_of idx_in idx_out))
                              (axis_le_key _)).
  - apply NoDup_Permutation; auto.
    + apply filter_NoDup. rewrite canonical_axes_eq by exact out_nodup.
      apply summed_out_NoDup, out_nodup.
    + intros a. rewrite filter_In, mem_In.
      rewrite canonical_axes_eq by exact out_nodup.
      rewrite in_app_iff, in_sorted_labels. unfold summed_labels, set_diff.
      rewrite filter_In, in_set_of, negb_true_iff, mem_false.
      split; [|tauto]. intros Ha. split; auto.
      destruct (in_dec ascii_dec a idx_out); [tauto|].
      left. split; auto. apply in_concat. exists l. auto.
  - apply strongly_sorted_filter.
    rewrite canonical_axes_eq, axis_order_eq by exact out_nodup.
    apply axis_key_sorted, summed_out_NoDup, out_nodup.
Qed.

Lemma positions_of_summed (A B : labels) :
  (forall a, In a A -> ~ In a idx_out) -> (forall b, In b B -> In b idx_out) ->
  forall k,
    map fst (filter (fun ja => negb (mem (snd ja) idx_out))
                    (combine (seq k (length (A ++ B))) (A ++ B)))
    = seq k (length A).
Proof.
  intros HA HB. induction A as [|a A IH]; intros k.
  - simpl. clear HA. revert k. induction B as [|b B IHB]; intros k; simpl; auto.
    replace (mem b idx_out) with true
      by (symmetry; apply mem_In, HB; left; reflexivity).
    simpl. apply IHB. intros c Hc. apply HB. right. exact Hc.
  - simpl.
    replace (mem a idx_out) with false
      by (symmetry; apply mem_false, HA; left; reflexivity).
    simpl. f_equal. apply IH. intros c Hc. apply HA. right. exact Hc.
Qed.

(** The sum runs over exactly the positions of the summed labels, which are
    the first ones. *)
Lemma reduction_idx_eq :
  reduction_idx_of idx_in idx_out = seq 0 (length (summed_labels idx_in idx_out)).
Proof.
  unfold reduction_idx_of. rewrite canonical_axes_eq by exact out_nodup.
  rewrite positions_of_summed; auto.
  - f_equal. apply Permutation_length, sorted_labels_perm.
  - intros a Ha. rewrite in_sorted_labels in Ha. unfold summed_labels, set_diff in Ha.
    apply filter_In in Ha. destruct Ha as [_ Ha].
    apply negb_true_iff, mem_false in Ha. exact Ha.
Qed.
End CanonicalOperands.

(** ** The expanded shapes of the fallback *)

Lemma insert_at_app_length {A} (P s : list A) (x : A) :
  insert_at (length P) x (P ++ s) = P ++ x :: s.
Proof.
  unfold insert_at. rewrite firstn_app, skipn_app, Nat.sub_diag.
  rewrite firstn_all, skipn_all. simpl. rewrite app_nil_r. reflexivity.
Qed.

(** One axis: the operands that have it keep their shape, the others get a
    1 at its position. *)
Lemma expand_axis_spec (j : nat) (ax : label) (opsl : list (labels * list Z * list Z)) :
  Forall (fun o => length (snd (fst o)) = j) opsl ->
  forall shapes' dims,
    expand_axis j ax (map (fun o => fst (fst o)) opsl)
                (map (fun o => snd (fst o) ++ snd o) opsl) = Ret (shapes', dims) ->
    shapes' = map (fun o => snd (fst o) ++ expand_spec [ax] (fst (fst o)) (snd o)) opsl /\
    Forall (fun o => mem ax (fst (fst o)) = true -> snd o <> []) opsl.
Proof.
  induction 1 as [|[[l P] s] opsl HP HF IH]; intros shapes' dims H; simpl in H.
  - inversion H. simpl. auto.
  - simpl in HP. destruct (mem ax l) eqn:Em.
    + destruct (index (P ++ s) j) as [dm|] eqn:Ei; [|discriminate]. cbn [bind] in H.
      destruct (expand_axis j ax _ _) as [[rest dims0]|] eqn:Er; [|discriminate].
      cbn [bind] in H. destruct (IH rest dims0 eq_refl) as [-> HF'].
      inversion H; subst.
      assert (s <> []) as Hs.
      { intros ->. unfold index in Ei. rewrite app_nil_r in Ei.
        rewrite (proj2 (nth_error_None P (length P)) (le_n _)) in Ei. discriminate. }
      split.
      * simpl. rewrite Em. destruct s; [congruence|]. reflexivity.
      * constructor; auto.
    + destruct (expand_axis j ax _ _) as [[rest dims0]|] eqn:Er; [|discriminate].
      cbn [bind] in H. destruct (IH rest dims0 eq_refl) as [-> HF'].
      inversion H; subst.
      split.
      * simpl. rewrite Em. rewrite insert_at_app_length. reflexivity.
      * constructor; auto. simpl. congruence.
Qed.

Lemma expand_axes_spec (axes : labels) :
  forall (j : nat) (opsl : list (labels * list Z * list Z)) (shapes' : list (list Z)),
    Forall (fun o => length (snd (fst o)) = j) opsl ->
    expand_axes j axes (map (fun o => fst (fst o)) opsl)
                (map (fun o => snd (fst o) ++ snd o) opsl) = Ret shapes' ->
    shapes' = map (fun o => snd (fst o) ++ expand_spec axes (fst (fst o)) (snd o)) opsl.
Proof.
  induction axes as [|ax axes IH]; intros j opsl shapes' HP H; simpl in H.
  - inversion H. reflexivity.
  - destruct (expand_axis j ax _ _) as [[shapes1 dims]|] eqn:E; [|discriminate].
    cbn [bind] in H. destruct (negb (all_equal dims)); [discriminate|].
    destruct (expand_axis_spec j ax opsl HP shapes1 dims E) as [-> Hne].
    set (next := fun o : labels * list Z * list Z =>
                   if mem ax (fst (fst o))
                   then (fst (fst o), snd (fst o) ++ [hd 0%Z (snd o)], tl (snd o))
                   else (fst (fst o), snd (fst o) ++ [1%Z], snd o)).
    assert (map (fun o => snd (fst o) ++ expand_spec [ax] (fst (fst o)) (snd o)) opsl
            = map (fun o => snd (fst o) ++ snd o) (map next opsl)) as E1.
    { rewrite map_map. apply map_ext_in. intros [[l P] s] Ho. unfold next. simpl.
      rewrite Forall_forall in Hne. specialize (Hne _ Ho). simpl in Hne.
      destruct (mem ax l); simpl.
      - destruct s; [exfalso; apply Hne; auto|]. simpl. rewrite <- app_assoc. reflexivity.
      - rewrite <- app_assoc. reflexivity. }
    assert (map (fun o => fst (fst o)) opsl = map (fun o => fst (fst o)) (map next opsl))
      as E2.
    { rewrite map_map. apply map_ext. intros [[l P] s]. unfold next. simpl.
      destruct (mem ax l); reflexivity. }
    assert (expand_axes (S j) axes (map (fun o => fst (fst o)) (map next opsl))
                        (map (fun o => snd (fst o) ++ snd o) (map next opsl))
            = Ret shapes') as H'.
    { rewrite <- E1, <- E2. exact H. }
    clear H. rename H' into H. apply IH in H.
    + rewrite H, map_map. apply map_ext_in. intros [[l P] s] Ho. unfold next. simpl.
      rewrite Forall_forall in Hne. specialize (Hne _ Ho). simpl in Hne.
      destruct (mem ax l); simpl.
      * destruct s; [exfalso; apply Hne; auto|]. simpl. rewrite <- app_assoc. reflexivity.
      * rewrite <- app_assoc. reflexivity.
    + apply Forall_forall. intros o Ho. apply in_map_iff in Ho.
      destruct Ho as [[[l P] s] [<- Ho]]. rewrite Forall_forall in HP.
      specialize (HP _ Ho). unfold next. simpl in *.
      destruct (mem ax l); simpl; rewrite length_app; simpl; lia.
Qed.

Lemma map_fst_combine {A B} (l : list A) (l' : list B) :
  length l = length l' -> map fst (combine l l') = l.
Proof.
  revert l'. induction l as [|a l IH]; intros [|b l'] H; simpl in *; try lia; auto.
  f_equal. apply IH. lia.
Qed.

Lemma map_snd_combine {A B} (l : list A) (l' : list B) :
  length l = length l' -> map snd (combine l l') = l'.
Proof.
  revert l'. induction l as [|a l IH]; intros [|b l'] H; simpl in *; try lia; auto.
  f_equal. apply IH. lia.
Qed.

(** The shapes after the validation loop: every operand's sizes with a 1
    inserted for each canonical axis that the operand lacks. *)
Lemma expand_axes_shapes (canon : labels) (ls : list labels) (shapes shapes' : list (list Z)) :
  length ls = length shapes ->
  expand_axes 0 canon ls shapes = Ret shapes' ->
  shapes' = map (fun lsh => expand_spec canon (fst lsh) (snd lsh)) (combine ls shapes).
Proof.
  intros Hlen H.
  pose (opsl := map (fun lsh : labels * list Z => (fst lsh, @nil Z, snd lsh))
                    (combine ls shapes)).
  assert (map (fun o : labels * list Z * list Z => fst (fst o)) opsl = ls) as E1.
  { unfold opsl. rewrite map_map. simpl. apply map_fst_combine. exact Hlen. }
  assert (map (fun o : labels * list Z * list Z => snd (fst o) ++ snd o) opsl = shapes)
    as E2.
  { unfold opsl. rewrite map_map. simpl. apply map_snd_combine. exact Hlen. }
  rewrite <- E1, <- E2 in H. apply expand_axes_spec in H.
  - rewrite H. unfold opsl. rewrite map_map. reflexivity.
  - unfold opsl. apply Forall_forall. intros o Ho. apply in_map_iff in Ho.
    destruct Ho as [x [<- _]]. reflexivity.
Qed.

(** ** The whole fallback *)

Lemma nodup_length_le (s : labels) : length (set_of s) <= length s.
Proof.
  unfold set_of. induction s as [|a s IH]; simpl; auto.
  destruct (in_dec ascii_dec a s); simpl; lia.
Qed.

Lemma set_of_length_NoDup (s : labels) : length (set_of s) = length s -> NoDup s.
Proof.
  unfold set_of. induction s as [|a s IH]; simpl; intros H; [constructor|].
  destruct (in_dec ascii_dec a s) as [Hin|Hin].
  - pose proof (nodup_length_le s) as Hle. unfold set_of in Hle. lia.
  - simpl in H. constructor; auto.
Qed.

Lemma expand_spec_ext (canon l l' : labels) :
  (forall a, mem a l = mem a l') ->
  forall s, expand_spec canon l s = expand_spec canon l' s.
Proof.
  intros H. induction canon as [|ax canon IH]; intros s; simpl; auto.
  rewrite <- H. destruct (mem ax l).
  - destruct s; auto. rewrite IH. reflexivity.
  - rewrite IH. reflexivity.
Qed.

Section FallbackFacts.
Context {T : Type} {ops : TensorOps T}.

Lemma transpose_inputs_spec (d : axis_dict) :
  forall inputs idx_in i ts ls,
    length inputs = length idx_in ->
    transpose_inputs d i inputs idx_in = Ret (ts, ls) ->
    Forall (fun l => NoDup l) idx_in /\
    Forall (fun tl => ndims (get_shape (fst tl)) = Some (length (snd tl)))
           (combine inputs idx_in) /\
    ls = map (sorted_by_axis d) idx_in /\
    ts = map (fun tl => transposed (fst tl) (snd tl) (sorted_by_axis d (snd tl)))
             (combine inputs idx_in).
Proof.
  induction inputs as [|t inputs IH]; intros [|l idx_in] i ts ls Hlen H;
    simpl in Hlen; try discriminate.
  - simpl in H. inversion H. simpl. auto.
  - simpl in H. destruct (ndims (get_shape t)) as [nd|] eqn:En; [|discriminate].
    destruct (negb (nd =? length l)) eqn:Er; [discriminate|].
    destruct (negb (length (set_of l) =? length l)) eqn:Ed; [discriminate|].
    destruct (transpose_inputs d (S i) inputs idx_in) as [[ts0 ls0]|] eqn:E0;
      [|discriminate].
    cbn [bind] in H.
    destruct (IH idx_in (S i) ts0 ls0) as [H1 [H2 [H3 H4]]]; auto.
    apply negb_false_iff, Nat.eqb_eq in Er. apply negb_false_iff, Nat.eqb_eq in Ed.
    assert (ls = sorted_by_axis d l :: ls0 /\
            ts = transposed t l (sorted_by_axis d l) :: ts0) as [-> ->].
    { unfold transposed. destruct (labels_eqb l (sorted_by_axis d l)) eqn:El.
      - apply labels_eqb_eq in El. inversion H; subst. rewrite <- El. auto.
      - inversion H; subst. auto. }
    simpl. split; [|split; [|split]].
    + constructor; auto. apply set_of_length_NoDup, Ed.
    + constructor; auto. simpl. congruence.
    + rewrite H3. reflexivity.
    + rewrite H4. reflexivity.
Qed.
End FallbackFacts.

Lemma combine_map_combine {A B C D E} (F : C -> B -> D) (g : E -> C) (ts : list A) :
  forall (ls : list E) (shapes : list B),
    combine ts (map (fun lsh => F (fst lsh) (snd lsh)) (combine (map g ls) shapes))
    = map (fun x => (fst x, F (g (fst (snd x))) (snd (snd x))))
          (combine ts (combine ls shapes)).
Proof.
  induction ts as [|t ts IH]; intros [|l ls] [|s shapes]; simpl; auto.
  f_equal. apply IH.
Qed.

Lemma mem_sorted_by_axis (d : axis_dict) (l : labels) (a : label) :
  mem a (sorted_by_axis d l) = mem a l.
Proof.
  apply mem_ext. unfold sorted_by_axis. split; intros H.
  - eapply Permutation_in; [apply sorted_by_perm|exact H].
  - eapply Permutation_in; [apply Permutation_sym, sorted_by_perm|exact H].
Qed.

(** C4, as the code has it.  When the exponential-space fallback returns,
    the canonical axis order is: the labels absent from the output, sorted
    alphabetically, followed by the labels of the output in the order the
    output has them (which need not be alphabetical).  Every operand is
    transposed so that its axes follow that order, reshaped with a 1
    inserted for every canonical axis it lacks, the reshaped operands are
    multiplied with broadcasting, and the product is summed over exactly the
    positions of the labels absent from the output. *)
Theorem fallback_axes_in_output_order
        (T : Type) (ops : TensorOps T) (equation : labels) (inputs : list T)
        (idx_in : list labels) (idx_out : labels) (result : T) :
  _einsum_parse_and_resolve_equation equation (map get_shape inputs)
  = Ret (idx_in, idx_out) ->
  NoDup idx_out ->
  _exponential_space_einsum equation inputs = Ret result ->
  let canon := sorted_labels (summed_labels idx_in idx_out) ++ idx_out in
  let ts := map (fun tl => transposed (fst tl) (snd tl) (canonical_labels canon (snd tl)))
                (combine inputs idx_in) in
  canonical_axes idx_in idx_out = canon /\
  Forall (fun l => NoDup l) idx_in /\
  exists shapes,
    mapM (fun t => s <- as_list (get_shape t) ;; Ret (map reshape_dim s)) ts = Ret shapes /\
    result =
    reduce_sum
      (fold_left multiply
                 (map (fun x => reshape (fst x)
                                        (map DInt (expand_spec canon (fst (snd x))
                                                               (snd (snd x)))))
                      (combine ts (combine idx_in shapes)))
                 (constant 1))
      (seq 0 (length (summed_labels idx_in idx_out))).
Proof.
  intros Hparse Hnd Hres canon ts.
  assert (length inputs = length idx_in) as Hlen.
  { rewrite (parse_length _ _ _ _ Hparse). symmetry. apply length_map. }
  pose proof (canonical_axes_eq idx_in idx_out Hnd) as Hcanon. fold canon in Hcanon.
  unfold _exponential_space_einsum in Hres. rewrite Hparse in Hres. cbn [bind] in Hres.
  cbv beta iota in Hres.
  destruct (transpose_inputs (axis_order_of idx_in idx_out) 0 inputs idx_in)
    as [[ts0 ls0]|] eqn:Et; [|discriminate].
  cbn [bind] in Hres. cbv beta iota in Hres.
  destruct (transpose_inputs_spec _ _ _ _ _ _ Hlen Et) as [Hnodup [_ [Hls Hts]]].
  assert (ts0 = ts) as ->.
  { rewrite Hts. unfold ts. apply map_ext_in. intros [t l] Htl. simpl.
    rewrite Forall_forall in Hnodup.
    rewrite (operand_axes_sorted idx_in idx_out Hnd l).
    - rewrite Hcanon. reflexivity.
    - apply Hnodup. eapply in_combine_r; eauto.
    - eapply in_combine_r; eauto. }
  destruct (mapM _ ts) as [shapes|] eqn:Es; [|discriminate]. cbn [bind] in Hres.
  destruct (expand_axes 0 _ ls0 shapes) as [shapes'|] eqn:Ee; [|discriminate].
  cbn [bind] in Hres. inversion Hres as [Hr]. clear Hres.
  split; [exact Hcanon|]. split; [exact Hnodup|].
  exists shapes. split; [reflexivity|].
  rewrite (reduction_idx_eq idx_in idx_out Hnd).
  f_equal. f_equal.
  apply expand_axes_shapes in Ee.
  - rewrite Ee, Hls, Hcanon.
    rewrite (combine_map_combine (fun l s => expand_spec canon l s)
                                 (sorted_by_axis (axis_order_of idx_in idx_out))).
    rewrite map_map. apply map_ext. intros [t [l s]]. simpl.
    f_equal. f_equal. apply expand_spec_ext. intros a. apply mem_sorted_by_axis.
  - rewrite Hls, length_map, <- Hlen. apply mapM_length in Es.
    rewrite Es. unfold ts. rewrite length_map, length_combine. lia.
Qed.

Lemma fallback_axes_in_output_order_witness :
  let inputs := [of_elements [2; 2] [1; 2; 3; 4]%Z; of_elements [2; 2] [1; 0; 0; 1]%Z;
                 of_elements [2; 2] [5; 6; 7; 8]%Z] in
  let idx_in := [L "ij"; L "ik"; L "il"] in
  let idx_out := L "lkj" in
  let canon := sorted_labels (summed_labels idx_in idx_out) ++ idx_out in
  let ts := map (fun tl => transposed (fst tl) (snd tl) (canonical_labels canon (snd tl)))
                (combine inputs idx_in) in
  exists result,
    _exponential_space_einsum (L "ij,ik,il->lkj") inputs = Ret result /\
    canonical_axes idx_in idx_out = canon /\
    Forall (fun l => NoDup l) idx_in /\
    exists shapes,
      mapM (fun t => s <- as_list (get_shape t) ;; Ret (map reshape_dim s)) ts
      = Ret shapes /\
      result =
      reduce_sum
        (fold_left multiply
                   (map (fun x => reshape (fst x)
                                          (map DInt (expand_spec canon (fst (snd x))
                                                                 (snd (snd x)))))
                        (combine ts (combine idx_in shapes)))
                   (constant 1))
        (seq 0 (length (summed_labels idx_in idx_out))).
Proof.
  intros inputs idx_in idx_out canon ts.
  destruct (_exponential_space_einsum (L "ij,ik,il->lkj") inputs) as [result|] eqn:E;
    [|vm_compute in E; discriminate].
  exists result. split; [reflexivity|].
  apply (fallback_axes_in_output_order dense dense_ops (L "ij,ik,il->lkj") inputs
                                       idx_in idx_out result).
  - reflexivity.
  - repeat constructor; simpl; intuition discriminate.
  - exact E.
Defined.

(** C4 as stated fails: with the output 'kj' the operand 'ijk' is
    transposed into the order 'ikj', the output's, not into the
    alphabetical order 'ijk'. *)
Lemma fallback_output_axes_not_alphabetical :
  let idx_in := [L "ijk"; L "ik"; L "ij"] in
  canonical_axes idx_in (L "kj") = L "ikj" /\
  sorted_by_axis (axis_order_of idx_in (L "kj")) (L "ijk") = L "ikj" /\
  sorted_labels (summed_labels idx_in (L "kj")) ++ sorted_labels (L "kj") = L "ijk" /\
  (exists r,
      _exponential_space_einsum
        (L "ijk,ik,ij->kj")
        [tensor_of [2; 2; 3] (fun _ => 1%Z); tensor_of [2; 3] (fun _ => 1%Z);
         tensor_of [2; 2] (fun _ => 1%Z)] = Ret r /\
      dshape r = [3; 2]).
Proof.
  intros idx_in. repeat split.
  eexists. split; [vm_compute; reflexivity|reflexivity].
Qed.

(* ================================================================== *)
(** * Part III: further properties *)
(* ================================================================== *)

(** ** The linearisation of a tree and the components of the graph *)

(** X1.  [_tree_to_sequence] is correct for every contraction tree, not only
    for the trees of the dynamic programme: when the leaves of [t] are the
    positions 0 .. n-1, each once, the sequence has n-1 steps, every step
    names two distinct live positions, and replaying it from the operands
    in their original order builds [t] itself up to the order of the two
    children of a node. *)
Theorem tree_to_sequence_performs_tree (t : ctree) (n : nat) :
  Permutation (leaves t) (seq 0 n) ->
  length (_tree_to_sequence t) = n - 1 /\
  valid_seq n (_tree_to_sequence t) /\
  replay node_of (map Leaf (seq 0 n)) (_tree_to_sequence t) = Ret [replayed t] /\
  same_contractions (replayed t) t.
Proof.
  intros P. destruct (tree_to_sequence_replay t n P) as [Hl [Hv R]].
  split; [exact Hl|]. split; [exact Hv|]. split; [exact R|]. apply replayed_same.
Qed.

(** The tree of the comment in the source, ((0,1),(2,(3,4))). *)
Lemma tree_to_sequence_performs_tree_witness :
  let t := Node (Node (Leaf 0) (Leaf 1)) (Node (Leaf 2) (Node (Leaf 3) (Leaf 4))) in
  length (_tree_to_sequence t) = 4 /\
  valid_seq 5 (_tree_to_sequence t) /\
  replay node_of (map Leaf (seq 0 5)) (_tree_to_sequence t) = Ret [replayed t] /\
  same_contractions (replayed t) t.
Proof.
  exact (tree_to_sequence_performs_tree
           (Node (Node (Leaf 0) (Leaf 1)) (Node (Leaf 2) (Node (Leaf 3) (Leaf 4)))) 5
           (Permutation_refl _)).
Defined.

Section Isolation.
Context {SO : SetOrder}.
Variable ilabels : list labels.
Variable olabels : labels.

Lemma adjacent_sym (x y : nat) :
  adjacent ilabels olabels x y = adjacent ilabels olabels y x.
Proof.
  destruct (adjacent ilabels olabels x y) eqn:E1, (adjacent ilabels olabels y x) eqn:E2;
    auto.
  - apply adjacent_spec in E1. destruct E1 as [a [H1 [H2 H3]]].
    assert (adjacent ilabels olabels y x = true) by (apply adjacent_spec; eauto).
    congruence.
  - apply adjacent_spec in E2. destruct E2 as [a [H1 [H2 H3]]].
    assert (adjacent ilabels olabels x y = true) by (apply adjacent_spec; eauto).
    congruence.
Qed.


(** The inner loop stops only when no unused operand is adjacent to the
    list it built. *)
Lemma bfs_apart (fuel : nat) :
  forall q g unused,
    length q + length unused <= fuel ->
    apart ilabels olabels g unused ->
    apart ilabels olabels (fst (bfs ilabels olabels fuel q g unused))
          (snd (bfs ilabels olabels fuel q g unused)).
Proof.
  induction fuel as [|fuel IH]; intros q g unused Hfuel Hap.
  - exact Hap.
  - destruct q as [|x q]; [exact Hap|].
    cbn [bfs]. rewrite unused_after.
    set (n := filter (adjacent ilabels olabels x) unused).
    set (rest := filter (fun y => negb (adjacent ilabels olabels x y)) unused).
    assert (length n + length rest = length unused) as Hlen.
    { rewrite <- length_app. apply Permutation_length. apply filter_split_perm. }
    apply IH.
    + rewrite length_app, (Permutation_length (iter_nat_perm n)).
      simpl in Hfuel. lia.
    + intros x' y Hx Hy. apply filter_In in Hy. destruct Hy as [Hy Hadj].
      apply in_app_or in Hx. destruct Hx as [Hx|[<-|[]]].
      * apply Hap; auto.
      * apply negb_true_iff in Hadj. exact Hadj.
Qed.

Lemma components_apart (fuel : nat) :
  forall unused subgraphs,
    length unused <= fuel ->
    NoDup unused ->
    Forall (linked ilabels olabels) subgraphs ->
    (forall i j, i < j ->
                 apart ilabels olabels (nth i subgraphs []) (nth j subgraphs [])) ->
    (forall g, In g subgraphs -> apart ilabels olabels g unused) ->
    forall i j, i < j ->
                apart ilabels olabels
                      (nth i (components ilabels olabels fuel unused subgraphs) [])
                      (nth j (components ilabels olabels fuel unused subgraphs) []).
Proof.
  induction fuel as [|fuel IH]; intros unused subgraphs Hfuel Hnd Hall Hpairs Hrest.
  - exact Hpairs.
  - destruct (list_eq_dec Nat.eq_dec unused []) as [->|Hne]; [exact Hpairs|].
    rewrite components_unfold by exact Hne. cbv zeta.
    set (x := pop_nat unused).
    set (unused1 := filter (fun y => negb (y =? x)) unused).
    assert (In x unused) as Hx by (apply pop_nat_in; exact Hne).
    assert (Permutation (x :: unused1) unused) as Hp by (apply remove_popped; auto).
    destruct (bfs_spec ilabels olabels (S (length unused1)) [x] [] unused1)
      as [g [unused2 [E [L [P Hu]]]]].
    + simpl. lia.
    + constructor.
    + intros y Hy. exact Hy.
    + pose proof (bfs_apart (S (length unused1)) [x] [] unused1) as Hap.
      rewrite E in *. cbn [fst snd] in *.
      assert (forall y, In y (g ++ unused2) -> In y unused) as Hsub.
      { intros y Hy. apply (Permutation_in _ P) in Hy. simpl in Hy.
        apply (Permutation_in _ Hp). exact Hy. }
      assert (length unused1 < length unused) as Hlt.
      { apply Permutation_length in Hp. simpl in Hp. lia. }
      apply IH.
      * lia.
      * assert (NoDup (g ++ unused2)) as Hnd2.
        { eapply Permutation_NoDup; [apply Permutation_sym; exact P|].
          simpl. eapply Permutation_NoDup; [apply Permutation_sym; exact Hp|]. auto. }
        eapply NoDup_app_remove_l; eauto.
      * apply Forall_app. split; auto.
      * intros i j Hij.
        destruct (Nat.lt_ge_cases j (length subgraphs)) as [Hj|Hj].
        -- rewrite !app_nth1 by lia. apply Hpairs. exact Hij.
        -- destruct (Nat.eq_dec j (length subgraphs)) as [->|Hj'].
           ++ rewrite app_nth1 by lia. rewrite app_nth2, Nat.sub_diag by lia. cbn [nth].
              intros a b Ha Hb. apply (Hrest (nth i subgraphs [])); auto.
              ** apply nth_In. lia.
              ** apply Hsub. apply in_or_app. auto.
           ++ intros a b Ha Hb. rewrite (nth_overflow _ _ (n := j)) in Hb; [destruct Hb|].
              rewrite length_app. simpl. lia.
      * intros g0 Hg0. apply in_app_or in Hg0. destruct Hg0 as [Hg0|[<-|[]]].
        -- intros a b Ha Hb. apply (Hrest g0); auto.
           apply Hsub. apply in_or_app. auto.
        -- apply Hap; [simpl; lia|]. intros a b [].
Qed.
End Isolation.

(** X2.  [_find_subgraphs] returns the connected components of the
    contraction graph, whatever the order in which the sets are iterated:
    the lists partition the operands 0 .. N-1; within a list every operand
    but the first shares a summed label with an earlier one; and operands
    of two different lists share no summed label. *)
Theorem find_subgraphs_connected_components {SO : SetOrder}
        (ilabels : list labels) (olabels : labels) :
  Permutation (concat (_find_subgraphs ilabels olabels)) (seq 0 (length ilabels)) /\
  Forall (linked ilabels olabels) (_find_subgraphs ilabels olabels) /\
  (forall i j x y,
      i <> j ->
      In x (nth i (_find_subgraphs ilabels olabels) []) ->
      In y (nth j (_find_subgraphs ilabels olabels) []) ->
      adjacent ilabels olabels x y = false).
Proof.
  destruct (find_subgraphs_spec ilabels olabels) as [F P].
  split; [exact P|]. split; [exact F|].
  assert (forall i j, i < j ->
                      apart ilabels olabels (nth i (_find_subgraphs ilabels olabels) [])
                            (nth j (_find_subgraphs ilabels olabels) [])) as H.
  { unfold _find_subgraphs. apply components_apart.
    - rewrite length_seq. lia.
    - apply seq_NoDup.
    - constructor.
    - intros i j _ a b Ha. destruct i; destruct Ha.
    - intros g []. }
  intros i j x y Hij Hx Hy.
  destruct (Nat.lt_ge_cases i j) as [Hlt|Hge].
  - apply (H i j Hlt); auto.
  - rewrite adjacent_sym. apply (H j i); auto. lia.
Qed.

(** ** Further properties of the parser *)

Lemma span_spec (p : ascii -> bool) (s a b : labels) :
  span p s = (a, b) -> Forall (fun c => p c = true) a /\ s = a ++ b.
Proof.
  revert a b. induction s as [|c s IH]; intros a b H; simpl in H.
  - inversion H. auto.
  - destruct (p c) eqn:E.
    + destruct (span p s) as [a' b'] eqn:E'. inversion H; subst.
      destruct (IH a' b eq_refl) as [F ->]. auto.
    + inversion H; subst. auto.
Qed.


Lemma match_equation_chars (equation g1 : labels) (g2 : option labels) :
  match_equation equation = Some (g1, g2) ->
  Forall (fun c => is_subscript_char c = true \/ c = ch_comma) g1 /\
  (forall o, g2 = Some o -> Forall (fun c => is_subscript_char c = true) (skipn 2 o)).
Proof.
  unfold match_equation.
  destruct (span _ equation) as [a rest] eqn:E1. apply span_spec in E1.
  destruct E1 as [F1 _].
  assert (Forall (fun c => is_subscript_char c = true \/ c = ch_comma) a) as Fa.
  { eapply Forall_impl; [|exact F1]. cbv beta. intros c H. unfold is_subscript_char.
    apply orb_true_iff in H. destruct H as [H|H].
    - apply orb_true_iff in H. destruct H as [H|H].
      + left. rewrite H. reflexivity.
      + right. apply Ascii.eqb_eq. exact H.
    - left. rewrite H. apply orb_true_r. }
  destruct a as [|c a]; [discriminate|].
  destruct (at_end rest).
  - intros H. inversion H; subst. split; auto. discriminate.
  - destruct rest as [|c1 [|c2 rest']]; try discriminate.
    destruct (_ && _); [|discriminate].
    destruct (span _ rest') as [b rest''] eqn:E2. apply span_spec in E2.
    destruct E2 as [F2 _].
    destruct (at_end rest''); [|discriminate].
    intros H. inversion H; subst. split; auto.
    intros o Ho. inversion Ho; subst. exact F2.
Qed.

Lemma split_comma_chars (P : ascii -> Prop) (s : labels) :
  forall cur,
    Forall (fun c => P c \/ c = ch_comma) s -> Forall P cur ->
    Forall (Forall P) (split_comma s cur).
Proof.
  induction s as [|c s IH]; intros cur Hs Hc; simpl.
  - constructor; [|constructor]. apply Forall_rev. exact Hc.
  - inversion Hs as [|? ? Hc0 Hs']; subst.
    destruct (Ascii.eqb c ch_comma) eqn:E.
    + constructor; [apply Forall_rev; exact Hc|]. apply IH; auto.
    + apply IH; auto. constructor; auto. destruct Hc0 as [H|H]; auto.
      apply Ascii.eqb_neq in E. contradiction.
Qed.

Lemma split_ellipsis_unfold (c : ascii) (s' cur : labels) :
  split_ellipsis (c :: s') cur =
  match s' with
  | c2 :: c3 :: s3 =>
      if Ascii.eqb c ch_period && Ascii.eqb c2 ch_period && Ascii.eqb c3 ch_period
      then rev cur :: split_ellipsis s3 []
      else split_ellipsis s' (c :: cur)
  | _ => split_ellipsis s' (c :: cur)
  end.
Proof. destruct s' as [|c2 [|c3 s3]]; reflexivity. Qed.

(** The pieces between the ellipses hold characters of the string only. *)
Lemma split_ellipsis_chars (P : ascii -> Prop) (n : nat) :
  forall s cur,
    length s <= n -> Forall P s -> Forall P cur ->
    Forall (Forall P) (split_ellipsis s cur).
Proof.
  induction n as [|n IH]; intros s cur Hn Hs Hc.
  - destruct s; [|simpl in Hn; lia]. simpl. constructor; [|constructor].
    apply Forall_rev. exact Hc.
  - destruct s as [|c s'].
    + simpl. constructor; [|constructor]. apply Forall_rev. exact Hc.
    + rewrite split_ellipsis_unfold. simpl in Hn.
      inversion Hs as [|? ? Hc0 Hs']; subst.
      assert (Forall (Forall P) (split_ellipsis s' (c :: cur))) as Hrec
          by (apply IH; auto; lia).
      destruct s' as [|c2 [|c3 s3]]; auto.
      destruct (_ && _); auto.
      constructor; [apply Forall_rev; exact Hc|].
      apply IH; auto.
      * simpl in Hn. lia.
      * inversion Hs' as [|? ? _ Hs'']; subst. inversion Hs''; subst. auto.
Qed.

Lemma join_chars (P : ascii -> Prop) (sep : labels) (parts : list labels) :
  Forall P sep -> Forall (Forall P) parts -> Forall P (join sep parts).
Proof.
  intros Hsep. induction 1 as [|p ps Hp Hps IH]; simpl; [constructor|].
  destruct ps as [|p' ps']; auto.
  apply Forall_app. split; auto. apply Forall_app. split; auto.
Qed.

Lemma replace_ellipsis_chars (P : ascii -> Prop) (s r : labels) :
  Forall P s -> Forall P r -> Forall P (replace_ellipsis s r).
Proof.
  intros Hs Hr. unfold replace_ellipsis. apply join_chars; auto.
  apply (split_ellipsis_chars P (length s)); auto.
Qed.

Lemma ascii_letters_are_letters : Forall (fun c => is_letter c = true) ascii_letters.
Proof. apply Forall_forall. apply forallb_forall. vm_compute. reflexivity. Qed.

Lemma letter_is_subscript_char (c : ascii) :
  is_letter c = true -> is_subscript_char c = true.
Proof. unfold is_subscript_char. intros ->. reflexivity. Qed.

Lemma Forall_skipn {A} (P : A -> Prop) (n : nat) (l : list A) :
  Forall P l -> Forall P (skipn n l).
Proof.
  revert l. induction n as [|n IH]; intros l H; simpl; auto.
  destruct l; auto. inversion H; subst. auto.
Qed.

Lemma Forall_filter {A} (P : A -> Prop) (f : A -> bool) (l : list A) :
  Forall P l -> Forall P (filter f l).
Proof.
  intros H. apply Forall_forall. intros x Hx. apply filter_In in Hx.
  rewrite Forall_forall in H. apply H. tauto.
Qed.

(** The loop over the inputs keeps the characters of the subscripts and adds
    unused letters only. *)
Lemma resolve_inputs_chars (unused : labels) (axes : list labels) :
  Forall (fun c => is_letter c = true) unused ->
  forall shapes e rs e',
    Forall (Forall (fun c => is_subscript_char c = true)) axes ->
    Forall (fun c => is_letter c = true) e ->
    resolve_inputs unused axes shapes e = Ret (rs, e') ->
    Forall (Forall (fun c => is_subscript_char c = true)) rs /\
    Forall (fun c => is_letter c = true) e'.
Proof.
  intros Hun. induction axes as [|ax axes IH]; intros shapes e rs e' Hax He H; simpl in H.
  - inversion H; subst. auto.
  - inversion Hax as [|? ? Hax0 Hax']; subst.
    destruct (has_ellipsis ax).
    + destruct (negb _); [discriminate|].
      destruct (index shapes 0) as [sh|]; [|discriminate]. cbn [bind] in H.
      destruct (ndims sh) as [nd|]; [|discriminate].
      destruct (nd <? _); [discriminate|].
      destruct (length unused <? _); [discriminate|].
      match type of H with
      | context [replace_ellipsis ax ?r] => set (replace_axes := r) in *
      end.
      assert (Forall (fun c => is_letter c = true) replace_axes) as Hr.
      { subst replace_axes. destruct (0 <? _); [apply Forall_skipn; exact Hun|constructor]. }
      destruct (resolve_inputs unused axes (tl shapes) _) as [[rs0 e0]|] eqn:E;
        [|discriminate].
      cbn [bind] in H. inversion H; subst.
      apply IH in E; auto.
      * destruct E as [F1 F2]. split; auto. constructor; auto.
        apply replace_ellipsis_chars; auto.
        eapply Forall_impl; [|exact Hr]. apply letter_is_subscript_char.
      * destruct (length e <? length replace_axes); auto.
    + destruct (resolve_inputs unused axes (tl shapes) e) as [[rs0 e0]|] eqn:E;
        [|discriminate].
      cbn [bind] in H. inversion H; subst.
      apply IH in E; auto. destruct E as [F1 F2]. split; auto.
Qed.

Lemma no_period_letter (c : ascii) :
  is_subscript_char c = true -> c <> ch_period -> is_letter c = true.
Proof.
  unfold is_subscript_char. intros H Hne. apply orb_true_iff in H.
  destruct H as [H|H]; auto. apply Ascii.eqb_eq in H. contradiction.
Qed.

Lemma no_period_letters (l : labels) :
  Forall (fun c => is_subscript_char c = true) l -> mem ch_period l = false ->
  Forall (fun c => is_letter c = true) l.
Proof.
  intros H Hm. apply Forall_forall. intros c Hc.
  rewrite Forall_forall in H. apply no_period_letter; auto.
  intros ->. apply mem_false in Hm. contradiction.
Qed.

Lemma infer_output_chars (P : ascii -> Prop) (ins : list labels) (e : labels) :
  Forall (Forall P) ins -> Forall P e -> Forall P (infer_output ins e).
Proof.
  intros Hins He. unfold infer_output. apply Forall_app. split; auto.
  apply Forall_forall. intros a Ha.
  apply in_sorted_labels, filter_In in Ha. destruct Ha as [Ha _].
  unfold set_diff in Ha. apply filter_In in Ha. destruct Ha as [Ha _].
  apply in_set_of, in_concat in Ha. destruct Ha as [l [Hl Hal]].
  rewrite Forall_forall in Hins. specialize (Hins l Hl).
  rewrite Forall_forall in Hins. auto.
Qed.


Lemma split_ellipsis_nonempty (n : nat) :
  forall s cur, length s <= n -> 1 <= length (split_ellipsis s cur).
Proof.
  induction n as [|n IH]; intros s cur Hn.
  - destruct s; [simpl; lia|simpl in Hn; lia].
  - destruct s as [|c s']; [simpl; lia|].
    rewrite split_ellipsis_unfold. simpl in Hn.
    destruct s' as [|c2 [|c3 s3]]; try (apply IH; simpl in *; lia).
    destruct (_ && _); [simpl; lia|apply IH; simpl in *; lia].
Qed.

Lemma has_ellipsis_intro (a b cur : labels) :
  2 <= length (split_ellipsis (a ++ dots ++ b) cur).
Proof.
  revert cur. induction a as [|c a IH]; intros cur.
  - change ([] ++ dots ++ b) with (ch_period :: ch_period :: ch_period :: b).
    rewrite split_ellipsis_unfold, Ascii.eqb_refl. cbn [andb length].
    pose proof (split_ellipsis_nonempty (length b) b [] (le_n _)). lia.
  - change ((c :: a) ++ dots ++ b) with (c :: (a ++ dots ++ b)).
    rewrite split_ellipsis_unfold.
    destruct (a ++ dots ++ b) as [|c2 [|c3 s3]] eqn:E.
    + destruct a; discriminate.
    + destruct a as [|? [|? ?]]; discriminate.
    + destruct (_ && _).
      * simpl. pose proof (split_ellipsis_nonempty (length s3) s3 [] (le_n _)). lia.
      * apply IH.
Qed.

Lemma has_ellipsis_elim (n : nat) :
  forall s cur,
    length s <= n -> 2 <= length (split_ellipsis s cur) ->
    exists a b, s = a ++ dots ++ b.
Proof.
  induction n as [|n IH]; intros s cur Hn H.
  - destruct s; [simpl in H; lia|simpl in Hn; lia].
  - destruct s as [|c s']; [simpl in H; lia|].
    rewrite split_ellipsis_unfold in H. simpl in Hn.
    assert (2 <= length (split_ellipsis s' (c :: cur)) -> exists a b, c :: s' = a ++ dots ++ b)
      as Hrec.
    { intros H'. destruct (IH s' (c :: cur)) as [a [b E]]; auto; [lia|].
      exists (c :: a), b. rewrite E. reflexivity. }
    destruct s' as [|c2 [|c3 s3]]; auto.
    destruct (Ascii.eqb c ch_period) eqn:E1; [|auto].
    destruct (Ascii.eqb c2 ch_period) eqn:E2; [|auto].
    destruct (Ascii.eqb c3 ch_period) eqn:E3; [|auto].
    apply Ascii.eqb_eq in E1, E2, E3. subst.
    exists [], s3. reflexivity.
Qed.

Lemma has_ellipsis_iff (s : labels) :
  has_ellipsis s = true <-> exists a b, s = a ++ dots ++ b.
Proof.
  unfold has_ellipsis. rewrite Nat.ltb_lt. split.
  - intros H. apply (has_ellipsis_elim (length s) s []); auto.
  - intros [a [b ->]]. apply (has_ellipsis_intro a b []).
Qed.

(** The pieces between the commas are parts of the string. *)
Lemma split_comma_part (s : labels) :
  forall cur l, In l (split_comma s cur) -> exists x y, rev cur ++ s = x ++ l ++ y.
Proof.
  induction s as [|c s IH]; intros cur l H; simpl in H.
  - destruct H as [<-|[]]. exists [], []. rewrite !app_nil_r. reflexivity.
  - destruct (Ascii.eqb c ch_comma).
    + destruct H as [<-|H].
      * exists [], (c :: s). reflexivity.
      * apply IH in H. destruct H as [x [y E]]. simpl in E.
        exists (rev cur ++ c :: x), y. rewrite E, <- app_assoc. reflexivity.
    + apply IH in H. destruct H as [x [y E]]. exists x, y.
      rewrite <- E. simpl. rewrite <- app_assoc. reflexivity.
Qed.

Lemma match_equation_prefix (equation g1 : labels) (g2 : option labels) :
  match_equation equation = Some (g1, g2) -> exists rest, equation = g1 ++ rest.
Proof.
  unfold match_equation.
  destruct (span _ equation) as [a rest] eqn:E1. apply span_spec in E1.
  destruct E1 as [_ ->].
  destruct a as [|c a]; [discriminate|].
  destruct (at_end rest).
  - intros H. inversion H; subst. eauto.
  - destruct rest as [|c1 [|c2 rest']]; try discriminate.
    destruct (_ && _); [|discriminate].
    destruct (span _ rest') as [b rest'']. destruct (at_end rest''); [|discriminate].
    intros H. inversion H; subst. eauto.
Qed.

(** An ellipsis in a subscript is an ellipsis of the equation. *)
Lemma subscript_ellipsis (equation ax : labels) :
  In ax (subscripts equation) -> has_ellipsis ax = true ->
  has_ellipsis (strip_spaces equation) = true.
Proof.
  unfold subscripts. intros Hin Hax.
  destruct (match_equation (strip_spaces equation)) as [[g1 g2]|] eqn:E; [|destruct Hin].
  apply match_equation_prefix in E. destruct E as [rest E].
  apply split_comma_part in Hin. destruct Hin as [x [y Hxy]]. simpl in Hxy.
  apply has_ellipsis_iff in Hax. destruct Hax as [a [b ->]].
  apply has_ellipsis_iff. exists (x ++ a), (b ++ y ++ rest).
  rewrite E, Hxy. rewrite <- !app_assoc. reflexivity.
Qed.

Lemma skipn_incl {A} (n : nat) (l : list A) : incl (skipn n l) l.
Proof.
  revert l. induction n as [|n IH]; intros l; simpl; [apply incl_refl|].
  destruct l; [apply incl_refl|]. apply incl_tl, IH.
Qed.

(** What the loop makes of the subscript at position [i]. *)
Lemma resolve_inputs_nth (unused : labels) (axes : list labels) :
  forall shapes e rs e' i ax sh,
    resolve_inputs unused axes shapes e = Ret (rs, e') ->
    nth_error axes i = Some ax ->
    nth_error shapes i = Some sh ->
    if has_ellipsis ax then
      exists r, nth_error rs i = Some (replace_ellipsis ax r) /\
                ndims sh = Some (length (replace_ellipsis ax r)) /\
                incl r unused
    else nth_error rs i = Some ax.
Proof.
  induction axes as [|ax0 axes IH]; intros shapes e rs e' i ax sh H Hax Hsh.
  - destruct i; discriminate.
  - simpl in H.
    assert (forall e0 rs0 e1 r0,
               resolve_inputs unused axes (tl shapes) e0 = Ret (rs0, e1) ->
               forall i', i = S i' ->
                          if has_ellipsis ax then
                            exists r, nth_error (r0 :: rs0) i = Some (replace_ellipsis ax r) /\
                                      ndims sh = Some (length (replace_ellipsis ax r)) /\
                                      incl r unused
                          else nth_error (r0 :: rs0) i = Some ax) as Hrec.
    { intros e0 rs0 e1 r0 E i' ->. simpl in Hax.
      apply (IH (tl shapes) e0 rs0 e1 i' ax sh E Hax).
      destruct shapes; [discriminate|exact Hsh]. }
    destruct (has_ellipsis ax0) eqn:El.
    + destruct (negb _) eqn:Eparts; [discriminate|].
      apply negb_false_iff, Nat.eqb_eq in Eparts.
      destruct (index shapes 0) as [sh0|] eqn:Esh; [|discriminate]. cbn [bind] in H.
      destruct (ndims sh0) as [nd|] eqn:End; [|discriminate].
      destruct (nd <? _) eqn:Elt; [discriminate|]. apply Nat.ltb_ge in Elt.
      destruct (length unused <? _) eqn:Eun; [discriminate|]. apply Nat.ltb_ge in Eun.
      match type of H with
      | context [replace_ellipsis ax0 ?r] => set (replace_axes := r) in *
      end.
      destruct (resolve_inputs unused axes (tl shapes) _) as [[rs0 e0]|] eqn:E;
        [|discriminate].
      cbn [bind] in H. inversion H; subst rs e'.
      destruct i as [|i']; [|eapply Hrec; eauto].
      simpl in Hax. inversion Hax; subst ax0. rewrite El.
      exists replace_axes. split; [reflexivity|]. split.
      * unfold index in Esh. rewrite Hsh in Esh. inversion Esh; subst sh0.
        rewrite End. f_equal.
        unfold replace_ellipsis.
        destruct (split_ellipsis ax []) as [|p1 [|p2 [|p3 ps]]]; try discriminate.
        cbn [join concat] in *. rewrite app_nil_r in *.
        rewrite !length_app in *.
        assert (length replace_axes = nd - (length p1 + length p2)) as Hr.
        { subst replace_axes. rewrite app_nil_r, length_app.
          destruct (0 <? nd - (length p1 + length p2)) eqn:E0.
          - rewrite length_skipn. lia.
          - apply Nat.ltb_ge in E0. simpl. lia. }
        lia.
      * subst replace_axes. destruct (0 <? _); [apply skipn_incl|].
        intros a [].
    + destruct (resolve_inputs unused axes (tl shapes) e) as [[rs0 e0]|] eqn:E;
        [|discriminate].
      cbn [bind] in H. inversion H; subst rs e'.
      destruct i as [|i']; [|eapply Hrec; eauto].
      simpl in Hax. inversion Hax; subst ax0. rewrite El. reflexivity.
Qed.

(** X3.  When the parser accepts an equation that contains an ellipsis, it
    returns one label string per operand, and every label of every input
    and of the output is an ASCII letter: no period and no comma survives
    the resolution. *)
Theorem parse_labels_are_letters (equation : labels) (shapes : list tensor_shape)
        (ins : list labels) (out : labels) :
  _einsum_parse_and_resolve_equation equation shapes = Ret (ins, out) ->
  has_ellipsis (strip_spaces equation) = true ->
  length ins = length shapes /\
  Forall (Forall (fun c => is_letter c = true)) ins /\
  Forall (fun c => is_letter c = true) out.
Proof.
  intros H Hell. split; [eapply parse_length; eauto|].
  revert H. unfold _einsum_parse_and_resolve_equation.
  change (filter (fun c => negb (Ascii.eqb c ch_space)) equation)
    with (strip_spaces equation).
  rewrite Hell.
  destruct (match_equation _) as [[g1 g2]|] eqn:Em; [|discriminate].
  apply match_equation_chars in Em. destruct Em as [F1 F2].
  destruct (negb _); [discriminate|].
  destruct (resolve_inputs _ _ _ _) as [[rs e]|] eqn:E; [|discriminate].
  apply resolve_inputs_chars in E.
  - destruct E as [Frs Fe]. cbn [bind]. cbv beta iota.
    destruct (existsb (mem ch_period) rs) eqn:Ep; [discriminate|].
    assert (Forall (Forall (fun c => is_letter c = true)) rs) as Hrs.
    { apply Forall_forall. intros l Hl. apply no_period_letters.
      - rewrite Forall_forall in Frs. auto.
      - destruct (mem ch_period l) eqn:M; auto.
        assert (existsb (mem ch_period) rs = true)
          by (apply existsb_exists; eauto).
        congruence. }
    destruct g2 as [o|]; cbn [option_map bind]; cbv beta iota.
    + destruct (mem ch_period (replace_ellipsis (skipn 2 o) e)) eqn:Eo; [discriminate|].
      cbn [bind]. cbv beta iota. intros H. inversion H; subst. split; auto.
      apply no_period_letters; auto.
      apply replace_ellipsis_chars; [apply F2; reflexivity|].
      eapply Forall_impl; [|exact Fe]. apply letter_is_subscript_char.
    + intros H. inversion H; subst. split; auto.
      apply infer_output_chars; auto.
  - apply Forall_filter. apply ascii_letters_are_letters.
  - apply split_comma_chars; auto.
  - constructor.
Qed.

Lemma parse_labels_are_letters_witness :
  length [L "YZij"; L "YZjk"] = 2 /\
  Forall (Forall (fun c => is_letter c = true)) [L "YZij"; L "YZjk"] /\
  Forall (fun c => is_letter c = true) (L "YZik").
Proof.
  apply (parse_labels_are_letters
           (L "...ij, ...jk -> ...ik")
           [Some [Some 5; None; Some 2; Some 3]; Some [None; Some 7; Some 3; Some 4]]%Z).
  - vm_compute. reflexivity.
  - vm_compute. reflexivity.
Defined.

(** X4.  How the parser resolves the input subscript at position [i] of an
    accepted equation.  A subscript without an ellipsis is returned as it
    is written.  In a subscript with an ellipsis, the ellipsis is replaced
    by letters that occur in no input subscript, as many as make the number
    of labels equal to the rank of the operand. *)
Theorem parse_ellipsis_fills_rank (equation : labels) (shapes : list tensor_shape)
        (ins : list labels) (out : labels) (i : nat) (ax : labels) (sh : tensor_shape) :
  _einsum_parse_and_resolve_equation equation shapes = Ret (ins, out) ->
  nth_error (subscripts equation) i = Some ax ->
  nth_error shapes i = Some sh ->
  (has_ellipsis ax = false -> nth_error ins i = Some ax) /\
  (has_ellipsis ax = true ->
   exists r, nth_error ins i = Some (replace_ellipsis ax r) /\
             ndims sh = Some (length (replace_ellipsis ax r)) /\
             (forall a, In a r ->
                        is_letter a = true /\ ~ In a (concat (subscripts equation)))).
Proof.
  intros H Hax Hsh.
  assert (has_ellipsis ax = true -> has_ellipsis (strip_spaces equation) = true) as Hell.
  { apply subscript_ellipsis. eapply nth_error_In; eauto. }
  revert H Hax Hell. unfold _einsum_parse_and_resolve_equation, subscripts.
  change (filter (fun c => negb (Ascii.eqb c ch_space)) equation)
    with (strip_spaces equation).
  destruct (match_equation _) as [[g1 g2]|] eqn:Em; [|discriminate].
  destruct (negb _); [discriminate|].
  destruct (has_ellipsis (strip_spaces equation)).
  - destruct (resolve_inputs _ _ _ _) as [[rs e]|] eqn:E; [|discriminate].
    cbn [bind]. cbv beta iota.
    destruct (existsb (mem ch_period) rs) eqn:Ep; [discriminate|].
    intros H Hax _.
    assert (ins = rs) as ->.
    { destruct (option_map (skipn 2) g2) as [o|]; cbn [bind] in H; cbv beta iota in H.
      - destruct (mem ch_period (replace_ellipsis o e)); [discriminate|].
        cbn [bind] in H. cbv beta iota in H. inversion H. reflexivity.
      - inversion H. reflexivity. }
    pose proof (resolve_inputs_nth _ _ _ _ _ _ i ax sh E Hax Hsh) as Hn.
    destruct (has_ellipsis ax).
    + split; [discriminate|]. intros _.
      destruct Hn as [r [H1 [H2 H3]]]. exists r. split; auto. split; auto.
      intros a Ha. apply H3, filter_In in Ha. destruct Ha as [Ha Hm].
      split.
      * pose proof ascii_letters_are_letters as F. rewrite Forall_forall in F. auto.
      * apply negb_true_iff, mem_false in Hm. exact Hm.
    + split; [auto|discriminate].
  - cbn [bind]. cbv beta iota. intros H Hax Hell.
    assert (ins = split_comma g1 []) as ->
        by (destruct (option_map (skipn 2) g2); inversion H; reflexivity).
    split; [auto|]. intros Ht. apply Hell in Ht. discriminate.
Qed.

Lemma parse_ellipsis_fills_rank_witness :
  (has_ellipsis (L "...ij") = false ->
   nth_error [L "YZij"; L "jk"] 0 = Some (L "...ij")) /\
  (has_ellipsis (L "...ij") = true ->
   exists r, nth_error [L "YZij"; L "jk"] 0 = Some (replace_ellipsis (L "...ij") r) /\
             ndims (Some [Some 5; None; Some 2; Some 3]%Z)
             = Some (length (replace_ellipsis (L "...ij") r)) /\
             (forall a, In a r ->
                        is_letter a = true /\
                        ~ In a (concat (subscripts (L "...ij,jk->...ik"))))).
Proof.
  apply (parse_ellipsis_fills_rank
           (L "...ij,jk->...ik")
           [Some [Some 5; None; Some 2; Some 3]; Some [Some 3; Some 4]]%Z
           [L "YZij"; L "jk"] (L "YZik") 0 (L "...ij")
           (Some [Some 5; None; Some 2; Some 3]%Z)).
  - vm_compute. reflexivity.
  - vm_compute. reflexivity.
  - reflexivity.
Defined.

Lemma has_arrow_unfold (c c2 : ascii) (s : labels) :
  has_arrow (c :: c2 :: s)
  = (Ascii.eqb c ch_dash && Ascii.eqb c2 ch_gt) || has_arrow (c2 :: s).
Proof. reflexivity. Qed.

Lemma has_arrow_app (a b : labels) : has_arrow (a ++ ch_dash :: ch_gt :: b) = true.
Proof.
  induction a as [|c a IH].
  - reflexivity.
  - change ((c :: a) ++ ch_dash :: ch_gt :: b) with (c :: (a ++ ch_dash :: ch_gt :: b)).
    destruct (a ++ ch_dash :: ch_gt :: b) eqn:E.
    + destruct a; discriminate.
    + rewrite has_arrow_unfold, IH. apply orb_true_r.
Qed.

Lemma match_equation_no_arrow (equation g1 : labels) (g2 : option labels) :
  match_equation equation = Some (g1, g2) -> has_arrow equation = false -> g2 = None.
Proof.
  unfold match_equation.
  destruct (span _ equation) as [a rest] eqn:E1. apply span_spec in E1.
  destruct E1 as [_ ->].
  destruct a as [|c a]; [discriminate|].
  destruct (at_end rest).
  - intros H. inversion H; subst. auto.
  - destruct rest as [|c1 [|c2 rest']]; try discriminate.
    destruct (_ && _) eqn:E; [|discriminate].
    apply andb_true_iff in E. destruct E as [E1 E2].
    apply Ascii.eqb_eq in E1, E2. subst c1 c2.
    intros _ H. rewrite has_arrow_app in H. discriminate.
Qed.

Lemma count_filter (a : label) (l : labels) :
  length (filter (fun c => Ascii.eqb c a) l) = count a l.
Proof.
  unfold count. induction l as [|c l IH]; simpl; auto.
  destruct (Ascii.eqb c a) eqn:E.
  - apply Ascii.eqb_eq in E. subst. destruct (ascii_dec a a); [|congruence].
    simpl. f_equal. exact IH.
  - apply Ascii.eqb_neq in E. destruct (ascii_dec c a); [contradiction|]. exact IH.
Qed.

(** The inferred output: after the ellipsis axes, the labels outside them
    that occur once, in alphabetical order. *)
Lemma infer_output_spec (ins : list labels) (e : labels) :
  exists rest,
    infer_output ins e = e ++ rest /\
    StronglySorted (fun a b => code a < code b) rest /\
    (forall a, In a rest <-> ~ In a e /\ count a (concat ins) = 1).
Proof.
  unfold infer_output. eexists. split; [reflexivity|]. split.
  - apply sorted_labels_strict. apply filter_NoDup. unfold set_diff.
    apply filter_NoDup. apply set_of_NoDup.
  - intros a. rewrite in_sorted_labels, filter_In. unfold set_diff.
    rewrite filter_In, in_set_of, negb_true_iff, mem_false, in_set_of, Nat.eqb_eq.
    split.
    + intros [[Ha He] Hc]. split; auto.
      rewrite <- count_filter. rewrite <- Hc. f_equal.
      apply filter_ext. intros c. destruct (Ascii.eqb c a) eqn:E; auto.
      apply Ascii.eqb_eq in E. subst c. simpl. symmetry.
      apply negb_true_iff, mem_false. exact He.
    + intros [He Hc]. split; [split; auto|].
      * apply count_in. lia.
      * rewrite <- Hc, <- count_filter. f_equal.
        apply filter_ext. intros c. destruct (Ascii.eqb c a) eqn:E; auto.
        apply Ascii.eqb_eq in E. subst c. simpl.
        apply negb_true_iff, mem_false. exact He.
Qed.

Lemma resolve_inputs_ellipsis (unused : labels) (axes : list labels) :
  forall shapes e0 rs e n0,
    n0 <= length unused ->
    e0 = skipn (length unused - n0) unused ->
    resolve_inputs unused axes shapes e0 = Ret (rs, e) ->
    e = skipn (length unused - Nat.max n0 (max_ellipsis axes shapes)) unused.
Proof.
  induction axes as [|ax axes IH]; intros shapes e0 rs e n0 Hn0 He0 H.
  - cbn [resolve_inputs] in H. inversion H; subst. cbn [max_ellipsis].
    rewrite Nat.max_0_r. reflexivity.
  - cbn [resolve_inputs max_ellipsis] in H |- *.
    destruct (has_ellipsis ax) eqn:Eh.
    + destruct (negb (length (split_ellipsis ax []) =? 2)); [discriminate|].
      destruct shapes as [|sh shapes]; [discriminate|].
      cbn [index nth_error bind hd tl] in H |- *. unfold ellipsis_count.
      destruct (ndims sh) as [nd|]; [|discriminate].
      destruct (nd <? length (concat (split_ellipsis ax []))); [discriminate|].
      set (n := nd - length (concat (split_ellipsis ax []))) in *.
      destruct (length unused <? n) eqn:En; [discriminate|].
      apply Nat.ltb_ge in En.
      match type of H with
      | bind (resolve_inputs unused axes shapes ?e1) _ = _ =>
          destruct (resolve_inputs unused axes shapes e1) as [[rs' e']|] eqn:Er;
          [|discriminate]
      end.
      cbn [bind] in H. inversion H; subst rs e'. clear H.
      rewrite Nat.max_assoc.
      apply (IH shapes _ rs' e (Nat.max n0 n)) in Er; [exact Er|lia|].
      assert (Er' : (if 0 <? n then skipn (length unused - n) unused else [])
                    = skipn (length unused - n) unused).
      { destruct (Nat.ltb_spec 0 n); [reflexivity|].
        replace n with 0 by lia. rewrite Nat.sub_0_r, skipn_all. reflexivity. }
      rewrite Er', He0, !length_skipn.
      destruct (Nat.ltb_spec (length unused - (length unused - n0))
                             (length unused - (length unused - n))).
      * f_equal. lia.
      * f_equal. lia.
    + match type of H with
      | bind (resolve_inputs unused axes ?sh ?e1) _ = _ =>
          destruct (resolve_inputs unused axes sh e1) as [[rs' e']|] eqn:Er;
          [|discriminate]
      end.
      cbn [bind] in H. inversion H; subst rs e'. clear H.
      rewrite Nat.max_0_l.
      apply (IH _ _ rs' e n0 Hn0 He0 Er).
Qed.

Lemma max_ellipsis_none (axes : list labels) :
  forall shapes, (forall ax, In ax axes -> has_ellipsis ax = false) ->
                 max_ellipsis axes shapes = 0.
Proof.
  induction axes as [|ax axes IH]; intros shapes H; [reflexivity|].
  cbn [max_ellipsis]. rewrite (H ax) by (left; reflexivity).
  rewrite IH by (intros b Hb; apply H; right; exact Hb). reflexivity.
Qed.

(** X5.  The output an equation without '->' is given.  First come the
    axes that stand for the ellipsis: the last letters of [ascii_letters]
    that no input subscript uses, as many as the longest ellipsis of an
    input stands for (none when the equation has no ellipsis).  Then come
    exactly the labels outside them that occur once in all the inputs
    together, in alphabetical order and without repetition. *)
Theorem parse_implicit_output (equation : labels) (shapes : list tensor_shape)
        (ins : list labels) (out : labels) :
  _einsum_parse_and_resolve_equation equation shapes = Ret (ins, out) ->
  has_arrow (strip_spaces equation) = false ->
  exists rest,
    out = ellipsis_axes_of equation shapes ++ rest /\
    (has_ellipsis (strip_spaces equation) = false -> ellipsis_axes_of equation shapes = []) /\
    StronglySorted (fun a b => code a < code b) rest /\
    (forall a, In a rest <->
               ~ In a (ellipsis_axes_of equation shapes) /\ count a (concat ins) = 1).
Proof.
  unfold _einsum_parse_and_resolve_equation, ellipsis_axes_of, unused_letters, subscripts.
  change (filter (fun c => negb (Ascii.eqb c ch_space)) equation)
    with (strip_spaces equation).
  intros H Harrow.
  destruct (match_equation _) as [[g1 g2]|] eqn:Em; [|discriminate].
  rewrite (match_equation_no_arrow _ _ _ Em Harrow) in H. cbn [option_map] in H.
  destruct (negb _); [discriminate|].
  destruct (has_ellipsis (strip_spaces equation)) eqn:Ee.
  - destruct (resolve_inputs _ _ _ _) as [[rs e]|] eqn:Er; [|discriminate].
    cbn [bind] in H. cbv beta iota in H.
    destruct (existsb (mem ch_period) rs); [discriminate|].
    cbn [bind] in H. cbv beta iota in H.
    assert (ins = rs /\ out = infer_output rs e) as [-> ->] by (inversion H; auto).
    apply (resolve_inputs_ellipsis _ _ _ _ _ _ 0) in Er;
      [|lia|rewrite Nat.sub_0_r, skipn_all; reflexivity].
    rewrite Nat.max_0_l in Er. rewrite <- Er.
    destruct (infer_output_spec rs e) as [rest [E [S I]]].
    exists rest. split; [exact E|]. split; [discriminate|]. split; [exact S|exact I].
  - cbn [bind] in H. cbv beta iota in H.
    assert (ins = split_comma g1 [] /\ out = infer_output (split_comma g1 []) [])
      as [-> ->] by (inversion H; auto).
    assert (E0 : max_ellipsis (split_comma g1 []) shapes = 0).
    { apply max_ellipsis_none. intros ax Hax.
      destruct (has_ellipsis ax) eqn:Ea; [|reflexivity].
      assert (Hin : In ax (subscripts equation)) by (unfold subscripts; rewrite Em; exact Hax).
      rewrite (subscript_ellipsis equation ax Hin Ea) in Ee. discriminate. }
    rewrite E0, Nat.sub_0_r, skipn_all.
    destruct (infer_output_spec (split_comma g1 []) []) as [rest [E [S I]]].
    exists rest. split; [exact E|]. split; [reflexivity|]. split; [exact S|exact I].
Qed.

Lemma parse_implicit_output_witness :
  exists rest,
    L "Zik" = ellipsis_axes_of (L "...ij,jk")
                               [Some [Some 5; Some 2; Some 3]; Some [Some 3; Some 4]]%Z
              ++ rest /\
    (has_ellipsis (strip_spaces (L "...ij,jk")) = false ->
     ellipsis_axes_of (L "...ij,jk")
                      [Some [Some 5; Some 2; Some 3]; Some [Some 3; Some 4]]%Z = []) /\
    StronglySorted (fun a b => code a < code b) rest /\
    (forall a, In a rest <->
               ~ In a (ellipsis_axes_of (L "...ij,jk")
                         [Some [Some 5; Some 2; Some 3]; Some [Some 3; Some 4]]%Z)
               /\ count a (concat [L "Zij"; L "jk"]) = 1).
Proof.
  apply (parse_implicit_output (L "...ij,jk")
           [Some [Some 5; Some 2; Some 3]; Some [Some 3; Some 4]]%Z).
  - vm_compute. reflexivity.
  - reflexivity.
Defined.

(** ** The axis labels of a pairwise reduction *)


Lemma code_bound (a : label) : code a < 256.
Proof. apply nat_ascii_bounded. Qed.

Lemma key_le_class_key (cls : label -> nat) (a b : label) :
  key_le cls a b = (class_key cls a <=? class_key cls b).
Proof.
  unfold key_le, class_key.
  pose proof (code_bound a). pose proof (code_bound b).
  destruct (cls a <? cls b) eqn:E1; simpl.
  - apply Nat.ltb_lt in E1. symmetry. apply Nat.leb_le. nia.
  - apply Nat.ltb_ge in E1. destruct (cls a =? cls b) eqn:E2; simpl.
    + apply Nat.eqb_eq in E2. rewrite E2.
      destruct (code a <=? code b) eqn:E3; symmetry.
      * apply Nat.leb_le in E3. apply Nat.leb_le. lia.
      * apply Nat.leb_gt in E3. apply Nat.leb_gt. lia.
    + apply Nat.eqb_neq in E2. symmetry. apply Nat.leb_gt. nia.
Qed.

Lemma sorted_labels_ext (s s' : labels) :
  NoDup s -> NoDup s' -> (forall a, In a s <-> In a s') ->
  sorted_labels s = sorted_labels s'.
Proof.
  intros H1 H2 H. apply sorted_labels_unique.
  - eapply Permutation_trans; [|apply Permutation_sym, sorted_labels_perm].
    apply NoDup_Permutation; auto.
  - apply sorted_labels_strict. exact H2.
Qed.

Lemma sorted_labels_length (s : labels) : length (sorted_labels s) = length s.
Proof. apply Permutation_length, sorted_labels_perm. Qed.

Lemma sorted_labels_NoDup (s : labels) : NoDup s -> NoDup (sorted_labels s).
Proof.
  intros H. eapply Permutation_NoDup; [apply Permutation_sym, sorted_labels_perm|exact H].
Qed.

Lemma StronglySorted_impl_in {A} (R R' : A -> A -> Prop) (l : list A) :
  (forall x y, In x l -> In y l -> R x y -> R' x y) ->
  StronglySorted R l -> StronglySorted R' l.
Proof.
  intros H S. induction S as [|x l S IH F]; constructor.
  - apply IH. intros a b Ha Hb. apply H; right; auto.
  - rewrite Forall_forall in *. intros y Hy. apply H; [left; auto|right; auto|auto].
Qed.

Lemma key_sorted_NoDup {A} (key : A -> nat) (l : list A) :
  StronglySorted (fun a b => key a < key b) l -> NoDup l.
Proof.
  induction 1 as [|x l S IH F]; constructor; auto.
  intros Hx. rewrite Forall_forall in F. specialize (F x Hx). lia.
Qed.

(** Sorting by [(class, label)] groups the labels by class and sorts every
    group alphabetically. *)
Lemma class_sort (cls : label -> nat) (l : labels) :
  (forall a, cls a <= 2) -> NoDup l ->
  sorted_by (key_le cls) l
  = sorted_labels (filter (fun a => cls a =? 0) l)
    ++ sorted_labels (filter (fun a => cls a =? 1) l)
    ++ sorted_labels (filter (fun a => cls a =? 2) l).
Proof.
  intros Hcls Hnd.
  assert (forall c a, In a (sorted_labels (filter (fun a => cls a =? c) l))
                      <-> In a l /\ cls a = c) as Hin.
  { intros c a. rewrite in_sorted_labels, filter_In, Nat.eqb_eq. tauto. }
  assert (forall c, StronglySorted (fun a b => class_key cls a < class_key cls b)
                                   (sorted_labels (filter (fun a => cls a =? c) l))) as Hs.
  { intros c.
    apply (StronglySorted_impl_in (fun a b => code a < code b)).
    - intros x y Hx Hy Hxy. apply Hin in Hx, Hy. unfold class_key.
      destruct Hx as [_ ->], Hy as [_ ->]. lia.
    - apply sorted_labels_strict, filter_NoDup, Hnd. }
  assert (forall c c' x y,
             c < c' ->
             In x (sorted_labels (filter (fun a => cls a =? c) l)) ->
             In y (sorted_labels (filter (fun a => cls a =? c') l)) ->
             class_key cls x < class_key cls y) as Hcross.
  { intros c c' x y Hc Hx Hy. apply Hin in Hx, Hy. unfold class_key.
    destruct Hx as [_ ->], Hy as [_ ->].
    pose proof (code_bound x). nia. }
  assert (StronglySorted (fun a b => class_key cls a < class_key cls b)
                         (sorted_labels (filter (fun a => cls a =? 0) l)
                          ++ sorted_labels (filter (fun a => cls a =? 1) l)
                          ++ sorted_labels (filter (fun a => cls a =? 2) l))) as S.
  { apply StronglySorted_app; [apply Hs| |].
    - apply StronglySorted_app; [apply Hs|apply Hs|].
      intros x y. apply (Hcross 1 2). lia.
    - intros x y Hx Hy. apply in_app_or in Hy.
      destruct Hy as [Hy|Hy]; [apply (Hcross 0 1 x y)|apply (Hcross 0 2 x y)]; auto; lia. }
  apply (sorted_by_key_unique (class_key cls) (key_le cls) (key_le_class_key cls));
    [|exact S].
  apply NoDup_Permutation; auto.
  - apply key_sorted_NoDup in S. exact S.
  - intros a. rewrite !in_app_iff, !Hin. split; [|tauto].
    intros Ha. specialize (Hcls a).
    assert (cls a = 0 \/ cls a = 1 \/ cls a = 2) by lia. tauto.
Qed.

Lemma firstn_exact {A} (n : nat) (a b : list A) : n = length a -> firstn n (a ++ b) = a.
Proof.
  intros ->. rewrite firstn_app, Nat.sub_diag, firstn_all. simpl. apply app_nil_r.
Qed.

Lemma skipn_exact {A} (n : nat) (a b : list A) : n = length a -> skipn n (a ++ b) = b.
Proof.
  intros ->. rewrite skipn_app, Nat.sub_diag, skipn_all. reflexivity.
Qed.

Lemma from_index_tail {A} (a b : list A) (n : nat) :
  n = length b ->
  from_index (a ++ b) (Z.of_nat (length (a ++ b)) - Z.of_nat n) = b.
Proof.
  intros ->. unfold from_index. rewrite length_app.
  destruct (_ <? 0)%Z eqn:E; [apply Z.ltb_lt in E; lia|].
  apply skipn_exact. lia.
Qed.


Section ReductionLabels.
Variables l0 l1 axes : labels.
Hypothesis nodup0 : NoDup l0.
Hypothesis nodup1 : NoDup l1.


Lemma in_preserved (a : label) :
  In a (preserved_of l0 l1 axes) <-> In a l0 /\ In a l1 /\ ~ In a axes.
Proof.
  unfold preserved_of, set_diff, set_inter.
  rewrite !filter_In, in_set_of, mem_In, in_set_of, negb_true_iff, mem_false. tauto.
Qed.

Lemma in_b0 (a : label) : In a (broadcast_of l0 l0 l1 axes) <-> In a l0 /\ ~ In a l1 /\ ~ In a axes.
Proof.
  unfold broadcast_of, set_diff. rewrite !filter_In, in_set_of, !negb_true_iff, !mem_false.
  rewrite in_preserved. tauto.
Qed.

Lemma in_b1 (a : label) : In a (broadcast_of l1 l0 l1 axes) <-> In a l1 /\ ~ In a l0 /\ ~ In a axes.
Proof.
  unfold broadcast_of, set_diff. rewrite !filter_In, in_set_of, !negb_true_iff, !mem_false.
  rewrite in_preserved. tauto.
Qed.

Lemma sort_class_le (i : nat) (a : label) : sort_class (preserved_of l0 l1 axes) (broadcast_of l0 l0 l1 axes) axes i a <= 2.
Proof. unfold sort_class. destruct (mem a (preserved_of l0 l1 axes)); [lia|]. destruct (_ || _); lia. Qed.

Lemma preserved_NoDup : NoDup (preserved_of l0 l1 axes).
Proof. unfold preserved_of, set_diff, set_inter. apply filter_NoDup, filter_NoDup, set_of_NoDup. Qed.

Lemma b0_NoDup : NoDup (broadcast_of l0 l0 l1 axes).
Proof. unfold broadcast_of, set_diff. apply filter_NoDup, filter_NoDup, set_of_NoDup. Qed.

Lemma b1_NoDup : NoDup (broadcast_of l1 l0 l1 axes).
Proof. unfold broadcast_of, set_diff. apply filter_NoDup, filter_NoDup, set_of_NoDup. Qed.

(** The first operand's axes after sorting: preserved, broadcast, summed. *)
Lemma sorted_axes0 :
  sorted_by (key_le (sort_class (preserved_of l0 l1 axes) (broadcast_of l0 l0 l1 axes) axes 0)) l0
  = sorted_labels (preserved_of l0 l1 axes) ++ sorted_labels (broadcast_of l0 l0 l1 axes)
    ++ sorted_labels (filter (fun a => sort_class (preserved_of l0 l1 axes) (broadcast_of l0 l0 l1 axes) axes 0 a =? 2) l0).
Proof.
  rewrite class_sort by (auto using sort_class_le). f_equal; [|f_equal].
  - apply sorted_labels_ext; [apply filter_NoDup, nodup0|apply preserved_NoDup|].
    intros a. rewrite filter_In, Nat.eqb_eq. unfold sort_class.
    destruct (mem a (preserved_of l0 l1 axes)) eqn:E.
    + apply mem_In in E. pose proof (proj1 (in_preserved a) E). tauto.
    + apply mem_false in E. destruct (_ || _); split; try tauto; intros [_ H]; discriminate.
  - apply sorted_labels_ext; [apply filter_NoDup, nodup0|apply b0_NoDup|].
    intros a. rewrite filter_In, Nat.eqb_eq. unfold sort_class.
    destruct (mem a (preserved_of l0 l1 axes)) eqn:E.
    + apply mem_In in E. rewrite in_b0. apply in_preserved in E.
      split; [intros [_ H]; discriminate|tauto].
    + cbn [Nat.eqb andb orb]. rewrite orb_false_r.
      destruct (mem a (broadcast_of l0 l0 l1 axes)) eqn:E0.
      * apply mem_In in E0. pose proof (proj1 (in_b0 a) E0). tauto.
      * apply mem_false in E0. split; [intros [_ H]; discriminate|tauto].
Qed.

(** The second operand's axes after sorting: preserved, summed, broadcast. *)
Lemma sorted_axes1 :
  sorted_by (key_le (sort_class (preserved_of l0 l1 axes) (broadcast_of l0 l0 l1 axes) axes 1)) l1
  = sorted_labels (preserved_of l0 l1 axes)
    ++ sorted_labels (filter (fun a => sort_class (preserved_of l0 l1 axes) (broadcast_of l0 l0 l1 axes) axes 1 a =? 1) l1)
    ++ sorted_labels (broadcast_of l1 l0 l1 axes).
Proof.
  rewrite class_sort by (auto using sort_class_le). f_equal; [|f_equal].
  - apply sorted_labels_ext; [apply filter_NoDup, nodup1|apply preserved_NoDup|].
    intros a. rewrite filter_In, Nat.eqb_eq. unfold sort_class.
    destruct (mem a (preserved_of l0 l1 axes)) eqn:E.
    + apply mem_In in E. pose proof (proj1 (in_preserved a) E). tauto.
    + apply mem_false in E. destruct (_ || _); split; try tauto; intros [_ H]; discriminate.
  - apply sorted_labels_ext; [apply filter_NoDup, nodup1|apply b1_NoDup|].
    intros a. rewrite filter_In, Nat.eqb_eq. unfold sort_class.
    destruct (mem a (preserved_of l0 l1 axes)) eqn:E.
    + apply mem_In in E. rewrite in_b1. apply in_preserved in E.
      split; [intros [_ H]; discriminate|tauto].
    + cbn [Nat.eqb andb orb]. apply mem_false in E. rewrite in_preserved in E.
      rewrite in_b1.
      destruct (mem a axes) eqn:E0.
      * apply mem_In in E0. split; [intros [_ H]; discriminate|tauto].
      * apply mem_false in E0. split; [|tauto]. intros [H _].
        split; auto. split; auto.
Qed.

Lemma no_axes_class2 :
  axes = [] -> filter (fun a => sort_class (preserved_of l0 l1 axes) (broadcast_of l0 l0 l1 axes) axes 0 a =? 2) l0 = [].
Proof.
  intros Hax.
  match goal with |- ?f = [] => destruct f as [|a r] eqn:E end; auto.
  assert (In a (a :: r)) as H by (left; reflexivity).
  rewrite <- E in H. apply filter_In in H. destruct H as [Ha Hc].
  apply Nat.eqb_eq in Hc. unfold sort_class in Hc.
  destruct (mem a (preserved_of l0 l1 axes)) eqn:Ep; [discriminate|].
  cbn [Nat.eqb andb orb] in Hc. rewrite orb_false_r in Hc.
  destruct (mem a (broadcast_of l0 l0 l1 axes)) eqn:E0; [discriminate|].
  apply mem_false in Ep, E0. rewrite in_preserved in Ep. rewrite in_b0 in E0.
  subst axes. simpl in *. tauto.
Qed.

Lemma no_axes_class1 :
  axes = [] -> filter (fun a => sort_class (preserved_of l0 l1 axes) (broadcast_of l0 l0 l1 axes) axes 1 a =? 1) l1 = [].
Proof.
  intros Hax.
  match goal with |- ?f = [] => destruct f as [|a r] eqn:E end; auto.
  assert (In a (a :: r)) as H by (left; reflexivity).
  rewrite <- E in H. apply filter_In in H. destruct H as [Ha Hc].
  apply Nat.eqb_eq in Hc. unfold sort_class in Hc.
  destruct (mem a (preserved_of l0 l1 axes)) eqn:Ep; [discriminate|].
  cbn [Nat.eqb andb orb] in Hc. subst axes. discriminate.
Qed.

(** The labels the reduction returns, in both of its branches. *)
Lemma product_axes_eq :
  let sorted0 := sorted_by (key_le (sort_class (preserved_of l0 l1 axes) (broadcast_of l0 l0 l1 axes) axes 0)) l0 in
  let sorted1 := sorted_by (key_le (sort_class (preserved_of l0 l1 axes) (broadcast_of l0 l0 l1 axes) axes 1)) l1 in
  let np := length (preserved_of l0 l1 axes) in
  (axes = [] ->
   sorted0 ++ skipn np sorted1
   = sorted_labels (preserved_of l0 l1 axes) ++ sorted_labels (broadcast_of l0 l0 l1 axes) ++ sorted_labels (broadcast_of l1 l0 l1 axes)) /\
  firstn (np + length (broadcast_of l0 l0 l1 axes)) sorted0
  ++ from_index sorted1 (Z.of_nat (length sorted1) - Z.of_nat (length (broadcast_of l1 l0 l1 axes)))
  = sorted_labels (preserved_of l0 l1 axes) ++ sorted_labels (broadcast_of l0 l0 l1 axes) ++ sorted_labels (broadcast_of l1 l0 l1 axes).
Proof.
  cbv zeta. rewrite sorted_axes0, sorted_axes1. split.
  - intros Hax. rewrite (no_axes_class2 Hax), (no_axes_class1 Hax).
    change (sorted_labels []) with (@nil label). cbn [app]. rewrite app_nil_r.
    rewrite skipn_exact by (symmetry; apply sorted_labels_length).
    rewrite <- app_assoc. reflexivity.
  - rewrite (app_assoc (sorted_labels (preserved_of l0 l1 axes)) (sorted_labels (broadcast_of l0 l0 l1 axes))).
    rewrite firstn_exact by (rewrite length_app, !sorted_labels_length; reflexivity).
    rewrite (app_assoc (sorted_labels (preserved_of l0 l1 axes)) _ (sorted_labels (broadcast_of l1 l0 l1 axes))).
    rewrite from_index_tail by (symmetry; apply sorted_labels_length).
    rewrite <- app_assoc. reflexivity.
Qed.
End ReductionLabels.

Section ReductionResult.
Context {T : Type} {ops : TensorOps T}.

(** The labels [_einsum_reduction] returns, and what its assertion checks. *)
Lemma reduction_labels_eq (t0 t1 t : T) (l0 l1 axes l : labels) :
  NoDup l0 -> NoDup l1 ->
  _einsum_reduction t0 l0 t1 l1 axes = Ret (t, l) ->
  l = sorted_labels (preserved_of l0 l1 axes)
      ++ sorted_labels (broadcast_of l0 l0 l1 axes)
      ++ sorted_labels (broadcast_of l1 l0 l1 axes)
  /\ forall a, In a axes -> In a l0 /\ In a l1.
Proof.
  intros N0 N1. unfold _einsum_reduction.
  destruct (as_list (get_shape t0)) as [s0|]; [|discriminate]. cbn [bind].
  destruct (negb (length l0 =? length s0)); [discriminate|].
  destruct (as_list (get_shape t1)) as [s1|]; [|discriminate]. cbn [bind].
  destruct (negb (length l1 =? length s1)); [discriminate|].
  match goal with
  | |- context [negb (forallb ?f axes)] => destruct (negb (forallb f axes)) eqn:Eas
  end; [discriminate|].
  apply negb_false_iff in Eas. rewrite forallb_forall in Eas.
  assert (forall a, In a axes -> In a l0 /\ In a l1) as Hax.
  { intros a Ha. apply Eas, andb_true_iff in Ha. rewrite !mem_In in Ha. exact Ha. }
  destruct (product_axes_eq l0 l1 axes N0 N1) as [E1 E2].
  destruct axes as [|a axes'] eqn:Eaxes.
  - intros H. inversion H; subst. split; auto.
  - rewrite <- Eaxes in *.
    repeat match goal with
           | |- bind ?m _ = Ret _ -> _ => destruct m; cbn [bind]; [|discriminate]
           end.
    intros H. inversion H; subst l. split; auto.
Qed.

(** X6.  The axes of the result of [_einsum_reduction], in both of its
    branches (elementwise product and matrix product): first the axes that
    both operands have and that are not summed, then the axes that only the
    first operand has, then those that only the second has, each group in
    alphabetical order.  The summed axes belong to both operands. *)
Theorem einsum_reduction_labels (t0 t1 t : T) (l0 l1 axes l : labels) :
  NoDup l0 -> NoDup l1 ->
  _einsum_reduction t0 l0 t1 l1 axes = Ret (t, l) ->
  exists P B0 B1,
    l = P ++ B0 ++ B1 /\
    StronglySorted (fun a b => code a < code b) P /\
    StronglySorted (fun a b => code a < code b) B0 /\
    StronglySorted (fun a b => code a < code b) B1 /\
    (forall a, In a axes -> In a l0 /\ In a l1) /\
    (forall a, In a P <-> In a l0 /\ In a l1 /\ ~ In a axes) /\
    (forall a, In a B0 <-> In a l0 /\ ~ In a l1) /\
    (forall a, In a B1 <-> In a l1 /\ ~ In a l0).
Proof.
  intros N0 N1 H.
  destruct (reduction_labels_eq t0 t1 t l0 l1 axes l N0 N1 H) as [-> Hax].
  exists (sorted_labels (preserved_of l0 l1 axes)),
         (sorted_labels (broadcast_of l0 l0 l1 axes)),
         (sorted_labels (broadcast_of l1 l0 l1 axes)).
  split; [reflexivity|].
  split; [apply sorted_labels_strict, preserved_NoDup|].
  split; [apply sorted_labels_strict, b0_NoDup|].
  split; [apply sorted_labels_strict, b1_NoDup|].
  split; [exact Hax|].
  split; [intros a; rewrite in_sorted_labels; apply in_preserved|].
  split; intros a; rewrite in_sorted_labels; [rewrite in_b0|rewrite in_b1];
    split; try tauto; intros [H1 H2]; split; auto; split; auto;
    intros Ha; apply Hax in Ha; tauto.
Qed.

Lemma new_labels_NoDup (l0 l1 out : labels) :
  NoDup l0 -> NoDup l1 -> NoDup (new_labels l0 l1 out).
Proof.
  intros N0 N1. unfold new_labels, m1, m2. rewrite !select_map_filter.
  apply NoDup_app; try (apply filter_NoDup; assumption).
  intros a Ha Hb. apply filter_In in Ha, Hb. destruct Ha as [Ha _], Hb as [Hb Hc].
  apply negb_true_iff, mem_false in Hc. apply Hc. apply in_common_indices. auto.
Qed.

(** X7.  The optimisers and the executor agree on the axes of an
    intermediate result: the labels [_einsum_reduction] gives the
    contraction of two operands are, up to their order, the labels the cost
    model of both optimisers predicts for it, and no label is repeated. *)
Theorem reduction_labels_match_cost_model (t0 t1 t : T) (l0 l1 out l : labels) :
  NoDup l0 -> NoDup l1 ->
  _einsum_reduction t0 l0 t1 l1 (contraction_indices l0 l1 out) = Ret (t, l) ->
  NoDup l /\ Permutation l (new_labels l0 l1 out).
Proof.
  intros N0 N1 H.
  destruct (reduction_labels_eq t0 t1 t l0 l1 _ l N0 N1 H) as [-> Hax].
  set (axes := contraction_indices l0 l1 out) in *.
  assert (NoDup (sorted_labels (preserved_of l0 l1 axes)
                 ++ sorted_labels (broadcast_of l0 l0 l1 axes)
                 ++ sorted_labels (broadcast_of l1 l0 l1 axes))) as Hnd.
  { apply NoDup_app; [apply sorted_labels_NoDup, preserved_NoDup| |].
    - apply NoDup_app; [apply sorted_labels_NoDup, b0_NoDup
                       |apply sorted_labels_NoDup, b1_NoDup|].
      intros a. rewrite !in_sorted_labels, in_b0, in_b1. tauto.
    - intros a. rewrite in_app_iff, !in_sorted_labels, in_preserved, in_b0, in_b1. tauto. }
  split; [exact Hnd|].
  apply NoDup_Permutation; [exact Hnd|apply new_labels_NoDup; auto|].
  intros a. rewrite !in_app_iff, !in_sorted_labels, in_preserved, in_b0, in_b1.
  rewrite in_new_labels. unfold axes. rewrite in_contraction_indices.
  destruct (in_dec ascii_dec a l0), (in_dec ascii_dec a l1), (in_dec ascii_dec a out);
    tauto.
Qed.
End ReductionResult.

Lemma split_comma_nonempty (s cur : labels) : 1 <= length (split_comma s cur).
Proof.
  revert cur. induction s as [|c s IH]; intros cur; simpl; [lia|].
  destruct (Ascii.eqb c ch_comma); [simpl; lia|apply IH].
Qed.

(** A call that passes the parser has at least one operand. *)
Lemma parse_nonempty (equation : labels) (shapes : list tensor_shape)
      (ins : list labels) (out : labels) :
  _einsum_parse_and_resolve_equation equation shapes = Ret (ins, out) ->
  1 <= length shapes.
Proof.
  unfold _einsum_parse_and_resolve_equation.
  destruct (match_equation _) as [[g1 g2]|]; [|discriminate].
  destruct (negb (length shapes =? length (split_comma g1 []))) eqn:Ear; [discriminate|].
  apply negb_false_iff, Nat.eqb_eq in Ear. intros _.
  rewrite Ear. apply split_comma_nonempty.
Qed.

(** Every strategy but an invalid one returns a well-formed sequence; the
    dynamic programme needs every summed label in at most two operands. *)
Lemma einsum_optimize_valid {SO : SetOrder} (ishapes : list (list Z))
      (ilabels : list labels) (olabels : labels) (optimize : strategy)
      (cost_limit : option Z) :
  length ishapes = length ilabels ->
  1 <= length ishapes ->
  optimize <> OptOther ->
  at_most_two ilabels olabels ->
  exists sq,
    einsum_optimize ishapes ilabels olabels optimize cost_limit = Ret sq /\
    length sq = length ishapes - 1 /\
    valid_seq (length ishapes) sq.
Proof.
  intros Hlen Hn Hopt Htwo.
  assert (exists sq,
             _einsum_optimize_dp ishapes ilabels olabels cost_limit = Ret sq /\
             length sq = length ishapes - 1 /\
             valid_seq (length ishapes) sq) as Hdp.
  { destruct (einsum_optimize_dp_ok ishapes ilabels olabels cost_limit Hlen)
      as [t [E P]]; [lia|auto|].
    rewrite <- Hlen in P.
    destruct (tree_to_sequence_replay t (length ishapes) P) as [Hl [Hv R]].
    exists (_tree_to_sequence t). auto. }
  destruct optimize; try congruence; auto.
  - exists (repeat (0, 1) (length ishapes - 1)).
    split; [reflexivity|]. split; [apply repeat_length|].
    apply valid_seq_repeat. lia.
  - destruct (greedy_loop_run olabels (length ishapes) ishapes ilabels [] Hlen (le_n _))
      as [sq [E [Hl R]]].
    exists sq. split; [exact E|]. split; [exact Hl|].
    apply (greedy_run_valid olabels ishapes ilabels sq Hlen R).
Qed.

Lemma at_most_two_small (ls : list labels) (olabels : labels) :
  length ls <= 2 -> at_most_two ls olabels.
Proof. intros H a i j k _ Hij Hjk Hk. lia. Qed.

Section SmallCalls.
Context {SO : SetOrder} {T : Type} {ops : TensorOps T}.

(** With at most two operands every well-formed sequence does what the
    left-to-right sequence does. *)
Lemma reduce_small (out : labels) (sq : list step) (st : list T * list labels) (n : nat) :
  n <= 2 -> length sq = n - 1 -> valid_seq n sq ->
  foldM (reduce_step out) sq st = foldM (reduce_step out) (repeat (0, 1) (n - 1)) st.
Proof.
  intros Hn Hl Hv.
  destruct sq as [|[j k] [|s sq]]; simpl in Hl.
  - rewrite <- Hl. reflexivity.
  - rewrite <- Hl. simpl in Hv. destruct Hv as [Hjk [Hj [Hk _]]].
    assert ((j = 0 /\ k = 1) \/ (j = 1 /\ k = 0)) as [[-> ->]|[-> ->]] by lia;
      reflexivity.
  - lia.
Qed.

Lemma einsum_pairwise_small (inputs : list T) (ins : list labels) (out : labels)
      (optimize : strategy) :
  length ins = length inputs -> 1 <= length inputs <= 2 -> optimize <> OptOther ->
  einsum_pairwise inputs ins out optimize = einsum_pairwise inputs ins out OptFalse.
Proof.
  intros Hlen Hn Hopt. unfold einsum_pairwise.
  destruct (mapM _ inputs) as [shapes|e] eqn:E; cbn [bind]; auto.
  apply mapM_length in E.
  destruct (einsum_optimize_valid (map (map known_dim) shapes) ins out optimize None)
    as [sq [Esq [Hl Hv]]]; auto.
  - rewrite length_map. lia.
  - rewrite length_map. lia.
  - apply at_most_two_small. lia.
  - rewrite Esq. cbn [einsum_optimize bind].
    apply (reduce_small out sq (inputs, ins) (length (map (map known_dim) shapes))); auto.
    rewrite length_map. lia.
Qed.

(** X8.  With one or two operands the strategies False, True/'dp' and
    'greedy' give the same outcome, value or error: the optimisers can only
    return the empty sequence or one step over the two operands, and the
    loop of [einsum] orders the two positions of a step itself. *)
Theorem einsum_small_strategy_irrelevant
        (tpu : bool) (equation : labels) (inputs : list T) (optimize : strategy) :
  length inputs <= 2 -> optimize <> OptOther ->
  einsum tpu equation inputs optimize = einsum tpu equation inputs OptFalse.
Proof.
  intros Hn Hopt. unfold einsum.
  destruct (_einsum_parse_and_resolve_equation _ _) as [[ins out]|e] eqn:Ep; auto.
  pose proof (parse_length _ _ _ _ Ep) as Hlen.
  pose proof (parse_nonempty _ _ _ _ Ep) as Hne. rewrite length_map in Hlen, Hne.
  destruct (any_unknown_dim _) as [[|]|e]; auto.
  destruct (dup_check _ _ _ _); auto.
  destruct (fallback_label _ _ _); auto.
  destruct (tpu && _); auto.
  rewrite (einsum_pairwise_small inputs ins out optimize); auto.
Qed.

(** X9.  Inside a TPU context a call with two operands never consults the
    optimiser: its outcome does not depend on the [optimize] argument, and
    even an invalid strategy name goes unnoticed. *)
Theorem einsum_tpu_ignores_strategy
        (equation : labels) (inputs : list T) (optimize optimize' : strategy) :
  length inputs = 2 ->
  einsum true equation inputs optimize = einsum true equation inputs optimize'.
Proof.
  intros Hn. unfold einsum.
  destruct (_einsum_parse_and_resolve_equation _ _) as [[ins out]|e]; auto.
  destruct (any_unknown_dim _) as [[|]|e]; auto;
    destruct (dup_check _ _ _ _); auto;
    destruct (fallback_label _ _ _); auto;
    rewrite Hn; reflexivity.
Qed.

Lemma count_NoDup (a : label) (l : labels) : NoDup l -> count a l <= 1.
Proof. intros H. unfold count. apply NoDup_count_occ. exact H. Qed.

Lemma dup_check_label_NoDup (single no_arrow : bool) (a : label) (ins : list labels) :
  Forall (fun l => NoDup l) ins -> dup_check_label single no_arrow a ins = DupNone.
Proof.
  induction 1 as [|l ins Hl Hins IH]; simpl; auto.
  pose proof (count_NoDup a l Hl) as Hc.
  replace (count a l =? 2) with false by (symmetry; apply Nat.eqb_neq; lia).
  rewrite andb_false_r. cbn [andb].
  replace (1 <? count a l) with false by (symmetry; apply Nat.ltb_ge; lia).
  exact IH.
Qed.

(** Operands without repeated labels pass the duplicate-label loop. *)
Lemma dup_check_NoDup (single no_arrow : bool) (axis_labels : labels) (ins : list labels) :
  Forall (fun l => NoDup l) ins -> dup_check single no_arrow axis_labels ins = DupNone.
Proof.
  intros H. induction axis_labels as [|a rest IH]; simpl; auto.
  rewrite (dup_check_label_NoDup single no_arrow a ins H). exact IH.
Qed.

Lemma input_count_le (a : label) (ins : list labels) : input_count a ins <= length ins.
Proof. unfold input_count. apply filter_length_le. Qed.

Lemma mapM_str_index (l out : labels) :
  incl out l -> mapM (fun a => str_index a l) out = Ret (map (fun a => find a l) out).
Proof.
  induction out as [|a out IH]; intros H; simpl; auto.
  unfold str_index at 1.
  replace (mem a l) with true by (symmetry; apply mem_In, H; left; reflexivity).
  cbn [bind]. rewrite IH; [reflexivity|].
  intros x Hx. apply H. right. exact Hx.
Qed.

(** X10.  With a single operand whose rank is the number of its labels,
    whose labels are distinct and an output that permutes them, [einsum] is
    the transposition of the operand by the positions of the output labels,
    for every valid strategy; the transposition is built even when the
    permutation is the identity.  (Nothing checks the rank of a single
    operand against its labels: the hypothesis keeps the permutation a
    permutation of the operand's axes.) *)
Theorem einsum_single_operand_transposes
        (tpu : bool) (equation : labels) (t : T) (optimize : strategy)
        (dims : list dim) (l out : labels) :
  get_shape t = Some dims ->
  length dims = length l ->
  _einsum_parse_and_resolve_equation equation (map get_shape [t]) = Ret ([l], out) ->
  NoDup l -> Permutation l out ->
  optimize <> OptOther ->
  einsum tpu equation [t] optimize
  = ([], Ret (transpose t (map (fun a => find a l) out))).
Proof.
  intros Hshape Hrank Hparse Hnd Hperm Hopt.
  unfold einsum. rewrite Hparse.
  change (map get_shape [t]) with [get_shape t]. rewrite Hshape.
  cbn [any_unknown_dim as_list bind].
  assert (forall o, o <> OptOther ->
                    einsum_pairwise [t] [l] out o = Ret ([t], [l])) as Hpair.
  { intros o Ho. rewrite einsum_pairwise_small by (simpl; auto; lia).
    unfold einsum_pairwise. cbn [mapM bind]. rewrite Hshape. reflexivity. }
  assert (einsum_finish ([t], [l]) out
          = Ret (transpose t (map (fun a => find a l) out))) as Hfin.
  { unfold einsum_finish. cbn [index nth_error bind].
    assert (sorted_labels l = sorted_labels out) as Es.
    { apply sorted_labels_ext; auto.
      - eapply Permutation_NoDup; eauto.
      - intros a. split; apply Permutation_in; auto. apply Permutation_sym. exact Hperm. }
    rewrite Es. replace (labels_eqb (sorted_labels out) (sorted_labels out)) with true
      by (symmetry; apply labels_eqb_eq; reflexivity).
    rewrite mapM_str_index.
    - destruct (set_diff (set_of l) (set_of out)); reflexivity.
    - intros a Ha. eapply Permutation_in; [apply Permutation_sym; exact Hperm|exact Ha]. }
  assert (einsum_pairwise [t] [l] out (if existsb is_unknown dims then OptFalse else optimize)
          = Ret ([t], [l])) as Hp.
  { destruct (existsb is_unknown dims); apply Hpair; auto. discriminate. }
  replace (if existsb is_unknown dims then Ret true else Ret false)
    with (Ret (A := bool) (existsb is_unknown dims))
    by (destruct (existsb is_unknown dims); reflexivity).
  rewrite dup_check_NoDup by (constructor; auto).
  pose proof (fallback_label_spec (SO := SO) [l] out) as Hfb.
  destruct (fallback_label _ _ _) as [a|].
  - destruct Hfb as [Hc _]. pose proof (input_count_le a [l]). simpl in *. lia.
  - rewrite andb_false_r. rewrite Hp. cbn [bind]. rewrite Hfin. reflexivity.
Qed.
End SmallCalls.

(** ** The validation of the sizes in the fallback *)

Lemma all_equal_spec (dims : list Z) (z z' : Z) :
  all_equal dims = true -> In z dims -> In z' dims -> z = z'.
Proof.
  destruct dims as [|d ds]; [intros _ []|]. simpl. intros H.
  rewrite forallb_forall in H.
  assert (forall x, In x (d :: ds) -> x = d) as Hd.
  { intros x [<-|Hx]; auto. apply H, Z.eqb_eq in Hx. auto. }
  intros Hz Hz'. rewrite (Hd z Hz), (Hd z' Hz'). reflexivity.
Qed.

(** The sizes above 1 of the operands that have the axis are all collected. *)
Lemma expand_axis_dims (j : nat) (ax : label) (opsl : list (labels * list Z * list Z)) :
  Forall (fun o => length (snd (fst o)) = j) opsl ->
  forall shapes' dims,
    expand_axis j ax (map (fun o => fst (fst o)) opsl)
                (map (fun o => snd (fst o) ++ snd o) opsl) = Ret (shapes', dims) ->
    forall o z, In o opsl -> mem ax (fst (fst o)) = true ->
                hd_error (snd o) = Some z -> (1 < z)%Z -> In z dims.
Proof.
  induction 1 as [|[[l P] s] opsl HP HF IH]; intros shapes' dims H o z Ho; simpl in H.
  - destruct Ho.
  - simpl in HP. destruct (mem ax l) eqn:Em.
    + destruct (index (P ++ s) j) as [dm|] eqn:Ei; [|discriminate]. cbn [bind] in H.
      destruct (expand_axis j ax _ _) as [[rest dims0]|] eqn:Er; [|discriminate].
      cbn [bind] in H. pose proof (IH rest dims0 eq_refl) as IH'.
      inversion H; subst. clear H.
      destruct Ho as [<-|Ho]; cbn [fst snd].
      * intros _ Hz Hlt. unfold index in Ei.
        rewrite nth_error_app2, Nat.sub_diag in Ei by lia.
        destruct s as [|d s]; [discriminate|]. simpl in Ei, Hz.
        inversion Ei; subst. inversion Hz; subst.
        apply Z.ltb_lt in Hlt. rewrite Hlt. left. reflexivity.
      * intros Hm Hz Hlt. specialize (IH' o z Ho Hm Hz Hlt).
        destruct (1 <? dm)%Z; [right|]; exact IH'.
    + destruct (expand_axis j ax _ _) as [[rest dims0]|] eqn:Er; [|discriminate].
      cbn [bind] in H. pose proof (IH rest dims0 eq_refl) as IH'.
      inversion H; subst. clear H.
      destruct Ho as [<-|Ho]; cbn [fst snd].
      * congruence.
      * intros Hm Hz Hlt. exact (IH' o z Ho Hm Hz Hlt).
Qed.

(** Shapes that passed the validation loop agree, axis by axis, on every
    size above 1. *)
Lemma expand_axes_compatible (axes : labels) :
  forall (j : nat) (opsl : list (labels * list Z * list Z)) (shapes' : list (list Z)),
    Forall (fun o => length (snd (fst o)) = j) opsl ->
    expand_axes j axes (map (fun o => fst (fst o)) opsl)
                (map (fun o => snd (fst o) ++ snd o) opsl) = Ret shapes' ->
    forall o o' p z z',
      In o opsl -> In o' opsl -> p < length axes ->
      nth_error (expand_spec axes (fst (fst o)) (snd o)) p = Some z ->
      nth_error (expand_spec axes (fst (fst o')) (snd o')) p = Some z' ->
      (1 < z)%Z -> (1 < z')%Z -> z = z'.
Proof.
  induction axes as [|ax axes IH];
    intros j opsl shapes' HP H o o' p z z' Ho Ho' Hp Hz Hz' L L'.
  - simpl in Hp. lia.
  - simpl in H.
    destruct (expand_axis j ax _ _) as [[shapes1 dims]|] eqn:E; [|discriminate].
    cbn [bind] in H. destruct (negb (all_equal dims)) eqn:Eall; [discriminate|].
    apply negb_false_iff in Eall.
    pose proof (expand_axis_dims j ax opsl HP shapes1 dims E) as Hdims.
    destruct (expand_axis_spec j ax opsl HP shapes1 dims E) as [-> Hne].
    set (next := fun o : labels * list Z * list Z =>
                   if mem ax (fst (fst o))
                   then (fst (fst o), snd (fst o) ++ [hd 0%Z (snd o)], tl (snd o))
                   else (fst (fst o), snd (fst o) ++ [1%Z], snd o)).
    assert (map (fun o => snd (fst o) ++ expand_spec [ax] (fst (fst o)) (snd o)) opsl
            = map (fun o => snd (fst o) ++ snd o) (map next opsl)) as E1.
    { rewrite map_map. apply map_ext_in. intros [[l P] s] Hx. unfold next. simpl.
      rewrite Forall_forall in Hne. specialize (Hne _ Hx). simpl in Hne.
      destruct (mem ax l); simpl.
      - destruct s; [exfalso; apply Hne; auto|]. simpl. rewrite <- app_assoc. reflexivity.
      - rewrite <- app_assoc. reflexivity. }
    assert (map (fun o => fst (fst o)) opsl = map (fun o => fst (fst o)) (map next opsl))
      as E2.
    { rewrite map_map. apply map_ext. intros [[l P] s]. unfold next. simpl.
      destruct (mem ax l); reflexivity. }
    assert (expand_axes (S j) axes (map (fun o => fst (fst o)) (map next opsl))
                        (map (fun o => snd (fst o) ++ snd o) (map next opsl))
            = Ret shapes') as H'.
    { rewrite <- E1, <- E2. exact H. }
    assert (Forall (fun o => length (snd (fst o)) = S j) (map next opsl)) as HP'.
    { apply Forall_forall. intros x Hx. apply in_map_iff in Hx.
      destruct Hx as [[[l P] s] [<- Hx]]. rewrite Forall_forall in HP.
      specialize (HP _ Hx). unfold next. simpl in *.
      destruct (mem ax l); simpl; rewrite length_app; simpl; lia. }
    assert (forall x, In x opsl ->
                      expand_spec (ax :: axes) (fst (fst x)) (snd x)
                      = (if mem ax (fst (fst x)) then hd 0%Z (snd x) else 1%Z)
                          :: expand_spec axes (fst (fst (next x))) (snd (next x))) as Hstep.
    { intros [[l P] s] Hx. unfold next. simpl.
      rewrite Forall_forall in Hne. specialize (Hne _ Hx). simpl in Hne.
      destruct (mem ax l); simpl; auto.
      destruct s; [exfalso; apply Hne; auto|]. reflexivity. }
    rewrite (Hstep o Ho) in Hz. rewrite (Hstep o' Ho') in Hz'.
    destruct p as [|p].
    + simpl in Hz, Hz'.
      rewrite Forall_forall in Hne.
      assert (forall x y, In x opsl ->
                          Some (if mem ax (fst (fst x)) then hd 0%Z (snd x) else 1%Z)
                          = Some y -> (1 < y)%Z -> In y dims) as Hin.
      { intros x y Hx Hy Ly. destruct (mem ax (fst (fst x))) eqn:Em.
        - apply (Hdims x y Hx Em); auto.
          pose proof (Hne x Hx Em). destruct (snd x); [congruence|].
          simpl in *. congruence.
        - inversion Hy. lia. }
      apply (all_equal_spec dims); eauto.
    + simpl in Hz, Hz'.
      apply (IH (S j) (map next opsl) shapes' HP' H' (next o) (next o') p z z'); auto.
      * apply in_map. exact Ho.
      * apply in_map. exact Ho'.
      * simpl in Hp. lia.
Qed.

Lemma combine_map_l {A B C} (g : A -> C) (ls : list A) :
  forall (shapes : list B),
    combine (map g ls) shapes = map (fun x => (g (fst x), snd x)) (combine ls shapes).
Proof.
  induction ls as [|l ls IH]; intros [|s shapes]; simpl; auto.
  f_equal. apply IH.
Qed.

(** X11.  The fallback validates the sizes: when it returns, the shapes it
    multiplies are compatible for broadcasting, that is, at every axis of
    the canonical order the sizes above 1 of all the operands are equal. *)
Theorem fallback_checks_sizes
        (T : Type) (ops : TensorOps T) (equation : labels) (inputs : list T)
        (idx_in : list labels) (idx_out : labels) (result : T) :
  _einsum_parse_and_resolve_equation equation (map get_shape inputs)
  = Ret (idx_in, idx_out) ->
  NoDup idx_out ->
  _exponential_space_einsum equation inputs = Ret result ->
  let canon := sorted_labels (summed_labels idx_in idx_out) ++ idx_out in
  let ts := map (fun tl => transposed (fst tl) (snd tl) (canonical_labels canon (snd tl)))
                (combine inputs idx_in) in
  exists shapes,
    mapM (fun t => s <- as_list (get_shape t) ;; Ret (map reshape_dim s)) ts = Ret shapes /\
    forall l s l' s' p z z',
      In (l, s) (combine idx_in shapes) -> In (l', s') (combine idx_in shapes) ->
      p < length canon ->
      nth_error (expand_spec canon l s) p = Some z ->
      nth_error (expand_spec canon l' s') p = Some z' ->
      (1 < z)%Z -> (1 < z')%Z -> z = z'.
Proof.
  intros Hparse Hnd Hres canon ts.
  assert (length inputs = length idx_in) as Hlen.
  { rewrite (parse_length _ _ _ _ Hparse). symmetry. apply length_map. }
  pose proof (canonical_axes_eq idx_in idx_out Hnd) as Hcanon. fold canon in Hcanon.
  unfold _exponential_space_einsum in Hres. rewrite Hparse in Hres. cbn [bind] in Hres.
  cbv beta iota in Hres.
  destruct (transpose_inputs (axis_order_of idx_in idx_out) 0 inputs idx_in)
    as [[ts0 ls0]|] eqn:Et; [|discriminate].
  cbn [bind] in Hres. cbv beta iota in Hres.
  destruct (transpose_inputs_spec _ _ _ _ _ _ Hlen Et) as [Hnodup [_ [Hls Hts]]].
  assert (ts0 = ts) as ->.
  { rewrite Hts. unfold ts. apply map_ext_in. intros [t l] Htl. simpl.
    rewrite Forall_forall in Hnodup.
    rewrite (operand_axes_sorted idx_in idx_out Hnd l).
    - rewrite Hcanon. reflexivity.
    - apply Hnodup. eapply in_combine_r; eauto.
    - eapply in_combine_r; eauto. }
  destruct (mapM _ ts) as [shapes|] eqn:Es; [|discriminate]. cbn [bind] in Hres.
  destruct (expand_axes 0 _ ls0 shapes) as [shapes'|] eqn:Ee; [|discriminate].
  exists shapes. split; [reflexivity|].
  intros l s l' s' p z z' Hin Hin' Hp Hz Hz' L L'.
  rewrite Hcanon in Ee.
  set (srt := sorted_by_axis (axis_order_of idx_in idx_out)) in *.
  pose (opsl := map (fun lsh : labels * list Z => (fst lsh, @nil Z, snd lsh))
                    (combine ls0 shapes)).
  assert (length ls0 = length shapes) as Hlen'.
  { rewrite Hls, length_map, <- Hlen. apply mapM_length in Es.
    rewrite Es. unfold ts. rewrite length_map, length_combine. lia. }
  assert (map (fun o : labels * list Z * list Z => fst (fst o)) opsl = ls0) as E1.
  { unfold opsl. rewrite map_map. simpl. apply map_fst_combine. exact Hlen'. }
  assert (map (fun o : labels * list Z * list Z => snd (fst o) ++ snd o) opsl = shapes)
    as E2.
  { unfold opsl. rewrite map_map. simpl. apply map_snd_combine. exact Hlen'. }
  rewrite <- E1, <- E2 in Ee.
  assert (forall x y, In (x, y) (combine idx_in shapes) -> In (srt x, @nil Z, y) opsl) as Hops.
  { intros x y Hxy. unfold opsl. rewrite Hls, combine_map_l, map_map. cbn [fst snd].
    apply in_map_iff. exists (x, y). auto. }
  apply (expand_axes_compatible canon 0 opsl shapes'
           ltac:(unfold opsl; apply Forall_forall; intros o Ho; apply in_map_iff in Ho;
                 destruct Ho as [x [<- _]]; reflexivity)
           Ee (srt l, [], s) (srt l', [], s') p z z'); auto; cbn [fst snd].
  - rewrite <- Hz. f_equal. apply expand_spec_ext. intros a. apply mem_sorted_by_axis.
  - rewrite <- Hz'. f_equal. apply expand_spec_ext. intros a. apply mem_sorted_by_axis.
Qed.

Section TotalSize.
Context {T : Type} {ops : TensorOps T}.

Lemma total_size_ints (l : list Z) (acc : Z) :
  fold_left sdim_mul (map (@DInt T) l) (DInt acc) = DInt (fold_left Z.mul l acc).
Proof.
  revert acc. induction l as [|z l IH]; intros acc; simpl; auto.
Qed.

Lemma total_size_tensor (shape : list (sdim T)) (t : T) :
  exists t', fold_left sdim_mul shape (DTensor t) = DTensor t'.
Proof.
  revert t. induction shape as [|d shape IH]; intros t; simpl; [eauto|].
  destruct d; apply IH.
Qed.

(** X12.  [_total_size] does what its docstring says: for a list of
    integers it returns their product, an integer; for a list that holds a
    tensor value it returns a tensor. *)
Theorem total_size_integer_or_tensor :
  (forall l : list Z, _total_size (map (@DInt T) l) = DInt (prod l)) /\
  (forall (shape : list (sdim T)) (t : T),
      In (DTensor t) shape -> exists t', _total_size shape = DTensor t').
Proof.
  split.
  - intros l. apply total_size_ints.
  - unfold _total_size. intros shape. generalize (@DInt T 1).
    induction shape as [|d shape IH]; intros acc t Hin; [destruct Hin|].
    destruct Hin as [->|Hin]; simpl.
    + destruct acc; apply total_size_tensor.
    + apply (IH _ t Hin).
Qed.
End TotalSize.

Lemma einsum_reduction_labels_witness :
  let t0 := tensor_of [2; 1; 2; 3; 1] (fun _ => 1%Z) in
  let t1 := tensor_of [2; 2; 3; 1; 2] (fun _ => 2%Z) in
  exists t l,
    _einsum_reduction t0 (L "abijk") t1 (L "acjkl") (L "jk") = Ret (t, l) /\
    exists P B0 B1,
      l = P ++ B0 ++ B1 /\
      StronglySorted (fun a b => code a < code b) P /\
      StronglySorted (fun a b => code a < code b) B0 /\
      StronglySorted (fun a b => code a < code b) B1 /\
      (forall a, In a (L "jk") -> In a (L "abijk") /\ In a (L "acjkl")) /\
      (forall a, In a P <-> In a (L "abijk") /\ In a (L "acjkl") /\ ~ In a (L "jk")) /\
      (forall a, In a B0 <-> In a (L "abijk") /\ ~ In a (L "acjkl")) /\
      (forall a, In a B1 <-> In a (L "acjkl") /\ ~ In a (L "abijk")).
Proof.
  intros t0 t1.
  destruct (_einsum_reduction t0 (L "abijk") t1 (L "acjkl") (L "jk")) as [[t l]|] eqn:E;
    [|vm_compute in E; discriminate].
  exists t, l. split; [reflexivity|].
  apply (einsum_reduction_labels t0 t1 t (L "abijk") (L "acjkl") (L "jk") l).
  - repeat constructor; simpl; intuition discriminate.
  - repeat constructor; simpl; intuition discriminate.
  - exact E.
Defined.

Lemma einsum_small_strategy_irrelevant_witness :
  let a := of_elements [2; 3] [1; 2; 3; 4; 5; 6]%Z in
  let b := of_elements [3; 2] [1; 0; 0; 1; 1; 1]%Z in
  einsum (SO := list_order) false (L "ij,jk->ik") [a; b] OptGreedy
  = einsum (SO := list_order) false (L "ij,jk->ik") [a; b] OptFalse.
Proof.
  intros a b.
  apply (einsum_small_strategy_irrelevant (SO := list_order) false (L "ij,jk->ik")
                                          [a; b] OptGreedy).
  - simpl. lia.
  - discriminate.
Defined.

Lemma einsum_tpu_ignores_strategy_witness :
  let a := of_elements [2; 3] [1; 2; 3; 4; 5; 6]%Z in
  let b := of_elements [3; 2] [1; 0; 0; 1; 1; 1]%Z in
  einsum (SO := list_order) true (L "ij,jk->ik") [a; b] OptOther
  = einsum (SO := list_order) true (L "ij,jk->ik") [a; b] OptTrue.
Proof.
  intros a b.
  apply (einsum_tpu_ignores_strategy (SO := list_order) (L "ij,jk->ik") [a; b]
                                     OptOther OptTrue).
  reflexivity.
Defined.

Lemma einsum_single_operand_transposes_witness :
  let m := of_elements [2; 3] [1; 2; 3; 4; 5; 6]%Z in
  einsum (SO := list_order) false (L "ij->ji") [m] OptTrue
  = ([], Ret (transpose m (map (fun a => find a (L "ij")) (L "ji")))).
Proof.
  intros m.
  apply (einsum_single_operand_transposes (SO := list_order) false (L "ij->ji") m OptTrue
                                          [Some 2; Some 3]%Z (L "ij") (L "ji")).
  - reflexivity.
  - reflexivity.
  - reflexivity.
  - repeat constructor; simpl; intuition discriminate.
  - apply perm_swap.
  - discriminate.
Defined.

Lemma fallback_checks_sizes_witness :
  let inputs := [of_elements [2; 2] [1; 2; 3; 4]%Z; of_elements [2; 2] [1; 0; 0; 1]%Z;
                 of_elements [2; 2] [5; 6; 7; 8]%Z] in
  let idx_in := [L "ij"; L "ik"; L "il"] in
  let idx_out := L "lkj" in
  let canon := sorted_labels (summed_labels idx_in idx_out) ++ idx_out in
  let ts := map (fun tl => transposed (fst tl) (snd tl) (canonical_labels canon (snd tl)))
                (combine inputs idx_in) in
  exists result,
    _exponential_space_einsum (L "ij,ik,il->lkj") inputs = Ret result /\
    exists shapes,
      mapM (fun t => s <- as_list (get_shape t) ;; Ret (map reshape_dim s)) ts
      = Ret shapes /\
      forall l s l' s' p z z',
        In (l, s) (combine idx_in shapes) -> In (l', s') (combine idx_in shapes) ->
        p < length canon ->
        nth_error (expand_spec canon l s) p = Some z ->
        nth_error (expand_spec canon l' s') p = Some z' ->
        (1 < z)%Z -> (1 < z')%Z -> z = z'.
Proof.
  intros inputs idx_in idx_out canon ts.
  destruct (_exponential_space_einsum (L "ij,ik,il->lkj") inputs) as [result|] eqn:E;
    [|vm_compute in E; discriminate].
  exists result. split; [reflexivity|].
  apply (fallback_checks_sizes dense dense_ops (L "ij,ik,il->lkj") inputs
                               idx_in idx_out result).
  - reflexivity.
  - repeat constructor; simpl; intuition discriminate.
  - exact E.
Defined.

Lemma reduction_labels_match_cost_model_witness :
  let t0 := tensor_of [2; 1; 2; 3; 1] (fun _ => 1%Z) in
  let t1 := tensor_of [2; 2; 3; 1; 2] (fun _ => 2%Z) in
  exists t l,
    _einsum_reduction t0 (L "abijk") t1 (L "acjkl")
                      (contraction_indices (L "abijk") (L "acjkl") (L "abcil"))
    = Ret (t, l) /\
    NoDup l /\ Permutation l (new_labels (L "abijk") (L "acjkl") (L "abcil")).
Proof.
  intros t0 t1.
  destruct (_einsum_reduction t0 (L "abijk") t1 (L "acjkl")
                              (contraction_indices (L "abijk") (L "acjkl") (L "abcil")))
    as [[t l]|] eqn:E; [|vm_compute in E; discriminate].
  exists t, l. split; [reflexivity|].
  apply (reduction_labels_match_cost_model t0 t1 t (L "abijk") (L "acjkl") (L "abcil") l).
  - repeat constructor; simpl; intuition discriminate.
  - repeat constructor; simpl; intuition discriminate.
  - exact E.
Defined.

(** ** The trees of the dynamic programme *)

Lemma tree_entry_tree (olabels : labels) (env : nat -> list Z * labels) (t : ctree) :
  e_tree (tree_entry olabels env t) = t.
Proof. destruct t; reflexivity. Qed.

Section DPProperty.
Variable olabels : labels.
Variable cost_limit : option Z.
Variable Q : key * entry -> Prop.
Hypothesis try_Q :
  forall xm p1 p2, Forall Q xm -> Q p1 -> Q p2 ->
                   Forall Q (dp_try olabels cost_limit xm p1 p2).

(** A property of entries that every candidate inherits from its two parts
    holds in the whole table as soon as it holds in the first row. *)
Lemma dp_level_forall (x : list dict) (m : nat) :
  (forall k, 1 <= k < m -> Forall Q (nth k x [])) ->
  Forall Q (dp_level olabels cost_limit x m).
Proof.
  intros Hx. unfold dp_level.
  apply fold_left_preserve; [|constructor].
  intros xm k Hk Hxm. apply in_seq in Hk.
  assert (2 * (m / 2) <= m) as Hdiv by (apply Nat.Div0.mul_div_le).
  apply fold_left_preserve; auto. intros xm1 p1 Hp1 Hxm1.
  apply fold_left_preserve; auto. intros xm2 p2 Hp2 Hxm2.
  apply try_Q; auto.
  - assert (Forall Q (nth (m - k) x [])) as H by (apply Hx; lia).
    rewrite Forall_forall in H. auto.
  - assert (Forall Q (nth k x [])) as H by (apply Hx; lia).
    rewrite Forall_forall in H. auto.
Qed.

Lemma dp_table_forall (row1 : dict) (n : nat) :
  Forall Q row1 -> forall k, Forall Q (nth k (dp_table olabels cost_limit row1 n) []).
Proof.
  intros Hrow. unfold dp_table.
  apply fold_left_preserve.
  - intros x m _ Hx k.
    destruct (Nat.lt_ge_cases k (length x)) as [Hk|Hk].
    + rewrite app_nth1 by exact Hk. apply Hx.
    + destruct (Nat.eq_dec k (length x)) as [->|Hne].
      * rewrite nth_middle. apply dp_level_forall. intros k' _. apply Hx.
      * rewrite nth_overflow; [constructor|]. rewrite length_app. simpl. lia.
  - intros [|[|k]]; simpl; auto. destruct k; constructor.
Qed.
End DPProperty.

Section DPTrees.
Variable olabels : labels.
Variable cost_limit : option Z.
Variable env : nat -> list Z * labels.

Lemma dp_try_consistent (xm : dict) (p1 p2 : key * entry) :
  Forall (consistent olabels env) xm ->
  consistent olabels env p1 -> consistent olabels env p2 ->
  Forall (consistent olabels env) (dp_try olabels cost_limit xm p1 p2).
Proof.
  intros Hx [E1 N1] [E2 N2]. destruct p1 as [s1 e1], p2 as [s2 e2]. unfold dp_try.
  simpl in E1, E2, N1, N2.
  destruct (disjoint s1 s2); auto.
  destruct (contraction_indices (e_labels e1) (e_labels e2) olabels) eqn:Ec; auto.
  match goal with |- context [if ?c then _ else _] => destruct c end; auto.
  apply dict_set_Forall; auto.
  unfold consistent. cbn [snd e_tree tree_entry no_outer_product].
  rewrite <- E1, <- E2. split; [reflexivity|].
  split; [exact N1|]. split; [exact N2|]. rewrite Ec. discriminate.
Qed.

Lemma row1_consistent (ds : list (list Z)) (ls : list labels) (g : list nat) :
  (forall j, j < length ds -> env (nth j g 0) = (nth j ds [], nth j ls [])) ->
  Forall (consistent olabels env) (row1_of ds ls g).
Proof.
  intros Henv. unfold row1_of. apply Forall_forall. intros p Hp.
  apply in_map_iff in Hp. destruct Hp as [j [<- Hj]]. apply in_seq in Hj.
  unfold consistent. cbn [snd e_tree tree_entry no_outer_product].
  rewrite Henv by lia. split; [reflexivity|exact I].
Qed.
End DPTrees.

(** X13.  The tree the dynamic programme returns for a component holds no
    outer product, whatever the cost ceiling: at every node the operands
    that the two subtrees stand for, with the labels the cost model gives
    them, share a label that is summed over. *)
Theorem dp_tree_has_no_outer_product
        (olabels : labels) (cost_limit : option Z) (ds : list (list Z))
        (ls : list labels) (g : list nat) (env : nat -> list Z * labels) (t : ctree) :
  length ls = length ds -> length g = length ds ->
  (forall j, j < length ds -> env (nth j g 0) = (nth j ds [], nth j ls [])) ->
  _einsum_optimize_dp_connected olabels cost_limit ds ls (Some g) = Ret t ->
  no_outer_product olabels env t.
Proof.
  intros Hls Hg Henv. unfold _einsum_optimize_dp_connected.
  rewrite (dp_row1_eq ds ls g Hls Hg). cbn [bind].
  destruct (length ds) as [|n'] eqn:En; [discriminate|]. rewrite <- En in *.
  pose proof (dp_table_forall olabels cost_limit (consistent olabels env)
                              (dp_try_consistent olabels cost_limit env)
                              (row1_of ds ls g) (length ds)
                              (row1_consistent olabels env ds ls g Henv) (length ds)) as H.
  destruct (nth (length ds) (dp_table olabels cost_limit (row1_of ds ls g) (length ds)) [])
    as [|[s e] d]; [discriminate|].
  intros Ht. inversion Ht; subst. inversion H as [|? ? [_ Hn] _]; subst. exact Hn.
Qed.

(** ** The cost of a contraction depends on the label sets only *)

Lemma select_map {A B} (f : A -> B) (l : list A) :
  forall flags, select (map f l) flags = map f (select l flags).
Proof.
  unfold select. induction l as [|a l IH]; intros [|b flags]; simpl; auto.
  destruct b; simpl; rewrite IH; reflexivity.
Qed.

Lemma filter_perm {A} (f : A -> bool) (l l' : list A) :
  Permutation l l' -> Permutation (filter f l) (filter f l').
Proof.
  induction 1 as [|a l l' P IH|a b l|l l' l'' P IH P' IH']; simpl.
  - constructor.
  - destruct (f a); auto.
  - destruct (f a), (f b); auto. apply perm_swap.
  - eapply Permutation_trans; eauto.
Qed.

Section CostModel.
Variable sz : label -> Z.

(** The cost of contracting operands with labels [l1] and [l2] whose sizes
    are given by [sz]. *)
Lemma contraction_cost_sz (l1 l2 : labels) :
  contraction_cost (map sz l1) l1 (map sz l2) l2
  = (prod (map sz l1) * prod (map sz (filter (fun a => negb (mem a l1)) l2)))%Z.
Proof.
  unfold contraction_cost, m2. rewrite select_map, select_map_filter.
  f_equal. f_equal. f_equal. apply filter_ext_in. intros a Ha. f_equal.
  apply mem_ext. rewrite in_common_indices. tauto.
Qed.

Lemma contraction_cost_perm (l1 l2 l1' l2' : labels) :
  Permutation l1 l1' -> Permutation l2 l2' ->
  contraction_cost (map sz l1) l1 (map sz l2) l2
  = contraction_cost (map sz l1') l1' (map sz l2') l2'.
Proof.
  intros P1 P2. rewrite !contraction_cost_sz.
  f_equal.
  - apply prod_perm, Permutation_map, P1.
  - apply prod_perm, Permutation_map.
    eapply Permutation_trans; [apply filter_perm, P2|].
    erewrite filter_ext; [apply Permutation_refl|].
    intros a. cbv beta. f_equal. apply mem_ext.
    split; apply Permutation_in; auto. apply Permutation_sym, P1.
Qed.

Lemma prod_split (f : label -> bool) (l : labels) :
  prod (map sz l)
  = (prod (map sz (filter f l)) * prod (map sz (filter (fun a => negb (f a)) l)))%Z.
Proof.
  rewrite <- prod_app, <- map_app. apply prod_perm, Permutation_map.
  apply Permutation_sym, filter_split_perm.
Qed.

Lemma contraction_cost_sym (l1 l2 : labels) :
  NoDup l1 -> NoDup l2 ->
  contraction_cost (map sz l1) l1 (map sz l2) l2
  = contraction_cost (map sz l2) l2 (map sz l1) l1.
Proof.
  intros N1 N2. rewrite !contraction_cost_sz.
  rewrite (prod_split (fun a => mem a l2) l1), (prod_split (fun a => mem a l1) l2).
  assert (prod (map sz (filter (fun a => mem a l2) l1))
          = prod (map sz (filter (fun a => mem a l1) l2))) as E.
  { apply prod_perm, Permutation_map. apply NoDup_Permutation.
    - apply filter_NoDup, N1.
    - apply filter_NoDup, N2.
    - intros a. rewrite !filter_In, !mem_In. tauto. }
  rewrite E. lia.
Qed.
End CostModel.

Lemma contraction_indices_nonempty (l1 l2 olabels : labels) :
  contraction_indices l1 l2 olabels <> [] <->
  exists a, In a l1 /\ In a l2 /\ ~ In a olabels.
Proof.
  split.
  - intros H. destruct (contraction_indices l1 l2 olabels) as [|a r] eqn:E; [congruence|].
    exists a. apply in_contraction_indices. rewrite E. left. reflexivity.
  - intros [a Ha] E. apply in_contraction_indices in Ha. rewrite E in Ha. destruct Ha.
Qed.

Lemma carriers_app (env : nat -> list Z * labels) (a : label) (xs ys : list nat) :
  carriers env a (xs ++ ys) = carriers env a xs + carriers env a ys.
Proof. unfold carriers. rewrite filter_app, length_app. reflexivity. Qed.

Lemma carriers_perm (env : nat -> list Z * labels) (a : label) (xs ys : list nat) :
  Permutation xs ys -> carriers env a xs = carriers env a ys.
Proof. intros P. unfold carriers. apply Permutation_length, filter_perm, P. Qed.

Section TreeLabels.
Variable olabels : labels.
Variable env : nat -> list Z * labels.
Variable sz : label -> Z.
Variable g : list nat.
Hypothesis lab_nodup : forall x, In x g -> NoDup (snd (env x)).
Hypothesis shape_sz : forall x, In x g -> fst (env x) = map sz (snd (env x)).
Hypothesis two :
  forall a xs, ~ In a olabels -> NoDup xs -> incl xs g -> carriers env a xs <= 2.

Lemma tree_labels_NoDup (t : ctree) :
  incl (leaves t) g -> NoDup (e_labels (tree_entry olabels env t)).
Proof.
  induction t as [i|a IHa b IHb]; intros Hin; cbn [tree_entry e_labels].
  - apply lab_nodup, Hin. left. reflexivity.
  - simpl in Hin. apply new_labels_NoDup.
    + apply IHa. intros x Hx. apply Hin, in_or_app. auto.
    + apply IHb. intros x Hx. apply Hin, in_or_app. auto.
Qed.

Lemma tree_shape_sz (t : ctree) :
  incl (leaves t) g ->
  e_shape (tree_entry olabels env t) = map sz (e_labels (tree_entry olabels env t)).
Proof.
  induction t as [i|a IHa b IHb]; intros Hin; cbn [tree_entry e_labels e_shape].
  - apply shape_sz, Hin. left. reflexivity.
  - simpl in Hin. unfold new_shape, new_labels.
    rewrite IHa, IHb by (intros x Hx; apply Hin, in_or_app; auto).
    rewrite !select_map, map_app. reflexivity.
Qed.

(** The labels of a tree: the output labels its operands carry, and the
    other labels that exactly one of its operands carries. *)
Lemma tree_labels_spec (t : ctree) :
  NoDup (leaves t) -> incl (leaves t) g ->
  forall a, In a (e_labels (tree_entry olabels env t)) <->
            (In a olabels /\ 1 <= carriers env a (leaves t)) \/
            (~ In a olabels /\ carriers env a (leaves t) = 1).
Proof.
  induction t as [i|t1 IH1 t2 IH2]; intros Hnd Hin a.
  - cbn [tree_entry e_labels leaves]. unfold carriers. cbn [filter].
    destruct (mem a (snd (env i))) eqn:E.
    + apply mem_In in E. cbn [length]. split; [intros _|intros _; exact E].
      destruct (in_dec ascii_dec a olabels); [left|right]; split; auto.
    + apply mem_false in E. cbn [length]. split; [tauto|]. intros [[_ H]|[_ H]]; lia.
  - cbn [tree_entry e_labels leaves] in *.
    assert (NoDup (leaves t1) /\ NoDup (leaves t2)) as [N1 N2].
    { split; [eapply NoDup_app_remove_r|eapply NoDup_app_remove_l]; eauto. }
    assert (incl (leaves t1) g /\ incl (leaves t2) g) as [I1 I2].
    { split; intros x Hx; apply Hin, in_or_app; auto. }
    rewrite in_new_labels, (IH1 N1 I1 a), (IH2 N2 I2 a), carriers_app.
    destruct (in_dec ascii_dec a olabels) as [Ho|Ho].
    + split; [|intros [[_ H]|[H _]]; [|contradiction]].
      * intros [[[[_ H]|[H _]] _]|[[[_ H]|[H _]] _]]; try contradiction; left; split; auto; lia.
      * destruct (Nat.eq_dec (carriers env a (leaves t1)) 0) as [E|E].
        -- right. split; [left; split; auto; lia|].
           intros [[_ H']|[H' _]]; [lia|contradiction].
        -- left. split; [left; split; auto; lia|]. tauto.
    + pose proof (two a (leaves t1 ++ leaves t2) Ho Hnd Hin) as H2.
      rewrite carriers_app in H2.
      split.
      * intros [[[[H _]|[_ H]] Hn]|[[[H _]|[_ H]] Hn]]; try contradiction; right; split; auto.
        -- destruct (Nat.eq_dec (carriers env a (leaves t2)) 0) as [E|E]; [lia|].
           exfalso. apply Hn. split; auto. right. split; auto. lia.
        -- destruct (Nat.eq_dec (carriers env a (leaves t1)) 0) as [E|E]; [lia|].
           exfalso. apply Hn. right. split; auto. lia.
      * intros [[H _]|[_ H]]; [contradiction|].
        destruct (Nat.eq_dec (carriers env a (leaves t1)) 1) as [E|E].
        -- left. split; [right; auto|]. intros [[[H' _]|[_ H']] _]; [contradiction|lia].
        -- right. split; [right; split; auto; lia|].
           intros [[H' _]|[_ H']]; [contradiction|lia].
Qed.

(** Trees over the same operands have the same labels, up to their order. *)
Lemma tree_labels_perm (t t' : ctree) :
  NoDup (leaves t) -> incl (leaves t) g -> Permutation (leaves t) (leaves t') ->
  Permutation (e_labels (tree_entry olabels env t)) (e_labels (tree_entry olabels env t')).
Proof.
  intros Hnd Hin P.
  assert (NoDup (leaves t')) as Hnd' by (eapply Permutation_NoDup; eauto).
  assert (incl (leaves t') g) as Hin'.
  { intros x Hx. apply Hin. eapply Permutation_in; [apply Permutation_sym, P|exact Hx]. }
  apply NoDup_Permutation; try (apply tree_labels_NoDup; assumption).
  intros a. rewrite (tree_labels_spec t Hnd Hin a), (tree_labels_spec t' Hnd' Hin' a).
  rewrite (carriers_perm env a _ _ P). tauto.
Qed.
End TreeLabels.

(** ** The dynamic programme keeps the cheapest candidate *)

Lemma dict_set_lookup_ne (d : dict) (s s' : key) (e : entry) :
  s <> s' -> lookup s (dict_set d s' e) = lookup s d.
Proof.
  intros Hne. induction d as [|[s0 e0] d IH]; simpl.
  - destruct (key_eqb s s') eqn:E; auto. apply key_eqb_eq in E. contradiction.
  - destruct (key_eqb s' s0) eqn:E0; simpl.
    + apply key_eqb_eq in E0. subst s0.
      destruct (key_eqb s s') eqn:E; auto. apply key_eqb_eq in E. contradiction.
    + rewrite IH. reflexivity.
Qed.

Lemma min_limit_le (c : Z) (cost_limit : option Z) : (min_limit c cost_limit <= c)%Z.
Proof. destruct cost_limit; simpl; lia. Qed.

(** An entry is only ever replaced by a cheaper one. *)
Lemma dp_try_bound_keeps (olabels : labels) (cost_limit : option Z)
      (xm : dict) (p1 p2 : key * entry) (s : key) (c : Z) :
  (exists e, lookup s xm = Some e /\ (e_cost e <= c)%Z) ->
  exists e, lookup s (dp_try olabels cost_limit xm p1 p2) = Some e /\ (e_cost e <= c)%Z.
Proof.
  intros [e [El Hc]]. destruct p1 as [s1 e1], p2 as [s2 e2]. unfold dp_try.
  destruct (disjoint s1 s2); eauto.
  destruct (contraction_indices _ _ _); eauto.
  destruct (list_eq_dec Nat.eq_dec s (union s1 s2)) as [->|Hne].
  - rewrite El.
    match goal with |- context [if ?c then _ else _] => destruct c eqn:Ec end; eauto.
    rewrite dict_set_lookup. eexists. split; [reflexivity|]. cbn [e_cost].
    apply Z.ltb_lt in Ec. pose proof (min_limit_le (e_cost e) cost_limit). lia.
  - match goal with |- context [if ?c then _ else _] => destruct c end; eauto.
    rewrite dict_set_lookup_ne by exact Hne. eauto.
Qed.

(** Without a cost ceiling, a candidate that contracts some label leaves an
    entry for its operands that costs no more than it. *)
Lemma dp_try_bound_new (olabels : labels) (xm : dict) (s1 s2 : key) (e1 e2 : entry) :
  disjoint s1 s2 = true ->
  contraction_indices (e_labels e1) (e_labels e2) olabels <> [] ->
  exists e, lookup (union s1 s2) (dp_try olabels None xm (s1, e1) (s2, e2)) = Some e /\
            (e_cost e <= contraction_cost (e_shape e1) (e_labels e1)
                                          (e_shape e2) (e_labels e2)
                         + e_cost e1 + e_cost e2)%Z.
Proof.
  intros Hd Hc. unfold dp_try. rewrite Hd.
  destruct (contraction_indices (e_labels e1) (e_labels e2) olabels); [congruence|].
  destruct (lookup (union s1 s2) xm) as [old|] eqn:El.
  - cbn [min_limit].
    match goal with |- context [if ?c then _ else _] => destruct c eqn:Ec end.
    + rewrite dict_set_lookup. eexists. split; [reflexivity|]. cbn [e_cost]. lia.
    + rewrite El. eexists. split; [reflexivity|]. apply Z.ltb_ge in Ec. lia.
  - rewrite dict_set_lookup. eexists. split; [reflexivity|]. cbn [e_cost]. lia.
Qed.

Lemma NoDup_map_inj {A B} (f : A -> B) (l : list A) :
  (forall x y, In x l -> In y l -> f x = f y -> x = y) -> NoDup l -> NoDup (map f l).
Proof.
  intros Hinj. induction 1 as [|a l Ha Hnd IH]; simpl; constructor.
  - intros Hin. apply in_map_iff in Hin. destruct Hin as [y [E Hy]].
    apply Hinj in E; [subst; contradiction|right; auto|left; auto].
  - apply IH. intros x y Hx Hy. apply Hinj; right; auto.
Qed.

Lemma single_leaf (u : ctree) (x : nat) : Permutation (leaves u) [x] -> u = Leaf x.
Proof.
  intros P. destruct u as [i|a b].
  - simpl in P. apply Permutation_length_1 in P. congruence.
  - apply Permutation_length in P. simpl in P. rewrite length_app in P.
    pose proof (leaves_nodes a). pose proof (leaves_nodes b). lia.
Qed.

Section DPOptimal.
Variable olabels : labels.
Variable ds : list (list Z).
Variable ls : list labels.
Variable g : list nat.
Variable env : nat -> list Z * labels.
Variable sz : label -> Z.
Hypothesis len_ls : length ls = length ds.
Hypothesis len_g : length g = length ds.
Hypothesis env_g :
  forall j, j < length ds -> env (nth j g 0) = (nth j ds [], nth j ls []).
Hypothesis g_nodup : NoDup g.
Hypothesis ls_nodup : forall j, j < length ds -> NoDup (nth j ls []).
Hypothesis ds_sz : forall j, j < length ds -> nth j ds [] = map sz (nth j ls []).
Hypothesis Htwo : at_most_two ls olabels.

Lemma position_in (x : nat) : In x g -> exists j, j < length ds /\ nth j g 0 = x.
Proof.
  intros H. destruct (In_nth g x 0 H) as [j [Hj E]]. exists j. split; [lia|exact E].
Qed.

Lemma nth_g_inj (i j : nat) :
  i < length ds -> j < length ds -> nth i g 0 = nth j g 0 -> i = j.
Proof.
  intros Hi Hj E. apply (proj1 (NoDup_nth g 0) g_nodup); auto; lia.
Qed.

Lemma lab_nodup_g (x : nat) : In x g -> NoDup (snd (env x)).
Proof.
  intros H. destruct (position_in x H) as [j [Hj <-]]. rewrite env_g by exact Hj.
  apply ls_nodup, Hj.
Qed.

Lemma shape_sz_g (x : nat) : In x g -> fst (env x) = map sz (snd (env x)).
Proof.
  intros H. destruct (position_in x H) as [j [Hj <-]]. rewrite env_g by exact Hj.
  apply ds_sz, Hj.
Qed.

(** A label that is summed over is carried by at most two operands. *)
Lemma two_g (a : label) (xs : list nat) :
  ~ In a olabels -> NoDup xs -> incl xs g -> carriers env a xs <= 2.
Proof.
  intros Ha Hnd Hin. unfold carriers.
  pose proof (filter_NoDup (fun x => mem a (snd (env x))) xs Hnd) as Hf.
  assert (forall x, In x (filter (fun x => mem a (snd (env x))) xs) ->
                    exists j, j < length ls /\ nth j g 0 = x /\ In a (nth j ls [])) as Hx.
  { intros x Hx. apply filter_In in Hx. destruct Hx as [Hx Hm].
    destruct (position_in x (Hin x Hx)) as [j [Hj E]].
    exists j. split; [lia|]. split; [exact E|].
    apply mem_In in Hm. rewrite <- E, env_g in Hm by exact Hj. exact Hm. }
  destruct (filter _ xs) as [|x1 [|x2 [|x3 r]]]; simpl; try lia.
  exfalso.
  destruct (Hx x1) as [j1 [H1 [E1 A1]]]; [simpl; auto|].
  destruct (Hx x2) as [j2 [H2 [E2 A2]]]; [simpl; auto|].
  destruct (Hx x3) as [j3 [H3 [E3 A3]]]; [simpl; auto|].
  inversion Hf as [|? ? N1 Hf']; subst. inversion Hf' as [|? ? N2 Hf'']; subst.
  apply (at_most_two_distinct ls olabels a j1 j2 j3 Htwo Ha); auto.
  - intros ->. apply N1. left. reflexivity.
  - intros ->. apply N2. left. reflexivity.
  - intros ->. apply N1. right. left. reflexivity.
Qed.

Lemma row1_lookup (j : nat) :
  j < length ds ->
  lookup [j] (row1_of ds ls g)
  = Some (mkEntry (nth j ds []) (nth j ls []) 0%Z (Leaf (nth j g 0))).
Proof.
  intros Hj.
  pose proof (In_lookup _ _ _ (row1_entry ds ls g len_ls len_g j Hj)) as Hn.
  destruct (lookup [j] (row1_of ds ls g)) as [e|] eqn:El; [|congruence].
  apply lookup_In in El. unfold row1_of in El. apply in_map_iff in El.
  destruct El as [j' [E _]]. inversion E; subst. reflexivity.
Qed.

Lemma row1_covers : covers olabels env g 1 (row1_of ds ls g).
Proof.
  intros u s Hno Hs Hlen Hrange P.
  destruct s as [|j [|j' s]]; try discriminate.
  simpl in P. apply single_leaf in P. subst u.
  assert (j < length ds) as Hj by (rewrite <- len_g; apply Hrange; left; reflexivity).
  rewrite (row1_lookup j Hj). eexists. split; [reflexivity|].
  cbn [tree_entry e_cost]. lia.
Qed.

(** The keys of the two children of a tree whose operands have the key [s]. *)
Lemma split_key (a b : ctree) (s : key) :
  StronglySorted lt s -> (forall j, In j s -> j < length g) ->
  Permutation (leaves a ++ leaves b) (map (fun j => nth j g 0) s) ->
  let sa := filter (fun j => mem_nat (nth j g 0) (leaves a)) s in
  let sb := filter (fun j => mem_nat (nth j g 0) (leaves b)) s in
  Permutation (leaves a) (map (fun j => nth j g 0) sa) /\
  Permutation (leaves b) (map (fun j => nth j g 0) sb) /\
  disjoint sa sb = true /\ union sa sb = s /\ union sb sa = s.
Proof.
  intros Hs Hrange P sa sb.
  assert (NoDup s) as Hnds by (apply sorted_NoDup, Hs).
  assert (forall i j, In i s -> In j s -> nth i g 0 = nth j g 0 -> i = j) as Hinj.
  { intros i j Hi Hj. apply nth_g_inj; rewrite <- len_g; auto. }
  assert (NoDup (map (fun j => nth j g 0) s)) as Hndm by (apply NoDup_map_inj; auto).
  assert (NoDup (leaves a ++ leaves b)) as Hnd.
  { eapply Permutation_NoDup; [apply Permutation_sym, P|exact Hndm]. }
  assert (forall j, In j s -> In (nth j g 0) (leaves a) \/ In (nth j g 0) (leaves b)) as Hcov.
  { intros j Hj. apply in_app_or. eapply Permutation_in; [apply Permutation_sym, P|].
    exact (in_map (fun j => nth j g 0) s j Hj). }
  assert (forall t (st : key),
             st = filter (fun j => mem_nat (nth j g 0) (leaves t)) s ->
             NoDup (leaves t) -> incl (leaves t) (leaves a ++ leaves b) ->
             Permutation (leaves t) (map (fun j => nth j g 0) st)) as Hpart.
  { intros t st -> Hndt Hsub. apply NoDup_Permutation; auto.
    - apply NoDup_map_inj.
      + intros i j Hi Hj. apply filter_In in Hi, Hj. apply Hinj; tauto.
      + apply filter_NoDup, Hnds.
    - intros x. rewrite in_map_iff. split.
      + intros Hx. assert (In x (map (fun j => nth j g 0) s)) as Hm.
        { eapply Permutation_in; [exact P|]. apply Hsub, Hx. }
        apply in_map_iff in Hm. destruct Hm as [j [E Hj]]. exists j. split; auto.
        apply filter_In. split; auto. apply mem_nat_In. rewrite E. exact Hx.
      + intros [j [E Hj]]. apply filter_In in Hj. destruct Hj as [_ Hj].
        apply mem_nat_In in Hj. rewrite E in Hj. exact Hj. }
  assert (forall j, In j sa -> ~ In j sb) as Hdis.
  { intros j Ha Hb. apply filter_In in Ha, Hb.
    destruct Ha as [_ Ha], Hb as [_ Hb]. apply mem_nat_In in Ha, Hb.
    apply (NoDup_app_disjoint _ _ Hnd (nth j g 0) Ha Hb). }
  split; [apply (Hpart a sa eq_refl)|split; [apply (Hpart b sb eq_refl)|]].
  - eapply NoDup_app_remove_r; eauto.
  - intros x Hx. apply in_or_app. auto.
  - eapply NoDup_app_remove_l; eauto.
  - intros x Hx. apply in_or_app. auto.
  - split; [apply disjoint_spec; exact Hdis|].
    split; apply sorted_same_elements; auto;
      try (apply union_sorted, strongly_sorted_filter, Hs);
      intros x; rewrite in_union; unfold sa, sb; rewrite !filter_In, !mem_nat_In;
      (split; [tauto|]); intros Hx; destruct (Hcov x Hx); tauto.
Qed.

(** What an entry of a good and consistent level is, compared with a tree
    over the operands of its key. *)
Lemma entry_of_tree (k : nat) (d : dict) (sk : key) (e : entry) (t : ctree) :
  good_dict ls g k d -> Forall (consistent olabels env) d ->
  lookup sk d = Some e ->
  (forall j, In j sk -> j < length g) ->
  Permutation (leaves t) (map (fun j => nth j g 0) sk) ->
  e_shape e = map sz (e_labels e) /\
  e_shape (tree_entry olabels env t) = map sz (e_labels (tree_entry olabels env t)) /\
  NoDup (e_labels e) /\
  Permutation (e_labels e) (e_labels (tree_entry olabels env t)).
Proof.
  intros Hg Hc El Hrange P. apply lookup_In in El.
  unfold good_dict in Hg. rewrite Forall_forall in Hg, Hc.
  destruct (Hg _ El) as [S [_ [_ [T _]]]]. destruct (Hc _ El) as [E _].
  cbn [fst snd] in *.
  assert (incl (map (fun j => nth j g 0) sk) g) as Hin.
  { intros x Hx. apply in_map_iff in Hx. destruct Hx as [j [<- Hj]].
    apply nth_In, Hrange, Hj. }
  assert (NoDup (map (fun j => nth j g 0) sk)) as Hnd.
  { apply NoDup_map_inj; [|apply sorted_NoDup, S].
    intros i j Hi Hj. apply nth_g_inj; rewrite <- len_g; auto. }
  assert (incl (leaves (e_tree e)) g) as I1.
  { intros x Hx. apply Hin. eapply Permutation_in; [exact T|exact Hx]. }
  assert (NoDup (leaves (e_tree e))) as N1.
  { eapply Permutation_NoDup; [apply Permutation_sym, T|exact Hnd]. }
  assert (incl (leaves t) g) as I2.
  { intros x Hx. apply Hin. eapply Permutation_in; [exact P|exact Hx]. }
  rewrite E.
  split; [apply (tree_shape_sz olabels env sz g shape_sz_g), I1|].
  split; [apply (tree_shape_sz olabels env sz g shape_sz_g), I2|].
  split; [apply (tree_labels_NoDup olabels env g lab_nodup_g), I1|].
  apply (tree_labels_perm olabels env g lab_nodup_g two_g); auto.
  eapply Permutation_trans; [exact T|apply Permutation_sym, P].
Qed.

(** Level [m] from the levels below it. *)
Lemma dp_level_covers (x : list dict) (m : nat) :
  2 <= m <= length ds ->
  (forall k, 1 <= k < m ->
             good_dict ls g k (nth k x []) /\
             Forall (consistent olabels env) (nth k x []) /\
             covers olabels env g k (nth k x [])) ->
  covers olabels env g m (dp_level olabels None x m).
Proof.
  intros Hm Hx u s Hno Hs Hlen Hrange P.
  destruct u as [i|a b].
  { apply Permutation_length in P. simpl in P. rewrite length_map in P. lia. }
  cbn [leaves] in P. destruct Hno as [Hna [Hnb Hc]].
  destruct (split_key a b s Hs Hrange P) as [Pa [Pb [Hd [Eu Eu']]]].
  set (sa := filter (fun j => mem_nat (nth j g 0) (leaves a)) s) in *.
  set (sb := filter (fun j => mem_nat (nth j g 0) (leaves b)) s) in *.
  assert (length sa = length (leaves a)) as La
      by (apply Permutation_length in Pa; rewrite length_map in Pa; lia).
  assert (length sb = length (leaves b)) as Lb
      by (apply Permutation_length in Pb; rewrite length_map in Pb; lia).
  assert (length sa + length sb = m) as Lm.
  { apply Permutation_length in P. rewrite length_app, length_map in P. lia. }
  pose proof (leaves_nodes a) as Lna. pose proof (leaves_nodes b) as Lnb.
  assert (StronglySorted lt sa /\ StronglySorted lt sb) as [Ssa Ssb]
      by (split; apply strongly_sorted_filter, Hs).
  assert ((forall j, In j sa -> j < length g) /\ (forall j, In j sb -> j < length g))
    as [Ra Rb] by (split; intros j Hj; apply filter_In in Hj; apply Hrange; tauto).
  destruct (Hx (length sa)) as [Ga [Ca Va]]; [lia|].
  destruct (Hx (length sb)) as [Gb [Cb Vb]]; [lia|].
  destruct (Va a sa Hna Ssa eq_refl Ra Pa) as [ea [Ela Hca]].
  destruct (Vb b sb Hnb Ssb eq_refl Rb Pb) as [eb [Elb Hcb]].
  destruct (entry_of_tree _ _ sa ea a Ga Ca Ela Ra Pa) as [Sha [Sha' [Nda Pla]]].
  destruct (entry_of_tree _ _ sb eb b Gb Cb Elb Rb Pb) as [Shb [Shb' [Ndb Plb]]].
  set (C := e_cost (tree_entry olabels env (Node a b))).
  assert (contraction_cost (e_shape ea) (e_labels ea) (e_shape eb) (e_labels eb)
          + e_cost ea + e_cost eb <= C)%Z as Hab.
  { unfold C. cbn [tree_entry e_cost]. rewrite Sha, Shb, Sha', Shb'.
    rewrite (contraction_cost_perm sz _ _ _ _ Pla Plb). lia. }
  assert (contraction_cost (e_shape eb) (e_labels eb) (e_shape ea) (e_labels ea)
          + e_cost eb + e_cost ea <= C)%Z as Hba.
  { rewrite Sha, Shb in *. rewrite (contraction_cost_sym sz _ _ Ndb Nda). lia. }
  assert (exists l, In l (e_labels ea) /\ In l (e_labels eb) /\ ~ In l olabels) as Hne.
  { apply contraction_indices_nonempty in Hc. destruct Hc as [l [H1 [H2 H3]]].
    exists l. split; [|split; auto].
    - eapply Permutation_in; [apply Permutation_sym, Pla|exact H1].
    - eapply Permutation_in; [apply Permutation_sym, Plb|exact H2]. }
  assert (forall xm p1 p2,
             (exists e, lookup s xm = Some e /\ (e_cost e <= C)%Z) ->
             exists e, lookup s (dp_try olabels None xm p1 p2) = Some e /\
                       (e_cost e <= C)%Z) as Hkeep
      by (intros xm p1 p2; apply dp_try_bound_keeps).
  assert (forall k xm,
             (exists e, lookup s xm = Some e /\ (e_cost e <= C)%Z) ->
             exists e,
               lookup s (fold_left
                           (fun xm p1 =>
                              fold_left (fun xm p2 => dp_try olabels None xm p1 p2)
                                        (nth k x []) xm)
                           (nth (m - k) x []) xm) = Some e /\
               (e_cost e <= C)%Z) as Hkeep2.
  { intros k xm Hq.
    apply (fold_left_preserve
             (fun xm => exists e, lookup s xm = Some e /\ (e_cost e <= C)%Z)); auto.
    intros xm1 p1 _ Hq1.
    apply (fold_left_preserve
             (fun xm => exists e, lookup s xm = Some e /\ (e_cost e <= C)%Z)); auto. }
  assert (2 * (m / 2) <= m) as Hdiv by (apply Nat.Div0.mul_div_le).
  assert (m < 2 * (m / 2) + 2) as Hdiv'.
  { pose proof (Nat.div_mod_eq m 2). pose proof (Nat.mod_upper_bound m 2). lia. }
  unfold dp_level.
  destruct (Nat.le_gt_cases (length sb) (m / 2)) as [Hk|Hk].
  - apply (fold_left_establish
             (fun xm => exists e, lookup s xm = Some e /\ (e_cost e <= C)%Z))
      with (x0 := length sb).
    + intros xm k Hq. apply Hkeep2, Hq.
    + apply in_seq. lia.
    + intros xm. replace (m - length sb) with (length sa) by lia.
      apply (fold_left_establish
               (fun xm => exists e, lookup s xm = Some e /\ (e_cost e <= C)%Z))
        with (x0 := (sa, ea)).
      * intros xm1 p1 Hq1.
        apply (fold_left_preserve
                 (fun xm => exists e, lookup s xm = Some e /\ (e_cost e <= C)%Z)); auto.
      * apply lookup_In, Ela.
      * intros xm1.
        apply (fold_left_establish
                 (fun xm => exists e, lookup s xm = Some e /\ (e_cost e <= C)%Z))
          with (x0 := (sb, eb)).
        -- intros xm2 p2 Hq2. apply Hkeep, Hq2.
        -- apply lookup_In, Elb.
        -- intros xm2.
           destruct (dp_try_bound_new olabels xm2 sa sb ea eb Hd) as [e [El Hle]].
           ++ apply contraction_indices_nonempty. exact Hne.
           ++ rewrite Eu in El. exists e. split; [exact El|lia].
  - apply (fold_left_establish
             (fun xm => exists e, lookup s xm = Some e /\ (e_cost e <= C)%Z))
      with (x0 := length sa).
    + intros xm k Hq. apply Hkeep2, Hq.
    + apply in_seq. lia.
    + intros xm. replace (m - length sa) with (length sb) by lia.
      apply (fold_left_establish
               (fun xm => exists e, lookup s xm = Some e /\ (e_cost e <= C)%Z))
        with (x0 := (sb, eb)).
      * intros xm1 p1 Hq1.
        apply (fold_left_preserve
                 (fun xm => exists e, lookup s xm = Some e /\ (e_cost e <= C)%Z)); auto.
      * apply lookup_In, Elb.
      * intros xm1.
        apply (fold_left_establish
                 (fun xm => exists e, lookup s xm = Some e /\ (e_cost e <= C)%Z))
          with (x0 := (sa, ea)).
        -- intros xm2 p2 Hq2. apply Hkeep, Hq2.
        -- apply lookup_In, Ela.
        -- intros xm2.
           assert (disjoint sb sa = true) as Hd'.
           { apply disjoint_spec. intros j Hb Ha.
             apply (proj1 (disjoint_spec sa sb) Hd j Ha Hb). }
           destruct (dp_try_bound_new olabels xm2 sb sa eb ea Hd') as [e [El Hle]].
           ++ apply contraction_indices_nonempty.
              destruct Hne as [l [H1 [H2 H3]]]. exists l. auto.
           ++ rewrite Eu' in El. exists e. split; [exact El|lia].
Qed.

(** The table while its levels are added. *)
Lemma dp_table_covers (c : nat) :
  forall a x,
    2 <= a -> length x = a -> a + c <= S (length ds) ->
    (forall k, 1 <= k < a ->
               good_dict ls g k (nth k x []) /\
               Forall (consistent olabels env) (nth k x []) /\
               covers olabels env g k (nth k x [])) ->
    forall k, 1 <= k < a + c ->
              good_dict ls g k
                        (nth k (fold_left (fun x m => x ++ [dp_level olabels None x m])
                                          (seq a c) x) []) /\
              Forall (consistent olabels env)
                     (nth k (fold_left (fun x m => x ++ [dp_level olabels None x m])
                                       (seq a c) x) []) /\
              covers olabels env g k
                     (nth k (fold_left (fun x m => x ++ [dp_level olabels None x m])
                                       (seq a c) x) []).
Proof.
  induction c as [|c IH]; intros a x Ha Hl Hb Hok k Hk; cbn [seq fold_left].
  - apply Hok. lia.
  - apply (IH (S a) (x ++ [dp_level olabels None x a])); try lia.
    + rewrite length_app. simpl. lia.
    + intros k' Hk'. destruct (Nat.eq_dec k' a) as [->|Hne].
      * pose proof (nth_middle x [] (dp_level olabels None x a) []) as Hmid.
        rewrite Hl in Hmid.
        match goal with
        | |- context [nth a ?l ?d] =>
            replace (nth a l d) with (dp_level olabels None x a)
              by (symmetry; exact Hmid)
        end.
        split; [|split].
        -- apply (dp_level_good ds ls g olabels None len_ls len_g).
           intros j Hj. apply Hok, Hj.
        -- apply (dp_level_forall olabels None (consistent olabels env)
                                   (dp_try_consistent olabels None env)).
           intros j Hj. apply Hok, Hj.
        -- apply dp_level_covers; [lia|exact Hok].
      * rewrite app_nth1 by lia. apply Hok. lia.
Qed.

(** The dynamic programme of one component returns a cheapest tree. *)
Lemma dp_connected_cheapest (t t' : ctree) :
  _einsum_optimize_dp_connected olabels None ds ls (Some g) = Ret t ->
  Permutation (leaves t') g -> no_outer_product olabels env t' ->
  Permutation (leaves t) g /\ no_outer_product olabels env t /\
  (e_cost (tree_entry olabels env t) <= e_cost (tree_entry olabels env t'))%Z.
Proof.
  unfold _einsum_optimize_dp_connected.
  rewrite (dp_row1_eq ds ls g len_ls len_g). cbn [bind].
  destruct (Nat.eq_dec (length ds) 0) as [E0|E0]; [rewrite E0; discriminate|].
  assert (1 <= length ds) as Hn by lia.
  replace (match length ds with
           | 0 => Raise AttributeError
           | S _ =>
               match nth (length ds) (dp_table olabels None (row1_of ds ls g) (length ds)) []
               with
               | [] => Raise IndexError
               | (_, e) :: _ => Ret (e_tree e)
               end
           end)
    with (match nth (length ds) (dp_table olabels None (row1_of ds ls g) (length ds)) []
          with
          | [] => Raise IndexError
          | (_, e) :: _ => Ret (e_tree e)
          end)
    by (destruct (length ds); [lia|reflexivity]).
  unfold dp_table. intros Ht P' Hno'.
  destruct (dp_table_covers (length ds - 1) 2 [[]; row1_of ds ls g]) with (k := length ds)
    as [Hgood [Hcons Hcov]]; try lia; try reflexivity.
  - intros k Hk. assert (k = 1) as -> by lia. cbn [nth].
    split; [apply row1_good; auto|].
    split; [apply row1_consistent; exact env_g|apply row1_covers].
  - match type of Ht with
    | match ?tbl with _ => _ end = _ => destruct tbl as [|[s e] d] eqn:Ed
    end; [discriminate|].
    inversion Ht; subst t. clear Ht.
    unfold good_dict in Hgood. inversion Hgood as [|? ? Hge _]; subst.
    inversion Hcons as [|? ? [Hce Hcn] _]; subst.
    destruct Hge as [S [N [B [T _]]]]. cbn [fst snd] in *.
    assert (s = seq 0 (length ds)) as ->.
    { apply sorted_full; auto. intros y Hy. rewrite <- len_ls. auto. }
    assert (map (fun j => nth j g 0) (seq 0 (length ds)) = g) as Eg
        by (rewrite <- len_g; apply map_nth_seq).
    rewrite Eg in T.
    split; [exact T|]. split; [exact Hcn|].
    assert (forall j, In j (seq 0 (length ds)) -> j < length g) as Hr
        by (intros j Hj; apply in_seq in Hj; lia).
    assert (Permutation (leaves t') (map (fun j => nth j g 0) (seq 0 (length ds)))) as Pt
        by (rewrite Eg; exact P').
    destruct (Hcov t' (seq 0 (length ds)) Hno' (seq_sorted 0 _) (length_seq _ _) Hr Pt)
      as [e' [El Hle]].
    cbn [lookup] in El.
    replace (key_eqb (seq 0 (length ds)) (seq 0 (length ds))) with true in El
      by (symmetry; apply key_eqb_eq; reflexivity).
    inversion El; subst e'. rewrite <- Hce. exact Hle.
Qed.
End DPOptimal.

(** ** The costs of the trees stay below the number of operands times the
       product of all the sizes *)

Lemma volume_app (s s' : list (list Z)) : volume (s ++ s') = (volume s * volume s')%Z.
Proof.
  unfold volume. induction s as [|d s IH]; cbn [app fold_right]; [lia|].
  rewrite IH. lia.
Qed.

Lemma leaves_nonempty (t : ctree) : 1 <= length (leaves t).
Proof.
  induction t as [i|a IHa b IHb]; cbn [leaves length]; [lia|].
  rewrite length_app. lia.
Qed.

Lemma tree_entry_bound (olabels : labels) (env : nat -> list Z * labels) (u : ctree) :
  (forall i, In i (leaves u) -> Forall (fun x => (1 <= x)%Z) (fst (env i))) ->
  Forall (fun x => (1 <= x)%Z) (e_shape (tree_entry olabels env u)) /\
  (prod (e_shape (tree_entry olabels env u)) <= leaves_volume env u)%Z /\
  (0 <= e_cost (tree_entry olabels env u)
   <= (Z.of_nat (length (leaves u)) - 1) * leaves_volume env u)%Z.
Proof.
  unfold leaves_volume.
  induction u as [i|a IHa b IHb]; intros Hpos; cbn [tree_entry leaves e_shape e_cost].
  - assert (Hi : Forall (fun x => (1 <= x)%Z) (fst (env i))) by (apply Hpos; left; reflexivity).
    cbn [map volume fold_right length]. pose proof (prod_pos _ Hi).
    repeat split; auto; lia.
  - destruct IHa as [Pa [Sa [Ca0 Ca]]]; [intros i Hi; apply Hpos, in_or_app; auto|].
    destruct IHb as [Pb [Sb [Cb0 Cb]]]; [intros i Hi; apply Hpos, in_or_app; auto|].
    pose proof (leaves_nonempty a) as Na. pose proof (leaves_nonempty b) as Nb.
    rewrite map_app, volume_app, length_app, Nat2Z.inj_add.
    set (ea := tree_entry olabels env a) in *. set (eb := tree_entry olabels env b) in *.
    set (Va := volume (map _ (leaves a))) in *. set (Vb := volume (map _ (leaves b))) in *.
    pose proof (prod_pos _ Pa) as pa. pose proof (prod_pos _ Pb) as pb.
    pose proof (prod_select_le _ (m1 (e_labels ea) (e_labels eb) olabels) Pa) as s1.
    pose proof (prod_select_le _ (m2 (e_labels ea) (e_labels eb)) Pb) as s2.
    pose proof (prod_pos _ (select_Forall _ _ (m1 (e_labels ea) (e_labels eb) olabels) Pa))
      as q1.
    pose proof (prod_pos _ (select_Forall _ _ (m2 (e_labels ea) (e_labels eb)) Pb)) as q2.
    assert (HV : (prod (e_shape ea) * prod (e_shape eb) <= Va * Vb)%Z)
      by (apply Z.mul_le_mono_nonneg; lia).
    split; [|split; [|split]].
    + unfold new_shape. apply Forall_app. split; apply select_Forall; assumption.
    + unfold new_shape. rewrite prod_app.
      apply Z.le_trans with (prod (e_shape ea) * prod (e_shape eb))%Z; [|exact HV].
      apply Z.mul_le_mono_nonneg; lia.
    + unfold contraction_cost. nia.
    + unfold contraction_cost.
      set (c := prod (select (e_shape eb) _)) in *.
      assert (prod (e_shape ea) * c <= Va * Vb)%Z.
      { apply Z.le_trans with (prod (e_shape ea) * prod (e_shape eb))%Z; [|exact HV].
        apply Z.mul_le_mono_nonneg_l; lia. }
      assert (e_cost ea <= (Z.of_nat (length (leaves a)) - 1) * (Va * Vb))%Z.
      { apply Z.le_trans with ((Z.of_nat (length (leaves a)) - 1) * Va)%Z; [exact Ca|].
        apply Z.mul_le_mono_nonneg_l; [lia|nia]. }
      assert (e_cost eb <= (Z.of_nat (length (leaves b)) - 1) * (Va * Vb))%Z.
      { apply Z.le_trans with ((Z.of_nat (length (leaves b)) - 1) * Vb)%Z; [exact Cb|].
        apply Z.mul_le_mono_nonneg_l; [lia|nia]. }
      lia.
Qed.

(** The operands of a part weigh no more than those of the whole. *)
Lemma volume_incl (w : nat -> list Z) (l : list nat) :
  forall g, NoDup l -> incl l g ->
            (forall i, In i g -> Forall (fun x => (1 <= x)%Z) (w i)) ->
            (1 <= volume (map w l) <= volume (map w g))%Z.
Proof.
  induction l as [|a l IH]; intros g Hnd Hin Hpos.
  - cbn [map volume fold_right]. split; [lia|].
    apply volume_pos. unfold positive_sizes. rewrite Forall_map, Forall_forall. exact Hpos.
  - inversion Hnd as [|? ? Ha Hl]; subst.
    destruct (in_split a g (Hin a (or_introl eq_refl))) as [g1 [g2 ->]].
    assert (P : Permutation (g1 ++ a :: g2) (a :: g1 ++ g2))
      by (symmetry; apply Permutation_middle).
    rewrite (volume_perm _ _ (Permutation_map w P)).
    cbn [map volume fold_right]. fold (volume (map w l)). fold (volume (map w (g1 ++ g2))).
    destruct (IH (g1 ++ g2) Hl) as [L1 L2].
    + intros x Hx. assert (In x (g1 ++ a :: g2)) as H by (apply Hin; right; exact Hx).
      apply in_app_or in H. apply in_or_app.
      destruct H as [H|[H|H]]; auto. subst x. contradiction.
    + intros i Hi. apply Hpos. apply in_app_or in Hi. apply in_or_app.
      destruct Hi; [left|right; right]; assumption.
    + assert (1 <= prod (w a))%Z
        by (apply prod_pos, Hpos, in_or_app; right; left; reflexivity).
      split; [nia|]. apply Z.mul_le_mono_nonneg_l; lia.
Qed.

(** Every tree over operands of the component costs less than the number of
    operands times the product of all the sizes. *)
Lemma tree_cost_below (olabels : labels) (ds : list (list Z)) (ls : list labels)
      (g : list nat) (env : nat -> list Z * labels) (u : ctree) :
  length g = length ds ->
  (forall j, j < length ds -> env (nth j g 0) = (nth j ds [], nth j ls [])) ->
  positive_sizes ds ->
  NoDup (leaves u) -> incl (leaves u) g ->
  (0 <= e_cost (tree_entry olabels env u) < Z.of_nat (length ds) * volume ds)%Z.
Proof.
  intros Hg Henv Hpos Hnd Hin.
  assert (Eds : map (fun i => fst (env i)) g = ds).
  { apply nth_ext with (d := fst (env 0)) (d' := []); [rewrite length_map; exact Hg|].
    intros j Hj. rewrite length_map in Hj.
    rewrite (map_nth (fun i => fst (env i)) g 0 j), Henv by lia. reflexivity. }
  assert (Hw : forall i, In i g -> Forall (fun x => (1 <= x)%Z) (fst (env i))).
  { intros i Hi. destruct (In_nth g i 0 Hi) as [j [Hj <-]].
    rewrite Henv by lia. apply nth_Forall; [exact Hpos|constructor]. }
  destruct (tree_entry_bound olabels env u) as [_ [_ [C0 C]]];
    [intros i Hi; apply Hw, Hin, Hi|].
  destruct (volume_incl (fun i => fst (env i)) (leaves u) g Hnd Hin Hw) as [V1 V2].
  rewrite Eds in V2. unfold leaves_volume in C.
  pose proof (NoDup_incl_length Hnd Hin) as Hlen. rewrite Hg in Hlen.
  pose proof (leaves_nonempty u) as Hne.
  split; [exact C0|].
  set (V := volume (map _ (leaves u))) in *.
  assert ((Z.of_nat (length (leaves u)) - 1) * V <= (Z.of_nat (length ds) - 1) * volume ds)%Z
    by (apply Z.mul_le_mono_nonneg; lia).
  nia.
Qed.

(** X14.  Without a cost ceiling the dynamic programme of a component is
    optimal.  Let no operand repeat a label, let the sizes of the axes be
    given by their labels, and let no label that is summed over occur in
    more than two operands.  Let the sizes be positive, and the number of
    operands times the product of all the sizes of all the operands be below
    2^31.  Then the cost of every tree over distinct operands of the
    component -- the sum over its nodes of the product of the sizes of all
    the axes of the first operand of the node and of the axes that only the
    second has -- is an integer of [0, 2^31), which [np.prod] and the sums of
    lines 695-697 compute exactly; the tree that is returned contracts
    exactly the operands of the component, has no outer product, and its
    cost is not greater than the cost of any tree without outer product over
    the same operands. *)
Theorem dp_connected_returns_cheapest_tree
        (olabels : labels) (ds : list (list Z)) (ls : list labels) (g : list nat)
        (env : nat -> list Z * labels) (sz : label -> Z) (t t' : ctree) :
  length ls = length ds -> length g = length ds ->
  (forall j, j < length ds -> env (nth j g 0) = (nth j ds [], nth j ls [])) ->
  NoDup g ->
  (forall j, j < length ds -> NoDup (nth j ls [])) ->
  (forall j, j < length ds -> nth j ds [] = map sz (nth j ls [])) ->
  at_most_two ls olabels ->
  positive_sizes ds ->
  (Z.of_nat (length ds) * volume ds < exact_bound)%Z ->
  _einsum_optimize_dp_connected olabels None ds ls (Some g) = Ret t ->
  Permutation (leaves t') g -> no_outer_product olabels env t' ->
  (forall u, NoDup (leaves u) -> incl (leaves u) g ->
             (0 <= e_cost (tree_entry olabels env u) < exact_bound)%Z) /\
  Permutation (leaves t) g /\ no_outer_product olabels env t /\
  (e_cost (tree_entry olabels env t) <= e_cost (tree_entry olabels env t'))%Z.
Proof.
  intros Hls Hg Henv Hnd Hlab Hsz Htwo Hpos Hvol Ht P' Hno'. split.
  - intros u Hu Hin.
    pose proof (tree_cost_below olabels ds ls g env u Hg Henv Hpos Hu Hin). lia.
  - apply (dp_connected_cheapest olabels ds ls g env sz Hls Hg Henv Hnd Hlab Hsz Htwo t t');
      assumption.
Qed.

Lemma dp_tree_has_no_outer_product_witness :
  no_outer_product (L "il") chain_env (Node (Node (Leaf 0) (Leaf 1)) (Leaf 2)).
Proof.
  apply (dp_tree_has_no_outer_product
           (L "il") (Some 1%Z) [[2; 3]; [3; 4]; [4; 5]]%Z [L "ij"; L "jk"; L "kl"]
           [0; 1; 2] chain_env).
  - reflexivity.
  - reflexivity.
  - intros j Hj. destruct j as [|[|[|j]]]; try reflexivity. simpl in Hj. lia.
  - vm_compute. reflexivity.
Defined.

Lemma dp_connected_returns_cheapest_tree_witness :
  let t := Node (Node (Leaf 0) (Leaf 1)) (Leaf 2) in
  let t' := Node (Leaf 0) (Node (Leaf 1) (Leaf 2)) in
  (forall u, NoDup (leaves u) -> incl (leaves u) [0; 1; 2] ->
             (0 <= e_cost (tree_entry (L "il") chain_env u) < exact_bound)%Z) /\
  Permutation (leaves t) [0; 1; 2] /\ no_outer_product (L "il") chain_env t /\
  (e_cost (tree_entry (L "il") chain_env t) <= e_cost (tree_entry (L "il") chain_env t'))%Z.
Proof.
  apply (dp_connected_returns_cheapest_tree
           (L "il") [[2; 3]; [3; 4]; [4; 5]]%Z [L "ij"; L "jk"; L "kl"]
           [0; 1; 2] chain_env chain_sizes).
  - reflexivity.
  - reflexivity.
  - intros j Hj. destruct j as [|[|[|j]]]; try reflexivity. simpl in Hj. lia.
  - repeat constructor; simpl; intuition lia.
  - intros j Hj. destruct j as [|[|[|j]]]; [| | |simpl in Hj; lia];
      repeat constructor; simpl; intuition discriminate.
  - intros j Hj. destruct j as [|[|[|j]]]; try reflexivity. simpl in Hj. lia.
  - exact chain_at_most_two.
  - repeat constructor; lia.
  - vm_compute. reflexivity.
  - vm_compute. reflexivity.
  - apply Permutation_refl.
  - simpl. repeat split; vm_compute; discriminate.
Defined.

(** ** The elements a pairwise reduction computes *)

(** ** Row-major positions *)

Lemma in_range_length (shape idx : list nat) :
  in_range shape idx -> length idx = length shape.
Proof. apply Forall2_length. Qed.

Lemma ravel_fold (s : list nat) :
  forall idx acc,
    length idx = length s ->
    fold_left (fun acc di => acc * fst di + snd di) (combine s idx) acc
    = acc * size_of s + ravel s idx.
Proof.
  unfold ravel. induction s as [|n s IH]; intros [|i idx] acc H; simpl in H; try lia.
  - simpl. lia.
  - cbn [combine fold_left fst snd size_of fold_right].
    rewrite (IH idx (acc * n + i)), (IH idx (0 * n + i)) by lia.
    fold (size_of s). lia.
Qed.

Lemma ravel_cons (n i : nat) (s idx : list nat) :
  length idx = length s -> ravel (n :: s) (i :: idx) = i * size_of s + ravel s idx.
Proof.
  intros H. unfold ravel at 1. cbn [combine fold_left fst snd].
  rewrite ravel_fold by exact H. lia.
Qed.

Lemma size_of_app (s1 s2 : list nat) : size_of (s1 ++ s2) = size_of s1 * size_of s2.
Proof.
  unfold size_of. induction s1 as [|a s1 IH]; cbn [app fold_right]; [lia|].
  rewrite IH. lia.
Qed.

Lemma ravel_app (s1 s2 idx1 idx2 : list nat) :
  length idx1 = length s1 -> length idx2 = length s2 ->
  ravel (s1 ++ s2) (idx1 ++ idx2) = ravel s1 idx1 * size_of s2 + ravel s2 idx2.
Proof.
  revert idx1. induction s1 as [|n s1 IH]; intros [|i idx1] H1 H2; simpl in H1; try lia.
  - cbn [app]. change (ravel [] []) with 0. lia.
  - cbn [app]. rewrite !ravel_cons by (rewrite ?length_app; lia).
    rewrite IH by lia. rewrite size_of_app. lia.
Qed.

Lemma ravel_lt (s idx : list nat) : in_range s idx -> ravel s idx < size_of s.
Proof.
  intros H. induction H as [|i n idx s Hi H IH].
  - unfold ravel. simpl. lia.
  - rewrite ravel_cons by (apply in_range_length, H). simpl. nia.
Qed.

Lemma unravel_ravel (s idx : list nat) : in_range s idx -> unravel s (ravel s idx) = idx.
Proof.
  intros H. induction H as [|i n idx s Hi H IH].
  - reflexivity.
  - rewrite ravel_cons by (apply in_range_length, H).
    pose proof (ravel_lt s idx H) as Hlt.
    cbn [unravel]. f_equal.
    + rewrite Nat.div_add_l by lia. rewrite Nat.div_small by exact Hlt. lia.
    + rewrite Nat.add_comm, Nat.Div0.mod_add, Nat.mod_small by exact Hlt. exact IH.
Qed.

Lemma unravel_in_range (s : list nat) :
  forall k, k < size_of s -> in_range s (unravel s k) /\ ravel s (unravel s k) = k.
Proof.
  induction s as [|n s IH]; intros k Hk.
  - simpl in Hk. assert (k = 0) as -> by lia. split; [constructor|reflexivity].
  - simpl in Hk. cbn [unravel].
    assert (0 < size_of s) as Hpos by nia.
    destruct (IH (k mod size_of s)) as [R E]; [apply Nat.mod_upper_bound; lia|].
    split.
    + constructor; auto. apply Nat.Div0.div_lt_upper_bound. lia.
    + rewrite ravel_cons by (apply in_range_length, R). rewrite E.
      pose proof (Nat.div_mod_eq k (size_of s)). lia.
Qed.

(** ** Finite sums *)

Lemma sum_to_S (n : nat) (f : nat -> Z) : sum_to (S n) f = (sum_to n f + f n)%Z.
Proof.
  unfold sum_to. rewrite seq_S, map_app, fold_right_app. simpl.
  generalize (map f (seq 0 n)). intros l.
  induction l as [|a l IH]; simpl; [lia|]. rewrite IH. lia.
Qed.

Lemma sum_to_ext (n : nat) (f h : nat -> Z) :
  (forall x, x < n -> f x = h x) -> sum_to n f = sum_to n h.
Proof.
  intros H. induction n as [|n IH]; [reflexivity|].
  rewrite !sum_to_S, IH, H by (auto; intros; apply H; lia). reflexivity.
Qed.

Lemma sum_to_zero (n : nat) : sum_to n (fun _ => 0%Z) = 0%Z.
Proof. induction n as [|n IH]; [reflexivity|]. rewrite sum_to_S, IH. reflexivity. Qed.

Lemma sum_to_add (n : nat) (f h : nat -> Z) :
  sum_to n (fun x => (f x + h x)%Z) = (sum_to n f + sum_to n h)%Z.
Proof. induction n as [|n IH]; [reflexivity|]. rewrite !sum_to_S, IH. lia. Qed.

Lemma sum_to_scale_l (n : nat) (c : Z) (f : nat -> Z) :
  sum_to n (fun x => (c * f x)%Z) = (c * sum_to n f)%Z.
Proof. induction n as [|n IH]; [simpl; unfold sum_to; simpl; lia|]. rewrite !sum_to_S, IH. lia. Qed.

Lemma sum_to_scale_r (n : nat) (c : Z) (f : nat -> Z) :
  sum_to n (fun x => (f x * c)%Z) = (sum_to n f * c)%Z.
Proof. induction n as [|n IH]; [simpl; unfold sum_to; simpl; lia|]. rewrite !sum_to_S, IH. lia. Qed.

Lemma sum_to_swap (n m : nat) (f : nat -> nat -> Z) :
  sum_to n (fun x => sum_to m (fun y => f x y))
  = sum_to m (fun y => sum_to n (fun x => f x y)).
Proof.
  induction n as [|n IH].
  - unfold sum_to at 1. simpl. symmetry.
    rewrite (sum_to_ext m _ (fun _ => 0%Z)) by reflexivity. apply sum_to_zero.
  - rewrite sum_to_S, IH, <- sum_to_add. apply sum_to_ext. intros y _.
    rewrite sum_to_S. reflexivity.
Qed.

(** A sum over [n * m] positions, block by block. *)
Lemma sum_to_mul (n m : nat) (f : nat -> Z) :
  sum_to (n * m) f = sum_to n (fun i => sum_to m (fun j => f (i * m + j))).
Proof.
  induction n as [|n IH]; [reflexivity|].
  rewrite sum_to_S, <- IH. simpl Nat.mul.
  replace (m + n * m) with (n * m + m) by lia.
  generalize (n * m). intros base. clear IH.
  induction m as [|m IHm].
  - rewrite Nat.add_0_r. unfold sum_to at 3. simpl. lia.
  - rewrite Nat.add_succ_r, !sum_to_S, IHm. lia.
Qed.

Lemma sum_to_unravel (s : list nat) :
  forall f, sum_to (size_of s) (fun k => f (unravel s k)) = sum_idx s f.
Proof.
  induction s as [|n s IH]; intros f.
  - unfold sum_to. simpl. lia.
  - cbn [size_of fold_right sum_idx]. fold (size_of s). rewrite sum_to_mul.
    apply sum_to_ext. intros i Hi.
    rewrite <- (IH (fun idx => f (i :: idx))).
    apply sum_to_ext. intros j Hj. cbn [unravel]. f_equal. f_equal.
    + rewrite Nat.div_add_l by lia. rewrite Nat.div_small by exact Hj. lia.
    + f_equal. rewrite Nat.add_comm, Nat.Div0.mod_add, Nat.mod_small by exact Hj.
      reflexivity.
Qed.


(** ** The primitives on dense tensors *)

Lemma find_from_spec (a : label) (s : labels) :
  forall i, In a s ->
            (i <= find_from a s i)%Z /\
            nth_error s (Z.to_nat (find_from a s i - i)) = Some a.
Proof.
  induction s as [|c s IH]; intros i Hin; [destruct Hin|].
  cbn [find_from]. destruct (Ascii.eqb c a) eqn:E.
  - apply Ascii.eqb_eq in E. subst. rewrite Z.sub_diag. split; [lia|reflexivity].
  - apply Ascii.eqb_neq in E. destruct Hin as [Hin|Hin]; [contradiction|].
    destruct (IH (i + 1)%Z Hin) as [Hle Hn]. split; [lia|].
    replace (Z.to_nat (find_from a s (i + 1) - i)) with
        (S (Z.to_nat (find_from a s (i + 1) - (i + 1)))) by lia.
    exact Hn.
Qed.

(** [s.find(a)] is a position of [a]. *)
Lemma find_nth (a : label) (s : labels) :
  In a s -> nth_error s (Z.to_nat (find a s)) = Some a.
Proof.
  intros H. destruct (find_from_spec a s 0%Z H) as [_ Hn].
  rewrite Z.sub_0_r in Hn. exact Hn.
Qed.

Lemma find_lt (a : label) (s : labels) : In a s -> Z.to_nat (find a s) < length s.
Proof. intros H. apply nth_error_Some. rewrite (find_nth a s H). discriminate. Qed.

Lemma find_inj (a b : label) (s : labels) :
  In a s -> In b s -> Z.to_nat (find a s) = Z.to_nat (find b s) -> a = b.
Proof.
  intros Ha Hb E. pose proof (find_nth a s Ha) as H1. pose proof (find_nth b s Hb) as H2.
  rewrite E in H1. congruence.
Qed.

Lemma find_nth_NoDup (s : labels) (i : nat) (a : label) :
  NoDup s -> nth_error s i = Some a -> Z.to_nat (find a s) = i.
Proof.
  intros Hnd Hi.
  assert (In a s) as Ha by (eapply nth_error_In; eauto).
  apply (proj1 (NoDup_nth_error s) Hnd).
  - apply find_lt, Ha.
  - rewrite Hi. apply find_nth, Ha.
Qed.

(** Reading at the position of [g a] in [map g l'] gives the value at [a]. *)
Lemma nth_position (g : label -> nat) (sigma : label -> nat) (l' : labels) (a : label) :
  (forall x y, In x l' -> In y l' -> g x = g y -> x = y) ->
  In a l' ->
  nth (position (g a) (map g l')) (map sigma l') 0 = sigma a.
Proof.
  intros Hinj. induction l' as [|b r IH]; intros Ha; [destruct Ha|].
  cbn [map position]. destruct (g a =? g b) eqn:E.
  - apply Nat.eqb_eq in E. apply Hinj in E; [subst; reflexivity|exact Ha|left; reflexivity].
  - apply Nat.eqb_neq in E. destruct Ha as [->|Ha]; [congruence|].
    cbn [nth]. apply IH; auto. intros x y Hx Hy. apply Hinj; right; auto.
Qed.

(** Transposing by the positions of the labels [l'] in [l] gives the same
    elements, the axes labelled [l']. *)
Lemma transpose_den (t : dense) (l l' : labels) (sz : label -> nat) :
  operand sz t l -> Permutation l l' ->
  operand sz (d_transpose t (map (fun a => find a l) l')) l' /\
  forall sigma, den (d_transpose t (map (fun a => find a l) l')) l' sigma = den t l sigma.
Proof.
  intros [Hnd [Hshape Hk]] P.
  assert (forall a, In a l' -> In a l) as Hin
      by (intros a Ha; eapply Permutation_in; [apply Permutation_sym, P|exact Ha]).
  unfold d_transpose. rewrite map_map. split.
  - split; [eapply Permutation_NoDup; eauto|]. split; [|reflexivity].
    cbn [dshape tensor_of]. rewrite Hshape. rewrite map_map.
    apply map_ext_in. intros a Ha.
    rewrite (nth_indep _ 0 (sz a)) by (rewrite length_map; apply find_lt, Hin, Ha).
    rewrite map_nth. f_equal.
    apply nth_error_nth. apply find_nth, Hin, Ha.
  - intros sigma. unfold den. cbn [dval tensor_of]. f_equal.
    rewrite Hshape, length_map.
    transitivity (map (fun i => sigma (nth i l ch_space)) (seq 0 (length l))).
    + apply map_ext_in. intros i Hi. apply in_seq in Hi.
      assert (nth_error l i = Some (nth i l ch_space)) as Hn
          by (apply nth_error_nth'; lia).
      assert (In (nth i l ch_space) l') as Hi'.
      { eapply Permutation_in; [exact P|]. apply nth_In. lia. }
      rewrite <- (find_nth_NoDup l i _ Hnd Hn) at 1. rewrite ?map_map.
      apply (nth_position (fun a => Z.to_nat (find a l)) sigma l' _); auto.
      intros x y Hx Hy. apply find_inj; auto.
    + rewrite <- (map_map (fun i => nth i l ch_space) sigma). f_equal. apply map_nth_seq.
Qed.

Lemma known_dims (t : dense) (ds : list nat) :
  forall k,
    map (fun id : nat * dim => match snd id with
                               | Some z => DInt z
                               | None => DTensor (shape_at t (fst id))
                               end)
        (combine (seq k (length ds)) (map (fun d => Some (Z.of_nat d)) ds))
    = map dint ds.
Proof.
  induction ds as [|d ds IH]; intros k; simpl; auto. rewrite IH. reflexivity.
Qed.

Lemma get_shape_known (t : dense) :
  known t -> _get_shape t = Ret (map dint (dshape t)).
Proof.
  intros Hk. unfold _get_shape. cbn [get_shape dense_ops]. rewrite Hk.
  cbn [static_of as_list bind]. f_equal. rewrite length_map. apply known_dims.
Qed.

Lemma fold_mul_of_nat (s : list nat) (acc : nat) :
  fold_left Z.mul (map Z.of_nat s) (Z.of_nat acc) = Z.of_nat (acc * size_of s).
Proof.
  revert acc. induction s as [|n s IH]; intros acc; cbn [map fold_left size_of fold_right].
  - f_equal. lia.
  - rewrite <- Nat2Z.inj_mul, IH. fold (size_of s). f_equal. lia.
Qed.

Lemma total_size_known (s : list nat) :
  _total_size (map dint s) = dint (size_of s).
Proof.
  unfold dint. rewrite <- (map_map Z.of_nat (@DInt dense)).
  unfold _total_size. rewrite total_size_ints.
  change 1%Z with (Z.of_nat 1). rewrite fold_mul_of_nat. f_equal. f_equal. lia.
Qed.

Lemma requested_known (t : dense) (shape' : list nat) :
  d_requested t (map dint shape') = shape'.
Proof.
  unfold d_requested. rewrite !map_map.
  rewrite <- (map_id shape') at 2. apply map_ext. intros n. unfold dint.
  destruct (Z.of_nat n =? -1)%Z eqn:E; [apply Z.eqb_eq in E; lia|]. apply Nat2Z.id.
Qed.

Lemma compatible_known (cur new : list nat) :
  length new = length cur ->
  forallb (fun p => dim_compatible (fst p) (snd p))
          (combine (map (fun d => Some (Z.of_nat d)) cur) (map dint new)) = true ->
  new = cur.
Proof.
  revert new. induction cur as [|c cur IH]; intros [|n new] Hl H; simpl in Hl; try lia; auto.
  cbn [map combine forallb fst snd] in H. apply andb_true_iff in H. destruct H as [H1 H2].
  f_equal; [|apply IH; auto].
  unfold dim_compatible, dint in H1. apply orb_true_iff in H1. destruct H1 as [H1|H1].
  - apply Z.eqb_eq in H1. lia.
  - apply Z.eqb_eq in H1. lia.
Qed.

(** [_reshape_if_necessary] to a shape of known sizes: the elements are
    those of the argument in row-major order. *)
Lemma reshape_if_necessary_sem (t : dense) (shape' : list nat) :
  known t ->
  exists r, _reshape_if_necessary t (map dint shape') = Ret r /\
            known r /\ dshape r = shape' /\
            forall idx, in_range shape' idx ->
                        dval r idx = dval t (unravel (dshape t) (ravel shape' idx)).
Proof.
  intros Hk. unfold _reshape_if_necessary. cbn [get_shape dense_ops]. rewrite Hk.
  cbn [static_of]. rewrite !length_map.
  destruct (length shape' =? length (dshape t)) eqn:El; cbn [andb].
  - apply Nat.eqb_eq in El.
    match goal with |- context [forallb ?f ?c] => destruct (forallb f c) eqn:Ef end.
    + apply compatible_known in Ef; [|exact El]. subst shape'.
      exists t. split; [reflexivity|]. split; [exact Hk|]. split; [reflexivity|].
      intros idx Hidx. rewrite unravel_ravel by exact Hidx. reflexivity.
    + eexists. split; [reflexivity|]. cbn [reshape dense_ops]. unfold d_reshape.
      rewrite requested_known. split; [reflexivity|]. split; [reflexivity|].
      intros idx _. reflexivity.
  - eexists. split; [reflexivity|]. cbn [reshape dense_ops]. unfold d_reshape.
    rewrite requested_known. split; [reflexivity|]. split; [reflexivity|].
    intros idx _. reflexivity.
Qed.

(** The batched matrix product. *)
Lemma matmul_sem (a b : dense) (P : list nat) (m k n : nat) :
  dshape a = P ++ [m; k] -> dshape b = P ++ [k; n] ->
  dshape (d_matmul a b) = P ++ [m; n] /\ known (d_matmul a b) /\
  forall p i j,
    length p = length P ->
    dval (d_matmul a b) (p ++ [i; j])
    = sum_to k (fun x => (dval a (p ++ [i; x]) * dval b (p ++ [x; j]))%Z).
Proof.
  intros Ha Hb. unfold d_matmul. rewrite Ha, Hb. rewrite !length_app. cbn [length].
  replace (length P + 2 - 2) with (length P) by lia.
  replace (length P + 2 - 1) with (S (length P)) by lia.
  rewrite firstn_app, firstn_all, Nat.sub_diag. cbn [firstn]. rewrite app_nil_r.
  rewrite !app_nth2 by lia.
  rewrite Nat.sub_diag. replace (S (length P) - length P) with 1 by lia. cbn [nth].
  split; [reflexivity|]. split; [reflexivity|].
  intros p i j Hp. cbn [dval tensor_of].
  rewrite <- Hp. rewrite firstn_app, firstn_all, Nat.sub_diag. cbn [firstn].
  rewrite app_nil_r. rewrite !app_nth2 by lia.
  rewrite Nat.sub_diag. replace (S (length p) - length p) with 1 by lia. cbn [nth].
  reflexivity.
Qed.

(** ** Assignments of positions to labels *)

Lemma upd_same (sigma : label -> nat) (a : label) (x : nat) : upd sigma a x a = x.
Proof. unfold upd. rewrite Ascii.eqb_refl. reflexivity. Qed.

Lemma upd_other (sigma : label -> nat) (a b : label) (x : nat) :
  b <> a -> upd sigma a x b = sigma b.
Proof. intros H. unfold upd. apply Ascii.eqb_neq in H. rewrite H. reflexivity. Qed.

Lemma upds_notin (ls : labels) :
  forall sigma idx b, ~ In b ls -> upds sigma ls idx b = sigma b.
Proof.
  induction ls as [|a ls IH]; intros sigma [|x idx] b Hb; cbn [upds]; auto.
  rewrite IH by (intros H; apply Hb; right; exact H).
  apply upd_other. intros ->. apply Hb. left. reflexivity.
Qed.

Lemma upds_map (ls : labels) :
  forall sigma idx, NoDup ls -> length idx = length ls -> map (upds sigma ls idx) ls = idx.
Proof.
  induction ls as [|a ls IH]; intros sigma [|x idx] Hnd Hl; simpl in Hl; try lia; auto.
  inversion Hnd as [|? ? Ha Hnd']; subst. cbn [map upds]. f_equal.
  - rewrite upds_notin by exact Ha. apply upd_same.
  - apply IH; auto.
Qed.

Lemma map_notin (sigma : label -> nat) (ls l : labels) (idx : list nat) :
  (forall b, In b l -> ~ In b ls) -> map (upds sigma ls idx) l = map sigma l.
Proof. intros H. apply map_ext_in. intros b Hb. apply upds_notin, H, Hb. Qed.

(** A sum over the indices of the axes [ls] is a sum over assignments. *)
Lemma sum_idx_labels (sz : label -> nat) (ls : labels) :
  forall f sigma,
    sum_idx (map sz ls) (fun idx => f (upds sigma ls idx)) = sum_labels sz ls f sigma.
Proof.
  induction ls as [|a ls IH]; intros f sigma; cbn [map sum_idx sum_labels upds].
  - reflexivity.
  - apply sum_to_ext. intros x _. apply IH.
Qed.

Lemma in_range_map (sz : label -> nat) (sigma : label -> nat) (l : labels) :
  (forall a, In a l -> sigma a < sz a) -> in_range (map sz l) (map sigma l).
Proof.
  intros H. induction l as [|a l IH]; constructor.
  - apply H. left. reflexivity.
  - apply IH. intros b Hb. apply H. right. exact Hb.
Qed.

Lemma in_range_app (s1 s2 i1 i2 : list nat) :
  in_range s1 i1 -> in_range s2 i2 -> in_range (s1 ++ s2) (i1 ++ i2).
Proof. apply Forall2_app. Qed.

(** ** The axes of a pairwise reduction *)

Lemma sorted_labels_In (s : labels) (a : label) : In a (sorted_labels s) <-> In a s.
Proof.
  split; apply Permutation_in; [|symmetry]; apply sorted_labels_perm.
Qed.

Lemma summed_class0 (l0 l1 axes : labels) :
  NoDup l0 -> NoDup axes -> (forall a, In a axes -> In a l0 /\ In a l1) ->
  sorted_labels (filter (fun a => sort_class (preserved_of l0 l1 axes)
                                    (broadcast_of l0 l0 l1 axes) axes 0 a =? 2) l0)
  = sorted_labels axes.
Proof.
  intros H0 Hax Hsub. apply sorted_labels_ext; auto.
  - apply NoDup_filter, H0.
  - intros a. rewrite filter_In. unfold sort_class. split.
    + intros [Ha Hc].
      destruct (mem a (preserved_of l0 l1 axes)) eqn:Ep; [discriminate|].
      destruct (mem a (broadcast_of l0 l0 l1 axes)) eqn:Eb; [discriminate|].
      apply mem_false in Ep, Eb. rewrite in_preserved in Ep. rewrite in_b0 in Eb.
      destruct (in_dec ascii_dec a axes) as [|Hn]; auto.
      destruct (in_dec ascii_dec a l1); [exfalso; apply Ep | exfalso; apply Eb]; auto.
    + intros Ha. split; [apply Hsub, Ha|].
      assert (Ep : mem a (preserved_of l0 l1 axes) = false).
      { apply mem_false. rewrite in_preserved. tauto. }
      assert (Eb : mem a (broadcast_of l0 l0 l1 axes) = false).
      { apply mem_false. rewrite in_b0. tauto. }
      rewrite Ep, Eb. reflexivity.
Qed.

Lemma summed_class1 (l0 l1 axes : labels) :
  NoDup l1 -> NoDup axes -> (forall a, In a axes -> In a l0 /\ In a l1) ->
  sorted_labels (filter (fun a => sort_class (preserved_of l0 l1 axes)
                                    (broadcast_of l0 l0 l1 axes) axes 1 a =? 1) l1)
  = sorted_labels axes.
Proof.
  intros H1 Hax Hsub. apply sorted_labels_ext; auto.
  - apply NoDup_filter, H1.
  - intros a. rewrite filter_In. unfold sort_class. split.
    + intros [Ha Hc].
      destruct (mem a (preserved_of l0 l1 axes)) eqn:Ep; [discriminate|].
      simpl in Hc. destruct (mem a axes) eqn:Ex; [|discriminate].
      apply mem_In, Ex.
    + intros Ha. split; [apply Hsub, Ha|].
      assert (Ep : mem a (preserved_of l0 l1 axes) = false).
      { apply mem_false. rewrite in_preserved. tauto. }
      assert (Ex : mem a axes = true) by (apply mem_In, Ha).
      rewrite Ep. simpl. rewrite Ex. reflexivity.
Qed.

(** ** Grouping axes by reshaping *)

Lemma ravel_pair (a b x y : nat) : ravel [a; b] [x; y] = x * b + y.
Proof. unfold ravel. simpl. lia. Qed.

Lemma size_of_pair (a b : nat) : size_of [a; b] = a * b.
Proof. unfold size_of. simpl. lia. Qed.

Lemma ravel_group (s1 s2 s3 i1 i2 i3 : list nat) :
  in_range s1 i1 -> in_range s2 i2 -> in_range s3 i3 ->
  ravel (s1 ++ [size_of s2; size_of s3]) (i1 ++ [ravel s2 i2; ravel s3 i3])
  = ravel (s1 ++ s2 ++ s3) (i1 ++ i2 ++ i3).
Proof.
  intros H1 H2 H3.
  pose proof (in_range_length _ _ H1). pose proof (in_range_length _ _ H2).
  pose proof (in_range_length _ _ H3).
  rewrite !ravel_app by (rewrite ?length_app; simpl; lia).
  rewrite ravel_pair, size_of_pair, size_of_app. reflexivity.
Qed.

Lemma in_range_group (s1 s2 s3 i1 i2 i3 : list nat) :
  in_range s1 i1 -> in_range s2 i2 -> in_range s3 i3 ->
  in_range (s1 ++ [size_of s2; size_of s3]) (i1 ++ [ravel s2 i2; ravel s3 i3]).
Proof.
  intros H1 H2 H3. apply in_range_app; auto.
  constructor; [apply ravel_lt, H2|]. constructor; [apply ravel_lt, H3|]. constructor.
Qed.

(** Reading a tensor whose last axes were grouped in two. *)
Lemma grouped_read (t r : dense) (s1 s2 s3 i1 i2 i3 : list nat) :
  dshape t = s1 ++ s2 ++ s3 ->
  (forall idx, in_range (s1 ++ [size_of s2; size_of s3]) idx ->
               dval r idx = dval t (unravel (dshape t)
                                      (ravel (s1 ++ [size_of s2; size_of s3]) idx))) ->
  in_range s1 i1 -> in_range s2 i2 -> in_range s3 i3 ->
  dval r (i1 ++ [ravel s2 i2; ravel s3 i3]) = dval t (i1 ++ i2 ++ i3).
Proof.
  intros Hs Hr H1 H2 H3.
  rewrite Hr by (apply in_range_group; auto).
  rewrite ravel_group, Hs by auto.
  rewrite unravel_ravel; [reflexivity|].
  apply in_range_app; auto. apply in_range_app; auto.
Qed.

(** Reading the result of ungrouping. *)
Lemma ungrouped_read (t r : dense) (s1 s2 s3 i1 i2 i3 : list nat) :
  dshape t = s1 ++ [size_of s2; size_of s3] ->
  (forall idx, in_range (s1 ++ s2 ++ s3) idx ->
               dval r idx = dval t (unravel (dshape t) (ravel (s1 ++ s2 ++ s3) idx))) ->
  in_range s1 i1 -> in_range s2 i2 -> in_range s3 i3 ->
  dval r (i1 ++ i2 ++ i3) = dval t (i1 ++ [ravel s2 i2; ravel s3 i3]).
Proof.
  intros Hs Hr H1 H2 H3.
  rewrite Hr by (apply in_range_app; auto; apply in_range_app; auto).
  rewrite <- ravel_group, Hs by auto.
  rewrite unravel_ravel; [reflexivity|]. apply in_range_group; auto.
Qed.

Lemma slice_middle {A} (a b c : list A) (n m : nat) :
  n = length a -> m = length c ->
  slice (a ++ b ++ c) n (length (a ++ b ++ c) - m) = b.
Proof.
  intros -> ->. unfold slice. rewrite skipn_exact by reflexivity.
  rewrite !length_app. apply firstn_exact. lia.
Qed.

Lemma skipn_last {A} (a b c : list A) (m : nat) :
  m = length c -> skipn (length (a ++ b ++ c) - m) (a ++ b ++ c) = c.
Proof.
  intros ->. rewrite app_assoc. apply skipn_exact. rewrite !length_app. lia.
Qed.

Lemma skipn_two {A} (a b c : list A) (n m : nat) :
  n = length a -> m = length b -> skipn (n + m) (a ++ b ++ c) = c.
Proof.
  intros -> ->. rewrite app_assoc. apply skipn_exact. rewrite length_app. reflexivity.
Qed.

Lemma firstn_two {A} (a b c : list A) (n m : nat) :
  n = length a -> m = length b -> firstn (n + m) (a ++ b ++ c) = a ++ b.
Proof.
  intros -> ->. rewrite app_assoc. apply firstn_exact. rewrite length_app. reflexivity.
Qed.

Lemma operand_shape (sz : label -> nat) (t : dense) (l : labels) :
  operand sz t l -> as_list (get_shape t) = Ret (map (fun d => Some (Z.of_nat d)) (map sz l)).
Proof. intros (_ & Hs & Hk). cbn [get_shape dense_ops]. rewrite Hk, Hs. reflexivity. Qed.

Lemma sorted0_perm (l0 l1 axes : labels) :
  NoDup l0 -> NoDup axes -> (forall a, In a axes -> In a l0 /\ In a l1) ->
  sorted_by (key_le (sort_class (preserved_of l0 l1 axes) (broadcast_of l0 l0 l1 axes) axes 0)) l0
  = sorted_labels (preserved_of l0 l1 axes) ++ sorted_labels (broadcast_of l0 l0 l1 axes)
    ++ sorted_labels axes.
Proof. intros. rewrite sorted_axes0, summed_class0 by auto. reflexivity. Qed.

Lemma sorted1_perm (l0 l1 axes : labels) :
  NoDup l1 -> NoDup axes -> (forall a, In a axes -> In a l0 /\ In a l1) ->
  sorted_by (key_le (sort_class (preserved_of l0 l1 axes) (broadcast_of l0 l0 l1 axes) axes 1)) l1
  = sorted_labels (preserved_of l0 l1 axes) ++ sorted_labels axes
    ++ sorted_labels (broadcast_of l1 l0 l1 axes).
Proof. intros. rewrite sorted_axes1, summed_class1 by auto. reflexivity. Qed.

Lemma reduced_labels_NoDup (l0 l1 axes : labels) : NoDup (reduced_labels l0 l1 axes).
Proof.
  unfold reduced_labels.
  apply NoDup_app; [apply sorted_labels_NoDup, preserved_NoDup| |].
  - apply NoDup_app; [apply sorted_labels_NoDup, b0_NoDup
                     |apply sorted_labels_NoDup, b1_NoDup|].
    intros a Ha Hb. rewrite sorted_labels_In in Ha, Hb.
    rewrite in_b0 in Ha. rewrite in_b1 in Hb. tauto.
  - intros a Ha Hb. rewrite sorted_labels_In in Ha. rewrite in_app_iff in Hb.
    rewrite !sorted_labels_In in Hb. rewrite in_preserved in Ha.
    rewrite in_b0, in_b1 in Hb. tauto.
Qed.

Lemma perm_sorted0 (l0 l1 axes : labels) :
  NoDup l0 -> NoDup axes -> (forall a, In a axes -> In a l0 /\ In a l1) ->
  Permutation l0 (sorted_labels (preserved_of l0 l1 axes)
                  ++ sorted_labels (broadcast_of l0 l0 l1 axes) ++ sorted_labels axes).
Proof.
  intros. rewrite <- sorted0_perm by auto. symmetry. apply sorted_by_perm.
Qed.

Lemma perm_sorted1 (l0 l1 axes : labels) :
  NoDup l1 -> NoDup axes -> (forall a, In a axes -> In a l0 /\ In a l1) ->
  Permutation l1 (sorted_labels (preserved_of l0 l1 axes)
                  ++ sorted_labels axes ++ sorted_labels (broadcast_of l1 l0 l1 axes)).
Proof.
  intros. rewrite <- sorted1_perm by auto. symmetry. apply sorted_by_perm.
Qed.

(** The matrix-product branch: the result holds, at every position of its
    axes, the sum over the summed axes of the products of the operands'
    elements. *)
Lemma reduction_matmul_sem (sz : label -> nat) (t0 t1 : dense) (l0 l1 axes : labels) :
  operand sz t0 l0 -> operand sz t1 l1 -> NoDup axes -> axes <> [] ->
  (forall a, In a axes -> In a l0 /\ In a l1) ->
  exists t,
    _einsum_reduction t0 l0 t1 l1 axes = Ret (t, reduced_labels l0 l1 axes)
    /\ operand sz t (reduced_labels l0 l1 axes)
    /\ forall sigma,
        (forall a, In a (reduced_labels l0 l1 axes) -> sigma a < sz a) ->
        den t (reduced_labels l0 l1 axes) sigma
        = sum_labels sz (sorted_labels axes) (pair_product t0 l0 t1 l1) sigma.
Proof.
  intros Op0 Op1 Hnd Hne Hsub.
  pose proof Op0 as (N0 & Hs0 & K0). pose proof Op1 as (N1 & Hs1 & K1).
  set (P := sorted_labels (preserved_of l0 l1 axes)).
  set (B0 := sorted_labels (broadcast_of l0 l0 l1 axes)).
  set (B1 := sorted_labels (broadcast_of l1 l0 l1 axes)).
  set (S := sorted_labels axes).
  destruct (transpose_den t0 l0 (P ++ B0 ++ S) sz Op0 (perm_sorted0 l0 l1 axes N0 Hnd Hsub))
    as [Op0' D0].
  destruct (transpose_den t1 l1 (P ++ S ++ B1) sz Op1 (perm_sorted1 l0 l1 axes N1 Hnd Hsub))
    as [Op1' D1].
  set (t0' := d_transpose t0 (map (fun a => find a l0) (P ++ B0 ++ S))) in *.
  set (t1' := d_transpose t1 (map (fun a => find a l1) (P ++ S ++ B1))) in *.
  pose proof Op0' as (N0' & Hs0' & K0'). pose proof Op1' as (N1' & Hs1' & K1').
  assert (LP : length (preserved_of l0 l1 axes) = length P)
    by (symmetry; apply sorted_labels_length).
  assert (LS : length axes = length S) by (symmetry; apply sorted_labels_length).
  assert (LB0 : length (broadcast_of l0 l0 l1 axes) = length B0)
    by (symmetry; apply sorted_labels_length).
  assert (LB1 : length (broadcast_of l1 l0 l1 axes) = length B1)
    by (symmetry; apply sorted_labels_length).
  (* the shapes of the transposed operands *)
  assert (G0 : _get_shape t0' = Ret (map dint (map sz P) ++ map dint (map sz B0)
                                        ++ map dint (map sz S))).
  { rewrite (get_shape_known t0' K0'), Hs0', !map_app. reflexivity. }
  assert (G1 : _get_shape t1' = Ret (map dint (map sz P) ++ map dint (map sz S)
                                        ++ map dint (map sz B1))).
  { rewrite (get_shape_known t1' K1'), Hs1', !map_app. reflexivity. }
  (* the three reshapes *)
  destruct (reshape_if_necessary_sem t0'
              (map sz P ++ [size_of (map sz B0); size_of (map sz S)]) K0')
    as (r0 & R0 & Kr0 & Sr0 & V0).
  destruct (reshape_if_necessary_sem t1'
              (map sz P ++ [size_of (map sz S); size_of (map sz B1)]) K1')
    as (r1 & R1 & Kr1 & Sr1 & V1).
  destruct (matmul_sem r0 r1 (map sz P) (size_of (map sz B0)) (size_of (map sz S))
              (size_of (map sz B1)) Sr0 Sr1) as (Sm & Km & Vm).
  destruct (reshape_if_necessary_sem (d_matmul r0 r1)
              (map sz P ++ map sz B0 ++ map sz B1) Km)
    as (r & R & Kr & Sr & V).
  exists r. split; [|split].
  - unfold _einsum_reduction.
    rewrite (operand_shape sz t0 l0 Op0). cbn [bind].
    rewrite !length_map, Nat.eqb_refl. cbn [negb].
    rewrite (operand_shape sz t1 l1 Op1). cbn [bind].
    rewrite !length_map, Nat.eqb_refl. cbn [negb].
    match goal with
    | |- context [negb (forallb ?f axes)] =>
        replace (forallb f axes) with true
    end.
    2:{ symmetry. apply forallb_forall. intros a Ha. apply andb_true_iff.
        rewrite !mem_In. apply Hsub, Ha. }
    cbn [negb].
    fold (preserved_of l0 l1 axes). fold (broadcast_of l0 l0 l1 axes).
    fold (broadcast_of l1 l0 l1 axes).
    rewrite sorted0_perm, sorted1_perm by auto.
    fold P B0 B1 S. unfold _transpose_if_necessary. cbn [transpose dense_ops].
    fold t0' t1'.
    assert (Hm : forall (x y : outcome (dense * labels)),
               match axes with [] => x | _ :: _ => y end = y)
      by (intros; destruct axes; [contradiction|reflexivity]).
    rewrite Hm. rewrite LS.
    rewrite G0. cbn [bind].
    rewrite (slice_middle (map dint (map sz P)) (map dint (map sz B0))
                          (map dint (map sz S)))
      by (rewrite ?length_map; solve [auto | lia]).
    rewrite (skipn_last (map dint (map sz P)) (map dint (map sz B0))
                        (map dint (map sz S)))
      by (rewrite ?length_map; solve [auto | lia]).
    rewrite (firstn_exact (length (preserved_of l0 l1 axes)) (map dint (map sz P)))
      by (rewrite ?length_map; solve [auto | lia]).
    rewrite !total_size_known.
    change (map dint (map sz P) ++ [dint (size_of (map sz B0)); dint (size_of (map sz S))])
      with (map dint (map sz P) ++ map dint [size_of (map sz B0); size_of (map sz S)]).
    rewrite <- map_app.
    change (@_reshape_if_necessary dense dense_ops) with (@_reshape_if_necessary dense dense_ops).
    rewrite R0. cbn [bind].
    rewrite G1. cbn [bind].
    rewrite (skipn_two (map dint (map sz P)) (map dint (map sz S)) (map dint (map sz B1)))
      by (rewrite ?length_map; solve [auto | lia]).
    rewrite (firstn_exact (length (preserved_of l0 l1 axes)) (map dint (map sz P)))
      by (rewrite ?length_map; solve [auto | lia]).
    rewrite !total_size_known.
    change (map dint (map sz P) ++ [dint (size_of (map sz S)); dint (size_of (map sz B1))])
      with (map dint (map sz P) ++ map dint [size_of (map sz S); size_of (map sz B1)]).
    rewrite <- map_app. rewrite R1. cbn [bind].
    rewrite (firstn_two (map dint (map sz P)) (map dint (map sz B0)) (map dint (map sz S)))
      by (rewrite ?length_map; solve [auto | lia]).
    rewrite (app_assoc (map dint (map sz P)) (map dint (map sz S)) (map dint (map sz B1))).
    rewrite (from_index_tail (map dint (map sz P) ++ map dint (map sz S))
                             (map dint (map sz B1)))
      by (rewrite ?length_map; solve [auto | lia]).
    rewrite <- !map_app.
    cbn [matmul dense_ops]. rewrite <- !map_app in R. rewrite <- (@app_assoc label P B0 B1), R. cbn [bind].
    rewrite (firstn_two P B0 S) by solve [auto | lia].
    rewrite (app_assoc P S B1).
    rewrite (from_index_tail (P ++ S) B1) by solve [auto | lia].
    unfold reduced_labels. fold P B0 B1. rewrite <- app_assoc. reflexivity.
  - split; [apply reduced_labels_NoDup|]. split; [|exact Kr].
    rewrite Sr. unfold reduced_labels. fold P B0 B1. rewrite !map_app. reflexivity.
  - intros sigma Hv. unfold reduced_labels in *. fold P B0 B1 in Hv |- *.
    assert (HP : in_range (map sz P) (map sigma P)).
    { apply in_range_map. intros a Ha. apply Hv. rewrite in_app_iff. auto. }
    assert (HB0 : in_range (map sz B0) (map sigma B0)).
    { apply in_range_map. intros a Ha. apply Hv. rewrite !in_app_iff. auto. }
    assert (HB1 : in_range (map sz B1) (map sigma B1)).
    { apply in_range_map. intros a Ha. apply Hv. rewrite !in_app_iff. auto. }
    unfold den at 1. rewrite !map_app.
    rewrite (ungrouped_read (d_matmul r0 r1) r (map sz P) (map sz B0) (map sz B1)) by auto.
    rewrite Vm by (rewrite !length_map; reflexivity).
    rewrite <- sum_idx_labels, <- sum_to_unravel. fold S.
    apply sum_to_ext. intros x Hx.
    destruct (unravel_in_range (map sz S) x Hx) as [Hu Hrx].
    set (u := unravel (map sz S) x) in *.
    assert (Lu : length u = length S)
      by (rewrite (in_range_length _ _ Hu), length_map; reflexivity).
    assert (NS : NoDup S) by (apply sorted_labels_NoDup, Hnd).
    assert (notS : forall b, In b (P ++ B0 ++ B1) -> ~ In b S).
    { intros b Hb Hc. unfold S in Hc. rewrite sorted_labels_In in Hc.
      unfold P, B0, B1 in Hb. rewrite !in_app_iff, !sorted_labels_In in Hb.
      rewrite in_preserved, in_b0, in_b1 in Hb. tauto. }
    unfold pair_product. rewrite <- D0, <- D1. unfold den. rewrite !map_app.
    unfold label in *.
    pose proof (upds_map S sigma u NS Lu) as ES. unfold label in ES. rewrite ES.
    assert (EP : map (upds sigma S u) P = map sigma P)
      by (apply map_notin; intros b Hb; apply notS; rewrite !in_app_iff; auto).
    assert (EB0 : map (upds sigma S u) B0 = map sigma B0)
      by (apply map_notin; intros b Hb; apply notS; rewrite !in_app_iff; auto).
    assert (EB1 : map (upds sigma S u) B1 = map sigma B1)
      by (apply map_notin; intros b Hb; apply notS; rewrite !in_app_iff; auto).
    unfold label in *. rewrite EP, EB0, EB1.
    f_equal.
    + rewrite <- Hrx at 1.
      apply (grouped_read t0' r0 (map sz P) (map sz B0) (map sz S)); auto.
      rewrite Hs0', !map_app. reflexivity.
    + rewrite <- Hrx at 1.
      apply (grouped_read t1' r1 (map sz P) (map sz S) (map sz B1)); auto.
      rewrite Hs1', !map_app. reflexivity.
Qed.

(** ** Axes of size one and broadcasting *)

Lemma iterate_S {A} (n : nat) (f : A -> A) (a : A) :
  iterate (S n) f a = f (iterate n f a).
Proof.
  revert a. induction n as [|n IH]; intros a; [reflexivity|].
  change (iterate (S (S n)) f a) with (iterate (S n) f (f a)).
  rewrite IH. reflexivity.
Qed.

Lemma remove_at_app {A} (a b : list A) (x : A) :
  remove_at (length a) (a ++ x :: b) = a ++ b.
Proof. induction a as [|y a IH]; simpl; [reflexivity|]. rewrite IH. reflexivity. Qed.

Lemma known_tensor_of (shape : list nat) (val : list nat -> Z) : known (tensor_of shape val).
Proof. reflexivity. Qed.

Lemma expand_last_sem (n : nat) (t : dense) :
  known t ->
  known (iterate n (fun t => d_expand_dims t (-1)) t)
  /\ dshape (iterate n (fun t => d_expand_dims t (-1)) t) = dshape t ++ repeat 1 n
  /\ forall idx z, length idx = length (dshape t) -> length z = n ->
                   dval (iterate n (fun t => d_expand_dims t (-1)) t) (idx ++ z)
                   = dval t idx.
Proof.
  intros K. induction n as [|n (IK & IS & IV)].
  - cbn [iterate repeat]. rewrite app_nil_r. repeat split; auto.
    intros idx z _ Hz. destruct z; [|discriminate]. rewrite app_nil_r. reflexivity.
  - rewrite iterate_S. set (r := iterate n (fun t => d_expand_dims t (-1)) t) in *.
    assert (Eax : (if (-1 <? 0)%Z then Z.to_nat (Z.of_nat (length (dshape r)) + 1 + -1)
                   else Z.to_nat (-1)) = length (dshape r)).
    { change (-1 <? 0)%Z with true. cbv iota. lia. }
    unfold d_expand_dims. rewrite Eax. split; [apply known_tensor_of|]. split.
    + cbn [dshape tensor_of]. unfold insert_at.
      rewrite firstn_all, skipn_all, IS, <- app_assoc.
      rewrite <- repeat_cons. reflexivity.
    + intros idx z Hi Hz. cbn [dval tensor_of].
      destruct (exists_last (l := z)) as (z' & x & ->); [intros ->; discriminate|].
      rewrite length_app in Hz. simpl in Hz.
      replace (length (dshape r)) with (length (idx ++ z'))
        by (rewrite IS, !length_app, repeat_length; lia).
      rewrite app_assoc, remove_at_app, app_nil_r. apply IV; auto. lia.
Qed.

Lemma expand_at_sem (n p : nat) (t : dense) :
  known t -> p <= length (dshape t) ->
  known (iterate n (fun t => d_expand_dims t (Z.of_nat p)) t)
  /\ dshape (iterate n (fun t => d_expand_dims t (Z.of_nat p)) t)
     = firstn p (dshape t) ++ repeat 1 n ++ skipn p (dshape t)
  /\ forall i1 z i2, length i1 = p -> length z = n ->
                     dval (iterate n (fun t => d_expand_dims t (Z.of_nat p)) t)
                          (i1 ++ z ++ i2)
                     = dval t (i1 ++ i2).
Proof.
  intros K Hp. induction n as [|n (IK & IS & IV)].
  - cbn [iterate repeat app]. rewrite firstn_skipn. repeat split; auto.
    intros i1 z i2 _ Hz. destruct z; [|discriminate]. reflexivity.
  - rewrite iterate_S. set (r := iterate n (fun t => d_expand_dims t (Z.of_nat p)) t) in *.
    assert (Eax : (if (Z.of_nat p <? 0)%Z
                   then Z.to_nat (Z.of_nat (length (dshape r)) + 1 + Z.of_nat p)
                   else Z.to_nat (Z.of_nat p)) = p).
    { destruct (Z.ltb_spec (Z.of_nat p) 0); lia. }
    unfold d_expand_dims. rewrite Eax. split; [apply known_tensor_of|]. split.
    + cbn [dshape tensor_of]. unfold insert_at. rewrite IS.
      rewrite firstn_exact, skipn_exact by (rewrite length_firstn; lia).
      reflexivity.
    + intros i1 z i2 Hi Hz. cbn [dval tensor_of].
      destruct z as [|x z]; [discriminate|]. simpl in Hz.
      rewrite <- Hi. cbn [app]. rewrite remove_at_app. apply IV; auto.
Qed.

Lemma bcast_idx_in_range (s idx : list nat) : in_range s idx -> bcast_idx s idx = idx.
Proof.
  unfold in_range, bcast_idx. intros H. induction H as [|i n idx s Hi H IH]; [reflexivity|].
  cbn [combine map fst snd]. rewrite IH. destruct (Nat.eqb_spec n 1); f_equal; lia.
Qed.

Lemma bcast_idx_ones (z : list nat) : bcast_idx (repeat 1 (length z)) z = repeat 0 (length z).
Proof. induction z as [|x z IH]; [reflexivity|]. unfold bcast_idx in *. simpl. rewrite IH. reflexivity. Qed.

Lemma bcast_idx_app (s1 s2 i1 i2 : list nat) :
  length i1 = length s1 ->
  bcast_idx (s1 ++ s2) (i1 ++ i2) = bcast_idx s1 i1 ++ bcast_idx s2 i2.
Proof.
  revert i1. induction s1 as [|n s1 IH]; intros [|i i1] H; try discriminate; [reflexivity|].
  unfold bcast_idx in *. simpl. rewrite IH by (simpl in H; lia). reflexivity.
Qed.

Lemma bcast_shape_same (s : list nat) : bcast_shape s s = s.
Proof.
  induction s as [|n s IH]; [reflexivity|]. unfold bcast_shape in *. simpl. rewrite IH.
  destruct (n =? 1); reflexivity.
Qed.

Lemma bcast_shape_ones_r (s : list nat) : bcast_shape s (repeat 1 (length s)) = s.
Proof.
  induction s as [|n s IH]; [reflexivity|]. unfold bcast_shape in *. simpl. rewrite IH.
  destruct (Nat.eqb_spec n 1); f_equal; lia.
Qed.

Lemma bcast_shape_ones_l (s : list nat) : bcast_shape (repeat 1 (length s)) s = s.
Proof.
  induction s as [|n s IH]; [reflexivity|]. unfold bcast_shape in *. simpl. rewrite IH.
  reflexivity.
Qed.

Lemma bcast_shape_app (a1 a2 b1 b2 : list nat) :
  length a1 = length b1 ->
  bcast_shape (a1 ++ a2) (b1 ++ b2) = bcast_shape a1 b1 ++ bcast_shape a2 b2.
Proof.
  revert b1. induction a1 as [|n a1 IH]; intros [|m b1] H; try discriminate; [reflexivity|].
  unfold bcast_shape in *. simpl. rewrite IH by (simpl in H; lia). reflexivity.
Qed.

Lemma multiply_sem (a b : dense) :
  length (dshape a) = length (dshape b) ->
  known (d_multiply a b)
  /\ dshape (d_multiply a b) = bcast_shape (dshape a) (dshape b)
  /\ forall idx, dval (d_multiply a b) idx
                 = (dval a (bcast_idx (dshape a) idx) * dval b (bcast_idx (dshape b) idx))%Z.
Proof.
  intros H. unfold d_multiply, read_broadcast, pad_shape.
  rewrite <- H, Nat.max_id, Nat.sub_diag. cbn [repeat app skipn].
  split; [apply known_tensor_of|]. split; reflexivity.
Qed.

(** The broadcasting branch: without summed axes the result holds the
    products of the operands' elements. *)
Lemma reduction_multiply_sem (sz : label -> nat) (t0 t1 : dense) (l0 l1 : labels) :
  operand sz t0 l0 -> operand sz t1 l1 ->
  exists t,
    _einsum_reduction t0 l0 t1 l1 [] = Ret (t, reduced_labels l0 l1 [])
    /\ operand sz t (reduced_labels l0 l1 [])
    /\ forall sigma,
        (forall a, In a (reduced_labels l0 l1 []) -> sigma a < sz a) ->
        den t (reduced_labels l0 l1 []) sigma = pair_product t0 l0 t1 l1 sigma.
Proof.
  intros Op0 Op1.
  pose proof Op0 as (N0 & Hs0 & K0). pose proof Op1 as (N1 & Hs1 & K1).
  assert (Hnd : NoDup (@nil label)) by constructor.
  assert (Hsub : forall a : label, In a [] -> In a l0 /\ In a l1) by (intros a []).
  set (P := sorted_labels (preserved_of l0 l1 [])).
  set (B0 := sorted_labels (broadcast_of l0 l0 l1 [])).
  set (B1 := sorted_labels (broadcast_of l1 l0 l1 [])).
  pose proof (perm_sorted0 l0 l1 [] N0 Hnd Hsub) as Pm0.
  pose proof (perm_sorted1 l0 l1 [] N1 Hnd Hsub) as Pm1.
  change (sorted_labels []) with (@nil label) in Pm0, Pm1.
  fold P B0 in Pm0. fold P B1 in Pm1. rewrite app_nil_r in Pm0. cbn [app] in Pm1.
  destruct (transpose_den t0 l0 (P ++ B0) sz Op0 Pm0) as [Op0' D0].
  destruct (transpose_den t1 l1 (P ++ B1) sz Op1 Pm1) as [Op1' D1].
  set (t0' := d_transpose t0 (map (fun a => find a l0) (P ++ B0))) in *.
  set (t1' := d_transpose t1 (map (fun a => find a l1) (P ++ B1))) in *.
  pose proof Op0' as (N0' & Hs0' & K0'). pose proof Op1' as (N1' & Hs1' & K1').
  assert (LP : length (preserved_of l0 l1 []) = length P)
    by (symmetry; apply sorted_labels_length).
  assert (LB0 : length (broadcast_of l0 l0 l1 []) = length B0)
    by (symmetry; apply sorted_labels_length).
  assert (LB1 : length (broadcast_of l1 l0 l1 []) = length B1)
    by (symmetry; apply sorted_labels_length).
  destruct (expand_last_sem (length B1) t0' K0') as (Ke0 & Se0 & Ve0).
  assert (Hp : length P <= length (dshape t1')).
  { rewrite Hs1', length_map, length_app. lia. }
  destruct (expand_at_sem (length B0) (length P) t1' K1' Hp) as (Ke1 & Se1 & Ve1).
  set (e0 := iterate (length B1) (fun t => d_expand_dims t (-1)) t0') in *.
  set (e1 := iterate (length B0) (fun t => d_expand_dims t (Z.of_nat (length P))) t1') in *.
  rewrite Hs0', map_app, <- app_assoc in Se0.
  rewrite Hs1', map_app in Se1.
  rewrite firstn_exact, skipn_exact in Se1 by (rewrite length_map; reflexivity).
  assert (Hrank : length (dshape e0) = length (dshape e1)).
  { rewrite Se0, Se1, !length_app, !length_map, !repeat_length. lia. }
  destruct (multiply_sem e0 e1 Hrank) as (Km & Sm & Vm).
  assert (Shape : dshape (d_multiply e0 e1) = map sz P ++ map sz B0 ++ map sz B1).
  { rewrite Sm, Se0, Se1.
    rewrite !bcast_shape_app by (rewrite ?length_map, ?repeat_length; reflexivity).
    rewrite bcast_shape_same.
    rewrite <- (length_map sz B0) at 1. rewrite bcast_shape_ones_r.
    rewrite <- (length_map sz B1) at 1. rewrite bcast_shape_ones_l. reflexivity. }
  exists (d_multiply e0 e1). split; [|split].
  - unfold _einsum_reduction.
    rewrite (operand_shape sz t0 l0 Op0). cbn [bind].
    rewrite !length_map, Nat.eqb_refl. cbn [negb].
    rewrite (operand_shape sz t1 l1 Op1). cbn [bind].
    rewrite !length_map, Nat.eqb_refl. cbn [negb forallb].
    fold (preserved_of l0 l1 []). fold (broadcast_of l0 l0 l1 []).
    fold (broadcast_of l1 l0 l1 []).
    rewrite sorted0_perm, sorted1_perm by auto.
    change (sorted_labels []) with (@nil label).
    fold P B0 B1. rewrite app_nil_r. cbn [app].
    unfold _transpose_if_necessary. cbn [transpose expand_dims multiply dense_ops].
    fold t0' t1'. rewrite LP, LB0, LB1. fold e0 e1.
    rewrite skipn_exact by reflexivity.
    unfold reduced_labels. fold P B0 B1. rewrite <- app_assoc. reflexivity.
  - split; [apply reduced_labels_NoDup|]. split; [|exact Km].
    rewrite Shape. unfold reduced_labels. fold P B0 B1. rewrite !map_app. reflexivity.
  - intros sigma Hv. unfold reduced_labels in *. fold P B0 B1 in Hv |- *.
    assert (HP : in_range (map sz P) (map sigma P)).
    { apply in_range_map. intros a Ha. apply Hv. rewrite in_app_iff. auto. }
    assert (HB0 : in_range (map sz B0) (map sigma B0)).
    { apply in_range_map. intros a Ha. apply Hv. rewrite !in_app_iff. auto. }
    assert (HB1 : in_range (map sz B1) (map sigma B1)).
    { apply in_range_map. intros a Ha. apply Hv. rewrite !in_app_iff. auto. }
    unfold pair_product. rewrite <- D0, <- D1. unfold den. rewrite !map_app.
    unfold label in *. rewrite Vm, Se0, Se1.
    rewrite !bcast_idx_app by (rewrite ?length_map, ?repeat_length; reflexivity).
    rewrite (bcast_idx_in_range _ _ HP), (bcast_idx_in_range _ _ HB0),
      (bcast_idx_in_range _ _ HB1).
    f_equal.
    + rewrite app_assoc. apply Ve0.
      * rewrite Hs0', length_app, !length_map, length_app. reflexivity.
      * unfold bcast_idx. rewrite length_map, length_combine, repeat_length, length_map. lia.
    + apply Ve1; [apply length_map|].
      unfold bcast_idx. rewrite length_map, length_combine, repeat_length, length_map. lia.
Qed.

(** [_einsum_reduction] on two operands whose axes have the sizes [sz]: the
    result has the labels [reduced_labels], and its element at a position
    of its axes is the sum, over the positions of the summed axes, of the
    products of the operands' elements. *)
Lemma reduction_sem (sz : label -> nat) (t0 t1 : dense) (l0 l1 axes : labels) :
  operand sz t0 l0 -> operand sz t1 l1 -> NoDup axes ->
  (forall a, In a axes -> In a l0 /\ In a l1) ->
  exists t,
    _einsum_reduction t0 l0 t1 l1 axes = Ret (t, reduced_labels l0 l1 axes)
    /\ operand sz t (reduced_labels l0 l1 axes)
    /\ forall sigma,
        (forall a, In a (reduced_labels l0 l1 axes) -> sigma a < sz a) ->
        den t (reduced_labels l0 l1 axes) sigma
        = sum_labels sz (sorted_labels axes) (pair_product t0 l0 t1 l1) sigma.
Proof.
  intros Op0 Op1 Hnd Hsub. destruct axes as [|a axes'].
  - apply reduction_multiply_sem; auto.
  - apply reduction_matmul_sem; auto. discriminate.
Qed.

(** X15. [_einsum_reduction] computes what its docstring states
    ([out[a,b,c,i,l] = sum_j sum_k t0[a,b,i,j,k] * t1[a,c,j,k,l]]): for two
    dense operands whose axes carry distinct labels and have the sizes [sz],
    and distinct summed labels present in both, the call returns a tensor
    with the labels [reduced_labels] (preserved, then broadcast axes of the
    first and of the second operand), of the sizes [sz], whose element at
    any position of these axes is the sum over all positions of the summed
    axes of the product of the two operands' elements. *)
Theorem einsum_reduction_sums_products (sz : label -> nat) (t0 t1 : dense)
        (l0 l1 axes : labels) :
  operand sz t0 l0 -> operand sz t1 l1 -> NoDup axes ->
  (forall a, In a axes -> In a l0 /\ In a l1) ->
  exists t,
    _einsum_reduction t0 l0 t1 l1 axes = Ret (t, reduced_labels l0 l1 axes)
    /\ operand sz t (reduced_labels l0 l1 axes)
    /\ forall sigma,
        (forall a, In a (reduced_labels l0 l1 axes) -> sigma a < sz a) ->
        den t (reduced_labels l0 l1 axes) sigma
        = sum_labels sz (sorted_labels axes) (pair_product t0 l0 t1 l1) sigma.
Proof. apply reduction_sem. Qed.

Lemma einsum_reduction_sums_products_witness :
  let a := of_elements [2; 3] [1; 2; 3; 4; 5; 6]%Z in
  let b := of_elements [3; 2] [1; 0; 0; 1; 1; 1]%Z in
  exists t,
    _einsum_reduction a (L "ij") b (L "jk") (L "j")
    = Ret (t, reduced_labels (L "ij") (L "jk") (L "j"))
    /\ operand matrix_sizes t (reduced_labels (L "ij") (L "jk") (L "j"))
    /\ forall sigma,
        (forall c, In c (reduced_labels (L "ij") (L "jk") (L "j"))
                   -> sigma c < matrix_sizes c) ->
        den t (reduced_labels (L "ij") (L "jk") (L "j")) sigma
        = sum_labels matrix_sizes (sorted_labels (L "j"))
                     (pair_product a (L "ij") b (L "jk")) sigma.
Proof.
  intros a b.
  apply (einsum_reduction_sums_products matrix_sizes a b (L "ij") (L "jk") (L "j")).
  - split; [repeat constructor; simpl; intuition discriminate|]. split; reflexivity.
  - split; [repeat constructor; simpl; intuition discriminate|]. split; reflexivity.
  - repeat constructor; simpl; intuition discriminate.
  - intros c [<-|[]]; simpl; auto.
Defined.

(** ** Sums over the positions of labelled axes *)

Lemma sum_labels_ext (sz : label -> nat) (ls : labels) (f g : (label -> nat) -> Z) :
  forall sigma,
    (forall s, (forall a, ~ In a ls -> s a = sigma a) ->
               (forall a, In a ls -> s a < sz a) -> f s = g s) ->
    sum_labels sz ls f sigma = sum_labels sz ls g sigma.
Proof.
  induction ls as [|a ls IH]; intros sigma H; cbn [sum_labels].
  - apply H; [reflexivity|intros a []].
  - apply sum_to_ext. intros x Hx. apply IH. intros s Hs Hv. apply H.
    + intros b Hb. rewrite Hs by (intros Hc; apply Hb; right; exact Hc).
      apply upd_other. intros ->. apply Hb. left. reflexivity.
    + intros b [<-|Hb]; [|apply Hv, Hb].
      destruct (in_dec ascii_dec a ls) as [Hin|Hnin]; [apply Hv, Hin|].
      rewrite Hs by exact Hnin. rewrite upd_same. exact Hx.
Qed.

Lemma upd_ext (s1 s2 : label -> nat) (a : label) (x : nat) :
  (forall b, s1 b = s2 b) -> forall b, upd s1 a x b = upd s2 a x b.
Proof. intros H b. unfold upd. destruct (Ascii.eqb b a); auto. Qed.

Lemma sum_labels_ext_fun (sz : label -> nat) (ls : labels) (f : (label -> nat) -> Z) :
  ext_fun f -> ext_fun (sum_labels sz ls f).
Proof.
  intros Hf. induction ls as [|a ls IH]; intros s1 s2 H; cbn [sum_labels].
  - apply Hf, H.
  - apply sum_to_ext. intros x _. apply IH, upd_ext, H.
Qed.

Lemma sum_labels_app (sz : label -> nat) (l1 l2 : labels) (f : (label -> nat) -> Z) :
  forall sigma,
    sum_labels sz (l1 ++ l2) f sigma = sum_labels sz l1 (sum_labels sz l2 f) sigma.
Proof.
  induction l1 as [|a l1 IH]; intros sigma; cbn [app sum_labels]; [reflexivity|].
  apply sum_to_ext. intros x _. apply IH.
Qed.

Lemma upd_swap (sigma : label -> nat) (a b : label) (x y : nat) :
  a <> b -> forall c, upd (upd sigma a x) b y c = upd (upd sigma b y) a x c.
Proof.
  intros Hab c. unfold upd.
  destruct (Ascii.eqb_spec c b); destruct (Ascii.eqb_spec c a); congruence.
Qed.

Lemma sum_labels_swap (sz : label -> nat) (a b : label) (l : labels)
      (f : (label -> nat) -> Z) (sigma : label -> nat) :
  ext_fun f ->
  sum_labels sz (a :: b :: l) f sigma = sum_labels sz (b :: a :: l) f sigma.
Proof.
  intros Hf. destruct (ascii_dec a b) as [->|Hab]; [reflexivity|].
  cbn [sum_labels].
  rewrite (sum_to_swap (sz a) (sz b)
             (fun x y => sum_labels sz l f (upd (upd sigma a x) b y))).
  apply sum_to_ext. intros y _. apply sum_to_ext. intros x _.
  apply sum_labels_ext_fun; auto. apply upd_swap, Hab.
Qed.

(** The order of the summed axes does not matter. *)
Lemma sum_labels_perm (sz : label -> nat) (l l' : labels) (f : (label -> nat) -> Z) :
  ext_fun f -> Permutation l l' ->
  forall sigma, sum_labels sz l f sigma = sum_labels sz l' f sigma.
Proof.
  intros Hf HP. induction HP as [|a l l' HP IH|a b l|l l' l'' HP1 IH1 HP2 IH2];
    intros sigma.
  - reflexivity.
  - cbn [sum_labels]. apply sum_to_ext. intros x _. apply IH.
  - apply sum_labels_swap, Hf.
  - rewrite IH1. apply IH2.
Qed.

(** A factor that does not depend on the summed axes leaves the sum. *)
Lemma sum_labels_scale (sz : label -> nat) (ls : labels) (g h : (label -> nat) -> Z) :
  forall sigma,
    (forall s, (forall a, ~ In a ls -> s a = sigma a) -> h s = h sigma) ->
    sum_labels sz ls (fun s => (g s * h s)%Z) sigma
    = (sum_labels sz ls g sigma * h sigma)%Z.
Proof.
  induction ls as [|a ls IH]; intros sigma H; cbn [sum_labels]; [reflexivity|].
  rewrite <- sum_to_scale_r. apply sum_to_ext. intros x _.
  rewrite IH.
  - f_equal. apply H. intros b Hb. apply upd_other. intros ->. apply Hb. left. reflexivity.
  - intros s Hs.
    transitivity (h sigma).
    + apply H. intros b Hb. rewrite Hs by (intros Hc; apply Hb; right; exact Hc).
      apply upd_other. intros ->. apply Hb. left. reflexivity.
    + symmetry. apply H. intros b Hb. apply upd_other. intros ->. apply Hb. left.
      reflexivity.
Qed.

Lemma den_ext (t : dense) (l : labels) (s1 s2 : label -> nat) :
  (forall a, In a l -> s1 a = s2 a) -> den t l s1 = den t l s2.
Proof. intros H. unfold den. f_equal. apply map_ext_in. exact H. Qed.

Lemma prod_ops_ext (ops : operands) (s1 s2 : label -> nat) :
  (forall a, In a (concat (map snd ops)) -> s1 a = s2 a) -> prod_ops ops s1 = prod_ops ops s2.
Proof.
  unfold prod_ops. induction ops as [|[t l] ops IH]; intros H; [reflexivity|].
  cbn [map fold_right fst snd]. cbn [map concat snd] in H. f_equal.
  - apply den_ext. intros a Ha. apply H, in_or_app. auto.
  - apply IH. intros a Ha. apply H, in_or_app. auto.
Qed.

Lemma prod_ops_ext_fun (ops : operands) : ext_fun (prod_ops ops).
Proof. intros s1 s2 H. apply prod_ops_ext. intros a _. apply H. Qed.

Lemma prod_ops_perm (ops ops' : operands) (sigma : label -> nat) :
  Permutation ops ops' -> prod_ops ops sigma = prod_ops ops' sigma.
Proof.
  unfold prod_ops. intros HP. induction HP; cbn [map fold_right]; lia.
Qed.

Lemma pair_product_ext_fun (t0 : dense) (l0 : labels) (t1 : dense) (l1 : labels) :
  ext_fun (pair_product t0 l0 t1 l1).
Proof.
  intros s1 s2 H. unfold pair_product. f_equal; apply den_ext; intros a _; apply H.
Qed.

(** ** One step of the loop of reductions *)

Lemma in_set_diff (a : label) (s t : labels) : In a (set_diff s t) <-> In a s /\ ~ In a t.
Proof.
  unfold set_diff. rewrite filter_In, negb_true_iff, mem_false. reflexivity.
Qed.

Lemma in_set_inter (a : label) (s t : labels) : In a (set_inter s t) <-> In a s /\ In a t.
Proof. unfold set_inter. rewrite filter_In, mem_In. reflexivity. Qed.

Lemma in_summed_axes (l1 l2 out : labels) (a : label) :
  In a (summed_axes l1 l2 out) <-> In a l1 /\ In a l2 /\ ~ In a out.
Proof.
  unfold summed_axes. rewrite in_set_diff, in_set_inter, !in_set_of. tauto.
Qed.

Lemma summed_axes_NoDup (l1 l2 out : labels) : NoDup (summed_axes l1 l2 out).
Proof. unfold summed_axes, set_diff, set_inter. do 2 apply NoDup_filter. apply set_of_NoDup. Qed.

Lemma in_reduced_labels (l0 l1 axes : labels) (a : label) :
  In a (reduced_labels l0 l1 axes) <-> (In a l0 \/ In a l1) /\ ~ In a axes.
Proof.
  unfold reduced_labels. rewrite !in_app_iff, !sorted_labels_In.
  rewrite in_preserved, in_b0, in_b1.
  destruct (in_dec ascii_dec a l0); destruct (in_dec ascii_dec a l1); tauto.
Qed.

Lemma in_hidden (out : labels) (ls : list labels) (a : label) :
  In a (hidden out ls) <-> In a (concat ls) /\ ~ In a out.
Proof. unfold hidden. rewrite in_set_diff, in_set_of. reflexivity. Qed.

Lemma hidden_NoDup (out : labels) (ls : list labels) : NoDup (hidden out ls).
Proof. unfold hidden, set_diff. apply NoDup_filter, set_of_NoDup. Qed.

Lemma input_count_cons (a : label) (l : labels) (ls : list labels) :
  input_count a (l :: ls) = (if mem a l then 1 else 0) + input_count a ls.
Proof. unfold input_count. cbn [filter]. destruct (mem a l); reflexivity. Qed.

Lemma input_count_perm (a : label) (ls ls' : list labels) :
  Permutation ls ls' -> input_count a ls = input_count a ls'.
Proof. intros H. unfold input_count. apply Permutation_length, filter_perm, H. Qed.

Lemma input_count_pos (a : label) (ls : list labels) :
  In a (concat ls) <-> 1 <= input_count a ls.
Proof.
  induction ls as [|l ls IH]; [simpl; split; [tauto|unfold input_count; simpl; lia]|].
  rewrite input_count_cons. cbn [concat]. rewrite in_app_iff, IH.
  destruct (mem a l) eqn:E.
  - apply mem_In in E. split; [lia|auto].
  - apply mem_false in E. split; [intros [|]; [contradiction|lia]|intros; right; lia].
Qed.

Lemma in_concat_perm (a : label) (ls ls' : list labels) :
  Permutation ls ls' -> (In a (concat ls) <-> In a (concat ls')).
Proof. intros H. rewrite !input_count_pos, (input_count_perm a ls ls' H). reflexivity. Qed.

Lemma mem_count (a : label) (l : labels) :
  (if mem a l then 1 else 0) = 1 <-> In a l.
Proof.
  destruct (mem a l) eqn:E; [apply mem_In in E|apply mem_false in E];
    split; auto; try lia; contradiction.
Qed.

(** Reducing two live operands: the call succeeds, the invariant is kept
    and the live operands stand for the same contraction. *)
Lemma merge_sem (sz : label -> nat) (out : labels) (ops rest : operands)
      (t1 t2 : dense) (l1 l2 : labels) :
  Permutation ops ((t1, l1) :: (t2, l2) :: rest) ->
  live sz out ops ->
  exists t3,
    _einsum_reduction t1 l1 t2 l2 (summed_axes l1 l2 out)
    = Ret (t3, reduced_labels l1 l2 (summed_axes l1 l2 out))
    /\ live sz out ((t3, reduced_labels l1 l2 (summed_axes l1 l2 out)) :: rest)
    /\ forall sigma,
        (forall a, In a out -> sigma a < sz a) ->
        contraction_of sz out ((t3, reduced_labels l1 l2 (summed_axes l1 l2 out)) :: rest)
                       sigma
        = contraction_of sz out ops sigma.
Proof.
  intros HP (Hops & Hcnt & Hout).
  set (A := summed_axes l1 l2 out). set (l3 := reduced_labels l1 l2 A).
  assert (HP' : Permutation (map snd ops) (l1 :: l2 :: map snd rest))
    by (apply (Permutation_map snd) in HP; exact HP).
  assert (Hops' : Forall (fun tl => operand sz (fst tl) (snd tl))
                         ((t1, l1) :: (t2, l2) :: rest)).
  { rewrite Forall_forall in *. intros x Hx. apply Hops.
    apply Permutation_in with (1 := Permutation_sym HP), Hx. }
  inversion Hops' as [|? ? Op1 Hops'']; subst.
  inversion Hops'' as [|? ? Op2 Hrest]; subst. cbn [fst snd] in Op1, Op2.
  assert (HA : forall a, In a A -> In a l1 /\ In a l2).
  { intros a Ha. apply in_summed_axes in Ha. tauto. }
  destruct (reduction_sem sz t1 t2 l1 l2 A Op1 Op2 (summed_axes_NoDup l1 l2 out) HA)
    as (t3 & E & Op3 & V).
  fold l3 in E, Op3, V.
  (* where a label can occur *)
  assert (Hc : forall a, input_count a (map snd ops)
                         = (if mem a l1 then 1 else 0) + ((if mem a l2 then 1 else 0)
                           + input_count a (map snd rest))).
  { intros a. rewrite (input_count_perm a _ _ HP'), !input_count_cons. reflexivity. }
  assert (Hin : forall a, In a (concat (map snd ops))
                          <-> In a l1 \/ In a l2 \/ In a (concat (map snd rest))).
  { intros a. rewrite (in_concat_perm a _ _ HP'). cbn [concat]. rewrite !in_app_iff.
    reflexivity. }
  assert (Hl3 : forall a, In a l3 <-> (In a l1 \/ In a l2) /\ ~ In a A).
  { intros a. apply in_reduced_labels. }
  assert (HArest : forall a, In a A -> ~ In a (concat (map snd rest))).
  { intros a Ha Hr. pose proof Ha as Ha'. apply in_summed_axes in Ha' as (H1 & H2 & Ho).
    assert (Hi : In a (concat (map snd ops))) by (apply Hin; auto).
    pose proof (Hcnt a Hi Ho) as H. rewrite Hc in H.
    apply mem_In in H1, H2. rewrite H1, H2 in H.
    apply input_count_pos in Hr. lia. }
  exists t3. split; [exact E|]. split.
  - (* the invariant *)
    split; [constructor; auto|]. cbn [map snd]. split.
    + intros a Ha Ho. rewrite input_count_cons.
      cbn [concat] in Ha. rewrite in_app_iff in Ha.
      destruct (in_dec ascii_dec a l3) as [H3|H3].
      * pose proof H3 as H3'. apply Hl3 in H3' as [H12 HnA].
        assert (Hi : In a (concat (map snd ops))) by (apply Hin; tauto).
        pose proof (Hcnt a Hi Ho) as H. rewrite Hc in H.
        apply mem_In in H3. rewrite H3.
        assert (~ (In a l1 /\ In a l2)).
        { intros [H1 H2]. apply HnA. apply in_summed_axes. auto. }
        destruct (mem a l1) eqn:E1; destruct (mem a l2) eqn:E2;
          rewrite ?mem_In, ?mem_false in *; try tauto; lia.
      * destruct Ha as [Ha|Ha]; [contradiction|].
        assert (Hi : In a (concat (map snd ops))) by (apply Hin; tauto).
        pose proof (Hcnt a Hi Ho) as H. rewrite Hc in H.
        assert (Hn1 : ~ In a l1).
        { intros H1. destruct (in_dec ascii_dec a A) as [HAa|HAa];
            [apply (HArest a HAa Ha)|apply H3, Hl3; auto]. }
        assert (Hn2 : ~ In a l2).
        { intros H2. destruct (in_dec ascii_dec a A) as [HAa|HAa];
            [apply (HArest a HAa Ha)|apply H3, Hl3; auto]. }
        apply mem_false in Hn1, Hn2, H3. rewrite Hn1, Hn2 in H. rewrite H3. lia.
    + intros a Ho. cbn [concat]. rewrite in_app_iff.
      pose proof (Hout a Ho) as Hi. apply Hin in Hi.
      assert (~ In a A) by (intros Ha; apply in_summed_axes in Ha; tauto).
      rewrite Hl3. tauto.
  - (* the contraction *)
    intros sigma Hv. unfold contraction_of. cbn [map snd].
    set (H' := hidden out (l3 :: map snd rest)).
    set (H := hidden out (map snd ops)).
    assert (HPH : Permutation H (H' ++ sorted_labels A)).
    { apply NoDup_Permutation; [apply hidden_NoDup| |].
      - apply NoDup_app; [apply hidden_NoDup
                         |apply sorted_labels_NoDup, summed_axes_NoDup|].
        intros a Ha Hb. rewrite sorted_labels_In in Hb.
        unfold H' in Ha. rewrite in_hidden in Ha. cbn [concat] in Ha.
        rewrite in_app_iff in Ha. destruct Ha as [[Ha|Ha] _].
        + apply Hl3 in Ha. tauto.
        + apply (HArest a Hb Ha).
      - intros a. unfold H, H'. rewrite in_app_iff, sorted_labels_In, !in_hidden.
        cbn [concat]. rewrite in_app_iff, Hin, Hl3. fold A.
        pose proof (in_summed_axes l1 l2 out a) as HAa. fold A in HAa.
        destruct (in_dec ascii_dec a A); tauto. }
    rewrite (sum_labels_perm sz H (H' ++ sorted_labels A) (prod_ops ops)
                             (prod_ops_ext_fun ops) HPH).
    rewrite sum_labels_app.
    apply sum_labels_ext. intros s Hs Hsv.
    assert (Hs3 : forall a, In a l3 -> s a < sz a).
    { intros a Ha. destruct (in_dec ascii_dec a out) as [Ho|Ho].
      - rewrite Hs; [apply Hv, Ho|]. unfold H'. rewrite in_hidden. tauto.
      - apply Hsv. unfold H'. rewrite in_hidden. cbn [concat]. rewrite in_app_iff. auto. }
    unfold prod_ops at 1. cbn [map fold_right fst snd]. fold (prod_ops rest s).
    rewrite (V s Hs3).
    rewrite <- (sum_labels_scale sz (sorted_labels A) (pair_product t1 l1 t2 l2)
                                 (prod_ops rest) s).
    + apply sum_labels_ext. intros s' _ _.
      rewrite (prod_ops_perm ops _ s' HP). unfold prod_ops, pair_product.
      cbn [map fold_right fst snd]. lia.
    + intros s' Hs'. apply prod_ops_ext. intros a Ha. apply Hs'.
      rewrite sorted_labels_In. intros HAa. apply (HArest a HAa Ha).
Qed.

(** ** The loop of reductions *)

Lemma remove_at_map {A B} (f : A -> B) (l : list A) :
  forall k, remove_at k (map f l) = map f (remove_at k l).
Proof.
  induction l as [|a l IH]; intros [|k]; cbn [map remove_at]; auto.
  rewrite IH. reflexivity.
Qed.

Lemma reduce_step_sym (out : labels) (st : list dense * list labels) (j k : nat) :
  j <> k -> reduce_step out st (j, k) = reduce_step out st (k, j).
Proof.
  intros H. unfold reduce_step. destruct st as [inputs ls].
  destruct (Nat.ltb_spec k j); destruct (Nat.ltb_spec j k); try lia; reflexivity.
Qed.

Lemma reduce_step_sorted (sz : label -> nat) (out : labels) (ops : operands) (j k : nat) :
  live sz out ops -> j < k -> k < length ops ->
  exists ops',
    reduce_step out (map fst ops, map snd ops) (j, k) = Ret (map fst ops', map snd ops')
    /\ live sz out ops'
    /\ length ops' = length ops - 1
    /\ forall sigma, (forall a, In a out -> sigma a < sz a) ->
                     contraction_of sz out ops' sigma = contraction_of sz out ops sigma.
Proof.
  intros Hl Hjk Hk.
  set (d := (mkDense None [] (fun _ => 0%Z), @nil label)).
  set (x2 := nth k ops d). set (ops1 := remove_at k ops).
  set (x1 := nth j ops d). set (rest := remove_at j ops1).
  assert (L1 : length ops1 = length ops - 1) by (apply remove_at_length, Hk).
  assert (HP : Permutation ops ((fst x1, snd x1) :: (fst x2, snd x2) :: rest)).
  { rewrite <- !surjective_pairing.
    apply Permutation_trans with (x2 :: ops1); [apply remove_at_perm, Hk|].
    apply Permutation_trans with (x2 :: x1 :: rest); [constructor|apply perm_swap].
    replace x1 with (nth j ops1 d) by (apply nth_remove_at_lt, Hjk).
    apply remove_at_perm. lia. }
  destruct (merge_sem sz out ops rest (fst x1) (fst x2) (snd x1) (snd x2) HP Hl)
    as (t3 & E & Hl' & V).
  exists ((t3, reduced_labels (snd x1) (snd x2) (summed_axes (snd x1) (snd x2) out)) :: rest).
  split; [|split; [exact Hl'|split; [|exact V]]].
  - unfold reduce_step.
    replace (k <? j) with false by (symmetry; apply Nat.ltb_ge; lia).
    rewrite (pop_lt (map fst ops) k (fst d)) by (rewrite length_map; exact Hk).
    cbn [bind].
    rewrite (pop_lt (map snd ops) k (snd d)) by (rewrite length_map; exact Hk).
    cbn [bind]. rewrite !remove_at_map. fold ops1.
    rewrite (pop_lt (map fst ops1) j (fst d)) by (rewrite length_map; lia).
    cbn [bind].
    rewrite (pop_lt (map snd ops1) j (snd d)) by (rewrite length_map; lia).
    cbn [bind]. rewrite !remove_at_map. fold rest.
    rewrite !map_nth. unfold ops1. rewrite nth_remove_at_lt by exact Hjk.
    fold x1 x2. unfold summed_axes in E |- *. unfold label, labels in *.
    rewrite E. reflexivity.
  - cbn [length]. unfold rest. rewrite remove_at_length by lia. lia.
Qed.

Lemma reduce_step_sem (sz : label -> nat) (out : labels) (ops : operands) (j k : nat) :
  live sz out ops -> j <> k -> j < length ops -> k < length ops ->
  exists ops',
    reduce_step out (map fst ops, map snd ops) (j, k) = Ret (map fst ops', map snd ops')
    /\ live sz out ops'
    /\ length ops' = length ops - 1
    /\ forall sigma, (forall a, In a out -> sigma a < sz a) ->
                     contraction_of sz out ops' sigma = contraction_of sz out ops sigma.
Proof.
  intros Hl Hne Hj Hk. destruct (Nat.lt_ge_cases j k) as [H|H].
  - apply reduce_step_sorted; auto.
  - rewrite reduce_step_sym by exact Hne. apply reduce_step_sorted; auto. lia.
Qed.

(** Every well-formed sequence reduces the operands to one, which stands
    for the contraction of all of them. *)
Lemma reduce_all_sem (sz : label -> nat) (out : labels) (sq : list step) :
  forall ops,
    live sz out ops -> 1 <= length ops ->
    length sq = length ops - 1 -> valid_seq (length ops) sq ->
    exists t l,
      foldM (reduce_step out) sq (map fst ops, map snd ops) = Ret ([t], [l])
      /\ live sz out [(t, l)]
      /\ forall sigma, (forall a, In a out -> sigma a < sz a) ->
                       contraction_of sz out [(t, l)] sigma = contraction_of sz out ops sigma.
Proof.
  induction sq as [|[j k] sq IH]; intros ops Hl Hn Hlen Hv.
  - destruct ops as [|[t l] [|x ops]]; simpl in Hn, Hlen; try lia.
    exists t, l. repeat split; auto; apply Hl.
  - cbn [valid_seq] in Hv. destruct Hv as (Hne & Hj & Hk & Hv). cbn [length] in Hlen.
    destruct (reduce_step_sem sz out ops j k Hl Hne Hj Hk) as (ops' & E & Hl' & Hlen' & V).
    destruct (IH ops' Hl') as (t & l & E' & Hl'' & V'); try (rewrite Hlen'; auto; lia).
    exists t, l. cbn [foldM]. rewrite E. cbn [bind]. rewrite E'.
    split; [reflexivity|]. split; [exact Hl''|].
    intros sigma Hs. rewrite V', V by exact Hs. reflexivity.
Qed.

Lemma set_diff_nil (s t : labels) : (forall a, In a s -> In a t) -> set_diff s t = [].
Proof.
  intros H. unfold set_diff. induction s as [|a s IH]; [reflexivity|].
  cbn [filter]. assert (Ha : mem a t = true) by (apply mem_In, H; left; reflexivity).
  rewrite Ha. cbn [negb]. apply IH. intros b Hb. apply H. right. exact Hb.
Qed.

(** The last operand carries the output labels. *)
Lemma live_last (sz : label -> nat) (out : labels) (t : dense) (l : labels) :
  live sz out [(t, l)] -> forall a, In a l <-> In a out.
Proof.
  intros (_ & Hc & Ho) a. cbn [map snd concat] in Hc, Ho. split.
  - intros Ha. destruct (in_dec ascii_dec a out) as [|Hn]; auto.
    assert (Hi : In a (l ++ [])) by (rewrite app_nil_r; exact Ha).
    pose proof (Hc a Hi Hn) as H. rewrite input_count_cons in H.
    unfold input_count in H. cbn [filter length] in H. destruct (mem a l); lia.
  - intros Ha. apply Ho in Ha. rewrite app_nil_r in Ha. exact Ha.
Qed.

(** The loop and the final transposition, for every well-formed sequence. *)
Lemma pairwise_sem (sz : label -> nat) (out : labels) (sq : list step) (ops : operands) :
  live sz out ops -> NoDup out -> 1 <= length ops ->
  length sq = length ops - 1 -> valid_seq (length ops) sq ->
  exists r,
    (st <- foldM (reduce_step out) sq (map fst ops, map snd ops) ;; einsum_finish st out)
    = Ret r
    /\ operand sz r out
    /\ forall sigma, (forall a, In a out -> sigma a < sz a) ->
                     den r out sigma = contraction_of sz out ops sigma.
Proof.
  intros Hl Hnd Hn Hlen Hv.
  destruct (reduce_all_sem sz out sq ops Hl Hn Hlen Hv) as (t & l & E & Hl' & V).
  pose proof (live_last sz out t l Hl') as Hmem.
  assert (Op : operand sz t l).
  { destruct Hl' as [Hf _]. inversion Hf; subst. assumption. }
  assert (HP : Permutation l out).
  { apply NoDup_Permutation; auto. apply Op. }
  destruct (transpose_den t l out sz Op HP) as [Opr D].
  exists (d_transpose t (map (fun a => find a l) out)).
  split; [|split; [exact Opr|]].
  - rewrite E. cbn [bind]. unfold einsum_finish. cbn [index nth_error bind].
    rewrite set_diff_nil
      by (intros a Ha; rewrite in_set_of in *; apply Hmem, Ha).
    cbn [bind].
    replace (labels_eqb (sorted_labels l) (sorted_labels out)) with true.
    2:{ symmetry. unfold labels_eqb.
        rewrite (sorted_labels_ext l out) by (auto; apply Op).
        destruct (list_eq_dec ascii_dec (sorted_labels out) (sorted_labels out));
          [reflexivity|contradiction]. }
    cbn [negb]. rewrite mapM_str_index by (intros a Ha; apply Hmem, Ha).
    reflexivity.
  - intros sigma Hs. rewrite D, <- V by exact Hs.
    unfold contraction_of, hidden. cbn [map snd concat].
    rewrite set_diff_nil
      by (intros a Ha; rewrite in_set_of, app_nil_r in Ha; apply Hmem, Ha).
    cbn [sum_labels]. unfold prod_ops. cbn [map fold_right fst snd]. lia.
Qed.

(** ** The loop of reductions and the contraction of the equation *)

Lemma sum_over_labels (size : label -> nat) (F : (label -> nat) -> Z)
      (f : assignment -> Z) (summed : labels) :
  ext_fun F -> (forall e, f e = F (assigned e)) ->
  forall e, sum_over summed size f e = sum_labels size summed F (assigned e).
Proof.
  intros HF Hf. induction summed as [|a rest IH]; intros e; cbn [sum_over sum_labels].
  - apply Hf.
  - apply sum_to_ext. intros x _. rewrite IH.
    apply sum_labels_ext_fun; auto.
Qed.

Lemma fold_mul_right (l : list Z) : fold_left Z.mul l 1%Z = fold_right Z.mul 1%Z l.
Proof.
  induction l as [|z l IH]; [reflexivity|].
  cbn [fold_left fold_right]. rewrite fold_mul_acc, IH. lia.
Qed.

Lemma product_at_ops (ins : list labels) (tensors : list dense) (e : assignment) :
  product_at ins tensors e = prod_ops (combine tensors ins) (assigned e).
Proof.
  unfold product_at, prod_ops. rewrite fold_mul_right. f_equal.
  revert tensors. induction ins as [|l ins IH]; intros [|t ts]; try reflexivity.
  cbn [combine map fst snd]. rewrite IH. reflexivity.
Qed.

(** The sizes the reference reads are those of the operands. *)
Lemma label_size_spec (sz : label -> nat) (tensors : list dense) (ins : list labels) :
  Forall2 (operand sz) tensors ins ->
  forall a, In a (concat ins) -> label_size ins tensors a = sz a.
Proof.
  induction 1 as [|t l ts ins Op _ IH]; intros a Ha; [destruct Ha|].
  cbn [label_size]. cbn [concat] in Ha. destruct (mem a l) eqn:E.
  - apply mem_In in E. destruct Op as (_ & Hs & _). rewrite Hs.
    pose proof (find_nth a l E) as Hn.
    apply (map_nth_error sz) in Hn. apply nth_error_nth. exact Hn.
  - apply mem_false in E. apply in_app_or in Ha. destruct Ha; [contradiction|auto].
Qed.

Lemma operand_sizes (sz sz' : label -> nat) (t : dense) (l : labels) :
  (forall a, In a l -> sz' a = sz a) -> operand sz t l -> operand sz' t l.
Proof.
  intros H (Hn & Hs & Hk). repeat split; auto. rewrite Hs. symmetry.
  apply map_ext_in. exact H.
Qed.

Lemma operands_label_size (sz : label -> nat) (tensors : list dense) (ins : list labels) :
  Forall2 (operand sz) tensors ins ->
  Forall2 (operand (label_size ins tensors)) tensors ins.
Proof.
  intros H. pose proof (label_size_spec sz tensors ins H) as Hs.
  assert (Hin : forall l, In l ins -> forall a, In a l -> In a (concat ins)).
  { intros l Hl a Ha. apply in_concat. exists l. auto. }
  revert Hin. generalize (label_size ins tensors) Hs. generalize (concat ins).
  clear Hs.
  induction H as [|t l ts ins' Op _ IH]; intros c sz' Hs Hin; constructor.
  - apply (operand_sizes sz); auto. intros a Ha. apply Hs, (Hin l); auto. left. reflexivity.
  - apply (IH c); auto. intros l' Hl'. apply Hin. right. exact Hl'.
Qed.

Lemma Forall2_combine {A B} (P : A -> B -> Prop) (a : list A) (b : list B) :
  Forall2 P a b -> Forall (fun p => P (fst p) (snd p)) (combine a b).
Proof. induction 1; cbn [combine]; constructor; auto. Qed.

Lemma assigned_combine (out : labels) :
  forall idx, NoDup out -> length idx = length out ->
              map (assigned (combine out idx)) out = idx.
Proof.
  induction out as [|a out IH]; intros [|x idx] Hnd Hl; simpl in Hl; try lia; auto.
  inversion Hnd as [|? ? Ha Hnd']; subst. cbn [combine map]. cbn [assigned].
  rewrite Ascii.eqb_refl. f_equal.
  transitivity (map (assigned (combine out idx)) out); [|apply IH; auto; lia].
  apply map_ext_in. intros b Hb. cbn [assigned].
  destruct (Ascii.eqb_spec b a) as [->|]; [contradiction|reflexivity].
Qed.

Lemma in_range_nth (shape idx : list nat) :
  in_range shape idx -> forall i, i < length shape -> nth i idx 0 < nth i shape 0.
Proof.
  unfold in_range. induction 1 as [|x n idx shape Hx _ IH]; intros i Hi; simpl in Hi; [lia|].
  destruct i; cbn [nth]; [exact Hx|]. apply IH. lia.
Qed.

Lemma assigned_in_range (sz : label -> nat) (out : labels) (idx : list nat) :
  NoDup out -> in_range (map sz out) idx ->
  forall a, In a out -> assigned (combine out idx) a < sz a.
Proof.
  intros Hnd Hr a Ha.
  pose proof (in_range_length _ _ Hr) as Hl. rewrite length_map in Hl.
  destruct (In_nth out a a Ha) as (i & Hi & Hn).
  pose proof (in_range_nth _ _ Hr i) as H. rewrite length_map in H. specialize (H Hi).
  rewrite (nth_indep (map sz out) 0 (sz a)) in H by (rewrite length_map; exact Hi).
  unfold label, labels in *. rewrite map_nth, Hn in H.
  replace (assigned (combine out idx) a) with (nth i idx 0); [exact H|].
  pose proof (assigned_combine out idx Hnd Hl) as Em.
  assert (En : nth i (map (assigned (combine out idx)) out) 0 = assigned (combine out idx) a).
  { rewrite (nth_indep _ 0 (assigned (combine out idx) a)) by (rewrite length_map; exact Hi).
    rewrite map_nth. f_equal. exact Hn. }
  rewrite Em in En. exact En.
Qed.

Lemma elements_ext (r r' : dense) :
  dshape r = dshape r' ->
  (forall idx, in_range (dshape r) idx -> dval r idx = dval r' idx) ->
  elements r = elements r'.
Proof.
  intros Hs Hv. unfold elements. rewrite <- Hs. apply map_ext_in. intros k Hk.
  apply in_seq in Hk. apply Hv. apply unravel_in_range. lia.
Qed.

(** The result of the loop holds the elements of the contraction that the
    equation denotes. *)
Lemma pairwise_reference (out : labels) (sq : list step) (tensors : list dense)
      (ins : list labels) (sz : label -> nat) :
  Forall2 (operand sz) tensors ins -> contractible out ins -> NoDup out ->
  1 <= length tensors -> length sq = length tensors - 1 ->
  valid_seq (length tensors) sq ->
  exists r,
    (st <- foldM (reduce_step out) sq (tensors, ins) ;; einsum_finish st out) = Ret r
    /\ dshape r = dshape (einsum_reference ins out tensors)
    /\ elements r = elements (einsum_reference ins out tensors).
Proof.
  intros Hops Hc Hnd Hn Hlen Hv.
  pose proof (Forall2_length Hops) as Hl.
  apply operands_label_size in Hops.
  set (size := label_size ins tensors) in *.
  set (ops := combine tensors ins).
  assert (Ef : map fst ops = tensors) by (apply map_fst_combine, Hl).
  assert (Es : map snd ops = ins) by (apply map_snd_combine, Hl).
  assert (Lo : length ops = length tensors) by (rewrite <- Ef, length_map; reflexivity).
  assert (Hlive : live size out ops).
  { split; [apply Forall2_combine, Hops|]. rewrite Es. exact Hc. }
  destruct (pairwise_sem size out sq ops Hlive Hnd) as (r & E & Op & V);
    try (rewrite Lo; auto).
  rewrite Ef, Es in E. exists r. split; [exact E|].
  destruct Op as (_ & Hs & _).
  assert (Hshape : dshape r = dshape (einsum_reference ins out tensors))
    by (rewrite Hs; reflexivity).
  split; [exact Hshape|]. apply elements_ext; [exact Hshape|].
  intros idx Hr. rewrite Hs in Hr.
  pose proof (in_range_length _ _ Hr) as Li. rewrite length_map in Li.
  unfold einsum_reference. cbn [dval tensor_of]. fold size.
  rewrite (sum_over_labels size (prod_ops ops) (product_at ins tensors))
    by (auto using prod_ops_ext_fun, product_at_ops).
  rewrite <- (assigned_combine out idx Hnd Li) at 1.
  change (dval r (map (assigned (combine out idx)) out))
    with (den r out (assigned (combine out idx))).
  rewrite V by (apply assigned_in_range; auto).
  unfold contraction_of, hidden. rewrite Es. reflexivity.
Qed.

(** ** [einsum] on the path of pairwise reductions *)

Lemma input_count_app (a : label) (l1 l2 : list labels) :
  input_count a (l1 ++ l2) = input_count a l1 + input_count a l2.
Proof. unfold input_count. rewrite filter_app, length_app. reflexivity. Qed.

Lemma contractible_at_most_two (out : labels) (ls : list labels) :
  contractible out ls -> at_most_two ls out.
Proof.
  intros [Hc _] a i j k Ha Hij Hjk Hk (Hi & Hj & Hkk).
  assert (E : ls = firstn j ls ++ nth j ls [] :: skipn (S j) ls).
  { rewrite <- (firstn_skipn j ls) at 1. f_equal.
    rewrite <- (firstn_skipn 1 (skipn j ls)), skipn_skipn. f_equal.
    replace (1 + j) with (S j) by lia.
    destruct (skipn j ls) as [|x r] eqn:Es.
    - apply (f_equal (@length labels)) in Es. rewrite length_skipn in Es.
      simpl in Es. lia.
    - cbn [firstn]. f_equal.
      rewrite <- (Nat.add_0_r j), <- nth_skipn, Es. reflexivity. }
  assert (H1 : 1 <= input_count a (firstn j ls)).
  { apply input_count_pos, in_concat. exists (nth i ls []). split; [|exact Hi].
    replace (nth i ls []) with (nth i (firstn j ls) []).
    - apply nth_In. rewrite length_firstn. lia.
    - rewrite nth_firstn. replace (i <? j) with true by (symmetry; apply Nat.ltb_lt; lia).
      reflexivity. }
  assert (H3 : 1 <= input_count a (skipn (S j) ls)).
  { apply input_count_pos, in_concat. exists (nth k ls []). split; [|exact Hkk].
    replace (nth k ls []) with (nth (k - S j) (skipn (S j) ls) []).
    - apply nth_In. rewrite length_skipn. lia.
    - rewrite nth_skipn. f_equal. lia. }
  assert (Hin : In a (concat ls)).
  { apply in_concat. exists (nth j ls []). split; [apply nth_In; lia|exact Hj]. }
  pose proof (Hc a Hin Ha) as H. rewrite E, input_count_app, input_count_cons in H.
  apply mem_In in Hj. rewrite Hj in H. lia.
Qed.

Lemma any_unknown_known (inputs : list dense) :
  Forall known inputs -> any_unknown_dim (map get_shape inputs) = Ret false.
Proof.
  induction 1 as [|t ts Hk _ IH]; [reflexivity|].
  cbn [map any_unknown_dim get_shape dense_ops]. rewrite Hk.
  cbn [static_of as_list bind].
  replace (existsb is_unknown (map (fun d => Some (Z.of_nat d)) (dshape t))) with false.
  - exact IH.
  - symmetry. induction (dshape t) as [|n s IHs]; [reflexivity|exact IHs].
Qed.

Lemma operands_known (sz : label -> nat) (inputs : list dense) (ins : list labels) :
  Forall2 (operand sz) inputs ins -> Forall known inputs.
Proof. induction 1 as [|t l ts ins Op _ IH]; constructor; auto. apply Op. Qed.

Lemma operands_NoDup (sz : label -> nat) (inputs : list dense) (ins : list labels) :
  Forall2 (operand sz) inputs ins -> Forall (fun l => NoDup l) ins.
Proof. induction 1 as [|t l ts ins Op _ IH]; constructor; auto. apply Op. Qed.

Section PairwisePath.
Context {SO : SetOrder}.

(** The loop of [einsum] with the sequence of any strategy. *)
Lemma einsum_pairwise_reference (inputs : list dense) (ins : list labels) (out : labels)
      (optimize : strategy) (sz : label -> nat) :
  Forall2 (operand sz) inputs ins -> contractible out ins -> NoDup out ->
  1 <= length inputs -> optimize <> OptOther ->
  exists r,
    (st <- einsum_pairwise inputs ins out optimize ;; einsum_finish st out) = Ret r
    /\ dshape r = dshape (einsum_reference ins out inputs)
    /\ elements r = elements (einsum_reference ins out inputs).
Proof.
  intros Hops Hc Hnd Hn Hopt.
  pose proof (Forall2_length Hops) as Hl.
  pose proof (operands_known sz inputs ins Hops) as Hk.
  unfold einsum_pairwise.
  rewrite (mapM_ret (fun t => as_list (get_shape t))
                    (fun t => map (fun d => Some (Z.of_nat d)) (dshape t)) inputs).
  2:{ intros t Ht. rewrite Forall_forall in Hk. cbn [get_shape dense_ops].
      rewrite (Hk t Ht). reflexivity. }
  cbn [bind].
  match goal with
  | |- context [einsum_optimize ?sh ins out optimize None] =>
      destruct (einsum_optimize_valid sh ins out optimize None) as (sq & Esq & Lsq & Vsq)
  end; try (rewrite !length_map; auto; lia); auto.
  { apply contractible_at_most_two, Hc. }
  rewrite Esq. cbn [bind]. rewrite !length_map in Lsq, Vsq.
  apply (pairwise_reference out sq inputs ins sz); auto.
Qed.

(** [einsum] itself, when the call is not handed to the XLA kernel. *)
Lemma einsum_reference_path (tpu : bool) (equation : labels) (inputs : list dense)
      (optimize : strategy) (ins : list labels) (out : labels) (sz : label -> nat) :
  _einsum_parse_and_resolve_equation equation (map get_shape inputs) = Ret (ins, out) ->
  Forall2 (operand sz) inputs ins -> contractible out ins -> NoDup out ->
  tpu && (length inputs =? 2) = false ->
  optimize <> OptOther ->
  exists r,
    einsum tpu equation inputs optimize = ([], Ret r)
    /\ dshape r = dshape (einsum_reference ins out inputs)
    /\ elements r = elements (einsum_reference ins out inputs).
Proof.
  intros Hp Hops Hc Hnd Htpu Hopt.
  pose proof (parse_nonempty _ _ _ _ Hp) as Hn. rewrite length_map in Hn.
  destruct (einsum_pairwise_reference inputs ins out optimize sz Hops Hc Hnd Hn Hopt)
    as (r & E & Hs & He).
  exists r. split; [|auto].
  unfold einsum. rewrite Hp.
  rewrite (any_unknown_known inputs (operands_known sz inputs ins Hops)).
  rewrite (dup_check_NoDup _ _ _ ins (operands_NoDup sz inputs ins Hops)).
  pose proof (fallback_label_spec ins out) as Hf.
  destruct (fallback_label _ ins out) as [a|].
  - exfalso. destruct Hf as [H3 Ho].
    assert (Hin : In a (concat ins)) by (apply input_count_pos; lia).
    pose proof (proj1 Hc a Hin Ho). lia.
  - rewrite Htpu, E. reflexivity.
Qed.
End PairwisePath.

Lemma chain_contractible : contractible (L "il") chain_labels.
Proof.
  split.
  - intros a Ha Ho. simpl in Ha.
    repeat (destruct Ha as [<-|Ha]; [try reflexivity; exfalso; apply Ho; simpl; tauto|]).
    destruct Ha.
  - intros a Ha. simpl in Ha. simpl.
    repeat (destruct Ha as [<-|Ha]; [tauto|]). destruct Ha.
Qed.

Lemma chain_operands_sized : Forall2 (operand matrix_sizes) chain_operands chain_labels.
Proof.
  repeat constructor; simpl; intuition discriminate.
Qed.

Lemma chain_parsed :
  _einsum_parse_and_resolve_equation (L "ij,jk,kl->il") (map get_shape chain_operands)
  = Ret (chain_labels, L "il").
Proof. vm_compute. reflexivity. Qed.

Lemma chain_output_NoDup : NoDup (L "il").
Proof. repeat constructor; simpl; intuition discriminate. Qed.

Section Contraction.
Context {SO : SetOrder}.

(** X16. [einsum] computes the contraction its equation denotes, whatever
    the strategy.  Let the equation parse to the labels [ins] and [out]; let
    the operands be dense tensors of statically known shapes whose axes
    carry distinct labels and have the sizes [sz]; let the output labels be
    distinct, every output label occur in some operand, and every other
    label occur in exactly two operands; let the call not go to the XLA
    kernel.  Then for each of the strategies False, True, 'dp' and 'greedy'
    the call returns a tensor without a warning, with the shape and the
    elements of the reference contraction: the element at a position of the
    output axes is the sum, over all positions of the other axes, of the
    product of the operands' elements. *)
Theorem einsum_computes_contraction (tpu : bool) (equation : labels)
        (inputs : list dense) (optimize : strategy) (ins : list labels) (out : labels)
        (sz : label -> nat) :
  _einsum_parse_and_resolve_equation equation (map get_shape inputs) = Ret (ins, out) ->
  Forall2 (operand sz) inputs ins -> contractible out ins -> NoDup out ->
  tpu && (length inputs =? 2) = false ->
  optimize <> OptOther ->
  exists r,
    einsum tpu equation inputs optimize = ([], Ret r)
    /\ dshape r = dshape (einsum_reference ins out inputs)
    /\ elements r = elements (einsum_reference ins out inputs).
Proof. apply einsum_reference_path. Qed.

(** X17. The strategy only affects the cost, never the value: under the
    conditions of X16 any two of the strategies False, True, 'dp' and
    'greedy' make [einsum] return tensors of the same shape with the same
    elements. *)
Theorem einsum_value_independent_of_strategy (tpu : bool) (equation : labels)
        (inputs : list dense) (o1 o2 : strategy) (ins : list labels) (out : labels)
        (sz : label -> nat) :
  _einsum_parse_and_resolve_equation equation (map get_shape inputs) = Ret (ins, out) ->
  Forall2 (operand sz) inputs ins -> contractible out ins -> NoDup out ->
  tpu && (length inputs =? 2) = false ->
  o1 <> OptOther -> o2 <> OptOther ->
  exists shape elems,
    result_elements (snd (einsum tpu equation inputs o1)) = Ret (shape, elems)
    /\ result_elements (snd (einsum tpu equation inputs o2)) = Ret (shape, elems).
Proof.
  intros Hp Hops Hc Hnd Htpu H1 H2.
  destruct (einsum_reference_path tpu equation inputs o1 ins out sz Hp Hops Hc Hnd Htpu H1)
    as (r1 & E1 & S1 & V1).
  destruct (einsum_reference_path tpu equation inputs o2 ins out sz Hp Hops Hc Hnd Htpu H2)
    as (r2 & E2 & S2 & V2).
  exists (dshape r1), (elements r1). rewrite E1, E2. cbn [snd result_elements bind].
  split; [reflexivity|]. rewrite S1, V1, S2, V2. reflexivity.
Qed.
End Contraction.

Lemma einsum_computes_contraction_witness :
  exists r,
    einsum (SO := list_order) false (L "ij,jk,kl->il") chain_operands OptGreedy = ([], Ret r)
    /\ dshape r = dshape (einsum_reference chain_labels (L "il") chain_operands)
    /\ elements r = elements (einsum_reference chain_labels (L "il") chain_operands).
Proof.
  apply (einsum_computes_contraction (SO := list_order) false (L "ij,jk,kl->il")
           chain_operands OptGreedy chain_labels (L "il") matrix_sizes).
  - exact chain_parsed.
  - exact chain_operands_sized.
  - exact chain_contractible.
  - exact chain_output_NoDup.
  - reflexivity.
  - discriminate.
Defined.

Lemma einsum_value_independent_of_strategy_witness :
  exists shape elems,
    result_elements (snd (einsum (SO := list_order) false (L "ij,jk,kl->il")
                                 chain_operands OptDP)) = Ret (shape, elems)
    /\ result_elements (snd (einsum (SO := list_order) false (L "ij,jk,kl->il")
                                    chain_operands OptFalse)) = Ret (shape, elems).
Proof.
  apply (einsum_value_independent_of_strategy (SO := list_order) false (L "ij,jk,kl->il")
           chain_operands OptDP OptFalse chain_labels (L "il") matrix_sizes).
  - exact chain_parsed.
  - exact chain_operands_sized.
  - exact chain_contractible.
  - exact chain_output_NoDup.
  - reflexivity.
  - discriminate.
  - discriminate.
Defined.

(** ** The primitives of the fallback on dense tensors *)




Lemma in_range_mask (sz : label -> nat) (sigma : label -> nat) (l canon : labels) :
  (forall a, In a canon -> sigma a < sz a) ->
  in_range (mask_shape sz canon l) (map (restrict sigma l) canon).
Proof.
  intros H. unfold mask_shape, in_range. induction canon as [|a canon IH]; constructor.
  - unfold restrict. destruct (mem a l); [apply H; left; reflexivity|lia].
  - apply IH. intros b Hb. apply H. right. exact Hb.
Qed.










(** ** The product and the sum of the fallback *)














(** ** The run of the fallback *)











Lemma canonical_labels_ext (canon l l' : labels) :
  (forall a, mem a l = mem a l') -> canonical_labels canon l = canonical_labels canon l'.
Proof. intros H. unfold canonical_labels. apply filter_ext. exact H. Qed.

Lemma mask_shape_ext (sz : label -> nat) (canon l l' : labels) :
  (forall a, mem a l = mem a l') -> mask_shape sz canon l = mask_shape sz canon l'.
Proof. intros H. unfold mask_shape. apply map_ext. intros a. rewrite H. reflexivity. Qed.







Section FallbackRun.
Variable sz : label -> nat.
Variables (inputs : list dense) (ins : list labels) (out : labels).
Hypothesis Hops : Forall2 (operand sz) inputs ins.
Hypothesis Hpos : forall a, In a (concat ins) -> 1 <= sz a.
Hypothesis Hnd : NoDup out.
Hypothesis Hout : forall a, In a out -> In a (concat ins).



End FallbackRun.


Section AnyPath.
Context {SO : SetOrder}.

End AnyPath.










